(** * IdealQuery: plan algebra, catalog, cost model, optimizers, simulator

    A shallow embedding of the Go back end of IdealQuery
    (packages [logical_plan], [catalog], [cost_model], [optimizer],
    [enumerator] and [simulator]) together with the properties of its
    specification that concern them.

    Conventions.
    - [int64] is [Z] with the two's-complement wrap-around written out
      ([wrap64]); [float64] is Rocq's primitive binary64 [float].
    - A Go function that can panic at run time (index out of range)
      returns an [outcome]; the functions that also draw node ids from the
      package-level counter [idCounter] live in the state monad [M].
    - A plan is a tree: a child slot always holds a node, the nil pointer
      only appears at the entry points, where it is an [option]. *)

From Stdlib Require Import ZArith List String Ascii Bool Lia Floats.
From Stdlib Require Import DecimalString DecimalPos DecimalZ Permutation.
From stdpp Require Import base option list gmap strings.

Set Warnings "-register-all,-inexact-float".

Local Open Scope string_scope.
Local Open Scope Z_scope.

(* ===================================================================== *)
(** ** Go primitives *)
(* ===================================================================== *)

Module Go.

(** *** int64 *)

Definition min_int64 : Z := - 2 ^ 63.
Definition max_int64 : Z := 2 ^ 63 - 1.

Definition in_int64 (z : Z) : Prop := min_int64 <= z <= max_int64.

(** Two's-complement reduction of an integer result to 64 bits. *)
Definition wrap64 (z : Z) : Z := (z + 2 ^ 63) mod 2 ^ 64 - 2 ^ 63.

Definition add64 (a b : Z) : Z := wrap64 (a + b).
Definition mul64 (a b : Z) : Z := wrap64 (a * b).

(** Signed integer division truncates toward zero; a zero divisor
    panics at the call site, so it is not handled here. *)
Definition div64 (a b : Z) : Z := wrap64 (Z.quot a b).

(** *** float64 *)

(** [float64(n)]: the integer rounded to the nearest binary64. *)
Definition float64 (n : Z) : float :=
  SF2Prim (binary_normalize prec emax n 0 false).

(** [int64(f)]: the fraction is discarded.  The Go specification leaves
    the result open when the value does not fit; amd64 produces the
    smallest int64, which is what is written here. *)
Definition int64 (f : float) : Z :=
  match Prim2SF f with
  | S754_zero _ => 0
  | S754_finite s m e =>
      let mag := if (0 <=? e)%Z then Z.pos m * 2 ^ e
                 else Z.pos m / 2 ^ (- e) in
      let v := if s then - mag else mag in
      if (min_int64 <=? v) && (v <=? max_int64) then v else min_int64
  | S754_infinity _ | S754_nan => min_int64
  end.

(** *** fmt.Sprintf("%d", n) *)

Definition itoa (n : Z) : string := NilZero.string_of_int (Z.to_int n).

(** *** Outcomes: a normal return or a run-time panic *)

Inductive outcome (A : Type) : Type :=
| Ret (a : A)
| Panic.
Arguments Ret {A} a.
Arguments Panic {A}.

Definition obind {A B} (x : outcome A) (f : A -> outcome B) : outcome B :=
  match x with
  | Ret a => f a
  | Panic => Panic
  end.

Definition is_Ret {A} (x : outcome A) : Prop := exists a, x = Ret a.

End Go.
Export Go.

Declare Scope go_scope.
Delimit Scope go_scope with go.
Notation "x <~ c ;; k" := (obind c (fun x => k))
  (at level 100, c at next level, right associativity) : go_scope.

(** Go values stored behind [interface{}]. *)
Inductive GoValue : Type :=
| VNil
| VBool (b : bool)
| VInt (n : Z)
| VFloat (f : float)
| VString (s : string).

(** [v == "lit"] for an interface value and a string constant. *)
Definition value_is (v : GoValue) (lit : string) : bool :=
  match v with
  | VString s => String.eqb s lit
  | _ => false
  end.


(* ===================================================================== *)
(** ** Package logical_plan *)
(* ===================================================================== *)

Module logical_plan.

Definition NodeType := string.

Definition NodeTypeScan : NodeType := "scan".
Definition NodeTypeFilter : NodeType := "filter".
Definition NodeTypeProject : NodeType := "project".
Definition NodeTypeJoin : NodeType := "join".
Definition NodeTypeAggregate : NodeType := "aggregate".
Definition NodeTypeSort : NodeType := "sort".
Definition NodeTypeLimit : NodeType := "limit".
Definition NodeTypeUnion : NodeType := "union".
Definition NodeTypeSubquery : NodeType := "subquery".

Definition JoinType := string.

Definition JoinTypeInner : JoinType := "inner".
Definition JoinTypeLeft : JoinType := "left".
Definition JoinTypeRight : JoinType := "right".
Definition JoinTypeFull : JoinType := "full".
Definition JoinTypeCross : JoinType := "cross".

Definition AggregateType := string.

(** [Left] and [Right] are pointers (possibly nil), [Args] a slice. *)
Inductive Expression : Type :=
  mkExpression (e_Type : string) (e_Value : GoValue)
               (e_Left e_Right : option Expression)
               (e_Args : list Expression) (e_DataType : string).

Definition e_Type (e : Expression) : string :=
  let 'mkExpression t _ _ _ _ _ := e in t.
Definition e_Value (e : Expression) : GoValue :=
  let 'mkExpression _ v _ _ _ _ := e in v.
Definition e_Left (e : Expression) : option Expression :=
  let 'mkExpression _ _ l _ _ _ := e in l.
Definition e_Right (e : Expression) : option Expression :=
  let 'mkExpression _ _ _ r _ _ := e in r.
Definition e_Args (e : Expression) : list Expression :=
  let 'mkExpression _ _ _ _ a _ := e in a.
Definition e_DataType (e : Expression) : string :=
  let 'mkExpression _ _ _ _ _ d := e in d.

Record Column : Type := mkColumn {
  c_Table : string;
  c_Name  : string;
  c_Alias : string;
}.

Record Predicate : Type := mkPredicate {
  p_Expression : option Expression;
}.

Record JoinCondition : Type := mkJoinCondition {
  jc_Left     : option Expression;
  jc_Right    : option Expression;
  jc_Operator : string;
}.

Record AggregateFunction : Type := mkAggregateFunction {
  af_Type   : AggregateType;
  af_Column : option Expression;
  af_Alias  : string;
}.

Record OrderBy : Type := mkOrderBy {
  ob_Expression : option Expression;
  ob_Ascending  : bool;
}.

(** The operator node.  Field [lp_X] is the Go field [X].  Every child
    slot of a tree of this type holds a node: a null slot, which a Go
    slice of pointers can hold, is not among these trees, and what the
    code does on one (it panics in [Clone], in [Accept] and in the
    operator rules of the simulator that read the first child) is
    outside what is stated on them; the trees of [plan_visitor] have
    null slots. *)
Inductive LogicalPlan : Type :=
  mkLogicalPlan
    (lp_ID : string)
    (lp_NodeType : NodeType)
    (lp_Children : list LogicalPlan)
    (lp_TableName : string)
    (lp_Alias : string)
    (lp_Predicate : option Predicate)
    (lp_Projections : list Column)
    (lp_JoinType : JoinType)
    (lp_JoinCondition : option JoinCondition)
    (lp_GroupBy : list Column)
    (lp_Aggregates : list AggregateFunction)
    (lp_OrderBy : list OrderBy)
    (lp_LimitCount : option Z)
    (lp_OffsetCount : option Z)
    (lp_EstimatedRows : option Z)
    (lp_EstimatedCost : option float)
    (lp_Metadata : gmap string GoValue).

Definition lp_ID (p : LogicalPlan) : string :=
  let 'mkLogicalPlan x _ _ _ _ _ _ _ _ _ _ _ _ _ _ _ _ := p in x.
Definition lp_NodeType (p : LogicalPlan) : NodeType :=
  let 'mkLogicalPlan _ x _ _ _ _ _ _ _ _ _ _ _ _ _ _ _ := p in x.
Definition lp_Children (p : LogicalPlan) : list LogicalPlan :=
  let 'mkLogicalPlan _ _ x _ _ _ _ _ _ _ _ _ _ _ _ _ _ := p in x.
Definition lp_TableName (p : LogicalPlan) : string :=
  let 'mkLogicalPlan _ _ _ x _ _ _ _ _ _ _ _ _ _ _ _ _ := p in x.
Definition lp_Alias (p : LogicalPlan) : string :=
  let 'mkLogicalPlan _ _ _ _ x _ _ _ _ _ _ _ _ _ _ _ _ := p in x.
Definition lp_Predicate (p : LogicalPlan) : option Predicate :=
  let 'mkLogicalPlan _ _ _ _ _ x _ _ _ _ _ _ _ _ _ _ _ := p in x.
Definition lp_Projections (p : LogicalPlan) : list Column :=
  let 'mkLogicalPlan _ _ _ _ _ _ x _ _ _ _ _ _ _ _ _ _ := p in x.
Definition lp_JoinType (p : LogicalPlan) : JoinType :=
  let 'mkLogicalPlan _ _ _ _ _ _ _ x _ _ _ _ _ _ _ _ _ := p in x.
Definition lp_JoinCondition (p : LogicalPlan) : option JoinCondition :=
  let 'mkLogicalPlan _ _ _ _ _ _ _ _ x _ _ _ _ _ _ _ _ := p in x.
Definition lp_GroupBy (p : LogicalPlan) : list Column :=
  let 'mkLogicalPlan _ _ _ _ _ _ _ _ _ x _ _ _ _ _ _ _ := p in x.
Definition lp_Aggregates (p : LogicalPlan) : list AggregateFunction :=
  let 'mkLogicalPlan _ _ _ _ _ _ _ _ _ _ x _ _ _ _ _ _ := p in x.
Definition lp_OrderBy (p : LogicalPlan) : list OrderBy :=
  let 'mkLogicalPlan _ _ _ _ _ _ _ _ _ _ _ x _ _ _ _ _ := p in x.
Definition lp_LimitCount (p : LogicalPlan) : option Z :=
  let 'mkLogicalPlan _ _ _ _ _ _ _ _ _ _ _ _ x _ _ _ _ := p in x.
Definition lp_OffsetCount (p : LogicalPlan) : option Z :=
  let 'mkLogicalPlan _ _ _ _ _ _ _ _ _ _ _ _ _ x _ _ _ := p in x.
Definition lp_EstimatedRows (p : LogicalPlan) : option Z :=
  let 'mkLogicalPlan _ _ _ _ _ _ _ _ _ _ _ _ _ _ x _ _ := p in x.
Definition lp_EstimatedCost (p : LogicalPlan) : option float :=
  let 'mkLogicalPlan _ _ _ _ _ _ _ _ _ _ _ _ _ _ _ x _ := p in x.
Definition lp_Metadata (p : LogicalPlan) : gmap string GoValue :=
  let 'mkLogicalPlan _ _ _ _ _ _ _ _ _ _ _ _ _ _ _ _ x := p in x.

(** Field assignments [plan.X = v]. *)
Definition set_Children (cs : list LogicalPlan) (p : LogicalPlan) :=
  let 'mkLogicalPlan a b _ d e f g h i j k l m n o q r := p in
  mkLogicalPlan a b cs d e f g h i j k l m n o q r.
Definition set_Metadata (md : gmap string GoValue) (p : LogicalPlan) :=
  let 'mkLogicalPlan a b c d e f g h i j k l m n o q _ := p in
  mkLogicalPlan a b c d e f g h i j k l m n o q md.
Definition set_Estimates (rows : Z) (cost : float) (p : LogicalPlan) :=
  let 'mkLogicalPlan a b c d e f g h i j k l m n _ _ r := p in
  mkLogicalPlan a b c d e f g h i j k l m n (Some rows) (Some cost) r.

(** The zero value of the struct, as a composite literal leaves the
    fields it does not name. *)
Definition zeroPlan : LogicalPlan :=
  mkLogicalPlan "" "" [] "" "" None [] "" None [] [] [] None None None None ∅.

(** *** The id generator: the package variable [idCounter] as state *)

(** A computation that reads and advances [idCounter].  It ends with a
    value and the new counter, with a run-time panic, or, for the one
    function whose recursion is not structural, with its recursion
    budget used up. *)
Inductive result (A : Type) : Type :=
| Done (a : A) (idCounter : Z)
| Crash
| OutOfFuel.
Arguments Done {A} a idCounter.
Arguments Crash {A}.
Arguments OutOfFuel {A}.

Definition M (A : Type) : Type := Z -> result A.

Definition ret {A} (a : A) : M A := fun st => Done a st.

Definition bind {A B} (m : M A) (k : A -> M B) : M B :=
  fun st => match m st with
            | Done a st' => k a st'
            | Crash => Crash
            | OutOfFuel => OutOfFuel
            end.

Definition lift {A} (x : outcome A) : M A :=
  fun st => match x with
            | Ret a => Done a st
            | Panic => Crash
            end.

(** [for i, c := range l { out[i] = f(c) }], left to right. *)
Definition mapM {A B} (f : A -> M B) : list A -> M (list B) :=
  fix go (l : list A) : M (list B) :=
    match l with
    | [] => ret []
    | a :: l' => bind (f a) (fun b => bind (go l') (fun bs => ret (b :: bs)))
    end.

Definition generateID : M string :=
  fun idCounter =>
    let idCounter' := add64 idCounter 1 in
    Done ("node_" ++ itoa idCounter') idCounter'.

(** The ids the generator hands out while its counter goes from [st]
    to [st']. *)
Definition issued (st st' : Z) (id : string) : Prop :=
  exists k, st < k <= st' /\ id = "node_" ++ itoa k.

(** *** Constructors *)

Definition NewScanNode (tableName alias : string) : M LogicalPlan :=
  bind generateID (fun id =>
  ret (mkLogicalPlan id NodeTypeScan [] tableName alias None []
         "" None [] [] [] None None None None ∅)).

Definition NewFilterNode (child : LogicalPlan) (predicate : option Predicate)
  : M LogicalPlan :=
  bind generateID (fun id =>
  ret (mkLogicalPlan id NodeTypeFilter [child] "" "" predicate []
         "" None [] [] [] None None None None ∅)).

Definition NewProjectNode (child : LogicalPlan) (projections : list Column)
  : M LogicalPlan :=
  bind generateID (fun id =>
  ret (mkLogicalPlan id NodeTypeProject [child] "" "" None
         projections "" None [] [] [] None None None None ∅)).

Definition NewJoinNode (left right : LogicalPlan) (joinType : JoinType)
    (condition : option JoinCondition) : M LogicalPlan :=
  bind generateID (fun id =>
  ret (mkLogicalPlan id NodeTypeJoin [left; right] "" "" None []
         joinType condition [] [] [] None None None None ∅)).

Definition NewLimitNode (child : LogicalPlan) (limit offset : option Z)
  : M LogicalPlan :=
  bind generateID (fun id =>
  ret (mkLogicalPlan id NodeTypeLimit [child] "" "" None []
         "" None [] [] [] limit offset None None ∅)).

(** *** Deep copy *)

Fixpoint cloneExpression (e : Expression) : Expression :=
  mkExpression (e_Type e) (e_Value e)
    (option_map cloneExpression (e_Left e))
    (option_map cloneExpression (e_Right e))
    (List.map cloneExpression (e_Args e))
    (e_DataType e).

Definition clonePredicate (p : option Predicate) : option Predicate :=
  match p with
  | None => None
  | Some p => Some (mkPredicate (option_map cloneExpression (p_Expression p)))
  end.

Definition cloneJoinCondition (jc : option JoinCondition)
  : option JoinCondition :=
  match jc with
  | None => None
  | Some jc =>
      Some (mkJoinCondition (option_map cloneExpression (jc_Left jc))
                            (option_map cloneExpression (jc_Right jc))
                            (jc_Operator jc))
  end.

(** The struct literal of [Clone]: every field of [lp] but the id and
    the children, which are filled in once the children are cloned.  The
    metadata map is copied key by key, its values shared. *)
Definition cloneNode (lp : LogicalPlan) (id : string)
    (children : list LogicalPlan) : LogicalPlan :=
  mkLogicalPlan id (lp_NodeType lp) children
    (lp_TableName lp) (lp_Alias lp)
    (clonePredicate (lp_Predicate lp))
    (lp_Projections lp)
    (lp_JoinType lp)
    (cloneJoinCondition (lp_JoinCondition lp))
    (lp_GroupBy lp) (lp_Aggregates lp) (lp_OrderBy lp)
    (lp_LimitCount lp) (lp_OffsetCount lp)
    (lp_EstimatedRows lp) (lp_EstimatedCost lp)
    (lp_Metadata lp).

(** The node takes its id first; the children are cloned afterwards, in
    order.  The call [child.Clone()] has no nil test: on a null child
    slot Go panics, so what is stated of [Clone] is stated of the calls
    that return. *)
Fixpoint Clone (lp : LogicalPlan) : M LogicalPlan :=
  bind generateID (fun id =>
  bind (mapM Clone (lp_Children lp)) (fun children =>
  ret (cloneNode lp id children))).

(** *** Observations on a tree *)

(** Every node id of the tree, root first. *)
Fixpoint plan_ids (p : LogicalPlan) : list string :=
  lp_ID p :: flat_map plan_ids (lp_Children p).

(** The table names of the Scan nodes, left to right. *)
Fixpoint scan_tables (p : LogicalPlan) : list string :=
  (if String.eqb (lp_NodeType p) NodeTypeScan then [lp_TableName p] else [])
    ++ flat_map scan_tables (lp_Children p).

Fixpoint plan_size (p : LogicalPlan) : nat :=
  S (list_sum (List.map plan_size (lp_Children p))).

(** What [Clone] does to the counter and which ids it hands out, as
    long as the counter does not wrap. *)
Definition clone_ids_spec (p : LogicalPlan) : Prop :=
  forall st p' st',
    Clone p st = Done p' st' ->
    in_int64 st -> st + Z.of_nat (plan_size p) <= max_int64 ->
    st' = st + Z.of_nat (plan_size p) /\ Forall (issued st st') (plan_ids p').

(** Invariant (I1): the arity matches the variant. *)
Definition arity_ok (p : LogicalPlan) : bool :=
  let nt := lp_NodeType p in
  let n := length (lp_Children p) in
  if String.eqb nt NodeTypeScan then Nat.eqb n 0
  else if String.eqb nt NodeTypeFilter then Nat.eqb n 1
  else if String.eqb nt NodeTypeProject then Nat.eqb n 1
  else if String.eqb nt NodeTypeAggregate then Nat.eqb n 1
  else if String.eqb nt NodeTypeSort then Nat.eqb n 1
  else if String.eqb nt NodeTypeLimit then Nat.eqb n 1
  else if String.eqb nt NodeTypeJoin then Nat.eqb n 2
  else true.

Fixpoint I1 (p : LogicalPlan) : bool :=
  arity_ok p && forallb I1 (lp_Children p).

(** Every Limit node that carries a count has a child. *)
Fixpoint limit_has_child (p : LogicalPlan) : bool :=
  (if String.eqb (lp_NodeType p) NodeTypeLimit then
     match lp_LimitCount p, lp_Children p with
     | Some _, [] => false
     | _, _ => true
     end
   else true)
  && forallb limit_has_child (lp_Children p).

(** The property every pass keeps: a well-formed plan stays well formed
    and keeps its Scan tables, in order. *)
Definition keeps (p p' : LogicalPlan) : Prop :=
  I1 p = true -> I1 p' = true /\ scan_tables p' = scan_tables p.

(** Induction following the children lists. *)
Section PlanInd.
Variable P : LogicalPlan -> Prop.
Hypothesis Hnode : forall p, Forall P (lp_Children p) -> P p.

Fixpoint LogicalPlan_tree_ind (p : LogicalPlan) : P p :=
  Hnode p
    (let 'mkLogicalPlan _ _ cs _ _ _ _ _ _ _ _ _ _ _ _ _ _ := p
       return Forall P (lp_Children p) in
     (fix go (l : list LogicalPlan) : Forall P l :=
        match l with
        | [] => @List.Forall_nil _ P
        | c :: l' => @List.Forall_cons _ P c l' (LogicalPlan_tree_ind c) (go l')
        end) cs).
End PlanInd.

End logical_plan.
Export logical_plan.

Notation "x <- c ;; k" := (bind c (fun x => k))
  (at level 100, c at next level, right associativity) : go_scope.
Local Open Scope go_scope.

(* ===================================================================== *)
(** ** Package catalog *)
(* ===================================================================== *)

Module catalog.

Definition DataType := string.

Record Bucket : Type := mkBucket {
  LowerBound : string;
  UpperBound : string;
  Count      : Z;
  Frequency  : float;
}.

Record Column : Type := mkColumn {
  Name      : string;
  ColType   : DataType;            (* field DataType *)
  Nullable  : bool;
  NDV       : option Z;
  MinValue  : option string;
  MaxValue  : option string;
  Histogram : list Bucket;
  NullCount : option Z;
}.

Record Index : Type := mkIndex {
  IndexName    : string;           (* field Name *)
  IndexColumns : list string;      (* field Columns *)
  Unique       : bool;
  IndexType    : string;           (* field Type *)
}.

(** A [[]Column] value is a slice header: the address of its backing
    array and a length.  Copying the header shares the array. *)
Record ColumnSlice : Type := mkColumnSlice {
  base : nat;
  len  : nat;
}.

Record TableSchema : Type := mkTableSchema {
  TableName : string;              (* field Name *)
  Columns   : ColumnSlice;
  RowCount  : Z;
  Indexes   : list Index;
  Metadata  : gmap string string;
}.

(** The backing arrays of the column slices. *)
Abbreviation Heap := (gmap nat (list Column)).

(** [tables map[string]*TableSchema].  Every method holds [mu] from its
    first statement to its return, so a call is one atomic step on the
    map and the lock does not appear.  The struct a map entry points to
    is only reached through the map, hence it is stored in place. *)
Record CatalogManager : Type := mkCatalogManager {
  tables : gmap string TableSchema;
}.

Definition error := string.

Definition NewCatalogManager : CatalogManager :=
  {| tables := ∅ |}.

(** The elements a slice header denotes in a heap. *)
Definition elements (h : Heap) (s : ColumnSlice) : list Column :=
  take (len s) (default [] (h !! base s)).

Definition AddTable (cm : CatalogManager) (schema : TableSchema)
  : CatalogManager * option error :=
  match tables cm !! TableName schema with
  | Some _ => (cm, Some ("table " ++ TableName schema ++ " already exists"))
  | None =>
      ({| tables := <[TableName schema := schema]> (tables cm) |}, None)
  end.

(** [tableCopy := *table]: the struct is copied field by field, the
    [Columns] header included. *)
Definition GetTable (cm : CatalogManager) (tableName : string)
  : TableSchema + error :=
  match tables cm !! tableName with
  | Some table =>
      let tableCopy :=
        {| TableName := TableName table; Columns := Columns table;
           RowCount := RowCount table; Indexes := Indexes table;
           Metadata := Metadata table |} in
      inl tableCopy
  | None => inr ("table " ++ tableName ++ " not found")
  end.

(** The five assignments of the loop body. *)
Definition overwrite_stats (stats col : Column) : Column :=
  {| Name := Name col; ColType := ColType col; Nullable := Nullable col;
     NDV := NDV stats; MinValue := MinValue stats;
     MaxValue := MaxValue stats; Histogram := Histogram stats;
     NullCount := NullCount stats |}.

(** What the loop body does to a column: overwritten when the map has
    statistics under its name, left alone otherwise. *)
Definition refresh (columnStats : gmap string Column) (col : Column) : Column :=
  match columnStats !! Name col with
  | Some stats => overwrite_stats stats col
  | None => col
  end.

(** One iteration of [for i, col := range table.Columns] on the backing
    array. *)
Definition update_step (columnStats : gmap string Column)
    (arr : list Column) (i : nat) : list Column :=
  match arr !! i with
  | Some col =>
      match columnStats !! Name col with
      | Some stats => <[i := overwrite_stats stats col]> arr
      | None => arr
      end
  | None => arr
  end.

Definition update_loop (columnStats : gmap string Column) (n : nat)
    (arr : list Column) : list Column :=
  fold_left (update_step columnStats) (seq 0 n) arr.

Definition UpdateTableStats (cm : CatalogManager) (h : Heap)
    (tableName : string) (rowCount : Z) (columnStats : gmap string Column)
  : CatalogManager * Heap * option error :=
  match tables cm !! tableName with
  | None => (cm, h, Some ("table " ++ tableName ++ " not found"))
  | Some table =>
      let table' :=
        {| TableName := TableName table; Columns := Columns table;
           RowCount := rowCount; Indexes := Indexes table;
           Metadata := Metadata table |} in
      let h' :=
        match h !! base (Columns table) with
        | Some arr =>
            <[base (Columns table) :=
                update_loop columnStats (len (Columns table)) arr]> h
        | None => h
        end in
      ({| tables := <[tableName := table']> (tables cm) |}, h', None)
  end.

Definition GetColumnStats (cm : CatalogManager) (h : Heap)
    (tableName columnName : string) : Column + error :=
  match GetTable cm tableName with
  | inr err => inr err
  | inl table =>
      match List.find (fun col => String.eqb (Name col) columnName)
                      (elements h (Columns table)) with
      | Some col => inl col
      | None => inr ("column " ++ columnName ++ " not found in table "
                       ++ tableName)
      end
  end.

(** The selectivity oracle of the catalog. *)
Definition EstimateSelectivity (cm : CatalogManager) (h : Heap)
    (tableName columnName operator : string) (value : GoValue)
  : float * option error :=
  match GetColumnStats cm h tableName columnName with
  | inr err => (0%float, Some err)
  | inl colStats =>
      if String.eqb operator "=" then
        match NDV colStats with
        | Some ndv =>
            if 0 <? ndv then ((1 / float64 ndv)%float, None)
            else (0.1%float, None)
        | None => (0.1%float, None)
        end
      else if String.eqb operator "<" || String.eqb operator ">"
              || String.eqb operator "<=" || String.eqb operator ">="
      then (0.33%float, None)
      else if String.eqb operator "LIKE" then (0.1%float, None)
      else (0.5%float, None)
  end.

End catalog.

(* ===================================================================== *)
(** ** Package cost_model *)
(* ===================================================================== *)

Module cost_model.

Import catalog.

Record CostEstimate : Type := mkCostEstimate {
  TotalCost   : float;
  CPUCost     : float;
  IOCost      : float;
  NetworkCost : float;
  MemoryCost  : float;
  Cardinality : Z;
}.

(** [&CostEstimate{}] *)
Definition zeroCost : CostEstimate :=
  mkCostEstimate 0 0 0 0 0 0.

Record SimpleCostModel : Type := mkSimpleCostModel {
  SeqScanCostPerPage    : float;
  RandomScanCostPerPage : float;
  CPUCostPerTuple       : float;
  JoinCostFactor        : float;
  SortCostFactor        : float;
  HashCostFactor        : float;
}.

Definition NewSimpleCostModel : SimpleCostModel :=
  {| SeqScanCostPerPage := 1.0; RandomScanCostPerPage := 4.0;
     CPUCostPerTuple := 0.01; JoinCostFactor := 1.5;
     SortCostFactor := 2.0; HashCostFactor := 1.2 |}.

(** The selectivity table of the cost model.  It switches on the value
    at the root of the predicate expression and reads no statistics. *)
Definition estimateSelectivity (predicate : option Predicate) : float :=
  match predicate with
  | None => 1.0
  | Some p =>
      match p_Expression p with
      | None => 1.0
      | Some expr =>
          let v := e_Value expr in
          if value_is v "=" then 0.1
          else if value_is v "<" || value_is v ">"
                  || value_is v "<=" || value_is v ">=" then 0.33
          else if value_is v "LIKE" then 0.2
          else if value_is v "IN" then 0.3
          else if value_is v "IS NULL" then 0.05
          else if value_is v "IS NOT NULL" then 0.95
          else 0.5
      end
  end%float.

Section Estimation.

(** [math.Log2] of the Go standard library. *)
Variable Log2 : float -> float.

Variable cm : SimpleCostModel.
Variable catalogMgr : CatalogManager.

(** The error result of the Go function is nil on every path, so only
    the cardinality is returned; [Panic] is the index-out-of-range panic
    of [plan.Children[0]]. *)
Fixpoint EstimateCardinality (plan : LogicalPlan) : outcome Z :=
  let nt := lp_NodeType plan in
  if String.eqb nt NodeTypeScan then
    match GetTable catalogMgr (lp_TableName plan) with
    | inr _ => Ret 1000
    | inl table => Ret (RowCount table)
    end
  else if String.eqb nt NodeTypeFilter then
    match lp_Children plan with
    | [] => Ret 0
    | c0 :: _ =>
        childCardinality <~ EstimateCardinality c0 ;;
        let selectivity := estimateSelectivity (lp_Predicate plan) in
        Ret (int64 (float64 childCardinality * selectivity)%float)
    end
  else if String.eqb nt NodeTypeProject then
    match lp_Children plan with
    | [] => Ret 0
    | c0 :: _ => EstimateCardinality c0
    end
  else if String.eqb nt NodeTypeJoin then
    match lp_Children plan with
    | c0 :: c1 :: _ =>
        leftCard <~ EstimateCardinality c0 ;;
        rightCard <~ EstimateCardinality c1 ;;
        let jt := lp_JoinType plan in
        if String.eqb jt JoinTypeCross then Ret (mul64 leftCard rightCard)
        else if String.eqb jt JoinTypeInner then
          Ret (int64 (float64 (mul64 leftCard rightCard) * 0.1)%float)
        else if String.eqb jt JoinTypeLeft then Ret leftCard
        else if String.eqb jt JoinTypeRight then Ret rightCard
        else if String.eqb jt JoinTypeFull then Ret (add64 leftCard rightCard)
        else Ret (int64 (float64 (mul64 leftCard rightCard) * 0.1)%float)
    | _ => Ret 0
    end
  else if String.eqb nt NodeTypeAggregate then
    match lp_Children plan with
    | [] => Ret 1
    | c0 :: _ =>
        childCard <~ EstimateCardinality c0 ;;
        match lp_GroupBy plan with
        | [] => Ret 1
        | _ :: _ => Ret (int64 (float64 childCard * 0.1)%float)
        end
    end
  else if String.eqb nt NodeTypeSort then
    match lp_Children plan with
    | [] => Ret 0
    | c0 :: _ => EstimateCardinality c0
    end
  else if String.eqb nt NodeTypeLimit then
    match lp_LimitCount plan with
    | Some limit =>
        match lp_Children plan with
        | [] => Panic
        | c0 :: _ =>
            childCard <~ EstimateCardinality c0 ;;
            if childCard <? limit then Ret childCard else Ret limit
        end
    | None =>
        match lp_Children plan with
        | [] => Ret 0
        | c0 :: _ => EstimateCardinality c0
        end
    end
  else Ret 1000.

Definition estimateScanCost (plan : LogicalPlan) : outcome CostEstimate :=
  match GetTable catalogMgr (lp_TableName plan) with
  | inr _ =>
      Ret {| TotalCost := 1000.0; IOCost := 800.0; CPUCost := 200.0;
             NetworkCost := 0; MemoryCost := 0; Cardinality := 1000 |}
  | inl table =>
      let pages := (float64 (RowCount table) / 100.0)%float in
      let pages := if (pages <? 1)%float then 1%float else pages in
      let ioCost := (pages * SeqScanCostPerPage cm)%float in
      let cpuCost := (float64 (RowCount table) * CPUCostPerTuple cm)%float in
      Ret {| TotalCost := ioCost + cpuCost; IOCost := ioCost;
             CPUCost := cpuCost; NetworkCost := 0; MemoryCost := 0;
             Cardinality := RowCount table |}
  end.

(** The per-operator estimators call back into [EstimateCost]; the
    callee is the first argument. *)
Definition estimateFilterCost (EstimateCost : LogicalPlan -> outcome CostEstimate)
    (plan : LogicalPlan) : outcome CostEstimate :=
  match lp_Children plan with
  | [] => Ret zeroCost
  | c0 :: _ =>
      childCost <~ EstimateCost c0 ;;
      let selectivity := estimateSelectivity (lp_Predicate plan) in
      let outputCardinality :=
        int64 (float64 (Cardinality childCost) * selectivity)%float in
      let filterCpuCost :=
        (float64 (Cardinality childCost) * CPUCostPerTuple cm * 0.5)%float in
      Ret {| TotalCost := TotalCost childCost + filterCpuCost;
             CPUCost := CPUCost childCost + filterCpuCost;
             IOCost := IOCost childCost;
             NetworkCost := NetworkCost childCost;
             MemoryCost := MemoryCost childCost;
             Cardinality := outputCardinality |}
  end.

Definition estimateProjectCost (EstimateCost : LogicalPlan -> outcome CostEstimate)
    (plan : LogicalPlan) : outcome CostEstimate :=
  match lp_Children plan with
  | [] => Ret zeroCost
  | c0 :: _ =>
      childCost <~ EstimateCost c0 ;;
      let projectionCpuCost :=
        (float64 (Cardinality childCost) * CPUCostPerTuple cm * 0.1)%float in
      Ret {| TotalCost := TotalCost childCost + projectionCpuCost;
             CPUCost := CPUCost childCost + projectionCpuCost;
             IOCost := IOCost childCost;
             NetworkCost := NetworkCost childCost;
             MemoryCost := MemoryCost childCost;
             Cardinality := Cardinality childCost |}
  end.

Definition estimateJoinCost (EstimateCost : LogicalPlan -> outcome CostEstimate)
    (plan : LogicalPlan) : outcome CostEstimate :=
  match lp_Children plan with
  | c0 :: c1 :: _ =>
      leftCost <~ EstimateCost c0 ;;
      rightCost <~ EstimateCost c1 ;;
      let joinCpuCost :=
        (float64 (mul64 (Cardinality leftCost) (Cardinality rightCost))
         * CPUCostPerTuple cm * JoinCostFactor cm)%float in
      outputCardinality <~ EstimateCardinality plan ;;
      Ret {| TotalCost := TotalCost leftCost + TotalCost rightCost + joinCpuCost;
             CPUCost := CPUCost leftCost + CPUCost rightCost + joinCpuCost;
             IOCost := IOCost leftCost + IOCost rightCost;
             NetworkCost := NetworkCost leftCost + NetworkCost rightCost;
             MemoryCost := MemoryCost leftCost + MemoryCost rightCost;
             Cardinality := outputCardinality |}
  | _ => Ret zeroCost
  end.

Definition estimateAggregateCost (EstimateCost : LogicalPlan -> outcome CostEstimate)
    (plan : LogicalPlan) : outcome CostEstimate :=
  match lp_Children plan with
  | [] => Ret zeroCost
  | c0 :: _ =>
      childCost <~ EstimateCost c0 ;;
      let aggCpuCost :=
        (float64 (Cardinality childCost) * CPUCostPerTuple cm
         * HashCostFactor cm)%float in
      outputCardinality <~ EstimateCardinality plan ;;
      Ret {| TotalCost := TotalCost childCost + aggCpuCost;
             CPUCost := CPUCost childCost + aggCpuCost;
             IOCost := IOCost childCost;
             NetworkCost := NetworkCost childCost;
             MemoryCost :=
               MemoryCost childCost + float64 (Cardinality childCost) * 0.1;
             Cardinality := outputCardinality |}
  end.

Definition estimateSortCost (EstimateCost : LogicalPlan -> outcome CostEstimate)
    (plan : LogicalPlan) : outcome CostEstimate :=
  match lp_Children plan with
  | [] => Ret zeroCost
  | c0 :: _ =>
      childCost <~ EstimateCost c0 ;;
      if Cardinality childCost <=? 1 then Ret childCost
      else
        let sortCpuCost :=
          (float64 (Cardinality childCost)
           * Log2 (float64 (Cardinality childCost))
           * CPUCostPerTuple cm * SortCostFactor cm)%float in
        Ret {| TotalCost := TotalCost childCost + sortCpuCost;
               CPUCost := CPUCost childCost + sortCpuCost;
               IOCost := IOCost childCost;
               NetworkCost := NetworkCost childCost;
               MemoryCost :=
                 MemoryCost childCost + float64 (Cardinality childCost) * 0.2;
               Cardinality := Cardinality childCost |}
  end.

Definition estimateLimitCost (EstimateCost : LogicalPlan -> outcome CostEstimate)
    (plan : LogicalPlan) : outcome CostEstimate :=
  match lp_Children plan with
  | [] => Ret zeroCost
  | c0 :: _ =>
      childCost <~ EstimateCost c0 ;;
      outputCardinality <~ EstimateCardinality plan ;;
      match lp_LimitCount plan with
      | Some limit =>
          if limit <? Cardinality childCost then
            let reductionFactor :=
              (float64 limit / float64 (Cardinality childCost))%float in
            Ret {| TotalCost := TotalCost childCost * reductionFactor;
                   CPUCost := CPUCost childCost * reductionFactor;
                   IOCost := IOCost childCost * reductionFactor;
                   NetworkCost := NetworkCost childCost * reductionFactor;
                   MemoryCost := MemoryCost childCost * reductionFactor;
                   Cardinality := outputCardinality |}
          else Ret childCost
      | None => Ret childCost
      end
  end.

Fixpoint EstimateCost (plan : LogicalPlan) : outcome CostEstimate :=
  let nt := lp_NodeType plan in
  if String.eqb nt NodeTypeScan then estimateScanCost plan
  else if String.eqb nt NodeTypeFilter then estimateFilterCost EstimateCost plan
  else if String.eqb nt NodeTypeProject then estimateProjectCost EstimateCost plan
  else if String.eqb nt NodeTypeJoin then estimateJoinCost EstimateCost plan
  else if String.eqb nt NodeTypeAggregate then estimateAggregateCost EstimateCost plan
  else if String.eqb nt NodeTypeSort then estimateSortCost EstimateCost plan
  else if String.eqb nt NodeTypeLimit then estimateLimitCost EstimateCost plan
  else
    cardinality <~ EstimateCardinality plan ;;
    Ret {| TotalCost := float64 cardinality * CPUCostPerTuple cm;
           CPUCost := float64 cardinality * CPUCostPerTuple cm;
           IOCost := 0; NetworkCost := 0; MemoryCost := 0;
           Cardinality := cardinality |}.

(** The entry points take a pointer: nil is answered before the switch. *)
Definition EstimateCardinality_ptr (plan : option LogicalPlan) : outcome Z :=
  match plan with
  | None => Ret 0
  | Some p => EstimateCardinality p
  end.

Definition EstimateCost_ptr (plan : option LogicalPlan) : outcome CostEstimate :=
  match plan with
  | None => Ret zeroCost
  | Some p => EstimateCost p
  end.

End Estimation.

End cost_model.

(* ===================================================================== *)
(** ** Package enumerator: the plan signature *)
(* ===================================================================== *)

Module enumerator.

(** [getPlanSignature] on a non-nil plan; the children are folded into
    the string from left to right. *)
Fixpoint getPlanSignature (plan : LogicalPlan) : string :=
  let signature := lp_NodeType plan in
  let signature :=
    if String.eqb (lp_TableName plan) "" then signature
    else signature ++ ":" ++ lp_TableName plan in
  fold_left (fun sig child => sig ++ "(" ++ getPlanSignature child ++ ")")
            (lp_Children plan) signature.

Definition getPlanSignature_ptr (plan : option LogicalPlan) : string :=
  match plan with
  | None => "nil"
  | Some p => getPlanSignature p
  end.

End enumerator.

(* ===================================================================== *)
(** ** Package optimizer *)
(* ===================================================================== *)

Module optimizer.

Import cost_model.

Record OptimizationStep : Type := mkOptimizationStep {
  RuleName    : string;
  BeforePlan  : LogicalPlan;
  (** the tree the rule returned, as it was when the step was recorded *)
  AfterPlan   : LogicalPlan;
  Description : string;
}.

Record OptimizationStatistics : Type := mkOptimizationStatistics {
  TotalRulesApplied    : Z;
  EstimatedImprovement : float;
}.

Record ExplainResult : Type := mkExplainResult {
  AppliedRules : list string;
  Steps        : list OptimizationStep;
  Statistics   : OptimizationStatistics;
}.

(** The interface [OptimizationRule].  No rule of the package returns a
    non-nil error, so [Apply] yields the plan and the changed flag. *)
Record OptimizationRule : Type := mkOptimizationRule {
  Apply : LogicalPlan -> M (LogicalPlan * bool);
  Name  : string;
}.

(** The loop shared by the recursive rules:
    [for i, child := range plan.Children] replaces [plan.Children[i]]
    when the recursive call reports a change. *)
Definition rewriteChildren (rec : LogicalPlan -> M (LogicalPlan * bool))
  : list LogicalPlan -> M (list LogicalPlan * bool) :=
  fix go (l : list LogicalPlan) : M (list LogicalPlan * bool) :=
    match l with
    | [] => ret ([], false)
    | child :: l' =>
        r <- rec child ;;
        rs <- go l' ;;
        ret ((if snd r then fst r else child) :: fst rs, snd r || snd rs)
    end.

Definition canPushFilterBelowProject (predicate : option Predicate)
    (projectNode : LogicalPlan) : bool := true.

Definition canPushFilterToJoinSides (predicate : option Predicate)
    (joinNode : LogicalPlan) : bool * bool := (false, false).

Definition isRedundantProjection (projections : list Column) : bool :=
  match projections with
  | [c] => String.eqb (c_Name c) "*"
  | _ => false
  end.

Module PredicatePushdownRule.

Definition Name : string := "PredicatePushdown".

(** The rewrite at one node, before the loop over the children. *)
Definition rewriteNode (plan : LogicalPlan) : M (LogicalPlan * bool) :=
  if String.eqb (lp_NodeType plan) NodeTypeFilter
     && Nat.eqb (length (lp_Children plan)) 1 then
    match lp_Children plan with
    | child :: _ =>
        if String.eqb (lp_NodeType child) NodeTypeProject then
          if canPushFilterBelowProject (lp_Predicate plan) child then
            match lp_Children child with
            | [] => lift Panic
            | c0 :: _ =>
                newFilter <- NewFilterNode c0 (lp_Predicate plan) ;;
                newProject <- NewProjectNode newFilter (lp_Projections child) ;;
                ret (newProject, true)
            end
          else ret (plan, false)
        else if String.eqb (lp_NodeType child) NodeTypeJoin then
          let '(leftPushable, rightPushable) :=
            canPushFilterToJoinSides (lp_Predicate plan) child in
          ret (plan, leftPushable || rightPushable)
        else ret (plan, false)
    | [] => ret (plan, false)
    end
  else ret (plan, false).

(** The recursion re-enters on the Filter node it has just built, which
    is not a subtree of its argument: it is bounded by [fuel]. *)
Fixpoint applyRecursive (fuel : nat) (plan : LogicalPlan)
  : M (LogicalPlan * bool) :=
  match fuel with
  | O => fun _ => OutOfFuel
  | S fuel' =>
      r <- rewriteNode plan ;;
      rs <- rewriteChildren (applyRecursive fuel') (lp_Children (fst r)) ;;
      ret (set_Children (fst rs) (fst r), snd r || snd rs)
  end.

Definition Apply (plan : LogicalPlan) : M (LogicalPlan * bool) :=
  applyRecursive (plan_size plan) plan.

Definition rule : OptimizationRule :=
  {| optimizer.Apply := Apply; optimizer.Name := Name |}.

End PredicatePushdownRule.

Module ProjectionPushdownRule.

Definition Name : string := "ProjectionPushdown".

Fixpoint applyRecursive (plan : LogicalPlan) : M (LogicalPlan * bool) :=
  let changed :=
    String.eqb (lp_NodeType plan) NodeTypeProject
    && Nat.eqb (length (lp_Children plan)) 1
    && isRedundantProjection (lp_Projections plan) in
  let plan' :=
    if changed then
      match lp_Children plan with
      | child :: _ => child
      | [] => plan
      end
    else plan in
  rs <- rewriteChildren applyRecursive (lp_Children plan') ;;
  ret (set_Children (fst rs) plan', changed || snd rs).

Definition Apply (plan : LogicalPlan) : M (LogicalPlan * bool) :=
  applyRecursive plan.

Definition rule : OptimizationRule :=
  {| optimizer.Apply := Apply; optimizer.Name := Name |}.

End ProjectionPushdownRule.

Module ConstantFoldingRule.

Definition Name : string := "ConstantFolding".

Definition Apply (plan : LogicalPlan) : M (LogicalPlan * bool) :=
  ret (plan, false).

Definition rule : OptimizationRule :=
  {| optimizer.Apply := Apply; optimizer.Name := Name |}.

End ConstantFoldingRule.

Module JoinReorderingRule.

Definition Name : string := "JoinReordering".

Definition Apply (plan : LogicalPlan) : M (LogicalPlan * bool) :=
  ret (plan, false).

Definition rule : OptimizationRule :=
  {| optimizer.Apply := Apply; optimizer.Name := Name |}.

End JoinReorderingRule.

Record RuleBasedOptimizer : Type := mkRuleBasedOptimizer {
  rules : list OptimizationRule;
}.

Definition NewRuleBasedOptimizer : RuleBasedOptimizer :=
  {| rules := [ PredicatePushdownRule.rule; ProjectionPushdownRule.rule;
                ConstantFoldingRule.rule; JoinReorderingRule.rule ] |}.

(** The variables of the loops of [Optimize]. *)
Record OptState : Type := mkOptState {
  currentPlan       : LogicalPlan;
  explain           : ExplainResult;
  totalRulesApplied : Z;
  changed           : bool;
}.

(** The body of [for _, rule := range rbo.rules]. *)
Definition applyRule (s : OptState) (rule : OptimizationRule) : M OptState :=
  beforePlan <- Clone (currentPlan s) ;;
  r <- Apply rule (currentPlan s) ;;
  let '(optimizedPlan, ruleApplied) := r in
  if ruleApplied then
    ret {| currentPlan := optimizedPlan;
           explain :=
             {| AppliedRules := AppliedRules (explain s) ++ [Name rule];
                Steps := Steps (explain s) ++
                  [ {| RuleName := Name rule; BeforePlan := beforePlan;
                       AfterPlan := optimizedPlan;
                       Description := "Applied " ++ Name rule ++ " rule" |} ];
                Statistics := Statistics (explain s) |};
           totalRulesApplied := totalRulesApplied s + 1;
           changed := true |}
  else ret s.

Fixpoint applyRules (rs : list OptimizationRule) (s : OptState) : M OptState :=
  match rs with
  | [] => ret s
  | rule :: rs' => s' <- applyRule s rule ;; applyRules rs' s'
  end.

(** [for iteration := 0; iteration < maxIterations; iteration++], with
    [n] the iterations left. *)
Fixpoint iterate (rbo : RuleBasedOptimizer) (n : nat) (s : OptState)
  : M OptState :=
  match n with
  | O => ret s
  | S n' =>
      s' <- applyRules (rules rbo)
              {| currentPlan := currentPlan s; explain := explain s;
                 totalRulesApplied := totalRulesApplied s;
                 changed := false |} ;;
      if changed s' then iterate rbo n' s' else ret s'
  end.

Definition maxIterations : nat := 10.

Definition emptyExplain : ExplainResult :=
  {| AppliedRules := []; Steps := [];
     Statistics := {| TotalRulesApplied := 0; EstimatedImprovement := 0 |} |}.

Definition error := string.

(** The three results of [Optimize]: plan, explain trace, error. *)
Definition OptimizeResult : Type :=
  option LogicalPlan * option ExplainResult * option error.

Definition RuleBasedOptimizer_Optimize (rbo : RuleBasedOptimizer)
    (plan : option LogicalPlan) : M OptimizeResult :=
  match plan with
  | None => ret (None, None, Some "cannot optimize nil plan")
  | Some plan =>
      currentPlan0 <- Clone plan ;;
      s <- iterate rbo maxIterations
             {| currentPlan := currentPlan0; explain := emptyExplain;
                totalRulesApplied := 0; changed := false |} ;;
      let explain' :=
        {| AppliedRules := AppliedRules (explain s);
           Steps := Steps (explain s);
           Statistics :=
             {| TotalRulesApplied := totalRulesApplied s;
                EstimatedImprovement :=
                  EstimatedImprovement (Statistics (explain s)) |} |} in
      ret (Some (currentPlan s), Some explain', None)
  end.

Definition OptimizeWithRules (plan : option LogicalPlan) : M OptimizeResult :=
  RuleBasedOptimizer_Optimize NewRuleBasedOptimizer plan.

(** *** The cost-based optimizer *)

(** The interface [cost_model.CostModel]. *)
Record CostModel : Type := mkCostModel {
  EstimateCost : LogicalPlan -> catalog.CatalogManager -> outcome CostEstimate;
  EstimateCardinality : LogicalPlan -> catalog.CatalogManager -> outcome Z;
}.

Record CostBasedOptimizer : Type := mkCostBasedOptimizer {
  costModel  : CostModel;
  catalogMgr : catalog.CatalogManager;
}.

Section CostBased.

(** [math.Log2], and [fmt.Sprintf("%.2f", x)] of the explain message. *)
Variable Log2 : float -> float.
Variable formatCost : float -> string.

(** [*SimpleCostModel] as a [CostModel]. *)
Definition SimpleCostModel_CostModel (cm : SimpleCostModel) : CostModel :=
  {| EstimateCost := fun plan catalogMgr =>
       cost_model.EstimateCost Log2 cm catalogMgr plan;
     EstimateCardinality := fun plan catalogMgr =>
       cost_model.EstimateCardinality catalogMgr plan |}.

Definition NewCostBasedOptimizer (catalogMgr : catalog.CatalogManager)
  : CostBasedOptimizer :=
  {| costModel := SimpleCostModel_CostModel NewSimpleCostModel;
     catalogMgr := catalogMgr |}.

Variable cbo : CostBasedOptimizer.

Fixpoint optimizeJoinOrder (plan : LogicalPlan) : M LogicalPlan :=
  if String.eqb (lp_NodeType plan) NodeTypeJoin
     && Nat.eqb (length (lp_Children plan)) 2 then
    match lp_Children plan with
    | leftChild :: rightChild :: _ =>
        currentCost <- lift (EstimateCost (costModel cbo) plan (catalogMgr cbo)) ;;
        swappedPlan <- NewJoinNode rightChild leftChild (lp_JoinType plan)
                         (lp_JoinCondition plan) ;;
        swappedCost <- lift (EstimateCost (costModel cbo) swappedPlan
                               (catalogMgr cbo)) ;;
        if (TotalCost swappedCost <? TotalCost currentCost)%float then
          children <- mapM optimizeJoinOrder [rightChild; leftChild] ;;
          ret (set_Children children swappedPlan)
        else
          children <- mapM optimizeJoinOrder (lp_Children plan) ;;
          ret (set_Children children plan)
    | _ =>
        children <- mapM optimizeJoinOrder (lp_Children plan) ;;
        ret (set_Children children plan)
    end
  else
    children <- mapM optimizeJoinOrder (lp_Children plan) ;;
    ret (set_Children children plan).

Definition mapO {A B} (f : A -> outcome B) : list A -> outcome (list B) :=
  fix go (l : list A) : outcome (list B) :=
    match l with
    | [] => Ret []
    | a :: l' => b <~ f a ;; bs <~ go l' ;; Ret (b :: bs)
    end.

(** The metadata written at one node.  Every tree that reaches this pass
    comes out of [Clone] or [NewJoinNode], so [Metadata] is never the nil
    map. *)
Definition selectAtNode (plan : LogicalPlan) : outcome (gmap string GoValue) :=
  let nt := lp_NodeType plan in
  let md := lp_Metadata plan in
  if String.eqb nt NodeTypeJoin then
    match lp_Children plan with
    | c0 :: c1 :: _ =>
        leftCard <~ EstimateCardinality (costModel cbo) c0 (catalogMgr cbo) ;;
        rightCard <~ EstimateCardinality (costModel cbo) c1 (catalogMgr cbo) ;;
        let md :=
          if (leftCard <? 1000) && (rightCard <? 1000) then
            <["physical_operator" := VString "nested_loop_join"]> md
          else if leftCard <? rightCard then
            <["build_side" := VString "left"]>
              (<["physical_operator" := VString "hash_join"]> md)
          else
            <["build_side" := VString "right"]>
              (<["physical_operator" := VString "hash_join"]> md) in
        let md :=
          if (1000000 <? leftCard) && (1000000 <? rightCard) then
            <["physical_operator" := VString "sort_merge_join"]> md
          else md in
        Ret md
    | _ => Panic
    end
  else if String.eqb nt NodeTypeAggregate then
    cardinality <~ EstimateCardinality (costModel cbo) plan (catalogMgr cbo) ;;
    match lp_GroupBy plan with
    | [] => Ret (<["physical_operator" := VString "hash_aggregate"]> md)
    | _ :: _ =>
        if cardinality <? 10000 then
          Ret (<["physical_operator" := VString "hash_aggregate"]> md)
        else Ret (<["physical_operator" := VString "sort_aggregate"]> md)
    end
  else if String.eqb nt NodeTypeSort then
    cardinality <~ EstimateCardinality (costModel cbo) plan (catalogMgr cbo) ;;
    if cardinality <? 100000 then
      Ret (<["physical_operator" := VString "quicksort"]> md)
    else Ret (<["physical_operator" := VString "external_sort"]> md)
  else if String.eqb nt NodeTypeScan then
    Ret (<["scan_type" := VString "sequential"]> md)
  else Ret md.

Fixpoint selectPhysicalOperators (plan : LogicalPlan) : outcome LogicalPlan :=
  md <~ selectAtNode plan ;;
  children <~ mapO selectPhysicalOperators (lp_Children plan) ;;
  Ret (set_Children children (set_Metadata md plan)).

Definition applyCostBasedOptimizations (plan : LogicalPlan) : M LogicalPlan :=
  optimizedPlan <- Clone plan ;;
  optimizedPlan <- optimizeJoinOrder optimizedPlan ;;
  optimizedPlan <- lift (selectPhysicalOperators optimizedPlan) ;;
  ret optimizedPlan.

(** Children first, then the node. *)
Fixpoint propagateCostEstimates (plan : LogicalPlan) : outcome LogicalPlan :=
  children <~ mapO propagateCostEstimates (lp_Children plan) ;;
  let plan := set_Children children plan in
  cost <~ EstimateCost (costModel cbo) plan (catalogMgr cbo) ;;
  Ret (set_Estimates (Cardinality cost) (TotalCost cost) plan).

Definition CostBasedOptimizer_Optimize (plan : option LogicalPlan)
  : M OptimizeResult :=
  match plan with
  | None => ret (None, None, Some "cannot optimize nil plan")
  | Some _ =>
      r <- OptimizeWithRules plan ;;
      match r with
      | (Some ruleOptimizedPlan, Some ruleExplain, None) =>
          costOptimizedPlan <- applyCostBasedOptimizations ruleOptimizedPlan ;;
          finalCost <- lift (EstimateCost (costModel cbo) costOptimizedPlan
                               (catalogMgr cbo)) ;;
          stamped <- lift (propagateCostEstimates costOptimizedPlan) ;;
          let applied :=
            (AppliedRules ruleExplain ++ ["CostBasedOptimization"])%list in
          let explain' :=
            {| AppliedRules := applied;
               Steps := Steps ruleExplain ++
                 [ {| RuleName := "CostBasedOptimization";
                      BeforePlan := ruleOptimizedPlan;
                      AfterPlan := stamped;
                      Description :=
                        "Applied cost-based optimization (final cost: "
                        ++ formatCost (TotalCost finalCost) ++ ")" |} ];
               Statistics :=
                 {| TotalRulesApplied := Z.of_nat (length applied);
                    EstimatedImprovement := 0 |} |} in
          ret (Some stamped, Some explain', None)
      | (_, _, err) => ret (None, Some emptyExplain, err)
      end
  end.

End CostBased.

(** [OptimizeWithCost] builds its own, empty catalog. *)
Definition OptimizeWithCost (Log2 : float -> float)
    (formatCost : float -> string) (plan : option LogicalPlan)
  : M OptimizeResult :=
  CostBasedOptimizer_Optimize formatCost
    (NewCostBasedOptimizer Log2 catalog.NewCatalogManager) plan.

End optimizer.

(* ===================================================================== *)
(** ** Package simulator *)
(* ===================================================================== *)

Module simulator.

(** [time.Duration] is an int64 count of nanoseconds. *)
Definition Microsecond : Z := 1000.

Record ExecutionMetrics : Type := mkExecutionMetrics {
  ExecutionTime   : Z;
  RowsProcessed   : Z;
  RowsReturned    : Z;
  CPUTime         : Z;
  IOOperations    : Z;
  MemoryUsed      : Z;
  NetworkTraffic  : Z;
  OperatorMetrics : gmap string (gmap string GoValue);
  Connector       : string;
  SimulationOnly  : bool;
}.

Definition error := string.

Definition simulateScan (plan : LogicalPlan) (metrics : ExecutionMetrics)
  : ExecutionMetrics :=
  let estimatedRows :=
    match lp_EstimatedRows plan with
    | Some rows => rows
    | None => 1000
    end in
  let pagesRead := div64 estimatedRows 100 in
  let pagesRead := if pagesRead <? 1 then 1 else pagesRead in
  let cpuTime := mul64 (mul64 estimatedRows 10) Microsecond in
  {| ExecutionTime := ExecutionTime metrics;
     RowsProcessed := add64 (RowsProcessed metrics) estimatedRows;
     RowsReturned := add64 (RowsReturned metrics) estimatedRows;
     CPUTime := add64 (CPUTime metrics) cpuTime;
     IOOperations := add64 (IOOperations metrics) pagesRead;
     MemoryUsed := add64 (MemoryUsed metrics) (mul64 estimatedRows 100);
     NetworkTraffic := NetworkTraffic metrics;
     OperatorMetrics :=
       <[ lp_ID plan ++ "_scan" :=
            <["table_name" := VString (lp_TableName plan)]>
              (<["rows_scanned" := VInt estimatedRows]>
                 (<["pages_read" := VInt pagesRead]>
                    (<["scan_type" := VString "sequential"]> ∅))) ]>
         (OperatorMetrics metrics);
     Connector := Connector metrics;
     SimulationOnly := SimulationOnly metrics |}.

Definition set_CPUTime (t : Z) (m : ExecutionMetrics) : ExecutionMetrics :=
  {| ExecutionTime := ExecutionTime m; RowsProcessed := RowsProcessed m;
     RowsReturned := RowsReturned m; CPUTime := t;
     IOOperations := IOOperations m; MemoryUsed := MemoryUsed m;
     NetworkTraffic := NetworkTraffic m;
     OperatorMetrics := OperatorMetrics m; Connector := Connector m;
     SimulationOnly := SimulationOnly m |}.

Definition set_IOOperations (n : Z) (m : ExecutionMetrics) : ExecutionMetrics :=
  {| ExecutionTime := ExecutionTime m; RowsProcessed := RowsProcessed m;
     RowsReturned := RowsReturned m; CPUTime := CPUTime m;
     IOOperations := n; MemoryUsed := MemoryUsed m;
     NetworkTraffic := NetworkTraffic m;
     OperatorMetrics := OperatorMetrics m; Connector := Connector m;
     SimulationOnly := SimulationOnly m |}.

Definition set_NetworkTraffic (n : Z) (m : ExecutionMetrics) : ExecutionMetrics :=
  {| ExecutionTime := ExecutionTime m; RowsProcessed := RowsProcessed m;
     RowsReturned := RowsReturned m; CPUTime := CPUTime m;
     IOOperations := IOOperations m; MemoryUsed := MemoryUsed m;
     NetworkTraffic := n;
     OperatorMetrics := OperatorMetrics m; Connector := Connector m;
     SimulationOnly := SimulationOnly m |}.

Definition set_Connector (c : string) (m : ExecutionMetrics) : ExecutionMetrics :=
  {| ExecutionTime := ExecutionTime m; RowsProcessed := RowsProcessed m;
     RowsReturned := RowsReturned m; CPUTime := CPUTime m;
     IOOperations := IOOperations m; MemoryUsed := MemoryUsed m;
     NetworkTraffic := NetworkTraffic m;
     OperatorMetrics := OperatorMetrics m; Connector := c;
     SimulationOnly := SimulationOnly m |}.

Definition set_ExecutionTime (t : Z) (m : ExecutionMetrics) : ExecutionMetrics :=
  {| ExecutionTime := t; RowsProcessed := RowsProcessed m;
     RowsReturned := RowsReturned m; CPUTime := CPUTime m;
     IOOperations := IOOperations m; MemoryUsed := MemoryUsed m;
     NetworkTraffic := NetworkTraffic m;
     OperatorMetrics := OperatorMetrics m; Connector := Connector m;
     SimulationOnly := SimulationOnly m |}.

(** [plan.Metadata["physical_operator"]] when it holds a string. *)
Definition physical_operator_is (plan : LogicalPlan) (alg : string) : bool :=
  match lp_Metadata plan !! "physical_operator" with
  | Some v => value_is v alg
  | None => false
  end.

Section Simulation.

(** The rules of the operators other than Scan.  The traversal calls
    them; what they compute plays no part in the property stated on
    Scan-only plans, so they are left as parameters of the traversal. *)
Variables simulateFilter simulateProject simulateJoin simulateAggregate
          simulateSort simulateLimit
  : LogicalPlan -> ExecutionMetrics -> ExecutionMetrics.

(** The wall-clock time [time.Since(startTime)] of one call. *)
Variable elapsed : Z.

(** Children first, left to right; an error stops the traversal.  On a
    nil plan the Go function returns nil at once, so a null child slot
    is passed over here; the node above it is still handed to its
    operator rule, and the rules of the operators other than Scan read
    the estimate of the first child and panic when it is null.  With
    every child slot filled, neither happens. *)
Fixpoint simulateNode (plan : LogicalPlan) (metrics : ExecutionMetrics)
  : ExecutionMetrics + error :=
  let children :=
    fold_left (fun acc child =>
                 match acc with
                 | inl m => simulateNode child m
                 | inr err => inr err
                 end)
              (lp_Children plan) (inl metrics) in
  match children with
  | inr err => inr err
  | inl metrics =>
      let nt := lp_NodeType plan in
      if String.eqb nt NodeTypeScan then inl (simulateScan plan metrics)
      else if String.eqb nt NodeTypeFilter then inl (simulateFilter plan metrics)
      else if String.eqb nt NodeTypeProject then inl (simulateProject plan metrics)
      else if String.eqb nt NodeTypeJoin then inl (simulateJoin plan metrics)
      else if String.eqb nt NodeTypeAggregate then
        inl (simulateAggregate plan metrics)
      else if String.eqb nt NodeTypeSort then inl (simulateSort plan metrics)
      else if String.eqb nt NodeTypeLimit then inl (simulateLimit plan metrics)
      else inr ("unsupported node type for simulation: " ++ nt)
  end.

Definition GenericSimulator_SimulateExecution (plan : option LogicalPlan)
  : ExecutionMetrics + error :=
  match plan with
  | None => inr "cannot simulate nil plan"
  | Some plan =>
      let metrics :=
        {| ExecutionTime := 0; RowsProcessed := 0; RowsReturned := 0;
           CPUTime := 0; IOOperations := 0; MemoryUsed := 0;
           NetworkTraffic := 0; OperatorMetrics := ∅;
           Connector := "generic"; SimulationOnly := true |} in
      match simulateNode plan metrics with
      | inr err => inr err
      | inl metrics => inl (set_ExecutionTime elapsed metrics)
      end
  end.

Fixpoint applyPostgresOptimizations (plan : LogicalPlan)
    (metrics : ExecutionMetrics) : ExecutionMetrics :=
  let nt := lp_NodeType plan in
  let metrics :=
    if String.eqb nt NodeTypeJoin then
      if physical_operator_is plan "hash_join" then
        set_CPUTime (int64 (float64 (CPUTime metrics) * 0.85)%float) metrics
      else metrics
    else if String.eqb nt NodeTypeAggregate then
      set_CPUTime (int64 (float64 (CPUTime metrics) * 0.9)%float) metrics
    else if String.eqb nt NodeTypeScan then
      set_IOOperations (int64 (float64 (IOOperations metrics) * 0.8)%float)
                       metrics
    else metrics in
  fold_left (fun m child => applyPostgresOptimizations child m)
            (lp_Children plan) metrics.

Fixpoint applyMongoOptimizations (plan : LogicalPlan)
    (metrics : ExecutionMetrics) : ExecutionMetrics :=
  let nt := lp_NodeType plan in
  let metrics :=
    if String.eqb nt NodeTypeScan then
      set_NetworkTraffic
        (add64 (NetworkTraffic metrics) (mul64 (RowsProcessed metrics) 300))
        metrics
    else if String.eqb nt NodeTypeAggregate then
      set_CPUTime (int64 (float64 (CPUTime metrics) * 0.7)%float) metrics
    else if String.eqb nt NodeTypeJoin then
      set_NetworkTraffic
        (add64 (NetworkTraffic metrics) (mul64 (RowsProcessed metrics) 200))
        (set_CPUTime (int64 (float64 (CPUTime metrics) * 1.3)%float) metrics)
    else metrics in
  fold_left (fun m child => applyMongoOptimizations child m)
            (lp_Children plan) metrics.

Definition PostgresSimulator_SimulateExecution (plan : option LogicalPlan)
  : ExecutionMetrics + error :=
  match GenericSimulator_SimulateExecution plan, plan with
  | inl metrics, Some p =>
      inl (applyPostgresOptimizations p (set_Connector "postgres" metrics))
  | inl metrics, None => inl (set_Connector "postgres" metrics)
  | inr err, _ => inr err
  end.

Definition MongoSimulator_SimulateExecution (plan : option LogicalPlan)
  : ExecutionMetrics + error :=
  match GenericSimulator_SimulateExecution plan, plan with
  | inl metrics, Some p =>
      inl (applyMongoOptimizations p (set_Connector "mongo" metrics))
  | inl metrics, None => inl (set_Connector "mongo" metrics)
  | inr err, _ => inr err
  end.

Definition SimulateExecution (plan : option LogicalPlan) (connector : string)
  : ExecutionMetrics + error :=
  if String.eqb connector "postgres" then
    PostgresSimulator_SimulateExecution plan
  else if String.eqb connector "mongo" then
    MongoSimulator_SimulateExecution plan
  else GenericSimulator_SimulateExecution plan.

End Simulation.

End simulator.

(* ===================================================================== *)
(** ** The selectivity table of the specification *)
(* ===================================================================== *)

Module Spec.

(** Section 4.2 in its own words: for [=], [1/NDV] when the NDV is known
    and positive, else [0.1]; for the four order comparisons [0.33]; for
    [LIKE] [0.1]; otherwise [0.5]. *)
Definition selectivity (op : string) (ndv : option Z) : float :=
  if String.eqb op "=" then
    match ndv with
    | Some n => if 0 <? n then (1 / float64 n)%float else 0.1%float
    | None => 0.1%float
    end
  else if String.eqb op "<" || String.eqb op ">"
          || String.eqb op "<=" || String.eqb op ">=" then 0.33%float
  else if String.eqb op "LIKE" then 0.1%float
  else 0.5%float.

End Spec.

(* ===================================================================== *)
(** ** Sample catalogs and plans *)
(* ===================================================================== *)

Module Samples.

Definition scan (id table : string) (rows : option Z) : LogicalPlan :=
  mkLogicalPlan id NodeTypeScan [] table "" None [] "" None [] [] []
    None None rows None ∅.

Definition join (id : string) (jt : JoinType) (l r : LogicalPlan)
  : LogicalPlan :=
  mkLogicalPlan id NodeTypeJoin [l; r] "" "" None [] jt None [] [] []
    None None None None ∅.

Definition binop (op : string) : Predicate :=
  mkPredicate (Some (mkExpression "binary_op" (VString op)
    (Some (mkExpression "column" (VString "customers.name") None None [] ""))
    (Some (mkExpression "literal" (VString "A%") None None [] "")) [] "")).

Definition filter (id op : string) (children : list LogicalPlan)
  : LogicalPlan :=
  mkLogicalPlan id NodeTypeFilter children "" "" (Some (binop op)) [] ""
    None [] [] [] None None None None ∅.

Definition project (id : string) (cols : list string)
    (children : list LogicalPlan) : LogicalPlan :=
  mkLogicalPlan id NodeTypeProject children "" ""
    None (List.map (fun c => mkColumn "" c "") cols) "" None [] [] []
    None None None None ∅.

Definition limit (id : string) (count : option Z)
    (children : list LogicalPlan) : LogicalPlan :=
  mkLogicalPlan id NodeTypeLimit children "" "" None [] "" None [] [] []
    count None None None ∅.

Definition age : catalog.Column :=
  catalog.mkColumn "age" "int" false (Some 70) (Some "18") (Some "90") []
    (Some 0).

Definition name : catalog.Column :=
  catalog.mkColumn "name" "string" false None None None [] None.

(** [customers(age, name)] with 5000 rows, [big] and [small]. *)
Definition customers : catalog.TableSchema :=
  catalog.mkTableSchema "customers" (catalog.mkColumnSlice 0 2) 5000 [] ∅.

Definition heap : catalog.Heap := {[ 0%nat := [age; name] ]}.

Definition cat : catalog.CatalogManager :=
  {| catalog.tables :=
       <["customers" := customers]>
         (<["big" := catalog.mkTableSchema "big" (catalog.mkColumnSlice 1 0)
                       1000000 [] ∅]>
            (<["small" := catalog.mkTableSchema "small"
                            (catalog.mkColumnSlice 2 0) 100 [] ∅]> ∅)) |}.

(** A stand-in for the simulator rules of the operators other than
    Scan, where a Scan-only plan is simulated. *)
Definition skip (plan : LogicalPlan) (m : simulator.ExecutionMetrics)
  : simulator.ExecutionMetrics := m.

(** The statistics of an [update_stats("customers", 9999, {age: ...})]. *)
Definition age_stats : gmap string catalog.Column :=
  {[ "age" := catalog.mkColumn "age" "int" false (Some 100) (Some "0")
                (Some "120") [] (Some 5) ]}.

End Samples.

(* ===================================================================== *)
(** ** Package logical_plan: the visitor *)
(* ===================================================================== *)

Module plan_visitor.

Definition error := string.

(** The fields of a [LogicalPlan] other than [Children]. *)
Record Node : Type := mkNode {
  n_ID            : string;
  n_NodeType      : NodeType;
  n_TableName     : string;
  n_Alias         : string;
  n_Predicate     : option Predicate;
  n_Projections   : list Column;
  n_JoinType      : JoinType;
  n_JoinCondition : option JoinCondition;
  n_GroupBy       : list Column;
  n_Aggregates    : list AggregateFunction;
  n_OrderBy       : list OrderBy;
  n_LimitCount    : option Z;
  n_OffsetCount   : option Z;
  n_EstimatedRows : option Z;
  n_EstimatedCost : option float;
  n_Metadata      : gmap string GoValue;
}.

(** A [*LogicalPlan] as [Accept] meets it: nil, or a node with the
    pointers of its [Children], any of which may be nil (a plan decoded
    from a request can hold a null child). *)
Inductive PlanPtr : Type :=
| nil_plan
| plan_ptr (node : Node) (children : list PlanPtr).

(** Induction following the children lists. *)
Section PtrInd.
Variable P : PlanPtr -> Prop.
Hypothesis Hnil : P nil_plan.
Hypothesis Hptr : forall node children,
    Forall P children -> P (plan_ptr node children).

Fixpoint PlanPtr_tree_ind (lp : PlanPtr) : P lp :=
  match lp with
  | nil_plan => Hnil
  | plan_ptr node children =>
      Hptr node children
        ((fix go (l : list PlanPtr) : Forall P l :=
            match l with
            | [] => @List.Forall_nil _ P
            | c :: l' => @List.Forall_cons _ P c l' (PlanPtr_tree_ind c) (go l')
            end) children)
  end.
End PtrInd.

(** The plan without null child as a pointer. *)
Fixpoint ptr_of (p : LogicalPlan) : PlanPtr :=
  plan_ptr
    {| n_ID := lp_ID p; n_NodeType := lp_NodeType p;
       n_TableName := lp_TableName p; n_Alias := lp_Alias p;
       n_Predicate := lp_Predicate p; n_Projections := lp_Projections p;
       n_JoinType := lp_JoinType p; n_JoinCondition := lp_JoinCondition p;
       n_GroupBy := lp_GroupBy p; n_Aggregates := lp_Aggregates p;
       n_OrderBy := lp_OrderBy p; n_LimitCount := lp_LimitCount p;
       n_OffsetCount := lp_OffsetCount p;
       n_EstimatedRows := lp_EstimatedRows p;
       n_EstimatedCost := lp_EstimatedCost p; n_Metadata := lp_Metadata p |}
    (List.map ptr_of (lp_Children p)).

(** The pointers a walk in pre-order comes to, a nil one included where
    a child slot holds nil. *)
Fixpoint slots (lp : PlanPtr) : list PlanPtr :=
  match lp with
  | nil_plan => [nil_plan]
  | plan_ptr _ children => lp :: flat_map slots children
  end.

Section Visitor.

(** The state of the object behind the interface. *)
Variable V : Type.

(** The interface [PlanVisitor].  A method reads the node, may update
    the visitor, may fail and may panic; it is taken not to write to
    the plan. *)
Record PlanVisitor : Type := mkPlanVisitor {
  VisitScan      : PlanPtr -> V -> outcome (V * option error);
  VisitFilter    : PlanPtr -> V -> outcome (V * option error);
  VisitProject   : PlanPtr -> V -> outcome (V * option error);
  VisitJoin      : PlanPtr -> V -> outcome (V * option error);
  VisitAggregate : PlanPtr -> V -> outcome (V * option error);
  VisitSort      : PlanPtr -> V -> outcome (V * option error);
  VisitLimit     : PlanPtr -> V -> outcome (V * option error);
  VisitUnion     : PlanPtr -> V -> outcome (V * option error);
  VisitSubquery  : PlanPtr -> V -> outcome (V * option error);
}.

Variable visitor : PlanVisitor.

(** The switch of [Accept]: reading [lp.NodeType] panics on a nil
    receiver, and [err] stays nil for a node type without a case. *)
Definition visit (lp : PlanPtr) (v : V) : outcome (V * option error) :=
  match lp with
  | nil_plan => Panic
  | plan_ptr node _ =>
      let nt := n_NodeType node in
      if String.eqb nt NodeTypeScan then VisitScan visitor lp v
      else if String.eqb nt NodeTypeFilter then VisitFilter visitor lp v
      else if String.eqb nt NodeTypeProject then VisitProject visitor lp v
      else if String.eqb nt NodeTypeJoin then VisitJoin visitor lp v
      else if String.eqb nt NodeTypeAggregate then VisitAggregate visitor lp v
      else if String.eqb nt NodeTypeSort then VisitSort visitor lp v
      else if String.eqb nt NodeTypeLimit then VisitLimit visitor lp v
      else if String.eqb nt NodeTypeUnion then VisitUnion visitor lp v
      else if String.eqb nt NodeTypeSubquery then VisitSubquery visitor lp v
      else Ret (v, None)
  end.

(** What is done with the next pointer [lp] after [acc]: nothing after
    an error or a panic. *)
Definition after (step : PlanPtr -> V -> outcome (V * option error))
    (acc : outcome (V * option error)) (lp : PlanPtr)
  : outcome (V * option error) :=
  r <~ acc ;;
  match r with
  | (v, None) => step lp v
  | (v, Some err) => Ret (v, Some err)
  end.

Fixpoint Accept (lp : PlanPtr) (v : V) : outcome (V * option error) :=
  match lp with
  | nil_plan => Panic
  | plan_ptr _ children =>
      fold_left (after Accept) children (visit lp v)
  end.

(** The pointers of a list visited one after the other, up to the first
    error or panic. *)
Definition visit_each (l : list PlanPtr) (v : V)
  : outcome (V * option error) :=
  fold_left (after visit) l (Ret (v, None)).

End Visitor.

End plan_visitor.

(* ===================================================================== *)
(** ** Package enumerator: tables, duplicates, alternatives, selection *)
(* ===================================================================== *)

Module plan_enumerator.

Import enumerator.

Definition error := string.

Record PlanEnumerator : Type := mkPlanEnumerator {
  costModel  : optimizer.CostModel;
  catalogMgr : catalog.CatalogManager;
  maxPlans   : Z;
}.

Definition NewPlanEnumerator (Log2 : float -> float)
    (catalogMgr : catalog.CatalogManager) : PlanEnumerator :=
  {| costModel :=
       optimizer.SimpleCostModel_CostModel Log2 cost_model.NewSimpleCostModel;
     catalogMgr := catalogMgr;
     maxPlans := 1000 |}.

Record PruningStatistics : Type := mkPruningStatistics {
  PlansGenerated : Z;
  PlansPruned    : Z;
  PlansEvaluated : Z;
}.

Record EnumerationResult : Type := mkEnumerationResult {
  BestPlan     : LogicalPlan;
  AllPlans     : list LogicalPlan;
  PlanCount    : Z;
  BestCost     : float;
  EnumStrategy : string;
  SearchSpace  : Z;
  PruningStats : PruningStatistics;
}.

(** *** The tables of a plan *)

(** [tables] and [seen] are threaded through the traversal; [seen] only
    ever maps a name to [true]. *)
Fixpoint extractTablesRecursive (plan : LogicalPlan)
    (acc : list string * gset string) : list string * gset string :=
  let '(tables, seen) := acc in
  let acc :=
    if String.eqb (lp_NodeType plan) NodeTypeScan
       && negb (String.eqb (lp_TableName plan) "") then
      if decide (lp_TableName plan ∈ seen) then (tables, seen)
      else ((tables ++ [lp_TableName plan])%list,
            {[ lp_TableName plan ]} ∪ seen)
    else (tables, seen) in
  fold_left (fun acc child => extractTablesRecursive child acc)
            (lp_Children plan) acc.

Definition extractTables (plan : LogicalPlan) : list string :=
  fst (extractTablesRecursive plan ([], ∅)).

Fixpoint planContainsTable (plan : LogicalPlan) (tableName : string) : bool :=
  if String.eqb (lp_NodeType plan) NodeTypeScan
     && String.eqb (lp_TableName plan) tableName then true
  else existsb (fun child => planContainsTable child tableName)
               (lp_Children plan).

(** *** Duplicates *)

(** The loop of [removeDuplicatePlans], for list elements that carry a
    plan: an element is kept when the signature of its plan has not been
    seen. *)
Definition removeDuplicatesBy {A} (plan_of : A -> LogicalPlan) (l : list A)
  : list A :=
  snd (fold_left
         (fun '(seen, unique) a =>
            let signature := getPlanSignature (plan_of a) in
            if decide (signature ∈ seen) then (seen, unique)
            else ({[ signature ]} ∪ seen, (unique ++ [a])%list))
         l ((∅ : gset string), [])).

Definition removeDuplicatePlans (plans : list LogicalPlan)
  : list LogicalPlan :=
  removeDuplicatesBy (fun plan => plan) plans.

(** *** Physical alternatives *)

(** A pointer in a list of alternatives is either the argument of the
    call that built the list or a node that call has allocated; the
    flag says which, and [childAlt != child] reads it. *)
Record Alternative : Type := mkAlternative {
  is_argument : bool;
  alternative : LogicalPlan;
}.

(** [alt := planCopy.Clone(); alt.Metadata[key] = value].  The map of a
    clone is never nil, so the test for it is left out. *)
Definition withMetadata (planCopy : LogicalPlan) (entries : list (string * string))
  : M Alternative :=
  alt <- Clone planCopy ;;
  ret (mkAlternative false
         (set_Metadata
            (fold_left (fun md '(key, value) => <[key := VString value]> md)
                       entries (lp_Metadata alt))
            alt)).

(** The body of [for _, baseAlt := range alternatives]: the slice is
    read as it is when the loop starts, what the loop appends comes
    after it. *)
Definition graft (i : nat) (childAlt : LogicalPlan)
    (alternatives : list Alternative) : M (list Alternative) :=
  news <- mapM (fun baseAlt =>
                  newPlan <- Clone (alternative baseAlt) ;;
                  if (i <? length (lp_Children newPlan))%nat then
                    ret [ mkAlternative false
                            (set_Children
                               (<[i := childAlt]> (lp_Children newPlan))
                               newPlan) ]
                  else ret [])
               alternatives ;;
  ret (alternatives ++ concat news)%list.

Section Alternatives.

Variable pe : PlanEnumerator.

Definition operatorAlternatives (plan planCopy : LogicalPlan)
  : M (list Alternative) :=
  let nt := lp_NodeType plan in
  if String.eqb nt NodeTypeJoin then
    hashJoinPlan <- withMetadata planCopy [("physical_operator", "hash_join")] ;;
    sortMergeJoinPlan <-
      withMetadata planCopy [("physical_operator", "sort_merge_join")] ;;
    nestedLoopJoinPlan <-
      withMetadata planCopy [("physical_operator", "nested_loop_join")] ;;
    ret [hashJoinPlan; sortMergeJoinPlan; nestedLoopJoinPlan]
  else if String.eqb nt NodeTypeAggregate then
    hashAggPlan <-
      withMetadata planCopy [("physical_operator", "hash_aggregate")] ;;
    sortAggPlan <-
      withMetadata planCopy [("physical_operator", "sort_aggregate")] ;;
    ret [hashAggPlan; sortAggPlan]
  else if String.eqb nt NodeTypeSort then
    quicksortPlan <- withMetadata planCopy [("physical_operator", "quicksort")] ;;
    externalSortPlan <-
      withMetadata planCopy [("physical_operator", "external_sort")] ;;
    ret [quicksortPlan; externalSortPlan]
  else if String.eqb nt NodeTypeScan then
    seqScanPlan <- withMetadata planCopy [("scan_type", "sequential")] ;;
    match catalog.GetTable (catalogMgr pe) (lp_TableName plan) with
    | inl table =>
        match catalog.Indexes table with
        | index :: _ =>
            indexScanPlan <-
              withMetadata planCopy
                [("scan_type", "index");
                 ("index_name", catalog.IndexName index)] ;;
            ret [seqScanPlan; indexScanPlan]
        | [] => ret [seqScanPlan]
        end
    | inr _ => ret [seqScanPlan]
    end
  else ret [].

(** The alternatives with their flags; the argument comes first. *)
Fixpoint physicalAlternatives (plan : LogicalPlan) : M (list Alternative) :=
  planCopy <- Clone plan ;;
  operators <- operatorAlternatives plan planCopy ;;
  let alternatives := mkAlternative true plan :: operators in
  r <- fold_left
         (fun (acc : M (nat * list Alternative)) child =>
            a <- acc ;;
            let '(i, alternatives) := a in
            childAlternatives <- physicalAlternatives child ;;
            alternatives <-
              fold_left
                (fun (acc : M (list Alternative)) childAlt =>
                   alternatives <- acc ;;
                   if is_argument childAlt then ret alternatives
                   else graft i (alternative childAlt) alternatives)
                childAlternatives (ret alternatives) ;;
            ret (S i, alternatives))
         (lp_Children plan) (ret (O, alternatives)) ;;
  ret (removeDuplicatesBy alternative (snd r)).

Definition generatePhysicalAlternatives (plan : LogicalPlan)
  : M (list LogicalPlan) :=
  alternatives <- physicalAlternatives plan ;;
  ret (List.map alternative alternatives).

Definition generateSingleTableAlternatives (plan : LogicalPlan)
  : M (list LogicalPlan) :=
  generatePhysicalAlternatives plan.

(** *** Selection *)

(** The variables of the loop of [selectBestPlan]. *)
Record Selection : Type := mkSelection {
  bestPlan       : option LogicalPlan;
  bestCost       : float;
  evaluatedCount : Z;
}.

(** One iteration; [break] leaves the state as it is for the rest of
    the list.  The cost model of the package returns no error. *)
Definition selectStep (s : Selection) (plan : LogicalPlan)
  : outcome Selection :=
  if maxPlans pe <=? evaluatedCount s then Ret s
  else
    cost <~ optimizer.EstimateCost (costModel pe) plan (catalogMgr pe) ;;
    let s :=
      if (cost_model.TotalCost cost <? bestCost s)%float then
        mkSelection (Some plan) (cost_model.TotalCost cost) (evaluatedCount s)
      else s in
    Ret (mkSelection (bestPlan s) (bestCost s) (evaluatedCount s + 1)).

Fixpoint selectLoop (plans : list LogicalPlan) (s : Selection)
  : outcome Selection :=
  match plans with
  | [] => Ret s
  | plan :: plans' => s' <~ selectStep s plan ;; selectLoop plans' s'
  end.

Definition selectBestPlan (plans : list LogicalPlan) (strategy : string)
  : outcome (EnumerationResult + error) :=
  match plans with
  | [] => Ret (inr "no plans to evaluate")
  | _ :: _ =>
      s <~ selectLoop plans (mkSelection None infinity 0) ;;
      match bestPlan s with
      | None => Ret (inr "no valid plan found")
      | Some best =>
          Ret (inl {| BestPlan := best;
                      AllPlans := plans;
                      PlanCount := Z.of_nat (length plans);
                      BestCost := bestCost s;
                      EnumStrategy := strategy;
                      SearchSpace := Z.of_nat (length plans);
                      PruningStats :=
                        {| PlansGenerated := Z.of_nat (length plans);
                           PlansPruned := 0;
                           PlansEvaluated := evaluatedCount s |} |})
      end
  end.

(** *** The entry point *)

(** The strategies for two tables and more are parameters here. *)
Variables enumerateWithDP enumerateWithGreedy
  : LogicalPlan -> list string -> M (EnumerationResult + error).

Definition EnumeratePlans (plan : option LogicalPlan)
  : M (EnumerationResult + error) :=
  match plan with
  | None => ret (inr "cannot enumerate plans for nil plan")
  | Some plan =>
      let tables := extractTables plan in
      if (length tables <=? 1)%nat then
        alternatives <- generateSingleTableAlternatives plan ;;
        lift (selectBestPlan (plan :: alternatives) "single_table")
      else if (length tables <=? 4)%nat then enumerateWithDP plan tables
      else enumerateWithGreedy plan tables
  end.

End Alternatives.

End plan_enumerator.

(* ===================================================================== *)
(** ** Views of a plan *)
(* ===================================================================== *)

(** What a pass may change is stated by erasing it: two plans with the
    same erasure differ in nothing else. *)
Module view.

Definition set_ID (id : string) (p : LogicalPlan) : LogicalPlan :=
  let 'mkLogicalPlan _ b c d e f g h i j k l m n o q r := p in
  mkLogicalPlan id b c d e f g h i j k l m n o q r.

Definition clear_Estimates (p : LogicalPlan) : LogicalPlan :=
  let 'mkLogicalPlan a b c d e f g h i j k l m n _ _ r := p in
  mkLogicalPlan a b c d e f g h i j k l m n None None r.

(** [f] applied at every node, the children first. *)
Fixpoint map_nodes (f : LogicalPlan -> LogicalPlan) (p : LogicalPlan)
  : LogicalPlan :=
  f (set_Children (List.map (map_nodes f) (lp_Children p)) p).

(** The plan without its node ids. *)
Definition erase_ids : LogicalPlan -> LogicalPlan := map_nodes (set_ID "").

(** The plan without its ids, metadata and estimates. *)
Definition strip (p : LogicalPlan) : LogicalPlan :=
  set_ID "" (set_Metadata ∅ (clear_Estimates p)).

Definition skeleton : LogicalPlan -> LogicalPlan := map_nodes strip.

(** The nodes of the tree, root first, children left to right. *)
Fixpoint nodes (p : LogicalPlan) : list LogicalPlan :=
  p :: flat_map nodes (lp_Children p).

End view.

(* ===================================================================== *)
(** ** Package catalog: the table listing *)
(* ===================================================================== *)

Module catalog_listing.

Import catalog.

(** [for name := range cm.tables { tables = append(tables, name) }].  Go
    leaves the iteration order of a map open; the names come here in the
    order of [map_to_list], and what is proved about the listing holds
    for every order. *)
Definition GetAllTables (cm : CatalogManager) : list string :=
  (map_to_list (tables cm)).*1.

End catalog_listing.

(* ===================================================================== *)
(** ** Package simulator: the rules of Filter, Project and Limit *)
(* ===================================================================== *)

Module simulator_operators.

Import simulator.

Definition sub64 (a b : Z) : Z := wrap64 (a - b).

(** [inputRows]: the estimate carried by the first child, 1000 when
    there is no child or the child carries none. *)
Definition inputRows (plan : LogicalPlan) : Z :=
  match lp_Children plan with
  | c0 :: _ =>
      match lp_EstimatedRows c0 with
      | Some rows => rows
      | None => 1000
      end
  | [] => 1000
  end.

(** A [*int64] stored behind [interface{}]. *)
Definition pointer_value (p : option Z) : GoValue :=
  match p with
  | Some n => VInt n
  | None => VNil
  end.

Definition simulateFilter (plan : LogicalPlan) (metrics : ExecutionMetrics)
  : ExecutionMetrics :=
  let inputRows := inputRows plan in
  let selectivity := 0.3%float in
  let outputRows := int64 (float64 inputRows * selectivity)%float in
  let cpuTime := mul64 (mul64 inputRows 5) Microsecond in
  {| ExecutionTime := ExecutionTime metrics;
     RowsProcessed := add64 (RowsProcessed metrics) inputRows;
     RowsReturned := outputRows;
     CPUTime := add64 (CPUTime metrics) cpuTime;
     IOOperations := IOOperations metrics;
     MemoryUsed := MemoryUsed metrics;
     NetworkTraffic := NetworkTraffic metrics;
     OperatorMetrics :=
       <[ lp_ID plan ++ "_filter" :=
            <["input_rows" := VInt inputRows]>
              (<["output_rows" := VInt outputRows]>
                 (<["selectivity" := VFloat selectivity]>
                    (<["predicate" := VString "simplified_predicate"]> ∅))) ]>
         (OperatorMetrics metrics);
     Connector := Connector metrics;
     SimulationOnly := SimulationOnly metrics |}.

Definition simulateProject (plan : LogicalPlan) (metrics : ExecutionMetrics)
  : ExecutionMetrics :=
  let inputRows := inputRows plan in
  let cpuTime := mul64 (mul64 inputRows 2) Microsecond in
  {| ExecutionTime := ExecutionTime metrics;
     RowsProcessed := add64 (RowsProcessed metrics) inputRows;
     RowsReturned := inputRows;
     CPUTime := add64 (CPUTime metrics) cpuTime;
     IOOperations := IOOperations metrics;
     MemoryUsed := MemoryUsed metrics;
     NetworkTraffic := NetworkTraffic metrics;
     OperatorMetrics :=
       <[ lp_ID plan ++ "_project" :=
            <["input_rows" := VInt inputRows]>
              (<["output_rows" := VInt inputRows]>
                 (<["projected_columns" :=
                      VInt (Z.of_nat (length (lp_Projections plan)))]> ∅)) ]>
         (OperatorMetrics metrics);
     Connector := Connector metrics;
     SimulationOnly := SimulationOnly metrics |}.

(** The rows a Limit hands on and the rows it reads, in this order. *)
Definition limitRows (plan : LogicalPlan) : Z * Z :=
  let inputRows := inputRows plan in
  match lp_LimitCount plan with
  | Some limit =>
      match lp_OffsetCount plan with
      | Some offset =>
          let processedRows := add64 offset limit in
          let processedRows :=
            if inputRows <? processedRows then inputRows else processedRows in
          let outputRows :=
            if offset <? processedRows then sub64 processedRows offset
            else 0 in
          (outputRows, processedRows)
      | None =>
          if limit <? inputRows then (limit, limit) else (inputRows, inputRows)
      end
  | None => (inputRows, inputRows)
  end.

Definition simulateLimit (plan : LogicalPlan) (metrics : ExecutionMetrics)
  : ExecutionMetrics :=
  let inputRows := inputRows plan in
  let '(outputRows, processedRows) := limitRows plan in
  let rowsProcessed := add64 (RowsProcessed metrics) processedRows in
  let cpuTime := mul64 (mul64 rowsProcessed 1) Microsecond in
  {| ExecutionTime := ExecutionTime metrics;
     RowsProcessed := rowsProcessed;
     RowsReturned := outputRows;
     CPUTime := add64 (CPUTime metrics) cpuTime;
     IOOperations := IOOperations metrics;
     MemoryUsed := MemoryUsed metrics;
     NetworkTraffic := NetworkTraffic metrics;
     OperatorMetrics :=
       <[ lp_ID plan ++ "_limit" :=
            <["input_rows" := VInt inputRows]>
              (<["output_rows" := VInt outputRows]>
                 (<["limit" := pointer_value (lp_LimitCount plan)]>
                    (<["offset" := pointer_value (lp_OffsetCount plan)]>
                       (<["early_termination" :=
                            VBool (outputRows <? inputRows)]> ∅)))) ]>
         (OperatorMetrics metrics);
     Connector := Connector metrics;
     SimulationOnly := SimulationOnly metrics |}.

(** The node types the switch of [simulateNode] has a case for. *)
Definition supported (nt : NodeType) : bool :=
  String.eqb nt NodeTypeScan || String.eqb nt NodeTypeFilter
  || String.eqb nt NodeTypeProject || String.eqb nt NodeTypeJoin
  || String.eqb nt NodeTypeAggregate || String.eqb nt NodeTypeSort
  || String.eqb nt NodeTypeLimit.

End simulator_operators.

(* ===================================================================== *)
(** ** Package enumerator: the join graph and the dynamic programming *)
(* ===================================================================== *)

Module join_enumeration.

Import enumerator plan_enumerator.

Record TableInfo : Type := mkTableInfo {
  ti_Name               : string;
  ti_Cardinality        : Z;
  ti_SelectivityFactors : gmap string float;
}.

Record JoinEdge : Type := mkJoinEdge {
  je_Left        : string;
  je_Right       : string;
  je_Selectivity : float;
  je_JoinType    : JoinType;
  je_Condition   : option JoinCondition;
}.

Record JoinGraph : Type := mkJoinGraph {
  jg_Tables     : list TableInfo;
  jg_Edges      : list JoinEdge;
  jg_Predicates : gmap string Predicate;
}.

(** [strings.Split(s, sep)] for a separator of one byte. *)
Fixpoint Split (s : string) (sep : ascii) : list string :=
  match s with
  | EmptyString => [""]
  | String c rest =>
      if Ascii.eqb c sep then "" :: Split rest sep
      else match Split rest sep with
           | part :: parts => String c part :: parts
           | [] => [String c ""]
           end
  end.

(** A [for] loop whose body runs in [M] on the variables [b]. *)
Fixpoint foldM {A B} (f : B -> A -> M B) (l : list A) (b : B) : M B :=
  match l with
  | [] => ret b
  | a :: l' => b' <- f b a ;; foldM f l' b'
  end.

(** [start, start+1, ..., n-1]. *)
Definition upto (start n : Z) : list Z :=
  List.map (fun k => start + Z.of_nat k) (seq 0 (Z.to_nat (n - start))).

(** [1 << i] on [int], for a count that is not negative. *)
Definition bit (i : Z) : Z := wrap64 (Z.shiftl 1 i).

(** *** The join graph *)

Definition extractTableFromExpression (expr : option Expression) : string :=
  match expr with
  | None => ""
  | Some e =>
      if negb (String.eqb (e_Type e) "column") then ""
      else match e_Value e with
           | VString value =>
               match Split value "." with
               | [table; _] => table
               | _ => ""
               end
           | _ => ""
           end
  end.

Definition estimateJoinSelectivity (condition : option JoinCondition) : float :=
  match condition with
  | None => 0.1
  | Some condition =>
      let op := jc_Operator condition in
      if String.eqb op "=" then 0.1
      else if String.eqb op "<" || String.eqb op ">"
              || String.eqb op "<=" || String.eqb op ">=" then 0.33
      else 0.5
  end.

(** The graph is shared and only its edges grow. *)
Fixpoint extractJoinConditions (plan : LogicalPlan) (joinGraph : JoinGraph)
  : JoinGraph :=
  let joinGraph :=
    if String.eqb (lp_NodeType plan) NodeTypeJoin then
      match lp_JoinCondition plan with
      | Some condition =>
          let leftTable := extractTableFromExpression (jc_Left condition) in
          let rightTable := extractTableFromExpression (jc_Right condition) in
          if negb (String.eqb leftTable "") && negb (String.eqb rightTable "")
          then
            let edge :=
              {| je_Left := leftTable;
                 je_Right := rightTable;
                 je_Selectivity := estimateJoinSelectivity (Some condition);
                 je_JoinType := lp_JoinType plan;
                 je_Condition := Some condition |} in
            {| jg_Tables := jg_Tables joinGraph;
               jg_Edges := (jg_Edges joinGraph ++ [edge])%list;
               jg_Predicates := jg_Predicates joinGraph |}
          else joinGraph
      | None => joinGraph
      end
    else joinGraph in
  fold_left (fun joinGraph child => extractJoinConditions child joinGraph)
            (lp_Children plan) joinGraph.

(** *** Subsets as bit masks *)

Fixpoint generateSubsetsRecursive (start n : Z) (size : nat) (current : Z)
    (subsets : list Z) {struct size} : list Z :=
  match size with
  | O => (subsets ++ [current])%list
  | S size' =>
      fold_left (fun subsets i =>
                   generateSubsetsRecursive (i + 1) n size'
                     (Z.lor current (bit i)) subsets)
                (upto start n) subsets
  end.

(** With a negative [size] the recursion never reaches [size == 0], it
    ends when [start] reaches [n], and nothing is appended. *)
Definition generateSubsets (n size : Z) : list Z :=
  if size <? 0 then [] else generateSubsetsRecursive 0 n (Z.to_nat size) 0 [].

(** [for x != 0 { count++; x &= x - 1 }]: every round clears one of the
    64 bits. *)
Fixpoint popcount_loop (fuel : nat) (x count : Z) : option Z :=
  if x =? 0 then Some count
  else match fuel with
       | O => None
       | S fuel' => popcount_loop fuel' (Z.land x (wrap64 (x - 1))) (count + 1)
       end.

Definition popcount (x : Z) : option Z := popcount_loop 64 x 0.

Fixpoint maskToTables_from (i : Z) (mask : Z) (tables : list string)
  : list string :=
  match tables with
  | [] => []
  | table :: tables' =>
      ((if negb (Z.land mask (bit i) =? 0) then [table] else [])
       ++ maskToTables_from (i + 1) mask tables')%list
  end.

Definition maskToTables (mask : Z) (tables : list string) : list string :=
  maskToTables_from 0 mask tables.

Definition contains (slice : list string) (item : string) : bool :=
  existsb (fun s => String.eqb s item) slice.

Definition findJoinEdge (leftMask rightMask : Z) (joinGraph : JoinGraph)
    (tables : list string) : option JoinEdge :=
  let leftTables := maskToTables leftMask tables in
  let rightTables := maskToTables rightMask tables in
  find (fun edge =>
          (contains leftTables (je_Left edge)
           && contains rightTables (je_Right edge))
          || (contains leftTables (je_Right edge)
              && contains rightTables (je_Left edge)))
       (jg_Edges joinGraph).

Definition swapJoinCondition (condition : option JoinCondition)
  : option JoinCondition :=
  match condition with
  | None => None
  | Some condition =>
      Some {| jc_Left := jc_Right condition;
              jc_Right := jc_Left condition;
              jc_Operator := jc_Operator condition |}
  end.

Section DynamicProgramming.

Variable pe : PlanEnumerator.

Definition getTableCardinality (tableName : string) : Z :=
  match catalog.GetTable (catalogMgr pe) tableName with
  | inl table => catalog.RowCount table
  | inr _ => 1000
  end.

Definition buildJoinGraph (plan : LogicalPlan) (tables : list string)
  : JoinGraph :=
  let joinGraph :=
    {| jg_Tables :=
         List.map (fun tableName =>
                     {| ti_Name := tableName;
                        ti_Cardinality := getTableCardinality tableName;
                        ti_SelectivityFactors := ∅ |})
                  tables;
       jg_Edges := [];
       jg_Predicates := ∅ |} in
  extractJoinConditions plan joinGraph.

(** [bestPlan] and [bestCost] after the cost of one more candidate; the
    cost model of the package returns no error. *)
Definition consider (best : option LogicalPlan * float)
    (candidate : LogicalPlan) : outcome (option LogicalPlan * float) :=
  cost <~ optimizer.EstimateCost (costModel pe) candidate (catalogMgr pe) ;;
  Ret (if (cost_model.TotalCost cost <? snd best)%float
       then (Some candidate, cost_model.TotalCost cost)
       else best).

(** The two candidates of a round: the Join of the two plans, then the
    Join with the inputs exchanged and the condition mirrored. *)
Definition candidates (leftPlan rightPlan : LogicalPlan) (joinEdge : JoinEdge)
    (best : option LogicalPlan * float) : M (option LogicalPlan * float) :=
  joinPlan <- NewJoinNode leftPlan rightPlan
                (je_JoinType joinEdge) (je_Condition joinEdge) ;;
  best <- lift (consider best joinPlan) ;;
  swappedJoin <- NewJoinNode rightPlan leftPlan
                   (je_JoinType joinEdge)
                   (swapJoinCondition (je_Condition joinEdge)) ;;
  lift (consider best swappedJoin).

(** The loop [for leftMask := subset; leftMask > 0;
    leftMask = (leftMask - 1) & subset]; [fuel] bounds its rounds. *)
Fixpoint splitLoop (fuel : nat) (subset : Z) (dp : gmap Z LogicalPlan)
    (joinGraph : JoinGraph) (tables : list string) (leftMask : Z)
    (best : option LogicalPlan * float) : M (option LogicalPlan) :=
  if leftMask <=? 0 then ret (fst best)
  else
    match fuel with
    | O => fun _ => OutOfFuel
    | S fuel' =>
        let continue :=
          splitLoop fuel' subset dp joinGraph tables
                    (Z.land (wrap64 (leftMask - 1)) subset) in
        let rightMask := Z.lxor subset leftMask in
        if (rightMask =? 0) || (leftMask =? subset) then continue best
        else
          match dp !! leftMask, dp !! rightMask with
          | Some leftPlan, Some rightPlan =>
              match findJoinEdge leftMask rightMask joinGraph tables with
              | None => continue best
              | Some joinEdge =>
                  best <- candidates leftPlan rightPlan joinEdge best ;;
                  continue best
              end
          | _, _ => continue best
          end
    end.

(** [leftMask] goes down by one at least in every round. *)
Definition findBestJoinForSubset (subset : Z) (dp : gmap Z LogicalPlan)
    (joinGraph : JoinGraph) (tables : list string) : M (option LogicalPlan) :=
  splitLoop (Z.to_nat subset) subset dp joinGraph tables subset
            (None, infinity).

(** The order in which [range dp] yields the entries of the map is not
    fixed by the language. *)
Variable range_dp : gmap Z LogicalPlan -> list (Z * LogicalPlan).

Definition generateDPJoinOrders (joinGraph : JoinGraph)
    (originalPlan : LogicalPlan) : M (list LogicalPlan) :=
  let tables := List.map ti_Name (jg_Tables joinGraph) in
  let n := Z.of_nat (length tables) in
  if n <=? 1 then ret [originalPlan]
  else
    dp <- foldM (fun dp '(i, table) =>
                   scan <- NewScanNode table "" ;;
                   ret (<[bit i := scan]> dp))
                (zip (upto 0 n) tables) (∅ : gmap Z LogicalPlan) ;;
    dp <- foldM (fun dp size =>
                   foldM (fun dp subset =>
                            bestPlan <- findBestJoinForSubset subset dp
                                          joinGraph tables ;;
                            ret (match bestPlan with
                                 | Some bestPlan => <[subset := bestPlan]> dp
                                 | None => dp
                                 end))
                         (generateSubsets n size) dp)
                (upto 2 (n + 1)) dp ;;
    let fullMask := wrap64 (bit n - 1) in
    match dp !! fullMask with
    | Some finalPlan =>
        plans <- foldM (fun plans '(mask, plan) =>
                          match popcount mask with
                          | Some count =>
                              ret (if n - 1 <=? count
                                   then (plans ++ [plan])%list else plans)
                          | None => fun _ => OutOfFuel
                          end)
                       (range_dp dp) [finalPlan] ;;
        ret (removeDuplicatePlans plans)
    | None => ret (removeDuplicatePlans [])
    end.

Definition enumerateWithDP (plan : LogicalPlan) (tables : list string)
  : M (EnumerationResult + error) :=
  let joinGraph := buildJoinGraph plan tables in
  plans <- generateDPJoinOrders joinGraph plan ;;
  allPlans <- foldM (fun allPlans logicalPlan =>
                       physicalAlternatives <-
                         generatePhysicalAlternatives pe logicalPlan ;;
                       ret (allPlans ++ physicalAlternatives)%list)
                    plans [] ;;
  lift (selectBestPlan pe allPlans "dynamic_programming").

End DynamicProgramming.

(** *** Observations on the plans of the dynamic programming *)

(** Scan nodes without children and Join nodes of two such trees. *)
Fixpoint scans_and_joins (p : LogicalPlan) : bool :=
  match lp_Children p with
  | [] => String.eqb (lp_NodeType p) NodeTypeScan
  | [l; r] =>
      String.eqb (lp_NodeType p) NodeTypeJoin
      && scans_and_joins l && scans_and_joins r
  | _ => false
  end.

(** [leftMask] and [rightMask] are the two parts of [subset] of a round
    of [findBestJoinForSubset] that gets past its first test. *)
Definition is_split (subset leftMask rightMask : Z) : Prop :=
  0 < leftMask /\ Z.land leftMask subset = leftMask
  /\ rightMask = Z.lxor subset leftMask
  /\ rightMask <> 0 /\ leftMask <> subset.

(** [p] is the first candidate of a round: the Join of the plans of the
    two parts, with the type and the condition of the edge found. *)
Definition joins_split (dp : gmap Z LogicalPlan) (joinGraph : JoinGraph)
    (tables : list string) (subset : Z) (p : LogicalPlan) : Prop :=
  exists leftMask rightMask leftPlan rightPlan joinEdge id,
    is_split subset leftMask rightMask
    /\ dp !! leftMask = Some leftPlan /\ dp !! rightMask = Some rightPlan
    /\ findJoinEdge leftMask rightMask joinGraph tables = Some joinEdge
    /\ p = mkLogicalPlan id NodeTypeJoin [leftPlan; rightPlan] "" "" None []
             (je_JoinType joinEdge) (je_Condition joinEdge) [] [] []
             None None None None ∅.

(** The number of one bits of a number that is not negative. *)
Fixpoint pos_ones (p : positive) : Z :=
  match p with
  | xH => 1
  | xO p' => pos_ones p'
  | xI p' => pos_ones p' + 1
  end.

Definition ones (x : Z) : Z :=
  match x with
  | Zpos p => pos_ones p
  | _ => 0
  end.

End join_enumeration.

(* ===================================================================== *)
(** * Properties *)
(* ===================================================================== *)

(** ** Facts on the Go primitives *)

Section GoFacts.

Lemma wrap64_id z : in_int64 z -> wrap64 z = z.
Proof.
  unfold in_int64, wrap64, min_int64, max_int64. intros Hz.
  rewrite Z.mod_small; lia.
Qed.


Lemma mul64_comm a b : mul64 a b = mul64 b a.
Proof. unfold mul64. now rewrite Z.mul_comm. Qed.

Lemma itoa_inj a b : itoa a = itoa b -> a = b.
Proof.
  unfold itoa. intros H.
  assert (Hi : Z.to_int a = Z.to_int b).
  { assert (Hnn : forall z, Z.to_int z <> Decimal.Pos Decimal.Nil
                         /\ Z.to_int z <> Decimal.Neg Decimal.Nil).
    { intros [|p|p]; simpl; split; try discriminate;
        intros [= Hp]; now apply DecimalPos.Unsigned.to_uint_nonnil in Hp. }
    apply (f_equal NilZero.int_of_string) in H.
    rewrite !NilZero.isi in H by apply Hnn. now inversion H. }
  apply (f_equal Z.of_int) in Hi. now rewrite !DecimalZ.of_to in Hi.
Qed.

(** IEEE addition is commutative, NaN and the infinities included. *)
Lemma SF64add_comm x y : SF64add x y = SF64add y x.
Proof.
  unfold SF64add, SFadd.
  destruct x as [sx|sx| |sx mx ex], y as [sy|sy| |sy my ey];
    try reflexivity.
  - destruct sx, sy; reflexivity.
  - destruct sx, sy; reflexivity.
  - rewrite (Z.min_comm ey ex). now rewrite Z.add_comm.
Qed.

Lemma float_add_comm (x y : float) : (x + y = y + x)%float.
Proof.
  rewrite <- (SF2Prim_Prim2SF (x + y)), <- (SF2Prim_Prim2SF (y + x)).
  rewrite !add_spec. now rewrite SF64add_comm.
Qed.

End GoFacts.

(** ** Facts on the monads *)

Section MonadFacts.

Lemma obind_Ret {A B} (x : outcome A) (f : A -> outcome B) b :
  obind x f = Ret b -> exists a, x = Ret a /\ f a = Ret b.
Proof. destruct x as [a|]; simpl; [eauto | discriminate]. Qed.

Lemma bind_Done {A B} (m : M A) (k : A -> M B) st b st2 :
  bind m k st = Done b st2 ->
  exists a st1, m st = Done a st1 /\ k a st1 = Done b st2.
Proof.
  unfold bind. destruct (m st) as [a st1| |]; [eauto | discriminate..].
Qed.

Lemma lift_Done {A} (x : outcome A) st a st' :
  lift x st = Done a st' -> x = Ret a /\ st' = st.
Proof. destruct x; simpl; [intros [= -> ->]; auto | discriminate]. Qed.



End MonadFacts.

(** Unfold one node of a function defined by recursion on the plan. *)
Ltac plan_case p :=
  destruct p as [id nt cs tn al pr pj jt jc gb ag ob lc oc er ec md];
  simpl in *; subst; simpl in *.

(* ===================================================================== *)
(** ** The cost model: cardinalities *)
(* ===================================================================== *)

Section CardinalityFacts.

Import cost_model.

Variable catalogMgr : catalog.CatalogManager.

Abbreviation card := (EstimateCardinality catalogMgr).

(** The nine node types are pairwise distinct strings, so a switch on a
    known node type selects its branch by computation. *)

Lemma card_Scan plan :
  lp_NodeType plan = NodeTypeScan ->
  card plan =
    match catalog.GetTable catalogMgr (lp_TableName plan) with
    | inl table => Ret (catalog.RowCount table)
    | inr _ => Ret 1000
    end.
Proof.
  intros Hnt. plan_case plan.
  now destruct (catalog.GetTable _ _).
Qed.

Lemma card_Filter plan c rest :
  lp_NodeType plan = NodeTypeFilter -> lp_Children plan = c :: rest ->
  card plan =
    (n <~ card c ;;
     Ret (int64 (float64 n * estimateSelectivity (lp_Predicate plan))%float)).
Proof. intros Hnt Hch. plan_case plan. reflexivity. Qed.

Lemma card_Join plan L R rest :
  lp_NodeType plan = NodeTypeJoin -> lp_Children plan = L :: R :: rest ->
  card plan =
    (l <~ card L ;;
     r <~ card R ;;
     let jt := lp_JoinType plan in
     if String.eqb jt JoinTypeCross then Ret (mul64 l r)
     else if String.eqb jt JoinTypeInner then
       Ret (int64 (float64 (mul64 l r) * 0.1)%float)
     else if String.eqb jt JoinTypeLeft then Ret l
     else if String.eqb jt JoinTypeRight then Ret r
     else if String.eqb jt JoinTypeFull then Ret (add64 l r)
     else Ret (int64 (float64 (mul64 l r) * 0.1)%float)).
Proof. intros Hnt Hch. plan_case plan. reflexivity. Qed.

Lemma card_Limit plan c rest :
  lp_NodeType plan = NodeTypeLimit -> lp_Children plan = c :: rest ->
  card plan =
    (n <~ card c ;;
     match lp_LimitCount plan with
     | Some k => Ret (Z.min n k)
     | None => Ret n
     end).
Proof.
  intros Hnt Hch. plan_case plan.
  destruct lc as [k|]; destruct (card c) as [n|]; simpl; auto.
  destruct (Z.ltb_spec n k) as [Hlt|Hge]; f_equal; lia.
Qed.

Lemma I1_limit_has_child p : I1 p = true -> limit_has_child p = true.
Proof.
  induction p as [p IH] using LogicalPlan_tree_ind.
  destruct p as [id nt cs tn al pr pj jt jc gb ag ob lc oc er ec md].
  simpl in *. intros H. apply andb_prop in H as [Har Hcs].
  apply andb_true_intro. split.
  - unfold arity_ok in Har. simpl in Har.
    destruct (String.eqb_spec nt NodeTypeLimit) as [->|]; [|reflexivity].
    simpl in Har. destruct lc; [|reflexivity].
    destruct cs; [discriminate | reflexivity].
  - rewrite forallb_forall in *. rewrite List.Forall_forall in IH. auto.
Qed.

Lemma card_total p : limit_has_child p = true -> is_Ret (card p).
Proof.
  induction p as [p IH] using LogicalPlan_tree_ind.
  destruct p as [id nt cs tn al pr pj jt jc gb ag ob lc oc er ec md].
  simpl in *. intros H. apply andb_prop in H as [Hl Hcs].
  assert (Hc : forall c, In c cs -> is_Ret (card c)).
  { intros c Hin. rewrite List.Forall_forall in IH.
    rewrite forallb_forall in Hcs. auto. }
  assert (Hhd : forall c rest, cs = c :: rest -> is_Ret (card c)).
  { intros c rest ->. apply Hc. now left. }
  assert (Hhd2 : forall a c rest, cs = a :: c :: rest -> is_Ret (card c)).
  { intros a c rest ->. apply Hc. right. now left. }
  unfold is_Ret in *.
  repeat match goal with
         | |- context [String.eqb nt ?s] => destruct (String.eqb nt s) eqn:?
         end;
    try match goal with
        | |- context [catalog.GetTable ?a ?b] => destruct (catalog.GetTable a b)
        end;
    try (destruct lc; [|]);
    try (destruct cs as [|c0 [|c1 rest]]);
    try discriminate; simpl;
    try (destruct (Hhd _ _ eq_refl) as [n0 ->]; simpl);
    try (destruct (Hhd2 _ _ _ eq_refl) as [n1 ->]; simpl);
    repeat match goal with
           | |- context [if ?b then _ else _] => destruct b
           | |- context [match ?l with [] => _ | _ :: _ => _ end] => destruct l
           end;
    eauto.
Qed.

End CardinalityFacts.

(* ===================================================================== *)
(** ** Cardinality rules of the cost model *)
(* ===================================================================== *)

Section CardinalityClaims.

Import cost_model.

(** C4.  The cardinality function follows the table of the cost model on
    every plan tree, int64 arithmetic understood: a Scan yields the
    catalog row count of its table, or 1000 when the catalog does not
    know the table; a Join of [L] and [R] yields [0.1 * (|L|*|R|)]
    (truncated) for inner, [|L|*|R|] for cross, [|L|] for left, [|R|] for
    right and [|L|+|R|] for full; a Limit with count [k] over [c] yields
    [min(|c|, k)], and [|c|] when no count is set. *)
Theorem EstimateCardinality_rules (catalogMgr : catalog.CatalogManager)
    (plan : LogicalPlan) :
  (lp_NodeType plan = NodeTypeScan ->
   EstimateCardinality catalogMgr plan =
     Ret (match catalog.tables catalogMgr !! lp_TableName plan with
          | Some table => catalog.RowCount table
          | None => 1000
          end))
  /\ (forall L R rest l r,
        lp_NodeType plan = NodeTypeJoin ->
        lp_Children plan = L :: R :: rest ->
        EstimateCardinality catalogMgr L = Ret l ->
        EstimateCardinality catalogMgr R = Ret r ->
        (lp_JoinType plan = JoinTypeInner ->
         EstimateCardinality catalogMgr plan =
           Ret (int64 (float64 (mul64 l r) * 0.1)%float))
        /\ (lp_JoinType plan = JoinTypeCross ->
            EstimateCardinality catalogMgr plan = Ret (mul64 l r))
        /\ (lp_JoinType plan = JoinTypeLeft ->
            EstimateCardinality catalogMgr plan = Ret l)
        /\ (lp_JoinType plan = JoinTypeRight ->
            EstimateCardinality catalogMgr plan = Ret r)
        /\ (lp_JoinType plan = JoinTypeFull ->
            EstimateCardinality catalogMgr plan = Ret (add64 l r)))
  /\ (forall c rest n,
        lp_NodeType plan = NodeTypeLimit ->
        lp_Children plan = c :: rest ->
        EstimateCardinality catalogMgr c = Ret n ->
        (forall k, lp_LimitCount plan = Some k ->
                   EstimateCardinality catalogMgr plan = Ret (Z.min n k))
        /\ (lp_LimitCount plan = None ->
            EstimateCardinality catalogMgr plan = Ret n)).
Proof.
  split; [|split].
  - intros Hnt. rewrite card_Scan by assumption.
    unfold catalog.GetTable. now destruct (_ !! _).
  - intros L R rest l r Hnt Hch HL HR.
    rewrite (card_Join _ _ _ _ _ Hnt Hch), HL, HR. simpl.
    repeat split; intros ->; reflexivity.
  - intros c rest n Hnt Hch Hc.
    rewrite (card_Limit _ _ _ _ Hnt Hch), Hc. simpl.
    split; [intros k ->| intros ->]; reflexivity.
Qed.

Lemma EstimateCardinality_rules_witness :
  EstimateCardinality Samples.cat
    (Samples.limit "l" (Some 7)
       [Samples.join "j" JoinTypeCross (Samples.scan "a" "big" None)
          (Samples.scan "b" "small" None)]) = Ret 7.
Proof.
  pose (j := Samples.join "j" JoinTypeCross (Samples.scan "a" "big" None)
               (Samples.scan "b" "small" None)).
  assert (Hj : EstimateCardinality Samples.cat j = Ret 100000000).
  { apply (proj1 (proj2 (proj1 (proj2
      (EstimateCardinality_rules Samples.cat j))
      (Samples.scan "a" "big" None) (Samples.scan "b" "small" None) []
      1000000 100 eq_refl eq_refl
      (proj1 (EstimateCardinality_rules Samples.cat
                (Samples.scan "a" "big" None)) eq_refl)
      (proj1 (EstimateCardinality_rules Samples.cat
                (Samples.scan "b" "small" None)) eq_refl)))).
    reflexivity. }
  exact (proj1 (proj2 (proj2
    (EstimateCardinality_rules Samples.cat (Samples.limit "l" (Some 7) [j])))
    j [] 100000000 eq_refl eq_refl Hj) 7 eq_refl).
Defined.

(** C10.  On every plan that satisfies the arity invariant (I1) the
    cardinality function returns; it already returns when only the Limit
    nodes carrying a count have a child.  On a node without children
    every branch returns, except the Limit branch with a count, which
    reads [Children[0]] and panics. *)
Theorem EstimateCardinality_total (catalogMgr : catalog.CatalogManager) :
  (forall p, I1 p = true -> is_Ret (EstimateCardinality catalogMgr p))
  /\ (forall p, limit_has_child p = true ->
                is_Ret (EstimateCardinality catalogMgr p))
  /\ (forall p, lp_Children p = [] ->
        (EstimateCardinality catalogMgr p = Panic <->
         lp_NodeType p = NodeTypeLimit /\ lp_LimitCount p <> None)).
Proof.
  split; [|split].
  - intros p Hp. now apply card_total, I1_limit_has_child.
  - intros p Hp. now apply card_total.
  - intros p Hch. plan_case p.
    repeat match goal with
           | |- context [String.eqb nt ?s] =>
               destruct (String.eqb_spec nt s); subst; simpl
           end;
      try destruct (catalog.GetTable _ _);
      try destruct lc;
      (split;
       [ intros H; first [discriminate H | split; [reflexivity | discriminate]]
       | intros [H1 H2];
         first [reflexivity | discriminate H1 | congruence] ]).
Qed.

Lemma EstimateCardinality_total_witness :
  is_Ret (EstimateCardinality Samples.cat
            (Samples.limit "l" (Some 7) [Samples.scan "a" "big" None]))
  /\ EstimateCardinality Samples.cat (Samples.limit "l" (Some 7) []) = Panic.
Proof.
  split.
  - apply (proj1 (EstimateCardinality_total Samples.cat)). reflexivity.
  - apply (proj2 (proj2 (EstimateCardinality_total Samples.cat))).
    + reflexivity.
    + split; [reflexivity | discriminate].
Defined.

End CardinalityClaims.

(* ===================================================================== *)
(** ** Filter cardinality and the selectivity of the cost model *)
(* ===================================================================== *)

Section FilterClaims.

Import cost_model.

(** The catalog oracle computes the table of section 4.2. *)
Lemma catalog_oracle_is_spec_table cm h table column op v col :
  catalog.GetColumnStats cm h table column = inl col ->
  catalog.EstimateSelectivity cm h table column op v
  = (Spec.selectivity op (catalog.NDV col), None).
Proof.
  intros Hcol. unfold catalog.EstimateSelectivity, Spec.selectivity.
  rewrite Hcol.
  destruct (String.eqb op "=").
  - destruct (catalog.NDV col) as [n|]; [destruct (0 <? n)|]; reflexivity.
  - destruct (_ || _); [reflexivity|].
    destruct (String.eqb op "LIKE"); reflexivity.
Qed.

(** C2, as stated, fails.  [Filter(name LIKE 'A%', Scan(customers))] over
    5000 rows: the oracle of section 4.2 gives 0.1 for LIKE, hence 500
    rows, while the cost model estimates 1000 rows. *)
Lemma Filter_cardinality_not_catalog_selectivity :
  let child := Samples.scan "s" "customers" None in
  let plan := Samples.filter "f" "LIKE" [child] in
  EstimateCardinality Samples.cat child = Ret 5000
  /\ catalog.EstimateSelectivity Samples.cat Samples.heap
       "customers" "name" "LIKE" (VString "A%")
     = (Spec.selectivity "LIKE" None, None)
  /\ int64 (float64 5000 * Spec.selectivity "LIKE" None)%float = 500
  /\ EstimateCardinality Samples.cat plan = Ret 1000
  /\ EstimateCardinality Samples.cat plan
     <> Ret (int64 (float64 5000 * Spec.selectivity "LIKE" None)%float).
Proof.
  cbv zeta. repeat split; try reflexivity.
  vm_compute. discriminate.
Qed.

(** C2, amended.  For every Filter node over a child of cardinality [n]
    the estimate is [n * sel] truncated to an integer, where [sel] comes
    from the cost model's own table, read off the value at the root of
    the predicate and consulting no statistics: 1.0 without a predicate
    or expression, 0.1 for [=], 0.33 for the four order comparisons, 0.2
    for [LIKE], 0.3 for [IN], 0.05 for [IS NULL], 0.95 for [IS NOT NULL],
    and 0.5 for any other value. *)
Theorem EstimateCardinality_Filter (catalogMgr : catalog.CatalogManager)
    (plan c : LogicalPlan) (rest : list LogicalPlan) (n : Z) :
  lp_NodeType plan = NodeTypeFilter ->
  lp_Children plan = c :: rest ->
  EstimateCardinality catalogMgr c = Ret n ->
  let sel := estimateSelectivity (lp_Predicate plan) in
  EstimateCardinality catalogMgr plan = Ret (int64 (float64 n * sel)%float)
  /\ (lp_Predicate plan = None -> sel = 1.0%float)
  /\ (forall p, lp_Predicate plan = Some p -> p_Expression p = None ->
                sel = 1.0%float)
  /\ (forall p e, lp_Predicate plan = Some p -> p_Expression p = Some e ->
        (e_Value e = VString "=" -> sel = 0.1%float)
        /\ (e_Value e = VString "<" \/ e_Value e = VString ">" \/
            e_Value e = VString "<=" \/ e_Value e = VString ">=" ->
            sel = 0.33%float)
        /\ (e_Value e = VString "LIKE" -> sel = 0.2%float)
        /\ (e_Value e = VString "IN" -> sel = 0.3%float)
        /\ (e_Value e = VString "IS NULL" -> sel = 0.05%float)
        /\ (e_Value e = VString "IS NOT NULL" -> sel = 0.95%float)
        /\ ((forall op, In op ["="; "<"; ">"; "<="; ">="; "LIKE"; "IN";
                               "IS NULL"; "IS NOT NULL"] ->
                        e_Value e <> VString op) ->
            sel = 0.5%float)).
Proof.
  intros Hnt Hch Hc sel. split; [|split; [|split]].
  - rewrite (card_Filter _ _ _ _ Hnt Hch), Hc. reflexivity.
  - subst sel. now intros ->.
  - subst sel. intros p -> Hp. simpl. now rewrite Hp.
  - subst sel. intros p e -> Hp. simpl. rewrite Hp.
    repeat split.
    + now intros ->.
    + intros [-> | [-> | [-> | ->]]]; reflexivity.
    + now intros ->.
    + now intros ->.
    + now intros ->.
    + now intros ->.
    + intros Hother.
      assert (Hno : forall op,
                 In op ["="; "<"; ">"; "<="; ">="; "LIKE"; "IN";
                        "IS NULL"; "IS NOT NULL"] ->
                 value_is (e_Value e) op = false).
      { intros op Hin. specialize (Hother op Hin).
        destruct (e_Value e) as [| | | |s]; try reflexivity. simpl.
        destruct (String.eqb_spec s op); [subst; congruence | reflexivity]. }
      rewrite !Hno by (simpl; tauto). reflexivity.
Qed.

Lemma EstimateCardinality_Filter_witness :
  EstimateCardinality Samples.cat
    (Samples.filter "f" ">" [Samples.scan "s" "customers" None]) = Ret 1650.
Proof.
  exact (proj1 (EstimateCardinality_Filter Samples.cat
                  (Samples.filter "f" ">" [Samples.scan "s" "customers" None])
                  (Samples.scan "s" "customers" None) [] 5000
                  eq_refl eq_refl eq_refl)).
Defined.

End FilterClaims.

(* ===================================================================== *)
(** ** The catalog *)
(* ===================================================================== *)

Section CatalogFacts.

Import catalog.

Lemma update_step_spec columnStats (arr : list Column) i :
  update_step columnStats arr i = alter (refresh columnStats) i arr.
Proof.
  unfold update_step.
  destruct (arr !! i) as [col|] eqn:Hi.
  - unfold refresh.
    destruct (columnStats !! Name col) as [stats|] eqn:Hs.
    + apply list_eq. intros j. destruct (decide (i = j)) as [<-|Hne].
      * rewrite list_lookup_insert_eq by (eapply lookup_lt_Some; eauto).
        rewrite list_lookup_alter_eq, Hi. simpl. now rewrite Hs.
      * rewrite list_lookup_insert_ne, list_lookup_alter_ne by done. done.
    + apply list_eq. intros j. destruct (decide (i = j)) as [<-|Hne].
      * rewrite list_lookup_alter_eq, Hi. simpl. now rewrite Hs.
      * now rewrite list_lookup_alter_ne.
  - apply list_eq. intros j. destruct (decide (i = j)) as [<-|Hne].
    + rewrite list_lookup_alter_eq, Hi. done.
    + now rewrite list_lookup_alter_ne.
Qed.

Lemma update_loop_lookup columnStats n (arr : list Column) i :
  update_loop columnStats n arr !! i =
    if decide (i < n)%nat then refresh columnStats <$> arr !! i
    else arr !! i.
Proof.
  unfold update_loop. revert i. induction n as [|n IH]; intros i.
  - destruct (decide (i < 0)%nat); [lia | done].
  - rewrite seq_S, fold_left_app. cbn [fold_left Nat.add].
    rewrite update_step_spec.
    destruct (decide (n = i)) as [<-|Hne].
    + rewrite list_lookup_alter_eq, IH.
      repeat case_decide; try lia. done.
    + rewrite list_lookup_alter_ne, IH by done.
      repeat case_decide; try lia; done.
Qed.

Lemma update_loop_elements columnStats n (arr : list Column) :
  take n (update_loop columnStats n arr)
  = List.map (refresh columnStats) (take n arr).
Proof.
  apply list_eq. intros i.
  destruct (decide (i < n)%nat) as [Hlt|Hge].
  - rewrite lookup_take_lt, update_loop_lookup by done.
    rewrite decide_True by done.
    change (List.map (refresh columnStats) (take n arr))
      with (refresh columnStats <$> take n arr).
    rewrite list_lookup_fmap, lookup_take_lt by done. done.
  - rewrite lookup_take_ge by lia.
    change (List.map (refresh columnStats) (take n arr))
      with (refresh columnStats <$> take n arr).
    rewrite list_lookup_fmap, lookup_take_ge by lia. done.
Qed.

End CatalogFacts.

Section CatalogClaims.

Import catalog.

(** C9.  [AddTable] returns an error exactly when the catalog already
    has a table of that name, and then leaves the catalog as it was;
    otherwise it binds the name to the schema.  [UpdateTableStats]
    returns an error exactly when the table is absent, and then changes
    nothing; otherwise it sets the row count and rewrites the five
    statistics fields of exactly the columns whose names have an entry
    in the supplied map, every other column, field and table staying as
    it was. *)
Theorem catalog_update_contract (cm : CatalogManager) (h : Heap) :
  (forall schema,
      let '(cm', err) := AddTable cm schema in
      (err <> None <-> is_Some (tables cm !! TableName schema))
      /\ (err <> None ->
          cm' = cm /\
          err = Some ("table " ++ TableName schema ++ " already exists"))
      /\ (err = None ->
          tables cm' = <[TableName schema := schema]> (tables cm)))
  /\ (forall tableName rowCount columnStats,
      let '(cm', h', err) :=
        UpdateTableStats cm h tableName rowCount columnStats in
      (err <> None <-> tables cm !! tableName = None)
      /\ (err <> None ->
          cm' = cm /\ h' = h /\
          err = Some ("table " ++ tableName ++ " not found"))
      /\ (forall table, tables cm !! tableName = Some table ->
          err = None
          /\ (exists table',
                tables cm' !! tableName = Some table'
                /\ RowCount table' = rowCount
                /\ TableName table' = TableName table
                /\ Columns table' = Columns table
                /\ Indexes table' = Indexes table
                /\ Metadata table' = Metadata table
                /\ elements h' (Columns table')
                   = List.map (refresh columnStats)
                       (elements h (Columns table)))
          /\ (forall other, other <> tableName ->
                tables cm' !! other = tables cm !! other)))
  /\ (forall columnStats col,
        (columnStats !! Name col = None -> refresh columnStats col = col)
        /\ (forall stats, columnStats !! Name col = Some stats ->
              refresh columnStats col
              = {| Name := Name col; ColType := ColType col;
                   Nullable := Nullable col; NDV := NDV stats;
                   MinValue := MinValue stats; MaxValue := MaxValue stats;
                   Histogram := Histogram stats;
                   NullCount := NullCount stats |})).
Proof.
  split; [|split].
  - intros schema. unfold AddTable.
    destruct (tables cm !! TableName schema) as [t|] eqn:Ht.
    + split; [split; [eauto | discriminate] | split; [auto | discriminate]].
    + split; [split; [congruence | intros [t' Ht']; discriminate] |].
      split; [congruence | reflexivity].
  - intros tableName rowCount columnStats. unfold UpdateTableStats.
    destruct (tables cm !! tableName) as [t|] eqn:Ht.
    + split; [|split].
      * split; congruence.
      * congruence.
      * intros table [= <-]. split; [reflexivity|]. split.
        -- eexists. split; [apply lookup_insert_eq|]. simpl.
           repeat split.
           unfold elements.
           destruct (h !! base (Columns t)) as [arr|] eqn:Harr.
           ++ rewrite lookup_insert_eq. simpl. apply update_loop_elements.
           ++ rewrite Harr. simpl. now rewrite take_nil.
        -- intros other Hne. simpl. now rewrite lookup_insert_ne.
    + split; [|split].
      * split; [reflexivity | discriminate].
      * auto.
      * intros table H. discriminate H.
  - intros columnStats col. unfold refresh. split.
    + now intros ->.
    + now intros stats ->.
Qed.

Lemma catalog_update_contract_witness :
  fst (AddTable Samples.cat Samples.customers) = Samples.cat
  /\ snd (UpdateTableStats Samples.cat Samples.heap "customers" 9999
            Samples.age_stats) = None.
Proof.
  pose proof (catalog_update_contract Samples.cat Samples.heap) as [HA [HU _]].
  split.
  - specialize (HA Samples.customers).
    destruct (AddTable Samples.cat Samples.customers) as [cm' err] eqn:E.
    destruct HA as (Hiff & Hfail & _). simpl.
    apply Hfail, Hiff. exists Samples.customers. reflexivity.
  - specialize (HU "customers" 9999 Samples.age_stats).
    destruct (UpdateTableStats Samples.cat Samples.heap "customers" 9999
                Samples.age_stats) as [[cm' h'] err] eqn:E.
    destruct HU as (_ & _ & Hok). simpl.
    apply (Hok Samples.customers). reflexivity.
Defined.

(** C5 does not hold of [GetTable].  The schema it returns copies the
    struct but shares the backing array of [Columns] with the catalog:
    after [UpdateTableStats("customers", 9999, {age: NDV 100, ...})] the
    snapshot taken before still shows 5000 rows, while the NDV, the
    bounds and the null count of its column [age] are the new ones. *)
Theorem GetTable_snapshot_shares_columns :
  exists snapshot cm' h',
    GetTable Samples.cat "customers" = inl snapshot
    /\ UpdateTableStats Samples.cat Samples.heap "customers" 9999
         Samples.age_stats = (cm', h', None)
    /\ RowCount snapshot = 5000
    /\ (RowCount <$> tables cm' !! "customers") = Some 9999
    /\ List.map NDV (elements Samples.heap (Columns snapshot))
       = [Some 70; None]
    /\ List.map NDV (elements h' (Columns snapshot)) = [Some 100; None]
    /\ List.map MaxValue (elements h' (Columns snapshot))
       = [Some "120"; None]
    /\ elements h' (Columns snapshot)
       <> elements Samples.heap (Columns snapshot).
Proof.
  do 3 eexists. split; [reflexivity|]. split; [reflexivity|].
  repeat split; try reflexivity.
  vm_compute. discriminate.
Qed.

End CatalogClaims.

(* ===================================================================== *)
(** ** The simulator on Scan-only plans *)
(* ===================================================================== *)

Section SimulatorClaims.

Import simulator.

(** C7, as stated, fails.  [Scan(customers)] without [estimated_rows],
    against a catalog that records 5000 rows for [customers]: the
    simulator returns the default 1000 rows, the cost model 5000. *)
Lemma simulated_rows_not_cardinality :
  let plan := Samples.scan "s" "customers" None in
  (exists m,
      SimulateExecution Samples.skip Samples.skip Samples.skip Samples.skip
      Samples.skip Samples.skip 0 (Some plan) "postgres"
      = inl m /\ RowsReturned m = 1000)
  /\ cost_model.EstimateCardinality Samples.cat plan = Ret 5000.
Proof.
  cbv zeta. split; [eexists; split; reflexivity | reflexivity].
Qed.

(** C7, amended.  For a plan that is a single Scan node, whatever the
    connector, the simulation succeeds and [rows_returned] is the
    [estimated_rows] stamped on the node, or 1000 when the node carries
    none.  It equals the cost model's cardinality of the node exactly
    when that value is the catalog row count of the table, or 1000 for a
    table the catalog does not know. *)
Theorem simulated_rows_of_Scan
    (simulateFilter simulateProject simulateJoin simulateAggregate
     simulateSort simulateLimit
       : LogicalPlan -> ExecutionMetrics -> ExecutionMetrics)
    (elapsed : Z) (catalogMgr : catalog.CatalogManager)
    (plan : LogicalPlan) (connector : string) :
  lp_NodeType plan = NodeTypeScan ->
  lp_Children plan = [] ->
  (forall rows, lp_EstimatedRows plan = Some rows -> in_int64 rows) ->
  exists m,
    SimulateExecution simulateFilter simulateProject simulateJoin
      simulateAggregate simulateSort simulateLimit elapsed (Some plan)
      connector = inl m
    /\ RowsReturned m = default 1000 (lp_EstimatedRows plan)
    /\ (cost_model.EstimateCardinality catalogMgr plan = Ret (RowsReturned m)
        <-> default 1000 (catalog.RowCount <$>
                            catalog.tables catalogMgr !! lp_TableName plan)
            = default 1000 (lp_EstimatedRows plan)).
Proof.
  intros Hnt Hch Hrange.
  assert (Hrows : add64 0 (default 1000 (lp_EstimatedRows plan))
                  = default 1000 (lp_EstimatedRows plan)).
  { unfold add64. rewrite Z.add_0_l. apply wrap64_id.
    destruct (lp_EstimatedRows plan) as [r|]; simpl; [auto|].
    unfold in_int64, min_int64, max_int64. lia. }
  assert (Hcard : cost_model.EstimateCardinality catalogMgr plan
                  = Ret (default 1000 (catalog.RowCount <$>
                           catalog.tables catalogMgr !! lp_TableName plan))).
  { rewrite card_Scan by assumption. unfold catalog.GetTable.
    now destruct (_ !! _). }
  assert (Hgen : exists m,
             GenericSimulator_SimulateExecution simulateFilter simulateProject
               simulateJoin simulateAggregate simulateSort simulateLimit
               elapsed (Some plan) = inl m
             /\ RowsReturned m = default 1000 (lp_EstimatedRows plan)).
  { plan_case plan. eexists. split; [reflexivity|]. simpl.
    destruct er; exact Hrows. }
  destruct Hgen as (m & Hm & Hr).
  assert (Hout : exists m',
             SimulateExecution simulateFilter simulateProject simulateJoin
               simulateAggregate simulateSort simulateLimit elapsed
               (Some plan) connector = inl m'
             /\ RowsReturned m' = RowsReturned m).
  { unfold SimulateExecution, PostgresSimulator_SimulateExecution,
      MongoSimulator_SimulateExecution.
    rewrite Hm.
    destruct (String.eqb connector "postgres");
      [|destruct (String.eqb connector "mongo")];
      eexists; (split; [reflexivity|]);
      try reflexivity; plan_case plan; reflexivity. }
  destruct Hout as (m' & Hm' & Hr').
  exists m'. split; [exact Hm'|]. rewrite Hr', Hr. split; [reflexivity|].
  rewrite Hcard. split; [intros [= ->]; reflexivity | intros ->; reflexivity].
Qed.

Lemma simulated_rows_of_Scan_witness :
  exists m,
    SimulateExecution Samples.skip Samples.skip Samples.skip Samples.skip
      Samples.skip Samples.skip 0
      (Some (Samples.scan "s" "customers" (Some 5000))) "mongo" = inl m
    /\ RowsReturned m = 5000.
Proof.
  destruct (simulated_rows_of_Scan Samples.skip Samples.skip Samples.skip Samples.skip
      Samples.skip Samples.skip 0
              Samples.cat (Samples.scan "s" "customers" (Some 5000)) "mongo"
              eq_refl eq_refl) as (m & Hm & Hr & _).
  - intros rows [= <-]. unfold in_int64, min_int64, max_int64. lia.
  - exists m. split; [exact Hm | exact Hr].
Defined.

End SimulatorClaims.

(* ===================================================================== *)
(** ** Clone *)
(* ===================================================================== *)

Section CloneFacts.

Lemma mapM_total {A B} (f : A -> M B) (l : list A) :
  Forall (fun a => forall st, exists b st', f a st = Done b st') l ->
  forall st, exists bs st', mapM f l st = Done bs st'.
Proof.
  induction 1 as [|a l Ha _ IH]; intros st; simpl.
  - unfold ret. eauto.
  - unfold bind. destruct (Ha st) as (b & st1 & ->).
    destruct (IH st1) as (bs & st2 & ->). unfold ret. eauto.
Qed.

Lemma mapM_rel {A B} (f : A -> M B) (R : A -> B -> Prop) (l : list A) :
  Forall (fun a => forall st b st', f a st = Done b st' -> R a b) l ->
  forall st bs st', mapM f l st = Done bs st' -> Forall2 R l bs.
Proof.
  induction 1 as [|a l Ha _ IH]; intros st bs st' H; simpl in H.
  - injection H as <- <-. constructor.
  - apply bind_Done in H as (b & st1 & Hb & H).
    apply bind_Done in H as (bs' & st2 & Hbs & H). injection H as <- <-.
    constructor; eauto.
Qed.

Lemma Clone_total p : forall st, exists p' st', Clone p st = Done p' st'.
Proof.
  induction p as [p IH] using LogicalPlan_tree_ind. intros st.
  destruct p as [id nt cs tn al pr pj jt jc gb ag ob lc oc er ec md].
  simpl in *. unfold bind at 1. simpl.
  destruct (mapM_total Clone cs IH (add64 st 1)) as (cs' & st' & Hcs).
  unfold bind. rewrite Hcs. unfold ret. eauto.
Qed.

(** Any relation that holds between a node and its copy once it holds
    between the children and their copies holds between a plan and its
    clone. *)
Lemma Clone_rel (R : LogicalPlan -> LogicalPlan -> Prop) :
  (forall p id cs', Forall2 R (lp_Children p) cs' -> R p (cloneNode p id cs')) ->
  forall p st p' st', Clone p st = Done p' st' -> R p p'.
Proof.
  intros HR p. induction p as [p IH] using LogicalPlan_tree_ind.
  intros st p' st' H.
  destruct p as [id nt cs tn al pr pj jt jc gb ag ob lc oc er ec md].
  simpl in *.
  apply bind_Done in H as (id' & st1 & _ & H).
  apply bind_Done in H as (cs' & st2 & Hcs & H). injection H as <- <-.
  apply (HR (mkLogicalPlan id nt cs tn al pr pj jt jc gb ag ob lc oc er ec md)).
  simpl. eapply mapM_rel; eauto.
Qed.

Lemma fold_signature_ext (cs cs' : list LogicalPlan) :
  Forall2 (fun c c' =>
             enumerator.getPlanSignature c' = enumerator.getPlanSignature c)
          cs cs' ->
  forall acc,
    fold_left (fun sig child =>
                 sig ++ "(" ++ enumerator.getPlanSignature child ++ ")")%string
              cs' acc
    = fold_left (fun sig child =>
                   sig ++ "(" ++ enumerator.getPlanSignature child ++ ")")%string
                cs acc.
Proof.
  induction 1 as [|c c' cs cs' Hc _ IH]; intros acc; simpl.
  - reflexivity.
  - now rewrite Hc, IH.
Qed.

Lemma Clone_signature p st p' st' :
  Clone p st = Done p' st' ->
  enumerator.getPlanSignature p' = enumerator.getPlanSignature p.
Proof.
  apply (Clone_rel (fun p p' =>
           enumerator.getPlanSignature p' = enumerator.getPlanSignature p)).
  intros q id cs' Hcs. destruct q. simpl in *.
  now apply fold_signature_ext.
Qed.

Lemma flat_map_ext_Forall2 {A B} (f : A -> list B) (l l' : list A) :
  Forall2 (fun a a' => f a' = f a) l l' -> flat_map f l' = flat_map f l.
Proof.
  induction 1 as [|a a' l l' Ha _ IH]; simpl; [reflexivity|].
  now rewrite Ha, IH.
Qed.

Lemma Clone_scan_tables p st p' st' :
  Clone p st = Done p' st' -> scan_tables p' = scan_tables p.
Proof.
  apply (Clone_rel (fun p p' => scan_tables p' = scan_tables p)).
  intros q id cs' Hcs. destruct q. simpl in *.
  f_equal. now apply flat_map_ext_Forall2.
Qed.

Lemma forallb_ext_Forall2 {A} (f : A -> bool) (l l' : list A) :
  Forall2 (fun a a' => f a' = f a) l l' -> forallb f l' = forallb f l.
Proof.
  induction 1 as [|a a' l l' Ha _ IH]; simpl; [reflexivity|].
  now rewrite Ha, IH.
Qed.

Lemma Clone_I1 p st p' st' : Clone p st = Done p' st' -> I1 p' = I1 p.
Proof.
  apply (Clone_rel (fun p p' => I1 p' = I1 p)).
  intros q id cs' Hcs. destruct q. simpl in *.
  unfold arity_ok. simpl.
  rewrite (forallb_ext_Forall2 _ _ _ Hcs).
  now rewrite (Forall2_length _ _ _ Hcs).
Qed.

End CloneFacts.

Section CloneIds.

Lemma issued_mono st1 st2 st1' st2' id :
  st1' <= st1 -> st2 <= st2' -> issued st1 st2 id -> issued st1' st2' id.
Proof. intros H1 H2 (k & Hk & ->). exists k. split; [lia | reflexivity]. Qed.

Lemma node_id_inj a b : ("node_" ++ itoa a = "node_" ++ itoa b)%string -> a = b.
Proof. simpl. intros [= H]. now apply itoa_inj. Qed.

Lemma mapM_Clone_ids (l : list LogicalPlan) :
  Forall clone_ids_spec l ->
  forall st bs st',
    mapM Clone l st = Done bs st' ->
    in_int64 st ->
    st + Z.of_nat (list_sum (List.map plan_size l)) <= max_int64 ->
    st' = st + Z.of_nat (list_sum (List.map plan_size l))
    /\ Forall (issued st st') (flat_map plan_ids bs).
Proof.
  induction 1 as [|a l Ha _ IH]; intros st bs st' H Hst Hmax; simpl in *.
  - injection H as <- <-. split; [lia | constructor].
  - apply bind_Done in H as (b & st1 & Hb & H).
    apply bind_Done in H as (bs' & st2 & Hbs & H). injection H as <- <-.
    destruct (Ha _ _ _ Hb Hst ltac:(lia)) as [-> Hids].
    assert (Hst1 : in_int64 (st + Z.of_nat (plan_size a))).
    { unfold in_int64 in *. lia. }
    destruct (IH _ _ _ Hbs Hst1 ltac:(lia)) as [-> Hrest].
    split; [lia|]. apply Forall_app. split.
    + eapply Forall_impl; [exact Hids|]. intros id. apply issued_mono; lia.
    + eapply Forall_impl; [exact Hrest|]. intros id. apply issued_mono; lia.
Qed.

Lemma Clone_ids p : clone_ids_spec p.
Proof.
  induction p as [p IH] using LogicalPlan_tree_ind.
  intros st p' st' H Hst Hmax.
  destruct p as [id nt cs tn al pr pj jt jc gb ag ob lc oc er ec md].
  simpl in *.
  apply bind_Done in H as (id' & st1 & Hid & H).
  apply bind_Done in H as (cs' & st2 & Hcs & H). injection H as <- <-.
  unfold generateID in Hid. injection Hid as <- <-.
  assert (Hnext : add64 st 1 = st + 1).
  { apply wrap64_id. unfold in_int64 in *. lia. }
  rewrite Hnext in *.
  assert (Hst1 : in_int64 (st + 1)) by (unfold in_int64 in *; lia).
  destruct (mapM_Clone_ids cs IH _ _ _ Hcs Hst1 ltac:(lia)) as [-> Hids].
  split; [lia|]. simpl. constructor.
  - exists (st + 1). split; [lia | reflexivity].
  - eapply Forall_impl; [exact Hids|]. intros i. apply issued_mono; lia.
Qed.

(** Ids that the generator issued earlier are not among those it has
    still to issue. *)
Lemma issued_ids_not_pending p lo st :
  Forall (issued lo st) (plan_ids p) ->
  forall k, st < k -> ~ In ("node_" ++ itoa k) (plan_ids p).
Proof.
  intros Hall k Hk Hin. rewrite List.Forall_forall in Hall.
  destruct (Hall _ Hin) as (j & Hj & E). apply node_id_inj in E. lia.
Qed.

End CloneIds.

Section CloneClaims.

(** C8, as stated, fails on the second half.  A plan decoded from a
    request may carry any id: with the counter at 0, the clone of a Scan
    node whose id is ["node_1"] is given the id ["node_1"]. *)
Lemma Clone_may_reissue_an_id :
  exists p' st',
    Clone (Samples.scan "node_1" "orders" None) 0 = Done p' st'
    /\ In "node_1" (plan_ids p')
    /\ In "node_1" (plan_ids (Samples.scan "node_1" "orders" None)).
Proof.
  do 2 eexists. split; [reflexivity|]. split; left; reflexivity.
Qed.

(** C8, amended.  Whenever [Clone] returns -- it does not on a tree
    with a null child slot, where it panics, and such trees are not
    among the plans of this development -- the clone has the plan
    signature of the original.  The clone shares no node id with the
    original when the original carries no id that the generator has
    still to issue, that is no ["node_k"] with [k] above the current
    counter (so in particular when all its ids were issued by the
    generator), the counter staying within int64.  The recursion of
    [Clone] always ends. *)
Theorem Clone_signature_and_ids (p p' : LogicalPlan)
    (idCounter idCounter' : Z) :
  Clone p idCounter = Done p' idCounter' ->
  enumerator.getPlanSignature p' = enumerator.getPlanSignature p
  /\ (in_int64 idCounter ->
      idCounter + Z.of_nat (plan_size p) <= max_int64 ->
      (forall k, idCounter < k -> ~ In ("node_" ++ itoa k) (plan_ids p)) ->
      forall id, In id (plan_ids p') -> ~ In id (plan_ids p))
  /\ forall q st, Clone q st <> OutOfFuel.
Proof.
  intros H. split; [|split].
  - eapply Clone_signature; eauto.
  - intros Hst Hmax Hfresh id Hin Hin'.
    destruct (Clone_ids p _ _ _ H Hst Hmax) as [_ Hids].
    rewrite List.Forall_forall in Hids.
    destruct (Hids id Hin) as (k & Hk & ->).
    apply (Hfresh k); [lia | exact Hin'].
  - intros q st. destruct (Clone_total q st) as (q' & st' & ->). discriminate.
Qed.

Lemma Clone_signature_and_ids_witness :
  let p := Samples.join "node_1" JoinTypeInner
             (Samples.scan "node_2" "big" None)
             (Samples.scan "node_3" "small" None) in
  exists p' idCounter',
    Clone p 3 = Done p' idCounter'
    /\ enumerator.getPlanSignature p' = enumerator.getPlanSignature p
    /\ forall id, In id (plan_ids p') -> ~ In id ["node_1"; "node_2"; "node_3"].
Proof.
  cbv zeta.
  assert (E : exists p' st',
             Clone (Samples.join "node_1" JoinTypeInner
                      (Samples.scan "node_2" "big" None)
                      (Samples.scan "node_3" "small" None)) 3
             = Done p' st')
    by (vm_compute; eexists _, _; reflexivity).
  destruct E as (p' & st' & E).
  destruct (Clone_signature_and_ids
              (Samples.join "node_1" JoinTypeInner
                 (Samples.scan "node_2" "big" None)
                 (Samples.scan "node_3" "small" None)) p' 3 st' E)
    as (Hsig & Hids & _).
  exists p', st'. split; [exact E|]. split; [exact Hsig|].
  apply Hids.
  - unfold in_int64, min_int64, max_int64. lia.
  - unfold max_int64. simpl. lia.
  - intros k Hk. simpl.
    intros [E1 | [E1 | [E1 | []]]];
      [ apply (node_id_inj 1 k) in E1 | apply (node_id_inj 2 k) in E1
      | apply (node_id_inj 3 k) in E1 ]; lia.
Defined.

End CloneClaims.

(* ===================================================================== *)
(** ** The rewrite rules *)
(* ===================================================================== *)

Section RuleFacts.

Import optimizer.

Lemma plan_size_child p c :
  In c (lp_Children p) -> (plan_size c < plan_size p)%nat.
Proof.
  destruct p as [id nt cs tn al pr pj jt jc gb ag ob lc oc er ec md].
  simpl. induction cs as [|a cs IH]; simpl; intros Hin; [tauto|].
  destruct Hin as [->|Hin]; [lia|]. specialize (IH Hin). lia.
Qed.

Lemma rewriteChildren_fuel rec (l : list LogicalPlan) :
  Forall (fun c => forall st, rec c st <> OutOfFuel) l ->
  forall st, rewriteChildren rec l st <> OutOfFuel.
Proof.
  induction 1 as [|c l Hc _ IH]; intros st; simpl; [discriminate|].
  unfold bind. specialize (Hc st).
  destruct (rec c st) as [r st1| |]; try discriminate; [|congruence].
  specialize (IH st1).
  destruct (rewriteChildren rec l st1) as [rs st2| |];
    try discriminate; congruence.
Qed.

(** The children handed back by the loop are related to the old ones by
    any reflexive relation the recursive call establishes. *)
Lemma rewriteChildren_rel rec (R : LogicalPlan -> LogicalPlan -> Prop)
    (l : list LogicalPlan) :
  (forall c, R c c) ->
  Forall (fun c => forall st c' ch st', rec c st = Done (c', ch) st' -> R c c') l ->
  forall st l' ch st',
    rewriteChildren rec l st = Done (l', ch) st' -> Forall2 R l l'.
Proof.
  intros Hrefl. induction 1 as [|c l Hc _ IH]; intros st l' ch st' H;
    simpl in H.
  - injection H as <- <- <-. constructor.
  - apply bind_Done in H as ([c' chc] & st1 & Hrec & H).
    apply bind_Done in H as ([cs' chs] & st2 & Hrest & H).
    injection H as <- <- <-. simpl.
    constructor; [|eauto].
    destruct chc; [eauto | apply Hrefl].
Qed.

(** When the loop reports no change, the children are the old ones. *)
Lemma rewriteChildren_unchanged rec (l : list LogicalPlan) :
  forall st l' st',
    rewriteChildren rec l st = Done (l', false) st' -> l' = l.
Proof.
  induction l as [|c l IH]; intros st l' st' H; simpl in H.
  - now injection H as <- <-.
  - apply bind_Done in H as ([c' chc] & st1 & Hrec & H).
    apply bind_Done in H as ([cs' chs] & st2 & Hrest & H).
    injection H as <- Hch <-. simpl in *.
    apply orb_false_elim in Hch as [-> ->]. f_equal. eauto.
Qed.

Lemma set_Children_same p : set_Children (lp_Children p) p = p.
Proof. now destruct p. Qed.

Lemma rewriteNode_fuel plan st :
  PredicatePushdownRule.rewriteNode plan st <> OutOfFuel.
Proof.
  unfold PredicatePushdownRule.rewriteNode.
  destruct (_ && _); [|discriminate].
  destruct (lp_Children plan) as [|child ?]; [discriminate|].
  destruct (String.eqb _ NodeTypeProject).
  - simpl. destruct (lp_Children child); discriminate.
  - destruct (String.eqb _ NodeTypeJoin); discriminate.
Qed.

(** What the rewrite at a node returns: the node itself, unchanged, or
    [Project(pi, Filter(p, c0))] built from [Filter(p, Project(pi, c0 ...))]. *)
Lemma rewriteNode_cases plan st r st' :
  PredicatePushdownRule.rewriteNode plan st = Done r st' ->
  (r = (plan, false) /\ st' = st /\
   ~ (lp_NodeType plan = NodeTypeFilter /\
      exists child, lp_Children plan = [child]
                    /\ lp_NodeType child = NodeTypeProject))
  \/ (exists child c0 rest0 newFilter st1,
        lp_NodeType plan = NodeTypeFilter
        /\ lp_Children plan = [child]
        /\ lp_NodeType child = NodeTypeProject
        /\ lp_Children child = c0 :: rest0
        /\ NewFilterNode c0 (lp_Predicate plan) st = Done newFilter st1
        /\ exists newProject,
             NewProjectNode newFilter (lp_Projections child) st1
             = Done newProject st'
             /\ r = (newProject, true)).
Proof.
  unfold PredicatePushdownRule.rewriteNode.
  destruct (String.eqb_spec (lp_NodeType plan) NodeTypeFilter) as [Hnt|Hnt];
    simpl.
  2:{ intros [= <- <-]. left. repeat split. tauto. }
  destruct (lp_Children plan) as [|child [|c2 rest]] eqn:Hch; simpl.
  - intros [= <- <-]. left. repeat split. intros (_ & c & [=] & _).
  - destruct (String.eqb_spec (lp_NodeType child) NodeTypeProject) as [Hp|Hp].
    + simpl. destruct (lp_Children child) as [|c0 rest0] eqn:Hcc;
        [discriminate|].
      intros H. right.
      apply bind_Done in H as (nf & st1 & Hnf & H).
      apply bind_Done in H as (np & st2 & Hnp & H). injection H as <- <-.
      exists child, c0, rest0, nf, st1. repeat split; eauto.
    + destruct (String.eqb _ NodeTypeJoin); simpl;
        intros [= <- <-]; left; repeat split;
        intros (_ & c & [= <-] & Hc); contradiction.
  - intros [= <- <-]. left. repeat split. intros (_ & c & [=] & _).
Qed.

Lemma applyRecursive_fuel fuel :
  forall plan st,
    (plan_size plan <= fuel)%nat ->
    PredicatePushdownRule.applyRecursive fuel plan st <> OutOfFuel.
Proof.
  induction fuel as [|fuel IH]; intros plan st Hsz.
  - destruct plan; simpl in Hsz; lia.
  - simpl. unfold bind.
    pose proof (rewriteNode_fuel plan st) as Hn.
    destruct (PredicatePushdownRule.rewriteNode plan st) as [r st1| |] eqn:Hr;
      try discriminate; [|congruence].
    assert (Hkids : Forall (fun c => (plan_size c <= fuel)%nat)
                           (lp_Children (fst r))).
    { apply rewriteNode_cases in Hr as
          [(-> & _ & _) | (child & c0 & rest0 & nf & st0 & Hnt & Hch & Hp & Hcc
                           & Hnf & np & Hnp & ->)].
      - simpl. apply List.Forall_forall. intros c Hin.
        apply plan_size_child in Hin. lia.
      - unfold NewFilterNode, NewProjectNode, bind, generateID, ret in *.
        injection Hnf as <- <-. injection Hnp as <- <-. simpl.
        constructor; [|constructor]. simpl.
        assert (H1 : (plan_size child < plan_size plan)%nat).
        { apply plan_size_child. rewrite Hch. now left. }
        assert (H2 : (plan_size c0 < plan_size child)%nat).
        { apply plan_size_child. rewrite Hcc. now left. }
        lia. }
    assert (Hrc : rewriteChildren (PredicatePushdownRule.applyRecursive fuel)
                    (lp_Children (fst r)) st1 <> OutOfFuel).
    { apply rewriteChildren_fuel.
      eapply Forall_impl; [exact Hkids|]. intros c Hc st'. now apply IH. }
    destruct (rewriteChildren _ _ st1) as [rs st2| |];
      try discriminate; congruence.
Qed.

End RuleFacts.

Section PreservationFacts.

Import optimizer.

Lemma I1_unfold p : I1 p = arity_ok p && forallb I1 (lp_Children p).
Proof. now destruct p. Qed.

Lemma scan_tables_unfold p :
  scan_tables p =
    ((if String.eqb (lp_NodeType p) NodeTypeScan then [lp_TableName p] else [])
       ++ flat_map scan_tables (lp_Children p))%list.
Proof. now destruct p. Qed.

Lemma arity_ok_ext p q :
  lp_NodeType p = lp_NodeType q ->
  length (lp_Children p) = length (lp_Children q) ->
  arity_ok p = arity_ok q.
Proof. unfold arity_ok. now intros -> ->. Qed.

Lemma set_Children_NodeType cs p :
  lp_NodeType (set_Children cs p) = lp_NodeType p.
Proof. now destruct p. Qed.

Lemma set_Children_TableName cs p :
  lp_TableName (set_Children cs p) = lp_TableName p.
Proof. now destruct p. Qed.

Lemma set_Children_Children cs p : lp_Children (set_Children cs p) = cs.
Proof. now destruct p. Qed.

Lemma keeps_refl p : keeps p p.
Proof. now intros H. Qed.

Lemma keeps_children (cs cs' : list LogicalPlan) :
  Forall2 keeps cs cs' ->
  forallb I1 cs = true ->
  forallb I1 cs' = true
  /\ flat_map scan_tables cs' = flat_map scan_tables cs
  /\ length cs' = length cs.
Proof.
  induction 1 as [|c c' cs cs' Hc _ IH]; simpl; intros H; [auto|].
  apply andb_prop in H as [H1 H2].
  destruct (Hc H1) as [Hc1 Hc2]. destruct (IH H2) as (IH1 & IH2 & IH3).
  rewrite Hc1, IH1, Hc2, IH2, IH3. auto.
Qed.

(** Replacing the children of a well-formed node by children that keep
    the property keeps it. *)
Lemma keeps_set_Children p cs' :
  Forall2 keeps (lp_Children p) cs' -> keeps p (set_Children cs' p).
Proof.
  intros HF Hp. rewrite I1_unfold in Hp. apply andb_prop in Hp as [Ha Hcs].
  destruct (keeps_children _ _ HF Hcs) as (H1 & H2 & H3).
  rewrite I1_unfold, (scan_tables_unfold (set_Children cs' p)),
    (scan_tables_unfold p).
  rewrite set_Children_NodeType, set_Children_TableName,
    set_Children_Children, H1, H2.
  split; [|reflexivity]. apply andb_true_intro. split; [|reflexivity].
  rewrite <- Ha. apply arity_ok_ext.
  - apply set_Children_NodeType.
  - now rewrite set_Children_Children.
Qed.

Lemma keeps_trans p q r : keeps p q -> keeps q r -> keeps p r.
Proof.
  intros H1 H2 Hp. destruct (H1 Hp) as [Hq E1].
  destruct (H2 Hq) as [Hr E2]. split; [auto | congruence].
Qed.

Lemma PredicatePushdown_keeps fuel :
  forall plan st out ch st',
    PredicatePushdownRule.applyRecursive fuel plan st = Done (out, ch) st' ->
    keeps plan out.
Proof.
  induction fuel as [|fuel IH]; intros plan st out ch st' H; [discriminate|].
  simpl in H.
  apply bind_Done in H as (r & st1 & Hr & H).
  apply bind_Done in H as ([cs' chs] & st2 & Hcs & H).
  injection H as <- <- <-. simpl.
  assert (Hkids : Forall2 keeps (lp_Children (fst r)) cs').
  { eapply rewriteChildren_rel; [apply keeps_refl | | exact Hcs].
    apply List.Forall_forall. intros c _ s c' chc s' Hc. eapply IH; eauto. }
  apply keeps_trans with (q := fst r); [|now apply keeps_set_Children].
  apply rewriteNode_cases in Hr as
      [(-> & _ & _) | (child & c0 & rest0 & nf & st0 & Hnt & Hch & Hp & Hcc
                       & Hnf & np & Hnp & ->)].
  - apply keeps_refl.
  - simpl. intros HI.
    unfold NewFilterNode, NewProjectNode, bind, generateID, ret in *.
    injection Hnf as <- <-. injection Hnp as <- <-.
    rewrite I1_unfold, Hch in HI. simpl in HI.
    apply andb_prop in HI as [_ HI]. rewrite andb_true_r in HI.
    rewrite I1_unfold, Hcc in HI. unfold arity_ok in HI.
    rewrite Hp, Hcc in HI. simpl in HI.
    destruct rest0; [|discriminate]. simpl in HI. rewrite andb_true_r in HI.
    rewrite (scan_tables_unfold plan), Hnt, Hch. simpl.
    rewrite (scan_tables_unfold child), Hp, Hcc. simpl.
    rewrite HI. simpl. rewrite !app_nil_r. auto.
Qed.

Lemma ProjectionPushdown_keeps n :
  forall plan st out ch st',
    (plan_size plan <= n)%nat ->
    ProjectionPushdownRule.applyRecursive plan st = Done (out, ch) st' ->
    keeps plan out.
Proof.
  induction n as [|n IH]; intros plan st out ch st' Hsz H.
  { destruct plan; simpl in Hsz; lia. }
  assert (Hrec : forall q, (plan_size q < plan_size plan)%nat ->
            Forall (fun c => forall s c' chc s',
                      ProjectionPushdownRule.applyRecursive c s
                      = Done (c', chc) s' -> keeps c c') (lp_Children q)).
  { intros q Hq. apply List.Forall_forall. intros c Hin s c' chc s' Hc.
    apply plan_size_child in Hin. eapply (IH c); [lia | exact Hc]. }
  destruct plan as [id nt cs tn al pr pj jt jc gb ag ob lc oc er ec md].
  simpl in H.
  set (plan := mkLogicalPlan id nt cs tn al pr pj jt jc gb ag ob lc oc er ec md)
    in *.
  destruct (String.eqb nt NodeTypeProject && Nat.eqb (length cs) 1
            && isRedundantProjection pj) eqn:Hfire.
  - apply andb_prop in Hfire as [Hfire _].
    apply andb_prop in Hfire as [Hnt Hlen].
    apply String.eqb_eq in Hnt. apply Nat.eqb_eq in Hlen.
    destruct cs as [|child [|? ?]]; try discriminate.
    apply bind_Done in H as ([cs' chs] & st2 & Hcs & H).
    injection H as <- <- <-. simpl.
    apply keeps_trans with (q := child).
    + intros HI. subst plan. simpl in HI.
      apply andb_prop in HI as [_ HI]. rewrite andb_true_r in HI.
      split; [exact HI|]. subst nt. simpl. now rewrite app_nil_r.
    + apply keeps_set_Children.
      eapply rewriteChildren_rel; [apply keeps_refl | | exact Hcs].
      apply Hrec. subst plan. simpl. lia.
  - apply bind_Done in H as ([cs' chs] & st2 & Hcs & H).
    injection H as <- <- <-. simpl.
    apply (keeps_set_Children plan).
    eapply rewriteChildren_rel; [apply keeps_refl | | exact Hcs].
    assert (Hall : Forall (fun c => (plan_size c < plan_size plan)%nat) cs).
    { apply List.Forall_forall. intros c Hin.
      apply (plan_size_child plan). exact Hin. }
    apply List.Forall_forall. intros c Hin s c' chc s' Hc.
    rewrite List.Forall_forall in Hall. specialize (Hall c Hin).
    eapply (IH c); [lia | exact Hc].
Qed.

End PreservationFacts.

(* ===================================================================== *)
(** ** Predicate pushdown *)
(* ===================================================================== *)

Section PushdownClaims.

Import optimizer.

(** C3, as stated, fails on its second half.  In
    [Filter(customers.name = 'A%', Join(inner, Scan(customers), Scan(orders)))]
    the predicate mentions columns of the left input only, yet the rule
    returns the plan as it is and reports no change. *)
Lemma PredicatePushdown_leaves_filter_above_join :
  let plan :=
    Samples.filter "node_1" "="
      [Samples.join "node_2" JoinTypeInner
         (Samples.scan "node_3" "customers" None)
         (Samples.scan "node_4" "orders" None)] in
  PredicatePushdownRule.Apply plan 4 = Done (plan, false) 4.
Proof. reflexivity. Qed.

(** C3, amended.  (1) The rule never runs out of its recursion budget.
    (2) A Filter whose only child is a Project with an input [c0] is
    always rewritten, whatever the predicate and the projections:
    the result is a new Project node with the projections of the old
    one, over the result of the rule on a new Filter node with the same
    predicate over [c0], and the change is reported.  (3) A Filter whose
    only child is a Join is never pushed: the result is the same Filter
    node over the same Join node, only the inputs of the Join having
    gone through the rule, and a change is reported exactly when one of
    them changed.  The two pushability tests are constant. *)
Theorem PredicatePushdown_behaviour :
  (forall plan st, PredicatePushdownRule.Apply plan st <> OutOfFuel)
  /\ (forall fuel plan child c0 rest0 st,
        lp_NodeType plan = NodeTypeFilter ->
        lp_Children plan = [child] ->
        lp_NodeType child = NodeTypeProject ->
        lp_Children child = c0 :: rest0 ->
        let st1 := add64 st 1 in
        let st2 := add64 st1 1 in
        let newFilter :=
          mkLogicalPlan ("node_" ++ itoa st1) NodeTypeFilter [c0] "" ""
            (lp_Predicate plan) [] "" None [] [] [] None None None None ∅ in
        let newProject := fun input =>
          mkLogicalPlan ("node_" ++ itoa st2) NodeTypeProject [input] "" ""
            None (lp_Projections child) "" None [] [] [] None None None None ∅ in
        PredicatePushdownRule.applyRecursive (S fuel) plan st =
          match PredicatePushdownRule.applyRecursive fuel newFilter st2 with
          | Done (filter', _) st3 => Done (newProject filter', true) st3
          | Crash => Crash
          | OutOfFuel => OutOfFuel
          end)
  /\ (forall fuel plan child st out ch st',
        lp_NodeType plan = NodeTypeFilter ->
        lp_Children plan = [child] ->
        lp_NodeType child = NodeTypeJoin ->
        PredicatePushdownRule.applyRecursive (S (S fuel)) plan st
        = Done (out, ch) st' ->
        exists inputs,
          rewriteChildren (PredicatePushdownRule.applyRecursive fuel)
            (lp_Children child) st = Done (inputs, ch) st'
          /\ out = set_Children [set_Children inputs child] plan)
  /\ (forall predicate node,
        canPushFilterBelowProject predicate node = true
        /\ canPushFilterToJoinSides predicate node = (false, false)).
Proof.
  split; [|split; [|split]].
  - intros plan st. now apply applyRecursive_fuel.
  - intros fuel plan child c0 rest0 st Hnt Hch Hp Hcc st1 st2 newFilter
      newProject.
    assert (Hnode : PredicatePushdownRule.rewriteNode plan st
                    = Done (newProject newFilter, true) st2).
    { unfold PredicatePushdownRule.rewriteNode.
      rewrite Hnt, Hch. simpl. rewrite Hp. simpl. rewrite Hcc. reflexivity. }
    cbn [PredicatePushdownRule.applyRecursive]. unfold bind at 1.
    rewrite Hnode. cbn [fst snd]. unfold bind at 1.
    cbn [lp_Children newProject rewriteChildren]. unfold bind at 1.
    destruct (PredicatePushdownRule.applyRecursive fuel newFilter st2)
      as [[f' chf] st3| |] eqn:Hrec; try reflexivity.
    unfold bind, ret. cbn [fst snd]. simpl.
    destruct chf; [reflexivity|].
    (* unchanged: the recursive call handed back [newFilter] itself *)
    assert (f' = newFilter) as ->; [|reflexivity].
    clear - Hrec. revert Hrec. generalize newFilter st2 st3 f'. clear.
    induction fuel as [|fuel IH]; intros p s s' p' H; [discriminate|].
    simpl in H.
    apply bind_Done in H as (r & s1 & Hr & H).
    apply bind_Done in H as ([cs' chs] & s2 & Hcs & H).
    injection H as <- Hch <-. simpl in Hch.
    apply orb_false_elim in Hch as [Hr2 ->].
    apply rewriteChildren_unchanged in Hcs as ->.
    apply rewriteNode_cases in Hr as
        [(-> & _ & _) | (? & ? & ? & ? & ? & _ & _ & _ & _ & _ & ? & _ & ->)];
      [|discriminate].
    simpl. now rewrite set_Children_same.
  - intros fuel plan child st out ch st' Hnt Hch Hj H.
    assert (Hnode : PredicatePushdownRule.rewriteNode plan st
                    = Done (plan, false) st).
    { unfold PredicatePushdownRule.rewriteNode.
      rewrite Hnt, Hch. simpl. rewrite Hj. reflexivity. }
    assert (Hchild : PredicatePushdownRule.rewriteNode child st
                     = Done (child, false) st).
    { unfold PredicatePushdownRule.rewriteNode. now rewrite Hj. }
    cbn [PredicatePushdownRule.applyRecursive] in H.
    unfold bind at 1 in H. rewrite Hnode in H. cbn [fst snd] in H.
    rewrite Hch in H. cbn [rewriteChildren] in H.
    apply bind_Done in H as ([cs1 ch1] & s1 & H & Hret).
    injection Hret as <- <- <-.
    apply bind_Done in H as ([child' chc] & s2 & Hc & H).
    injection H as <- <- <-. cbn [fst snd].
    unfold bind at 1 in Hc. rewrite Hchild in Hc. cbn [fst snd] in Hc.
    apply bind_Done in Hc as ([inputs chi] & s3 & Hin & Hc).
    injection Hc as <- <- <-. simpl.
    exists inputs. rewrite orb_false_r. split; [exact Hin|].
    destruct chi; [reflexivity|].
    apply rewriteChildren_unchanged in Hin as ->.
    now rewrite set_Children_same.
  - intros predicate node. split; reflexivity.
Qed.

Lemma PredicatePushdown_behaviour_witness :
  PredicatePushdownRule.applyRecursive 3
    (Samples.filter "node_1" "="
       [Samples.project "node_2" ["name"]
          [Samples.scan "node_3" "customers" None]]) 3
  = Done
      (mkLogicalPlan "node_5" NodeTypeProject
         [mkLogicalPlan "node_4" NodeTypeFilter
            [Samples.scan "node_3" "customers" None] "" ""
            (Some (Samples.binop "=")) [] "" None [] [] [] None None None
            None ∅]
         "" "" None [mkColumn "" "name" ""] "" None [] [] [] None None None
         None ∅, true) 5.
Proof.
  exact (proj1 (proj2 PredicatePushdown_behaviour) 2%nat
           (Samples.filter "node_1" "="
              [Samples.project "node_2" ["name"]
                 [Samples.scan "node_3" "customers" None]])
           (Samples.project "node_2" ["name"]
              [Samples.scan "node_3" "customers" None])
           (Samples.scan "node_3" "customers" None) [] 3
           eq_refl eq_refl eq_refl eq_refl).
Defined.

End PushdownClaims.

(* ===================================================================== *)
(** ** The join-order swap pass *)
(* ===================================================================== *)

Section JoinOrderFacts.

Import cost_model.

Lemma float_ltb_irrefl (x : float) : (x <? x)%float = false.
Proof.
  rewrite ltb_spec. unfold SFltb, SFcompare.
  destruct (Prim2SF x) as [s|s| |s m e]; try reflexivity.
  - now destruct s.
  - destruct s; rewrite Z.compare_refl, Pos.compare_cont_refl; reflexivity.
Qed.

Variable Log2 : float -> float.
Variable cm : SimpleCostModel.
Variable catalogMgr : catalog.CatalogManager.

(** The cardinality of a Join returns exactly when those of its two
    inputs do, in whichever order they are taken. *)
Lemma card_Join_returns plan L R rest :
  lp_NodeType plan = NodeTypeJoin -> lp_Children plan = L :: R :: rest ->
  is_Ret (EstimateCardinality catalogMgr plan)
  <-> is_Ret (EstimateCardinality catalogMgr L)
      /\ is_Ret (EstimateCardinality catalogMgr R).
Proof.
  intros Hnt Hch. rewrite (card_Join _ _ _ _ _ Hnt Hch). unfold is_Ret.
  destruct (EstimateCardinality catalogMgr L) as [l|];
    destruct (EstimateCardinality catalogMgr R) as [r|]; simpl.
  - split; [eauto|]. intros _.
    repeat match goal with
           | |- context [if ?b then _ else _] => destruct b
           end; eauto.
  - split; [intros [? [=]] | intros [_ [? [=]]]].
  - split; [intros [? [=]] | intros [[? [=]] _]].
  - split; [intros [? [=]] | intros [[? [=]] _]].
Qed.

Lemma EstimateCost_Join plan L R rest :
  lp_NodeType plan = NodeTypeJoin -> lp_Children plan = L :: R :: rest ->
  EstimateCost Log2 cm catalogMgr plan =
    (leftCost <~ EstimateCost Log2 cm catalogMgr L ;;
     rightCost <~ EstimateCost Log2 cm catalogMgr R ;;
     let joinCpuCost :=
       (float64 (mul64 (Cardinality leftCost) (Cardinality rightCost))
        * CPUCostPerTuple cm * JoinCostFactor cm)%float in
     outputCardinality <~ EstimateCardinality catalogMgr plan ;;
     Ret {| TotalCost := TotalCost leftCost + TotalCost rightCost + joinCpuCost;
            CPUCost := CPUCost leftCost + CPUCost rightCost + joinCpuCost;
            IOCost := IOCost leftCost + IOCost rightCost;
            NetworkCost := NetworkCost leftCost + NetworkCost rightCost;
            MemoryCost := MemoryCost leftCost + MemoryCost rightCost;
            Cardinality := outputCardinality |}).
Proof. intros Hnt Hch. plan_case plan. reflexivity. Qed.

(** The total cost of a Join does not depend on the order of its two
    inputs: the sum of the input costs and the product of the input
    cardinalities are symmetric.  A panic in one order is a panic in the
    other. *)
Lemma EstimateCost_Join_symmetric plan swapped L R :
  lp_NodeType plan = NodeTypeJoin -> lp_Children plan = [L; R] ->
  lp_NodeType swapped = NodeTypeJoin -> lp_Children swapped = [R; L] ->
  match EstimateCost Log2 cm catalogMgr plan,
        EstimateCost Log2 cm catalogMgr swapped with
  | Ret c, Ret c' => TotalCost c' = TotalCost c
  | Panic, Panic => True
  | _, _ => False
  end.
Proof.
  intros Hnt Hch Hnt' Hch'.
  pose proof (card_Join_returns plan L R [] Hnt Hch) as Hc.
  pose proof (card_Join_returns swapped R L [] Hnt' Hch') as Hc'.
  rewrite (EstimateCost_Join plan L R [] Hnt Hch).
  rewrite (EstimateCost_Join swapped R L [] Hnt' Hch').
  destruct (EstimateCost Log2 cm catalogMgr L) as [cl|];
    destruct (EstimateCost Log2 cm catalogMgr R) as [cr|]; simpl; auto.
  unfold is_Ret in *.
  destruct (EstimateCardinality catalogMgr plan) as [n|];
    destruct (EstimateCardinality catalogMgr swapped) as [n'|]; simpl; auto.
  - now rewrite (float_add_comm (TotalCost cr)), (mul64_comm (Cardinality cr)).
  - destruct Hc as [Hc _]. destruct (Hc (ex_intro _ n eq_refl)) as [HL HR].
    destruct Hc' as [_ Hc']. destruct (Hc' (conj HR HL)) as [? [=]].
  - destruct Hc' as [Hc' _]. destruct (Hc' (ex_intro _ n' eq_refl)) as [HR HL].
    destruct Hc as [_ Hc]. destruct (Hc (conj HL HR)) as [? [=]].
Qed.

End JoinOrderFacts.

Section JoinOrderClaims.

Import optimizer.

Lemma optimizeJoinOrder_unfold cbo plan :
  optimizeJoinOrder cbo plan =
    if String.eqb (lp_NodeType plan) NodeTypeJoin
       && Nat.eqb (length (lp_Children plan)) 2 then
      match lp_Children plan with
      | leftChild :: rightChild :: _ =>
          currentCost <- lift (EstimateCost (costModel cbo) plan (catalogMgr cbo)) ;;
          swappedPlan <- NewJoinNode rightChild leftChild (lp_JoinType plan)
                           (lp_JoinCondition plan) ;;
          swappedCost <- lift (EstimateCost (costModel cbo) swappedPlan
                                 (catalogMgr cbo)) ;;
          if (cost_model.TotalCost swappedCost
              <? cost_model.TotalCost currentCost)%float then
            children <- mapM (optimizeJoinOrder cbo) [rightChild; leftChild] ;;
            ret (set_Children children swappedPlan)
          else
            children <- mapM (optimizeJoinOrder cbo) (lp_Children plan) ;;
            ret (set_Children children plan)
      | _ =>
          children <- mapM (optimizeJoinOrder cbo) (lp_Children plan) ;;
          ret (set_Children children plan)
      end
    else
      children <- mapM (optimizeJoinOrder cbo) (lp_Children plan) ;;
      ret (set_Children children plan).
Proof. destruct plan; reflexivity. Qed.

(** C1.  At a Join node with two inputs the swap pass compares the
    estimated total cost of the node with that of a new Join node of the
    same type and condition over the inputs in the other order, and
    continues with the new node exactly when its cost is strictly lower.
    With the cost model of the optimizer the two totals are always
    equal, so the test never succeeds: every Join, and so every left or
    right Join, keeps its inputs in their order, its type and its
    condition, and only its inputs are processed further. *)
Theorem optimizeJoinOrder_swap (Log2 : float -> float)
    (catalogMgr : catalog.CatalogManager) (plan L R : LogicalPlan)
    (idCounter : Z) (currentCost swappedCost : cost_model.CostEstimate) :
  let cbo := NewCostBasedOptimizer Log2 catalogMgr in
  let swappedPlan :=
    mkLogicalPlan ("node_" ++ itoa (add64 idCounter 1)) NodeTypeJoin [R; L]
      "" "" None [] (lp_JoinType plan) (lp_JoinCondition plan) [] [] []
      None None None None ∅ in
  lp_NodeType plan = NodeTypeJoin ->
  lp_Children plan = [L; R] ->
  cost_model.EstimateCost Log2 cost_model.NewSimpleCostModel catalogMgr plan
  = Ret currentCost ->
  cost_model.EstimateCost Log2 cost_model.NewSimpleCostModel catalogMgr
    swappedPlan = Ret swappedCost ->
  optimizeJoinOrder cbo plan idCounter =
    (if (cost_model.TotalCost swappedCost
         <? cost_model.TotalCost currentCost)%float then
       children <- mapM (optimizeJoinOrder cbo) [R; L] ;;
       ret (set_Children children swappedPlan)
     else
       children <- mapM (optimizeJoinOrder cbo) [L; R] ;;
       ret (set_Children children plan)) (add64 idCounter 1)
  /\ (cost_model.TotalCost swappedCost
      <? cost_model.TotalCost currentCost)%float = false
  /\ (forall out idCounter',
        optimizeJoinOrder cbo plan idCounter = Done out idCounter' ->
        exists L' R' st1,
          optimizeJoinOrder cbo L (add64 idCounter 1) = Done L' st1
          /\ optimizeJoinOrder cbo R st1 = Done R' idCounter'
          /\ out = set_Children [L'; R'] plan
          /\ lp_JoinType out = lp_JoinType plan
          /\ lp_JoinCondition out = lp_JoinCondition plan).
Proof.
  intros cbo swappedPlan Hnt Hch Hcur Hsw.
  assert (Heq : optimizeJoinOrder cbo plan idCounter =
    (if (cost_model.TotalCost swappedCost
         <? cost_model.TotalCost currentCost)%float then
       children <- mapM (optimizeJoinOrder cbo) [R; L] ;;
       ret (set_Children children swappedPlan)
     else
       children <- mapM (optimizeJoinOrder cbo) [L; R] ;;
       ret (set_Children children plan)) (add64 idCounter 1)).
  { rewrite optimizeJoinOrder_unfold, Hnt, Hch.
    cbn [String.eqb Ascii.eqb Bool.eqb andb length Nat.eqb NodeTypeJoin].
    change (EstimateCost (costModel cbo) plan (optimizer.catalogMgr cbo))
      with (cost_model.EstimateCost Log2 cost_model.NewSimpleCostModel
              catalogMgr plan).
    rewrite Hcur. unfold bind at 1. cbn [lift].
    unfold bind at 1. unfold NewJoinNode, bind at 1, generateID, ret at 1.
    fold swappedPlan.
    change (EstimateCost (costModel cbo) swappedPlan (optimizer.catalogMgr cbo))
      with (cost_model.EstimateCost Log2 cost_model.NewSimpleCostModel
              catalogMgr swappedPlan).
    rewrite Hsw. unfold bind at 1. cbn [lift]. reflexivity. }
  assert (Hno : (cost_model.TotalCost swappedCost
                 <? cost_model.TotalCost currentCost)%float = false).
  { pose proof (EstimateCost_Join_symmetric Log2 cost_model.NewSimpleCostModel
                  catalogMgr plan swappedPlan L R Hnt Hch eq_refl eq_refl)
      as Hsym.
    rewrite Hcur, Hsw in Hsym. rewrite Hsym. apply float_ltb_irrefl. }
  split; [exact Heq|]. split; [exact Hno|].
  intros out st' H. rewrite Heq, Hno in H.
  apply bind_Done in H as (cs & s2 & Hcs & H). injection H as <- <-.
  cbn [mapM] in Hcs.
  apply bind_Done in Hcs as (L' & s1 & HL & Hcs).
  apply bind_Done in Hcs as (rs & s3 & HR & Hcs). injection Hcs as <- <-.
  apply bind_Done in HR as (R' & s4 & HR & Hnil).
  apply bind_Done in Hnil as (nil' & s5 & Hnil & Hret).
  injection Hnil as <- <-. injection Hret as <- <-.
  exists L', R', s1. repeat split; try assumption; now destruct plan.
Qed.

Lemma optimizeJoinOrder_swap_witness :
  let plan :=
    Samples.join "node_1" JoinTypeLeft (Samples.scan "node_2" "big" None)
      (Samples.scan "node_3" "small" None) in
  optimizeJoinOrder (NewCostBasedOptimizer (fun x => x) Samples.cat) plan 3
  = Done plan 4.
Proof.
  cbv zeta.
  destruct (optimizeJoinOrder_swap (fun x => x) Samples.cat
              (Samples.join "node_1" JoinTypeLeft
                 (Samples.scan "node_2" "big" None)
                 (Samples.scan "node_3" "small" None))
              (Samples.scan "node_2" "big" None)
              (Samples.scan "node_3" "small" None) 3 _ _
              eq_refl eq_refl eq_refl eq_refl) as (H & _ & _).
  rewrite H. reflexivity.
Defined.

End JoinOrderClaims.

(* ===================================================================== *)
(** ** The optimizers keep the Scan tables *)
(* ===================================================================== *)

Section OptimizeFacts.

Import optimizer.

Lemma mapM_fuel {A B} (f : A -> M B) (l : list A) :
  Forall (fun a => forall st, f a st <> OutOfFuel) l ->
  forall st, mapM f l st <> OutOfFuel.
Proof.
  induction 1 as [|a l Ha _ IH]; intros st; simpl; [discriminate|].
  unfold bind. specialize (Ha st).
  destruct (f a st) as [b st1| |]; try discriminate; [|congruence].
  specialize (IH st1).
  destruct (mapM f l st1) as [bs st2| |]; try discriminate; congruence.
Qed.

Lemma bind_fuel {A B} (m : M A) (k : A -> M B) st :
  m st <> OutOfFuel -> (forall a st1, k a st1 <> OutOfFuel) ->
  bind m k st <> OutOfFuel.
Proof.
  intros Hm Hk. unfold bind.
  destruct (m st); [apply Hk | discriminate | congruence].
Qed.

Lemma lift_fuel {A} (x : outcome A) st : lift x st <> OutOfFuel.
Proof. destruct x; discriminate. Qed.

Lemma Clone_fuel p st : Clone p st <> OutOfFuel.
Proof. destruct (Clone_total p st) as (p' & st' & ->). discriminate. Qed.

Lemma ProjectionPushdown_fuel n :
  forall plan st,
    (plan_size plan <= n)%nat ->
    ProjectionPushdownRule.applyRecursive plan st <> OutOfFuel.
Proof.
  induction n as [|n IH]; intros plan st Hsz.
  { destruct plan; simpl in Hsz; lia. }
  destruct plan as [id nt cs tn al pr pj jt jc gb ag ob lc oc er ec md].
  simpl.
  set (plan := mkLogicalPlan id nt cs tn al pr pj jt jc gb ag ob lc oc er ec md)
    in *.
  assert (Hdesc : forall q c, q = plan \/ In q cs -> In c (lp_Children q) ->
                              (plan_size c <= n)%nat).
  { intros q c [-> | Hq] Hc.
    - apply plan_size_child in Hc. lia.
    - apply plan_size_child in Hc.
      apply (plan_size_child plan) in Hq. lia. }
  apply bind_fuel; [|discriminate].
  apply rewriteChildren_fuel, List.Forall_forall. intros c Hc st'.
  apply IH.
  destruct (_ && _ && _); [destruct cs as [|child rest]|].
  - apply (Hdesc plan); auto.
  - apply (Hdesc child); [right; now left | exact Hc].
  - apply (Hdesc plan); auto.
Qed.

(** Each rule of the rule-based optimizer keeps the property and never
    runs out of budget. *)
Lemma rules_keep :
  Forall (fun rule =>
            (forall p st out ch st',
                Apply rule p st = Done (out, ch) st' -> keeps p out)
            /\ (forall p st, Apply rule p st <> OutOfFuel))
         (rules NewRuleBasedOptimizer).
Proof.
  simpl.
  constructor; [split | constructor; [split | constructor; [split |
    constructor; [split | constructor]]]]; simpl.
  - intros p st out ch st'. apply PredicatePushdown_keeps.
  - intros p st. now apply applyRecursive_fuel.
  - intros p st out ch st'. now apply (ProjectionPushdown_keeps (plan_size p)).
  - intros p st. now apply (ProjectionPushdown_fuel (plan_size p)).
  - intros p st out ch st' [= <- <- <-]. apply keeps_refl.
  - discriminate.
  - intros p st out ch st' [= <- <- <-]. apply keeps_refl.
  - discriminate.
Qed.

Section Loop.

Variable rbo : RuleBasedOptimizer.
Hypothesis Hrules :
  Forall (fun rule =>
            (forall p st out ch st',
                Apply rule p st = Done (out, ch) st' -> keeps p out)
            /\ (forall p st, Apply rule p st <> OutOfFuel))
         (rules rbo).

Lemma applyRule_keeps rule s st s' st' :
  In rule (rules rbo) ->
  applyRule s rule st = Done s' st' ->
  keeps (currentPlan s) (currentPlan s').
Proof.
  intros Hin H. rewrite List.Forall_forall in Hrules.
  destruct (Hrules rule Hin) as [Hk _].
  unfold applyRule in H.
  apply bind_Done in H as (before & st1 & _ & H).
  apply bind_Done in H as ([out ch] & st2 & Hap & H).
  destruct ch; injection H as <- <-; simpl; [eauto | apply keeps_refl].
Qed.

Lemma applyRule_fuel rule s st :
  In rule (rules rbo) -> applyRule s rule st <> OutOfFuel.
Proof.
  intros Hin. rewrite List.Forall_forall in Hrules.
  destruct (Hrules rule Hin) as [_ Hf].
  unfold applyRule. apply bind_fuel; [apply Clone_fuel|]. intros before st1.
  apply bind_fuel; [apply Hf|]. intros [out ch] st2.
  destruct ch; discriminate.
Qed.

Lemma applyRules_keeps rs :
  incl rs (rules rbo) ->
  forall s st s' st',
    applyRules rs s st = Done s' st' ->
    keeps (currentPlan s) (currentPlan s').
Proof.
  induction rs as [|rule rs IH]; intros Hincl s st s' st' H; simpl in H.
  - injection H as <- <-. apply keeps_refl.
  - apply bind_Done in H as (s1 & st1 & H1 & H).
    eapply keeps_trans.
    + eapply applyRule_keeps; [apply Hincl; now left | exact H1].
    + eapply IH; [|exact H]. intros x Hx. apply Hincl. now right.
Qed.

Lemma applyRules_fuel rs :
  incl rs (rules rbo) -> forall s st, applyRules rs s st <> OutOfFuel.
Proof.
  induction rs as [|rule rs IH]; intros Hincl s st; simpl; [discriminate|].
  apply bind_fuel.
  - apply applyRule_fuel, Hincl. now left.
  - intros s1 st1. apply IH. intros x Hx. apply Hincl. now right.
Qed.

Lemma iterate_keeps n :
  forall s st s' st',
    iterate rbo n s st = Done s' st' ->
    keeps (currentPlan s) (currentPlan s').
Proof.
  induction n as [|n IH]; intros s st s' st' H; simpl in H.
  - injection H as <- <-. apply keeps_refl.
  - apply bind_Done in H as (s1 & st1 & H1 & H).
    apply applyRules_keeps in H1; [|apply incl_refl]. simpl in H1.
    destruct (changed s1).
    + eapply keeps_trans; [exact H1 | eapply IH; exact H].
    + injection H as <- <-. exact H1.
Qed.

Lemma iterate_fuel n : forall s st, iterate rbo n s st <> OutOfFuel.
Proof.
  induction n as [|n IH]; intros s st; simpl; [discriminate|].
  apply bind_fuel; [apply applyRules_fuel, incl_refl|].
  intros s1 st1. destruct (changed s1); [apply IH | discriminate].
Qed.

Lemma RuleBasedOptimizer_Optimize_keeps plan st out ex err st' :
  RuleBasedOptimizer_Optimize rbo (Some plan) st = Done (Some out, ex, err) st' ->
  keeps plan out.
Proof.
  intros H. unfold RuleBasedOptimizer_Optimize in H.
  apply bind_Done in H as (p0 & st1 & Hp0 & H).
  apply bind_Done in H as (s & st2 & Hs & H). injection H as <- _ _ _.
  apply iterate_keeps in Hs. simpl in Hs.
  intros HI. rewrite <- (Clone_I1 _ _ _ _ Hp0) in HI.
  destruct (Hs HI) as [H1 H2]. split; [exact H1|].
  now rewrite H2, (Clone_scan_tables _ _ _ _ Hp0).
Qed.

End Loop.

End OptimizeFacts.

Section CostBasedFacts.

Import optimizer.

Variable cbo : CostBasedOptimizer.

Lemma scan_tables_set_Children cs p :
  scan_tables (set_Children cs p) =
    ((if String.eqb (lp_NodeType p) NodeTypeScan then [lp_TableName p] else [])
       ++ flat_map scan_tables cs)%list.
Proof. now destruct p. Qed.

Lemma flat_map_Permutation (cs cs' : list LogicalPlan) :
  Forall2 (fun c c' => Permutation (scan_tables c') (scan_tables c)) cs cs' ->
  Permutation (flat_map scan_tables cs') (flat_map scan_tables cs).
Proof.
  induction 1 as [|c c' cs cs' Hc _ IH]; simpl; [constructor|].
  now apply Permutation_app.
Qed.

Lemma mapO_rel {A B} (f : A -> outcome B) (R : A -> B -> Prop) (l : list A) :
  Forall (fun a => forall b, f a = Ret b -> R a b) l ->
  forall bs, mapO f l = Ret bs -> Forall2 R l bs.
Proof.
  induction 1 as [|a l Ha _ IH]; intros bs H; simpl in H.
  - injection H as <-. constructor.
  - apply obind_Ret in H as (b & Hb & H).
    apply obind_Ret in H as (bs' & Hbs & H). injection H as <-.
    constructor; eauto.
Qed.

Lemma optimizeJoinOrder_Permutation p :
  forall st p' st',
    optimizeJoinOrder cbo p st = Done p' st' ->
    Permutation (scan_tables p') (scan_tables p).
Proof.
  induction p as [p IH] using LogicalPlan_tree_ind. intros st p' st' H.
  assert (Hkids : forall s cs' s',
             mapM (optimizeJoinOrder cbo) (lp_Children p) s = Done cs' s' ->
             Permutation (scan_tables (set_Children cs' p)) (scan_tables p)).
  { intros s cs' s' Hcs.
    rewrite scan_tables_set_Children, (scan_tables_unfold p).
    apply Permutation_app_head, flat_map_Permutation.
    eapply mapM_rel; [|exact Hcs]. exact IH. }
  rewrite optimizeJoinOrder_unfold in H.
  destruct (String.eqb_spec (lp_NodeType p) NodeTypeJoin) as [Hnt|Hnt];
    cbn [andb] in H.
  2:{ apply bind_Done in H as (cs' & s1 & Hcs & H). injection H as <- <-.
      eauto. }
  destruct (lp_Children p) as [|l [|r [|x rest]]] eqn:Hch;
    cbn [length Nat.eqb] in H;
    try (apply bind_Done in H as (cs' & s1 & Hcs & H); injection H as <- <-;
         eauto; fail).
  apply bind_Done in H as (cur & s1 & _ & H).
  apply bind_Done in H as (sw & s2 & Hsw & H).
  apply bind_Done in H as (swc & s3 & _ & H).
  destruct (_ <? _)%float.
  - apply bind_Done in H as (cs' & s4 & Hcs & H). injection H as <- <-.
    unfold NewJoinNode, bind, generateID, ret in Hsw. injection Hsw as <- <-.
    rewrite scan_tables_set_Children, (scan_tables_unfold p), Hnt, Hch.
    simpl. rewrite app_nil_r.
    assert (HF : Forall2 (fun c c' => Permutation (scan_tables c')
                                        (scan_tables c)) [r; l] cs').
    { eapply mapM_rel; [|exact Hcs].
      inversion IH as [|? ? Hl IH']; subst. inversion IH' as [|? ? Hr _]; subst.
      repeat constructor; assumption. }
    apply flat_map_Permutation in HF. simpl in HF.
    rewrite app_nil_r in HF. rewrite HF. apply Permutation_app_comm.
  - apply bind_Done in H as (cs' & s4 & Hcs & H). injection H as <- <-.
    eauto.
Qed.

Lemma optimizeJoinOrder_fuel p : forall st, optimizeJoinOrder cbo p st <> OutOfFuel.
Proof.
  induction p as [p IH] using LogicalPlan_tree_ind. intros st.
  assert (Hkids : forall q s,
             bind (mapM (optimizeJoinOrder cbo) (lp_Children p))
                  (fun children => ret (set_Children children q)) s
             <> OutOfFuel).
  { intros q s. apply bind_fuel; [now apply mapM_fuel | discriminate]. }
  rewrite optimizeJoinOrder_unfold.
  destruct (_ && _); [|apply Hkids].
  destruct (lp_Children p) as [|l [|r rest]] eqn:Hch;
    try (apply Hkids; fail).
  apply bind_fuel; [apply lift_fuel|]. intros cur s1.
  apply bind_fuel; [discriminate|]. intros sw s2.
  apply bind_fuel; [apply lift_fuel|]. intros swc s3.
  destruct (_ <? _)%float.
  - apply bind_fuel; [|discriminate]. apply mapM_fuel.
    inversion IH as [|? ? Hl IH']; subst. inversion IH' as [|? ? Hr _]; subst.
    repeat constructor; assumption.
  - apply Hkids.
Qed.

Lemma selectPhysicalOperators_scan_tables p :
  forall p', selectPhysicalOperators cbo p = Ret p' ->
             scan_tables p' = scan_tables p.
Proof.
  induction p as [p IH] using LogicalPlan_tree_ind. intros p' H.
  destruct p as [id nt cs tn al pr pj jt jc gb ag ob lc oc er ec md].
  cbn [selectPhysicalOperators] in H.
  apply obind_Ret in H as (md' & _ & H).
  apply obind_Ret in H as (cs' & Hcs & H). injection H as <-.
  simpl. f_equal. apply flat_map_ext_Forall2.
  eapply mapO_rel; [|exact Hcs]. exact IH.
Qed.

Lemma propagateCostEstimates_scan_tables p :
  forall p', propagateCostEstimates cbo p = Ret p' ->
             scan_tables p' = scan_tables p.
Proof.
  induction p as [p IH] using LogicalPlan_tree_ind. intros p' H.
  destruct p as [id nt cs tn al pr pj jt jc gb ag ob lc oc er ec md].
  cbn [propagateCostEstimates] in H.
  apply obind_Ret in H as (cs' & Hcs & H).
  apply obind_Ret in H as (cost & _ & H). injection H as <-.
  simpl. f_equal. apply flat_map_ext_Forall2.
  eapply mapO_rel; [|exact Hcs]. exact IH.
Qed.

End CostBasedFacts.

Section RuleTotality.

Import optimizer.

(** [m] returns from [st]: no panic, budget not used up. *)
Abbreviation returns m st := (exists a st', m st = Done a st').

Lemma bind_returns {A B} (m : M A) (k : A -> M B) st :
  returns m st ->
  (forall a st1, m st = Done a st1 -> returns (k a) st1) ->
  returns (bind m k) st.
Proof.
  intros (a & st1 & Hm) Hk. unfold bind. rewrite Hm. now apply Hk.
Qed.

Lemma rewriteChildren_returns rec (l : list LogicalPlan) :
  Forall (fun c => forall st, returns (rec c) st) l ->
  forall st, returns (rewriteChildren rec l) st.
Proof.
  induction 1 as [|c l Hc _ IH]; intros st; simpl.
  - unfold ret. eauto.
  - apply bind_returns; [apply Hc|]. intros r st1 _.
    apply bind_returns; [apply IH|]. intros rs st2 _. unfold ret. eauto.
Qed.

Lemma I1_children p c : I1 p = true -> In c (lp_Children p) -> I1 c = true.
Proof.
  rewrite I1_unfold. intros H Hin. apply andb_prop in H as [_ H].
  rewrite forallb_forall in H. auto.
Qed.

Lemma rewriteNode_returns plan st :
  I1 plan = true -> returns (PredicatePushdownRule.rewriteNode plan) st.
Proof.
  intros HI. unfold PredicatePushdownRule.rewriteNode.
  destruct (_ && _); [|unfold ret; eauto].
  destruct (lp_Children plan) as [|child rest] eqn:Hch; [unfold ret; eauto|].
  assert (Hc : I1 child = true).
  { apply (I1_children plan); [exact HI | rewrite Hch; now left]. }
  destruct (String.eqb_spec (lp_NodeType child) NodeTypeProject) as [Hp|Hp].
  - simpl. rewrite I1_unfold in Hc. apply andb_prop in Hc as [Ha _].
    unfold arity_ok in Ha. rewrite Hp in Ha. simpl in Ha.
    destruct (lp_Children child) as [|c0 rest0]; [discriminate|].
    unfold bind, NewFilterNode, NewProjectNode, generateID, ret. simpl. eauto.
  - destruct (String.eqb _ NodeTypeJoin); unfold ret; simpl; eauto.
Qed.

Lemma PredicatePushdown_returns fuel :
  forall plan st,
    I1 plan = true -> (plan_size plan <= fuel)%nat ->
    returns (PredicatePushdownRule.applyRecursive fuel plan) st.
Proof.
  induction fuel as [|fuel IH]; intros plan st HI Hsz.
  { destruct plan; simpl in Hsz; lia. }
  simpl. apply bind_returns; [now apply rewriteNode_returns|].
  intros r st1 Hr.
  assert (Hkids : Forall (fun c => I1 c = true /\ (plan_size c <= fuel)%nat)
                         (lp_Children (fst r))).
  { apply rewriteNode_cases in Hr as
        [(-> & _ & _) | (child & c0 & rest0 & nf & st0 & Hnt & Hch & Hp & Hcc
                         & Hnf & np & Hnp & ->)].
    - simpl. apply List.Forall_forall. intros c Hin. split.
      + eapply I1_children; eauto.
      + apply plan_size_child in Hin. lia.
    - unfold NewFilterNode, NewProjectNode, bind, generateID, ret in *.
      injection Hnf as <- <-. injection Hnp as <- <-. simpl.
      assert (Hc : I1 child = true).
      { apply (I1_children plan); [exact HI | rewrite Hch; now left]. }
      assert (Hc0 : I1 c0 = true).
      { apply (I1_children child); [exact Hc | rewrite Hcc; now left]. }
      assert (H1 : (plan_size child < plan_size plan)%nat).
      { apply plan_size_child. rewrite Hch. now left. }
      assert (H2 : (plan_size c0 < plan_size child)%nat).
      { apply plan_size_child. rewrite Hcc. now left. }
      constructor; [|constructor]. split; [|simpl; lia].
      simpl. now rewrite Hc0. }
  apply bind_returns.
  - apply rewriteChildren_returns.
    eapply Forall_impl; [exact Hkids|]. intros c [Hc1 Hc2] st'. now apply IH.
  - intros rs st2 _. unfold ret. eauto.
Qed.

Lemma ProjectionPushdown_returns n :
  forall plan st,
    (plan_size plan <= n)%nat ->
    returns (ProjectionPushdownRule.applyRecursive plan) st.
Proof.
  induction n as [|n IH]; intros plan st Hsz.
  { destruct plan; simpl in Hsz; lia. }
  destruct plan as [id nt cs tn al pr pj jt jc gb ag ob lc oc er ec md].
  simpl.
  set (plan := mkLogicalPlan id nt cs tn al pr pj jt jc gb ag ob lc oc er ec md)
    in *.
  assert (Hdesc : forall q c, q = plan \/ In q cs -> In c (lp_Children q) ->
                              (plan_size c <= n)%nat).
  { intros q c [-> | Hq] Hc.
    - apply plan_size_child in Hc. lia.
    - apply plan_size_child in Hc.
      apply (plan_size_child plan) in Hq. lia. }
  apply bind_returns; [|intros rs st2 _; unfold ret; eauto].
  apply rewriteChildren_returns, List.Forall_forall. intros c Hc st'.
  apply IH.
  destruct (_ && _ && _); [destruct cs as [|child rest]|].
  - apply (Hdesc plan); auto.
  - apply (Hdesc child); [right; now left | exact Hc].
  - apply (Hdesc plan); auto.
Qed.

(** On a well-formed plan every rule of the rule-based optimizer
    returns. *)
Lemma rules_return :
  Forall (fun rule => forall p st, I1 p = true -> returns (Apply rule p) st)
         (rules NewRuleBasedOptimizer).
Proof.
  simpl. repeat (constructor; [simpl|]); [| | | |constructor].
  - intros p st HI. now apply PredicatePushdown_returns.
  - intros p st _. now apply (ProjectionPushdown_returns (plan_size p)).
  - intros p st _. unfold ConstantFoldingRule.Apply, ret. eauto.
  - intros p st _. unfold JoinReorderingRule.Apply, ret. eauto.
Qed.

Lemma applyRules_returns rs :
  incl rs (rules NewRuleBasedOptimizer) ->
  forall s st,
    I1 (currentPlan s) = true -> returns (applyRules rs s) st.
Proof.
  pose proof rules_return as Hret. pose proof rules_keep as Hkeep.
  rewrite List.Forall_forall in Hret.
  induction rs as [|rule rs IH]; intros Hincl s st HI; simpl.
  - unfold ret. eauto.
  - assert (Hin : In rule (rules NewRuleBasedOptimizer))
      by (apply Hincl; now left).
    apply bind_returns.
    + unfold applyRule. apply bind_returns; [apply Clone_total|].
      intros before st1 _.
      apply bind_returns; [now apply Hret|].
      intros [out ch] st2 _. destruct ch; unfold ret; eauto.
    + intros s1 st1 H1. apply IH; [intros x Hx; apply Hincl; now right|].
      apply (applyRule_keeps _ Hkeep) in H1; [|exact Hin]. now apply H1.
Qed.

Lemma iterate_returns n :
  forall s st,
    I1 (currentPlan s) = true ->
    returns (iterate NewRuleBasedOptimizer n s) st.
Proof.
  induction n as [|n IH]; intros s st HI; cbn [iterate].
  - unfold ret. eauto.
  - apply bind_returns; [apply applyRules_returns; [apply incl_refl | exact HI]|].
    intros s1 st1 H1.
    apply (applyRules_keeps _ rules_keep) in H1; [|apply incl_refl].
    cbn [currentPlan] in H1. destruct (H1 HI) as [HI1 _].
    destruct (changed s1); [now apply IH | unfold ret; eauto].
Qed.

Lemma OptimizeWithRules_returns plan st :
  I1 plan = true ->
  exists out ex st',
    OptimizeWithRules (Some plan) st = Done (Some out, Some ex, None) st'.
Proof.
  intros HI. unfold OptimizeWithRules, RuleBasedOptimizer_Optimize.
  destruct (Clone_total plan st) as (p0 & st1 & Hp0).
  unfold bind at 1. rewrite Hp0.
  destruct (iterate_returns maxIterations
              {| currentPlan := p0; explain := emptyExplain;
                 totalRulesApplied := 0; changed := false |} st1)
    as (s & st2 & Hs).
  { simpl. now rewrite (Clone_I1 _ _ _ _ Hp0). }
  unfold bind. rewrite Hs. unfold ret. eauto.
Qed.

End RuleTotality.

Section CostBasedTotality.

Import optimizer.

Variable Log2 : float -> float.
Variable catalogMgr : catalog.CatalogManager.

Lemma EstimateCost_unfold cm plan :
  cost_model.EstimateCost Log2 cm catalogMgr plan =
    let EstimateCost := cost_model.EstimateCost Log2 cm catalogMgr in
    let nt := lp_NodeType plan in
    if String.eqb nt NodeTypeScan then
      cost_model.estimateScanCost cm catalogMgr plan
    else if String.eqb nt NodeTypeFilter then
      cost_model.estimateFilterCost cm EstimateCost plan
    else if String.eqb nt NodeTypeProject then
      cost_model.estimateProjectCost cm EstimateCost plan
    else if String.eqb nt NodeTypeJoin then
      cost_model.estimateJoinCost cm catalogMgr EstimateCost plan
    else if String.eqb nt NodeTypeAggregate then
      cost_model.estimateAggregateCost cm catalogMgr EstimateCost plan
    else if String.eqb nt NodeTypeSort then
      cost_model.estimateSortCost Log2 cm EstimateCost plan
    else if String.eqb nt NodeTypeLimit then
      cost_model.estimateLimitCost catalogMgr EstimateCost plan
    else
      cardinality <~ cost_model.EstimateCardinality catalogMgr plan ;;
      Ret {| cost_model.TotalCost :=
               float64 cardinality * cost_model.CPUCostPerTuple cm;
             cost_model.CPUCost :=
               float64 cardinality * cost_model.CPUCostPerTuple cm;
             cost_model.IOCost := 0; cost_model.NetworkCost := 0;
             cost_model.MemoryCost := 0;
             cost_model.Cardinality := cardinality |}.
Proof. destruct plan; reflexivity. Qed.

Lemma EstimateCost_total cm p :
  limit_has_child p = true ->
  is_Ret (cost_model.EstimateCost Log2 cm catalogMgr p).
Proof.
  induction p as [p IH] using LogicalPlan_tree_ind. intros H.
  pose proof (card_total catalogMgr p H) as [n Hn].
  assert (Hc : forall c, In c (lp_Children p) ->
                 is_Ret (cost_model.EstimateCost Log2 cm catalogMgr c)).
  { intros c Hin. rewrite List.Forall_forall in IH. apply IH; [exact Hin|].
    destruct p. simpl in *. apply andb_prop in H as [_ H].
    rewrite forallb_forall in H. auto. }
  unfold is_Ret in *. rewrite EstimateCost_unfold. cbv zeta.
  unfold cost_model.estimateScanCost, cost_model.estimateFilterCost,
    cost_model.estimateProjectCost, cost_model.estimateJoinCost,
    cost_model.estimateAggregateCost, cost_model.estimateSortCost,
    cost_model.estimateLimitCost.
  rewrite Hn.
  destruct (lp_Children p) as [|c0 [|c1 rest]];
    try (destruct (Hc c0 ltac:(now left)) as [k0 ->]);
    try (destruct (Hc c1 ltac:(right; now left)) as [k1 ->]);
    cbn [obind];
    repeat match goal with
           | |- context [if ?b then _ else _] => destruct b
           | |- context [match ?x with inl _ => _ | inr _ => _ end] => destruct x
           | |- context [match ?x with Some _ => _ | None => _ end] => destruct x
           end;
    eauto.
Qed.

Lemma I1_rebuild p q :
  lp_NodeType q = lp_NodeType p ->
  length (lp_Children q) = length (lp_Children p) ->
  forallb I1 (lp_Children q) = true ->
  I1 p = true -> I1 q = true.
Proof.
  intros Hnt Hlen Hkids HI. rewrite I1_unfold in *.
  apply andb_prop in HI as [Ha _]. apply andb_true_intro. split; [|exact Hkids].
  rewrite <- Ha. now apply arity_ok_ext.
Qed.

Lemma mapM_I1 (f : LogicalPlan -> M LogicalPlan) (l : list LogicalPlan) :
  Forall (fun c => I1 c = true ->
                   forall st, exists c' st', f c st = Done c' st'
                                             /\ I1 c' = true) l ->
  forallb I1 l = true ->
  forall st, exists l' st',
      mapM f l st = Done l' st'
      /\ forallb I1 l' = true /\ length l' = length l.
Proof.
  induction 1 as [|c l Hc _ IH]; intros HI st; simpl in *.
  - unfold ret. eauto.
  - apply andb_prop in HI as [H1 H2].
    destruct (Hc H1 st) as (c' & st1 & Ec & Hc').
    destruct (IH H2 st1) as (l' & st2 & El & Hl' & Hlen).
    unfold bind. rewrite Ec, El. unfold ret.
    do 2 eexists. split; [reflexivity|]. simpl. rewrite Hc', Hl', Hlen. auto.
Qed.

Lemma mapO_I1 (f : LogicalPlan -> outcome LogicalPlan) (l : list LogicalPlan) :
  Forall (fun c => I1 c = true ->
                   exists c', f c = Ret c' /\ I1 c' = true) l ->
  forallb I1 l = true ->
  exists l', mapO f l = Ret l'
             /\ forallb I1 l' = true /\ length l' = length l.
Proof.
  induction 1 as [|c l Hc _ IH]; intros HI; simpl in *.
  - eauto.
  - apply andb_prop in HI as [H1 H2].
    destruct (Hc H1) as (c' & Ec & Hc').
    destruct (IH H2) as (l' & El & Hl' & Hlen).
    rewrite Ec, El. simpl.
    eexists. split; [reflexivity|]. simpl. rewrite Hc', Hl', Hlen. auto.
Qed.

Let cbo := NewCostBasedOptimizer Log2 catalogMgr.

Lemma optimizeJoinOrder_returns p :
  I1 p = true ->
  forall st, exists p' st',
      optimizeJoinOrder cbo p st = Done p' st' /\ I1 p' = true.
Proof.
  induction p as [p IH] using LogicalPlan_tree_ind. intros HI st.
  assert (HIk : forallb I1 (lp_Children p) = true).
  { rewrite I1_unfold in HI. now apply andb_prop in HI as [_ HI]. }
  assert (Hkids : forall s, exists p' s',
             bind (mapM (optimizeJoinOrder cbo) (lp_Children p))
                  (fun children => ret (set_Children children p)) s
             = Done p' s' /\ I1 p' = true).
  { intros s. destruct (mapM_I1 _ _ IH HIk s) as (cs' & s' & E & Hc & Hl).
    unfold bind. rewrite E. unfold ret. do 2 eexists.
    split; [reflexivity|]. apply (I1_rebuild p); auto.
    - apply set_Children_NodeType.
    - now rewrite set_Children_Children.
    - now rewrite set_Children_Children. }
  rewrite optimizeJoinOrder_unfold.
  destruct (String.eqb_spec (lp_NodeType p) NodeTypeJoin) as [Hnt|Hnt];
    cbn [andb]; [|apply Hkids].
  destruct (lp_Children p) as [|l [|r [|x rest]]] eqn:Hch;
    cbn [length Nat.eqb]; try apply Hkids.
  pose proof (I1_limit_has_child _ HI) as Hl.
  destruct (EstimateCost_total cost_model.NewSimpleCostModel p Hl) as [cur Ecur].
  change (EstimateCost (costModel cbo) p (optimizer.catalogMgr cbo))
    with (cost_model.EstimateCost Log2 cost_model.NewSimpleCostModel
            catalogMgr p).
  rewrite Ecur. unfold bind at 1. cbn [lift].
  unfold bind at 1, NewJoinNode, bind at 1, generateID, ret at 1.
  set (sw := mkLogicalPlan _ NodeTypeJoin [r; l] _ _ _ _ _ _ _ _ _ _ _ _ _ _).
  assert (HIsw : I1 sw = true).
  { simpl in HIk. apply andb_prop in HIk as [Hl1 Hr1].
    apply andb_prop in Hr1 as [Hr1 _]. subst sw. simpl.
    now rewrite Hl1, Hr1. }
  destruct (EstimateCost_total cost_model.NewSimpleCostModel sw
              (I1_limit_has_child _ HIsw)) as [swc Eswc].
  change (EstimateCost (costModel cbo) sw (optimizer.catalogMgr cbo))
    with (cost_model.EstimateCost Log2 cost_model.NewSimpleCostModel
            catalogMgr sw).
  rewrite Eswc. unfold bind at 1. cbn [lift].
  destruct (_ <? _)%float; [|apply Hkids].
  assert (IHsw : Forall (fun c => I1 c = true ->
                   forall st, exists c' st',
                     optimizeJoinOrder cbo c st = Done c' st'
                     /\ I1 c' = true) [r; l]).
  { inversion IH as [|? ? Hl' IH']; subst. inversion IH' as [|? ? Hr' _]; subst.
    repeat constructor; assumption. }
  destruct (mapM_I1 _ [r; l] IHsw) with (st := add64 st 1)
    as (cs' & s' & E & Hc & Hlen).
  { simpl in *. apply andb_prop in HIk as [Hl1 Hr1].
    apply andb_prop in Hr1 as [Hr1 _]. now rewrite Hl1, Hr1. }
  unfold bind. rewrite E. unfold ret. do 2 eexists. split; [reflexivity|].
  apply (I1_rebuild sw);
    rewrite ?set_Children_NodeType, ?set_Children_Children; auto.
Qed.

Lemma selectPhysicalOperators_returns p :
  I1 p = true ->
  exists p', selectPhysicalOperators cbo p = Ret p' /\ I1 p' = true.
Proof.
  induction p as [p IH] using LogicalPlan_tree_ind. intros HI.
  assert (HIk : forallb I1 (lp_Children p) = true).
  { rewrite I1_unfold in HI. now apply andb_prop in HI as [_ HI]. }
  assert (Hcard : forall q, I1 q = true ->
            is_Ret (EstimateCardinality (costModel cbo) q
                      (optimizer.catalogMgr cbo))).
  { intros q Hq. apply card_total. now apply I1_limit_has_child. }
  assert (Hmd : is_Ret (selectAtNode cbo p)).
  { unfold selectAtNode, is_Ret.
    destruct (String.eqb_spec (lp_NodeType p) NodeTypeJoin) as [Hnt|Hnt].
    - pose proof HI as Ha. rewrite I1_unfold in Ha.
      apply andb_prop in Ha as [Ha _]. unfold arity_ok in Ha.
      rewrite Hnt in Ha. simpl in Ha.
      destruct (lp_Children p) as [|c0 [|c1 [|? ?]]] eqn:Hch; try discriminate.
      simpl in HIk. apply andb_prop in HIk as [H0 H1].
      apply andb_prop in H1 as [H1 _].
      destruct (Hcard c0 H0) as [n0 ->]. destruct (Hcard c1 H1) as [n1 ->].
      simpl. eauto.
    - destruct (Hcard p HI) as [n ->]. simpl.
      repeat match goal with
             | |- context [if ?b then _ else _] => destruct b
             | |- context [match ?l with [] => _ | _ :: _ => _ end] =>
                 destruct l
             end; eauto. }
  destruct Hmd as [md Emd].
  destruct (mapO_I1 _ _ IH HIk) as (cs' & E & Hc & Hlen).
  destruct p as [id nt cs tn al pr pj jt jc gb ag ob lc oc er ec md0].
  cbn [selectPhysicalOperators]. rewrite Emd. cbn [obind lp_Children].
  cbn [lp_Children] in E. rewrite E. cbn [obind].
  eexists. split; [reflexivity|].
  eapply I1_rebuild; [| | |exact HI]; simpl; auto.
Qed.

Lemma propagateCostEstimates_returns p :
  I1 p = true ->
  exists p', propagateCostEstimates cbo p = Ret p' /\ I1 p' = true.
Proof.
  induction p as [p IH] using LogicalPlan_tree_ind. intros HI.
  assert (HIk : forallb I1 (lp_Children p) = true).
  { rewrite I1_unfold in HI. now apply andb_prop in HI as [_ HI]. }
  destruct (mapO_I1 _ _ IH HIk) as (cs' & E & Hc & Hlen).
  destruct p as [id nt cs tn al pr pj jt jc gb ag ob lc oc er ec md].
  cbn [propagateCostEstimates lp_Children]. cbn [lp_Children] in E.
  rewrite E. cbn [obind set_Children].
  set (q := mkLogicalPlan id nt cs' tn al pr pj jt jc gb ag ob lc oc er ec md).
  assert (HIq : I1 q = true).
  { eapply I1_rebuild; [| | |exact HI]; simpl; auto. }
  destruct (EstimateCost_total cost_model.NewSimpleCostModel q
              (I1_limit_has_child _ HIq)) as [cost Ecost].
  change (EstimateCost (costModel cbo) q (optimizer.catalogMgr cbo))
    with (cost_model.EstimateCost Log2 cost_model.NewSimpleCostModel
            catalogMgr q).
  rewrite Ecost. cbn [obind]. eexists. split; [reflexivity|].
  eapply I1_rebuild; [| | |exact HIq]; simpl; auto.
Qed.

Lemma CostBasedOptimizer_Optimize_returns formatCost plan st :
  I1 plan = true ->
  exists out ex st',
    CostBasedOptimizer_Optimize formatCost cbo (Some plan) st
    = Done (Some out, Some ex, None) st'.
Proof.
  intros HI. unfold CostBasedOptimizer_Optimize.
  destruct (OptimizeWithRules_returns plan st HI) as (rp & re & st1 & Er).
  pose proof (RuleBasedOptimizer_Optimize_keeps _ rules_keep _ _ _ _ _ _ Er HI)
    as [HIrp _].
  unfold bind at 1. rewrite Er.
  unfold applyCostBasedOptimizations.
  destruct (Clone_total rp st1) as (c0 & s1 & E0).
  assert (HI0 : I1 c0 = true) by now rewrite (Clone_I1 _ _ _ _ E0).
  destruct (optimizeJoinOrder_returns c0 HI0 s1) as (c1 & s2 & E1 & HI1).
  destruct (selectPhysicalOperators_returns c1 HI1) as (c2 & E2 & HI2).
  destruct (EstimateCost_total cost_model.NewSimpleCostModel c2
              (I1_limit_has_child _ HI2)) as [fc Efc].
  destruct (propagateCostEstimates_returns c2 HI2) as (c3 & E3 & _).
  unfold bind. rewrite E0, E1, E2. cbn [lift ret].
  change (EstimateCost (costModel cbo) c2 (optimizer.catalogMgr cbo))
    with (cost_model.EstimateCost Log2 cost_model.NewSimpleCostModel
            catalogMgr c2).
  rewrite Efc, E3. cbn [lift ret]. eauto.
Qed.

End CostBasedTotality.

Section OptimizeClaims.

Import optimizer.

(** C6, as stated, fails on plans that break the arity invariant, which
    the optimizers accept.  In [Filter(p, Project(pi, [Scan(big),
    Scan(small)]))] the pushdown keeps only the first input of the
    Project: the rule-based optimizer succeeds and returns
    [Project(pi, Filter(p, Scan(big)))], without [small]. *)
Lemma Optimize_may_drop_a_scan :
  let plan :=
    Samples.filter "node_1" "="
      [Samples.project "node_2" ["name"]
         [Samples.scan "node_3" "big" None;
          Samples.scan "node_4" "small" None]] in
  exists out ex st',
    OptimizeWithRules (Some plan) 4 = Done (Some out, Some ex, None) st'
    /\ scan_tables plan = ["big"; "small"]
    /\ scan_tables out = ["big"]
    /\ ~ Permutation (scan_tables out) (scan_tables plan).
Proof.
  vm_compute. do 3 eexists. split; [reflexivity|].
  split; [reflexivity|]. split; [reflexivity|].
  intros HP. apply Permutation_length in HP. discriminate HP.
Qed.

(** Whatever the cost model and the catalog, the cost-based optimizer
    never runs out of its recursion budget, and a plan it returns for a
    well-formed input has the Scan tables of the input. *)
Lemma CostBasedOptimizer_Optimize_keeps (formatCost : float -> string)
    (cbo : CostBasedOptimizer) (plan : LogicalPlan) (idCounter : Z) :
  I1 plan = true ->
  CostBasedOptimizer_Optimize formatCost cbo (Some plan) idCounter
  <> OutOfFuel
  /\ forall out ex err idCounter',
       CostBasedOptimizer_Optimize formatCost cbo (Some plan) idCounter
       = Done (Some out, ex, err) idCounter' ->
       Permutation (scan_tables out) (scan_tables plan).
Proof.
  intros HI.
  assert (Hrule : forall st out ex err st',
             OptimizeWithRules (Some plan) st = Done (Some out, ex, err) st' ->
             scan_tables out = scan_tables plan).
  { intros st out ex err st' H.
    apply (RuleBasedOptimizer_Optimize_keeps _ rules_keep) in H.
    now destruct (H HI). }
  split.
  - unfold CostBasedOptimizer_Optimize.
    apply bind_fuel.
    { destruct (OptimizeWithRules_returns plan idCounter HI)
        as (o & e & s' & ->). discriminate. }
    intros [[[rp|] [re|]] [e|]] st1; try discriminate.
    apply bind_fuel.
    { unfold applyCostBasedOptimizations.
      apply bind_fuel; [apply Clone_fuel|]. intros c st2.
      apply bind_fuel; [apply optimizeJoinOrder_fuel|]. intros j st3.
      apply bind_fuel; [apply lift_fuel | discriminate]. }
    intros c st2. apply bind_fuel; [apply lift_fuel|]. intros fc st3.
    apply bind_fuel; [apply lift_fuel | discriminate].
  - intros out ex err st' H. unfold CostBasedOptimizer_Optimize in H.
    apply bind_Done in H as (r & st1 & Hr & H).
    destruct r as [[[rp|] [re|]] [e|]]; try discriminate.
    apply bind_Done in H as (c & st2 & Hc & H).
    apply bind_Done in H as (fc & st3 & _ & H).
    apply bind_Done in H as (stamped & st4 & Hst & H).
    injection H as <- _ _ _.
    apply lift_Done in Hst as [Hst _].
    rewrite (propagateCostEstimates_scan_tables _ _ _ Hst).
    unfold applyCostBasedOptimizations in Hc.
    apply bind_Done in Hc as (c0 & s1 & Hc0 & Hc).
    apply bind_Done in Hc as (c1 & s2 & Hc1 & Hc).
    apply bind_Done in Hc as (c2 & s3 & Hc2 & Hc). injection Hc as <- <-.
    apply lift_Done in Hc2 as [Hc2 _].
    rewrite (selectPhysicalOperators_scan_tables _ _ _ Hc2).
    rewrite (optimizeJoinOrder_Permutation _ _ _ _ _ Hc1).
    rewrite (Clone_scan_tables _ _ _ _ Hc0).
    now rewrite (Hrule _ _ _ _ _ Hr).
Qed.

(** C6, amended.  On a plan that satisfies the arity invariant (I1),
    whenever the rule-based optimizer or the cost-based optimizer, over
    any catalog, returns a plan, the Scan table names of that plan are,
    as a multi-set, those of the input.  Neither optimizer runs for
    ever: the call returns or panics (as it does, in [Clone], on a tree
    with a null child slot, which is not among the plans of this
    development). *)
Theorem Optimize_keeps_scan_tables (Log2 : float -> float)
    (formatCost : float -> string) (catalogMgr : catalog.CatalogManager)
    (plan : LogicalPlan) (idCounter : Z) :
  I1 plan = true ->
  (forall out ex err idCounter',
      OptimizeWithRules (Some plan) idCounter
      = Done (Some out, ex, err) idCounter' ->
      Permutation (scan_tables out) (scan_tables plan))
  /\ (forall out ex err idCounter',
        CostBasedOptimizer_Optimize formatCost
          (NewCostBasedOptimizer Log2 catalogMgr) (Some plan) idCounter
        = Done (Some out, ex, err) idCounter' ->
        Permutation (scan_tables out) (scan_tables plan))
  /\ OptimizeWithRules (Some plan) idCounter <> OutOfFuel
  /\ CostBasedOptimizer_Optimize formatCost
       (NewCostBasedOptimizer Log2 catalogMgr) (Some plan) idCounter
     <> OutOfFuel.
Proof.
  intros HI.
  destruct (CostBasedOptimizer_Optimize_keeps formatCost
              (NewCostBasedOptimizer Log2 catalogMgr) plan idCounter HI)
    as [Hfuel Hkeeps].
  split; [|split; [exact Hkeeps|split; [|exact Hfuel]]].
  - intros out ex err st' H.
    apply (RuleBasedOptimizer_Optimize_keeps _ rules_keep) in H.
    destruct (H HI) as [_ ->]. reflexivity.
  - destruct (OptimizeWithRules_returns plan idCounter HI)
      as (out & ex & st' & ->).
    discriminate.
Qed.

Lemma Optimize_keeps_scan_tables_witness :
  let plan :=
    Samples.filter "node_1" ">"
      [Samples.project "node_2" ["*"]
         [Samples.join "node_3" JoinTypeInner
            (Samples.scan "node_4" "big" None)
            (Samples.scan "node_5" "small" None)]] in
  I1 plan = true
  /\ exists out ex st',
       OptimizeWithCost (fun x => x) (fun _ => "") (Some plan) 5
       = Done (Some out, Some ex, None) st'
       /\ Permutation (scan_tables out) ["big"; "small"].
Proof.
  cbv zeta. split; [reflexivity|].
  match goal with
  | |- exists out ex st', ?call = _ /\ _ =>
      assert (E : exists out ex st', call = Done (Some out, Some ex, None) st')
        by (vm_compute; eexists _, _, _; reflexivity)
  end.
  destruct E as (out & ex & st' & E).
  exists out, ex, st'. split; [exact E|].
  exact (proj1 (proj2 (Optimize_keeps_scan_tables (fun x => x) (fun _ => "")
                         catalog.NewCatalogManager
                         (Samples.filter "node_1" ">"
                            [Samples.project "node_2" ["*"]
                               [Samples.join "node_3" JoinTypeInner
                                  (Samples.scan "node_4" "big" None)
                                  (Samples.scan "node_5" "small" None)]])
                         5 eq_refl))
           out (Some ex) None st' E).
Defined.

End OptimizeClaims.

(* ===================================================================== *)
(** * Further properties of the packages *)
(* ===================================================================== *)

(** ** Relations the rewrite rules maintain *)

(** The rule engine only ever takes four kinds of steps on a plan: it
    copies a node over related children ([Clone]), replaces the children
    of a node by related children, turns [Filter(Project(c0 ...))] into
    [Project(Filter(c0))], and drops a [Project] that selects [*].  A
    reflexive and transitive relation closed under these steps relates
    the plan handed to the rule-based optimizer to the plan it returns. *)
Section RewriteInvariant.

Import optimizer.

Variable R : LogicalPlan -> LogicalPlan -> Prop.

Hypothesis R_refl : forall p, R p p.
Hypothesis R_trans : forall p q r, R p q -> R q r -> R p r.
Hypothesis R_children :
  forall p cs', Forall2 R (lp_Children p) cs' -> R p (set_Children cs' p).
Hypothesis R_clone :
  forall p id cs', Forall2 R (lp_Children p) cs' -> R p (cloneNode p id cs').
Hypothesis R_push :
  forall plan child c0 rest0 idf idp,
    lp_NodeType plan = NodeTypeFilter ->
    lp_Children plan = [child] ->
    lp_NodeType child = NodeTypeProject ->
    lp_Children child = c0 :: rest0 ->
    R plan
      (mkLogicalPlan idp NodeTypeProject
         [mkLogicalPlan idf NodeTypeFilter [c0] "" "" (lp_Predicate plan) []
            "" None [] [] [] None None None None ∅]
         "" "" None (lp_Projections child) "" None [] [] [] None None None
         None ∅).
Hypothesis R_drop :
  forall plan child,
    lp_NodeType plan = NodeTypeProject ->
    lp_Children plan = [child] ->
    isRedundantProjection (lp_Projections plan) = true ->
    R plan child.

Lemma Clone_related p st p' st' : Clone p st = Done p' st' -> R p p'.
Proof. revert p st p' st'. apply Clone_rel. exact R_clone. Qed.

Lemma PredicatePushdown_rel fuel :
  forall plan st out ch st',
    PredicatePushdownRule.applyRecursive fuel plan st = Done (out, ch) st' ->
    R plan out.
Proof.
  induction fuel as [|fuel IH]; intros plan st out ch st' H; [discriminate|].
  simpl in H.
  apply bind_Done in H as (r & st1 & Hr & H).
  apply bind_Done in H as ([cs' chs] & st2 & Hcs & H).
  injection H as <- <- <-. simpl.
  assert (Hkids : Forall2 R (lp_Children (fst r)) cs').
  { eapply rewriteChildren_rel; [apply R_refl | | exact Hcs].
    apply List.Forall_forall. intros c _ s c' chc s' Hc. eapply IH; eauto. }
  apply R_trans with (q := fst r); [|now apply R_children].
  apply rewriteNode_cases in Hr as
      [(-> & _ & _) | (child & c0 & rest0 & nf & st0 & Hnt & Hch & Hp & Hcc
                       & Hnf & np & Hnp & ->)].
  - apply R_refl.
  - unfold NewFilterNode, NewProjectNode, bind, generateID, ret in *.
    injection Hnf as <- <-. injection Hnp as <- <-. simpl.
    now apply (R_push plan child c0 rest0).
Qed.

Lemma ProjectionPushdown_rel n :
  forall plan st out ch st',
    (plan_size plan <= n)%nat ->
    ProjectionPushdownRule.applyRecursive plan st = Done (out, ch) st' ->
    R plan out.
Proof.
  induction n as [|n IH]; intros plan st out ch st' Hsz H.
  { destruct plan; simpl in Hsz; lia. }
  assert (Hrec : forall q, (plan_size q <= plan_size plan)%nat ->
            Forall (fun c => forall s c' chc s',
                      ProjectionPushdownRule.applyRecursive c s
                      = Done (c', chc) s' -> R c c') (lp_Children q)).
  { intros q Hq. apply List.Forall_forall. intros c Hin s c' chc s' Hc.
    apply plan_size_child in Hin. eapply (IH c); [lia | exact Hc]. }
  destruct plan as [id nt cs tn al pr pj jt jc gb ag ob lc oc er ec md].
  simpl in H.
  set (plan := mkLogicalPlan id nt cs tn al pr pj jt jc gb ag ob lc oc er ec md)
    in *.
  destruct (String.eqb nt NodeTypeProject && Nat.eqb (length cs) 1
            && isRedundantProjection pj) eqn:Hfire.
  - apply andb_prop in Hfire as [Hfire Hred].
    apply andb_prop in Hfire as [Hnt Hlen].
    apply String.eqb_eq in Hnt. apply Nat.eqb_eq in Hlen.
    destruct cs as [|child [|? ?]]; try discriminate.
    apply bind_Done in H as ([cs' chs] & st2 & Hcs & H).
    injection H as <- <- <-. simpl.
    apply R_trans with (q := child).
    + now apply R_drop.
    + apply R_children.
      eapply rewriteChildren_rel; [apply R_refl | | exact Hcs].
      apply Hrec. subst plan. simpl. lia.
  - apply bind_Done in H as ([cs' chs] & st2 & Hcs & H).
    injection H as <- <- <-. simpl.
    apply (R_children plan).
    eapply rewriteChildren_rel; [apply R_refl | | exact Hcs].
    apply (Hrec plan). lia.
Qed.

Lemma rules_rel :
  Forall (fun rule => forall p st out ch st',
              Apply rule p st = Done (out, ch) st' -> R p out)
         (rules NewRuleBasedOptimizer).
Proof.
  simpl. repeat (constructor; [simpl|]); [| | | |constructor].
  - intros p st out ch st'. apply PredicatePushdown_rel.
  - intros p st out ch st'. now apply (ProjectionPushdown_rel (plan_size p)).
  - intros p st out ch st' [= <- <- <-]. apply R_refl.
  - intros p st out ch st' [= <- <- <-]. apply R_refl.
Qed.

Lemma applyRules_rel rs :
  incl rs (rules NewRuleBasedOptimizer) ->
  forall s st s' st',
    applyRules rs s st = Done s' st' -> R (currentPlan s) (currentPlan s').
Proof.
  pose proof rules_rel as Hrules. rewrite List.Forall_forall in Hrules.
  induction rs as [|rule rs IH]; intros Hincl s st s' st' H; simpl in H.
  - injection H as <- <-. apply R_refl.
  - apply bind_Done in H as (s1 & st1 & H1 & H).
    apply R_trans with (q := currentPlan s1).
    + unfold applyRule in H1.
      apply bind_Done in H1 as (before & st0 & _ & H1).
      apply bind_Done in H1 as ([out ch] & st2 & Hap & H1).
      destruct ch; injection H1 as <- <-; simpl; [|apply R_refl].
      eapply Hrules; [apply Hincl; now left | exact Hap].
    + eapply IH; [|exact H]. intros x Hx. apply Hincl. now right.
Qed.

Lemma iterate_rel n :
  forall s st s' st',
    iterate NewRuleBasedOptimizer n s st = Done s' st' ->
    R (currentPlan s) (currentPlan s').
Proof.
  induction n as [|n IH]; intros s st s' st' H; cbn [iterate] in H.
  - injection H as <- <-. apply R_refl.
  - apply bind_Done in H as (s1 & st1 & H1 & H).
    apply applyRules_rel in H1; [|apply incl_refl]. cbn [currentPlan] in H1.
    destruct (changed s1).
    + eapply R_trans; [exact H1 | eapply IH; exact H].
    + injection H as <- <-. exact H1.
Qed.

Lemma OptimizeWithRules_rel plan st out ex err st' :
  OptimizeWithRules (Some plan) st = Done (Some out, ex, err) st' ->
  R plan out.
Proof.
  intros H. unfold OptimizeWithRules, RuleBasedOptimizer_Optimize in H.
  apply bind_Done in H as (p0 & st1 & Hp0 & H).
  apply bind_Done in H as (s & st2 & Hs & H). injection H as <- _ _ _.
  apply iterate_rel in Hs. cbn [currentPlan] in Hs.
  eapply R_trans; [eapply Clone_related; exact Hp0 | exact Hs].
Qed.

End RewriteInvariant.

(** ** The rewrite rules and the estimated cardinality *)

Section CardinalityKept.

Import cost_model.

Variable catalogMgr : catalog.CatalogManager.

Abbreviation same_card :=
  (fun p q : LogicalPlan =>
     EstimateCardinality catalogMgr q = EstimateCardinality catalogMgr p).

Lemma cloneExpression_Value e : e_Value (cloneExpression e) = e_Value e.
Proof. now destruct e. Qed.

Lemma estimateSelectivity_clone pr :
  estimateSelectivity (clonePredicate pr) = estimateSelectivity pr.
Proof.
  destruct pr as [[[e|]]|]; simpl; try reflexivity.
  now rewrite cloneExpression_Value.
Qed.

(** The estimate of a node reads its children only through their own
    estimates. *)
Lemma card_children_ext id nt tn al pr pj jt jc gb ag ob lc oc er ec md
    id' al' pj' jc' ag' ob' oc' er' ec' md' (cs cs' : list LogicalPlan) :
  Forall2 same_card cs cs' ->
  EstimateCardinality catalogMgr
    (mkLogicalPlan id' nt cs' tn al' pr pj' jt jc' gb ag' ob' lc oc' er' ec' md')
  = EstimateCardinality catalogMgr
      (mkLogicalPlan id nt cs tn al pr pj jt jc gb ag ob lc oc er ec md).
Proof.
  intros HF.
  destruct HF as [|c c' cs cs' Hc HF]; [reflexivity|].
  destruct HF as [|d d' cs cs' Hd HF]; simpl; rewrite Hc; [reflexivity|].
  now rewrite Hd.
Qed.

Lemma same_card_children p cs' :
  Forall2 same_card (lp_Children p) cs' -> same_card p (set_Children cs' p).
Proof.
  destruct p. cbn [set_Children lp_Children]. apply card_children_ext.
Qed.

Lemma same_card_clone p id cs' :
  Forall2 same_card (lp_Children p) cs' -> same_card p (cloneNode p id cs').
Proof.
  destruct p as [i nt cs tn al pr pj jt jc gb ag ob lc oc er ec md].
  unfold cloneNode. cbn [lp_Children lp_NodeType lp_TableName lp_JoinType
    lp_GroupBy lp_LimitCount lp_Predicate]. intros HF.
  rewrite (card_children_ext i nt tn al (clonePredicate pr) pj jt jc gb ag ob
             lc oc er ec md _ _ _ _ _ _ _ _ _ _ cs cs' HF).
  destruct HF as [|c c' cs cs' Hc HF]; simpl;
    now rewrite ?estimateSelectivity_clone.
Qed.

Lemma same_card_push plan child c0 rest0 idf idp :
  lp_NodeType plan = NodeTypeFilter ->
  lp_Children plan = [child] ->
  lp_NodeType child = NodeTypeProject ->
  lp_Children child = c0 :: rest0 ->
  same_card plan
    (mkLogicalPlan idp NodeTypeProject
       [mkLogicalPlan idf NodeTypeFilter [c0] "" "" (lp_Predicate plan) []
          "" None [] [] [] None None None None ∅]
       "" "" None (lp_Projections child) "" None [] [] [] None None None
       None ∅).
Proof.
  intros Hnt Hch Hp Hcc. cbv beta.
  rewrite (card_Filter catalogMgr plan child [] Hnt Hch).
  destruct child; simpl in Hp, Hcc; subst. reflexivity.
Qed.

Lemma same_card_drop plan child :
  lp_NodeType plan = NodeTypeProject ->
  lp_Children plan = [child] ->
  same_card plan child.
Proof. intros Hnt Hch. destruct plan; simpl in *; subst. reflexivity. Qed.

End CardinalityKept.

(** ** The join-order pass under the cost model of the optimizer *)

Section JoinOrderIdentity.

Import optimizer.

Variable Log2 : float -> float.
Variable catalogMgr : catalog.CatalogManager.

Let cbo := NewCostBasedOptimizer Log2 catalogMgr.

Lemma Forall2_flip_eq {A} (l l' : list A) :
  Forall2 (fun a b => b = a) l l' -> l' = l.
Proof. induction 1; congruence. Qed.

(** The pass hands back the tree it was given: no Join is ever swapped,
    and the only trace of the comparison is the ids it has drawn. *)
Lemma optimizeJoinOrder_same p :
  forall st p' st', optimizeJoinOrder cbo p st = Done p' st' -> p' = p.
Proof.
  induction p as [p IH] using LogicalPlan_tree_ind.
  intros st p' st' H.
  assert (Hkids : forall s cs' s',
             mapM (optimizeJoinOrder cbo) (lp_Children p) s = Done cs' s' ->
             set_Children cs' p = p).
  { intros s cs' s' Hcs.
    rewrite (Forall2_flip_eq (lp_Children p) cs'); [apply set_Children_same|].
    eapply mapM_rel; [|exact Hcs].
    eapply Forall_impl; [exact IH|]. intros c Hc s0 b s1 Hb. eapply Hc, Hb. }
  rewrite optimizeJoinOrder_unfold in H.
  destruct (String.eqb_spec (lp_NodeType p) NodeTypeJoin) as [Hnt|Hnt];
    cbn [andb] in H.
  2:{ apply bind_Done in H as (cs' & s1 & Hcs & H). injection H as <- <-.
      eapply Hkids, Hcs. }
  destruct (lp_Children p) as [|L [|R' [|x rest]]] eqn:Hch;
    cbn [length Nat.eqb] in H;
    try (apply bind_Done in H as (cs' & s1 & Hcs & H); injection H as <- <-;
         eapply Hkids, Hcs).
  apply bind_Done in H as (cur & s1 & Hcur & H).
  apply lift_Done in Hcur as [Hcur ->].
  apply bind_Done in H as (sw & s2 & Hsw & H).
  unfold NewJoinNode, bind, generateID, ret in Hsw. injection Hsw as <- <-.
  apply bind_Done in H as (swc & s3 & Hswc & H).
  apply lift_Done in Hswc as [Hswc ->].
  change (EstimateCost (costModel cbo) p (optimizer.catalogMgr cbo))
    with (cost_model.EstimateCost Log2 cost_model.NewSimpleCostModel
            catalogMgr p) in Hcur.
  match type of Hswc with
  | EstimateCost (costModel cbo) ?q _ = _ =>
      pose proof (EstimateCost_Join_symmetric Log2
                    cost_model.NewSimpleCostModel catalogMgr p q L R' Hnt Hch
                    eq_refl eq_refl) as Hsym;
      change (EstimateCost (costModel cbo) q (optimizer.catalogMgr cbo))
        with (cost_model.EstimateCost Log2 cost_model.NewSimpleCostModel
                catalogMgr q) in Hswc
  end.
  rewrite Hcur, Hswc in Hsym. rewrite Hsym, float_ltb_irrefl in H.
  apply bind_Done in H as (cs' & s4 & Hcs & H). injection H as <- <-.
  eapply Hkids, Hcs.
Qed.

End JoinOrderIdentity.

(** ** Erasures *)

Section MapNodesFacts.

Import view.

Lemma cloneExpression_id : forall e, cloneExpression e = e.
Proof.
  fix IH 1. intros [t v l r args d]. simpl. f_equal.
  - destruct l as [e|]; simpl; [now rewrite IH | reflexivity].
  - destruct r as [e|]; simpl; [now rewrite IH | reflexivity].
  - induction args as [|a args IHargs]; simpl; [reflexivity|].
    now rewrite IH, IHargs.
Qed.

Lemma clonePredicate_id pr : clonePredicate pr = pr.
Proof.
  destruct pr as [[[e|]]|]; simpl; try reflexivity.
  now rewrite cloneExpression_id.
Qed.

Lemma cloneJoinCondition_id jc : cloneJoinCondition jc = jc.
Proof.
  destruct jc as [[l r op]|]; simpl; [|reflexivity].
  destruct l, r; simpl; now rewrite ?cloneExpression_id.
Qed.

(** A clone is the original node with another id over other children. *)
Lemma cloneNode_set p id cs :
  cloneNode p id cs = set_ID id (set_Children cs p).
Proof.
  destruct p. unfold cloneNode. simpl.
  now rewrite clonePredicate_id, cloneJoinCondition_id.
Qed.

Variable f : LogicalPlan -> LogicalPlan.

Abbreviation same_view := (fun p q : LogicalPlan => map_nodes f q = map_nodes f p).

Lemma map_nodes_unfold p :
  map_nodes f p = f (set_Children (List.map (map_nodes f) (lp_Children p)) p).
Proof. now destruct p. Qed.

Lemma same_view_map (cs cs' : list LogicalPlan) :
  Forall2 same_view cs cs' ->
  List.map (map_nodes f) cs' = List.map (map_nodes f) cs.
Proof. induction 1; simpl; congruence. Qed.

Lemma same_view_children p cs' :
  Forall2 same_view (lp_Children p) cs' -> same_view p (set_Children cs' p).
Proof.
  intros HF. cbv beta. rewrite (map_nodes_unfold (set_Children cs' p)),
    (map_nodes_unfold p), set_Children_Children, (same_view_map _ _ HF).
  now destruct p.
Qed.

(** A change at the node that [f] erases does not show. *)
Lemma same_view_node (g : LogicalPlan -> LogicalPlan) p :
  lp_Children (g p) = lp_Children p ->
  (forall cs, f (set_Children cs (g p)) = f (set_Children cs p)) ->
  same_view p (g p).
Proof.
  intros Hch Hg. cbv beta.
  now rewrite (map_nodes_unfold (g p)), (map_nodes_unfold p), Hch, Hg.
Qed.

End MapNodesFacts.

(** ** Relations the cost-based passes maintain *)

(** After the rules, the cost-based optimizer copies the plan, runs the
    join-order pass, writes metadata and writes estimates.  A reflexive
    and transitive relation closed under copying, under replacing
    children and under these two writes relates the rule-optimized plan
    to the final one. *)
Section PassInvariant.

Import optimizer.

Variable R : LogicalPlan -> LogicalPlan -> Prop.

Hypothesis R_refl : forall p, R p p.
Hypothesis R_trans : forall p q r, R p q -> R q r -> R p r.
Hypothesis R_children :
  forall p cs', Forall2 R (lp_Children p) cs' -> R p (set_Children cs' p).
Hypothesis R_clone :
  forall p id cs', Forall2 R (lp_Children p) cs' -> R p (cloneNode p id cs').
Hypothesis R_metadata : forall p md, R p (set_Metadata md p).
Hypothesis R_estimates : forall p rows cost, R p (set_Estimates rows cost p).

Lemma set_Metadata_Children md p :
  lp_Children (set_Metadata md p) = lp_Children p.
Proof. now destruct p. Qed.

Lemma selectPhysicalOperators_rel cbo p :
  forall p', selectPhysicalOperators cbo p = Ret p' -> R p p'.
Proof.
  induction p as [p IH] using LogicalPlan_tree_ind. intros p' H.
  assert (Hun : selectPhysicalOperators cbo p =
                (md <~ selectAtNode cbo p ;;
                 children <~ mapO (selectPhysicalOperators cbo) (lp_Children p) ;;
                 Ret (set_Children children (set_Metadata md p)))%go)
    by now destruct p.
  rewrite Hun in H.
  apply obind_Ret in H as (md' & _ & H).
  apply obind_Ret in H as (cs' & Hcs & H). injection H as <-.
  apply R_trans with (q := set_Metadata md' p); [apply R_metadata|].
  apply R_children. rewrite set_Metadata_Children.
  eapply mapO_rel; [|exact Hcs]. exact IH.
Qed.

Lemma propagateCostEstimates_rel cbo p :
  forall p', propagateCostEstimates cbo p = Ret p' -> R p p'.
Proof.
  induction p as [p IH] using LogicalPlan_tree_ind. intros p' H.
  assert (Hun : propagateCostEstimates cbo p =
                (children <~ mapO (propagateCostEstimates cbo) (lp_Children p) ;;
                 let plan := set_Children children p in
                 cost <~ EstimateCost (costModel cbo) plan (catalogMgr cbo) ;;
                 Ret (set_Estimates (cost_model.Cardinality cost)
                        (cost_model.TotalCost cost) plan))%go)
    by now destruct p.
  rewrite Hun in H.
  apply obind_Ret in H as (cs' & Hcs & H).
  apply obind_Ret in H as (cost & _ & H). injection H as <-.
  apply R_trans with (q := set_Children cs' p); [|apply R_estimates].
  apply R_children. eapply mapO_rel; [|exact Hcs]. exact IH.
Qed.

Variable Log2 : float -> float.
Variable formatCost : float -> string.
Variable catalogMgr : catalog.CatalogManager.

(** The stage after the rules, with the cost model of the optimizer. *)
Lemma cost_stage_rel plan st out ex err st' :
  CostBasedOptimizer_Optimize formatCost
    (NewCostBasedOptimizer Log2 catalogMgr) (Some plan) st
  = Done (Some out, ex, err) st' ->
  exists rp rex st1,
    OptimizeWithRules (Some plan) st = Done (Some rp, Some rex, None) st1
    /\ R rp out.
Proof.
  intros H. unfold CostBasedOptimizer_Optimize in H.
  apply bind_Done in H as (r & st1 & Hr & H).
  destruct r as [[[rp|] [re|]] [e|]]; try discriminate.
  apply bind_Done in H as (c & st2 & Hc & H).
  apply bind_Done in H as (fc & st3 & _ & H).
  apply bind_Done in H as (stamped & st4 & Hst & H).
  injection H as <- _ _ _.
  apply lift_Done in Hst as [Hst _].
  unfold applyCostBasedOptimizations in Hc.
  apply bind_Done in Hc as (c0 & s1 & Hc0 & Hc).
  apply bind_Done in Hc as (c1 & s2 & Hc1 & Hc).
  apply bind_Done in Hc as (c2 & s3 & Hc2 & Hc). injection Hc as <- <-.
  apply lift_Done in Hc2 as [Hc2 _].
  apply optimizeJoinOrder_same in Hc1. subst c1.
  exists rp, re, st1. split; [exact Hr|].
  apply R_trans with (q := c0).
  { revert Hc0. apply Clone_rel. exact R_clone. }
  apply R_trans with (q := c2).
  - eapply selectPhysicalOperators_rel, Hc2.
  - eapply propagateCostEstimates_rel, Hst.
Qed.

End PassInvariant.

(** ** The optimizers: shape, join order, cardinality *)

Section OptimizerShape.

Import optimizer.

(** X1.  With the cost model the optimizer is built with, the
    join-order pass hands back exactly the tree it was given, whatever
    the catalog holds: no Join of the plan, at any depth, has its inputs
    exchanged, and no field of any node is touched. *)
Theorem optimizeJoinOrder_is_identity (Log2 : float -> float)
    (catalogMgr : catalog.CatalogManager) (plan plan' : LogicalPlan)
    (idCounter idCounter' : Z) :
  optimizeJoinOrder (NewCostBasedOptimizer Log2 catalogMgr) plan idCounter
  = Done plan' idCounter' ->
  plan' = plan.
Proof. apply optimizeJoinOrder_same. Qed.

Lemma optimizeJoinOrder_is_identity_witness :
  let plan :=
    Samples.join "node_1" JoinTypeInner
      (Samples.join "node_2" JoinTypeCross
         (Samples.scan "node_3" "big" None)
         (Samples.scan "node_4" "customers" None))
      (Samples.scan "node_5" "small" None) in
  exists plan' idCounter',
    optimizeJoinOrder (NewCostBasedOptimizer (fun x => x) Samples.cat) plan 5
    = Done plan' idCounter'
    /\ plan' = plan.
Proof.
  cbv zeta. eexists _, _. split; [vm_compute; reflexivity|].
  apply (optimizeJoinOrder_is_identity (fun x => x) Samples.cat _ _ 5 7).
  vm_compute. reflexivity.
Defined.

(** X2.  Neither optimizer changes the estimated cardinality of the
    plan: for every plan and every catalog, the plan returned by the
    rule-based optimizer, and the plan returned by the cost-based one,
    have the estimate of the plan that was passed in (a panic of the
    estimator included). *)
Theorem Optimize_keeps_cardinality (Log2 : float -> float)
    (formatCost : float -> string) (catalogMgr stats : catalog.CatalogManager)
    (plan : LogicalPlan) (idCounter : Z) :
  (forall out ex err idCounter',
      OptimizeWithRules (Some plan) idCounter
      = Done (Some out, ex, err) idCounter' ->
      cost_model.EstimateCardinality stats out
      = cost_model.EstimateCardinality stats plan)
  /\ (forall out ex err idCounter',
        CostBasedOptimizer_Optimize formatCost
          (NewCostBasedOptimizer Log2 catalogMgr) (Some plan) idCounter
        = Done (Some out, ex, err) idCounter' ->
        cost_model.EstimateCardinality stats out
        = cost_model.EstimateCardinality stats plan).
Proof.
  assert (Hrules : forall st out ex err st',
             OptimizeWithRules (Some plan) st = Done (Some out, ex, err) st' ->
             cost_model.EstimateCardinality stats out
             = cost_model.EstimateCardinality stats plan).
  { intros st out ex err st'.
    apply (OptimizeWithRules_rel
             (fun p q => cost_model.EstimateCardinality stats q
                         = cost_model.EstimateCardinality stats p)).
    - reflexivity.
    - intros p q r E1 E2. now rewrite E2.
    - apply same_card_children.
    - apply same_card_clone.
    - apply same_card_push.
    - intros p child Hnt Hch _. now apply same_card_drop. }
  split; [apply Hrules|].
  intros out ex err st' H.
  apply (cost_stage_rel
           (fun p q => cost_model.EstimateCardinality stats q
                       = cost_model.EstimateCardinality stats p)) in H
    as (rp & rex & st1 & Hr & Hout).
  - rewrite Hout. eapply Hrules, Hr.
  - intros p q r E1 E2. now rewrite E2.
  - apply same_card_children.
  - apply same_card_clone.
  - intros p md. now destruct p.
  - intros p rows cost. now destruct p.
Qed.

Lemma Optimize_keeps_cardinality_witness :
  let plan :=
    Samples.filter "node_1" ">"
      [Samples.project "node_2" ["*"]
         [Samples.join "node_3" JoinTypeInner
            (Samples.scan "node_4" "big" None)
            (Samples.scan "node_5" "small" None)]] in
  exists out ex idCounter',
    OptimizeWithCost (fun x => x) (fun _ => "") (Some plan) 5
    = Done (Some out, Some ex, None) idCounter'
    /\ cost_model.EstimateCardinality Samples.cat out = Ret 3300000.
Proof.
  cbv zeta.
  match goal with
  | |- exists out ex st', ?call = _ /\ _ =>
      assert (E : exists out ex st', call = Done (Some out, Some ex, None) st')
        by (vm_compute; eexists _, _, _; reflexivity)
  end.
  destruct E as (out & ex & st' & E).
  exists out, ex, st'. split; [exact E|].
  rewrite (proj2 (Optimize_keeps_cardinality (fun x => x) (fun _ => "")
                    catalog.NewCatalogManager Samples.cat _ 5)
             _ _ _ _ E).
  vm_compute. reflexivity.
Defined.

End OptimizerShape.

Section Annotations.

Import optimizer view.

Lemma same_view_clone (f : LogicalPlan -> LogicalPlan) :
  (forall id p cs, f (set_Children cs (set_ID id p)) = f (set_Children cs p)) ->
  forall p id cs',
    Forall2 (fun p q => map_nodes f q = map_nodes f p) (lp_Children p) cs' ->
    map_nodes f (cloneNode p id cs') = map_nodes f p.
Proof.
  intros Hf p id cs' HF. rewrite cloneNode_set.
  rewrite <- (same_view_children f p cs' HF).
  apply (same_view_node f (set_ID id)); [now destruct p|].
  intros cs. apply Hf.
Qed.

(** X3.  A clone differs from the original in its node ids only, as a
    value: whenever [Clone] returns, the copy and the original are the
    same tree once the ids are erased, with equal node types, tables,
    predicates, join conditions, lists, limits, estimates and metadata
    entries.  This is about the values read from the two plans; what
    the copy shares with the original (it shares the limit, offset and
    estimate pointers, the expressions of the aggregates and of the
    order, and the metadata values) is not part of it. *)
Theorem Clone_equal_up_to_ids (p p' : LogicalPlan) (idCounter idCounter' : Z) :
  Clone p idCounter = Done p' idCounter' -> erase_ids p' = erase_ids p.
Proof.
  revert p idCounter p' idCounter'.
  apply (Clone_rel (fun p q => erase_ids q = erase_ids p)).
  intros p id cs' HF. apply (same_view_clone (set_ID "")); [|exact HF].
  intros i q cs. now destruct q.
Qed.

Lemma Clone_equal_up_to_ids_witness :
  let p :=
    Samples.filter "a" "LIKE"
      [Samples.join "b" JoinTypeLeft (Samples.scan "c" "big" (Some 7))
         (Samples.scan "d" "small" None)] in
  exists p' idCounter',
    Clone p 41 = Done p' idCounter'
    /\ lp_ID p' = "node_42"
    /\ erase_ids p' = erase_ids p.
Proof.
  cbv zeta. eexists _, _. split; [vm_compute; reflexivity|].
  split; [reflexivity|].
  apply (Clone_equal_up_to_ids _ _ 41 45). vm_compute. reflexivity.
Defined.

(** X4.  The cost-based optimizer only annotates the plan the rules
    produce: whenever it returns a plan, the rule-based optimizer run on
    the same input from the same id counter returns a plan too, and the
    two are the same tree once ids, metadata and estimates are erased.
    In particular the cost-based stage neither reorders nor removes nor
    adds an operator. *)
Theorem CostBased_only_annotates (Log2 : float -> float)
    (formatCost : float -> string) (catalogMgr : catalog.CatalogManager)
    (plan out : LogicalPlan) (ex : option ExplainResult)
    (err : option optimizer.error) (idCounter idCounter' : Z) :
  CostBasedOptimizer_Optimize formatCost
    (NewCostBasedOptimizer Log2 catalogMgr) (Some plan) idCounter
  = Done (Some out, ex, err) idCounter' ->
  exists ruleOptimized ruleExplain idCounter1,
    OptimizeWithRules (Some plan) idCounter
    = Done (Some ruleOptimized, Some ruleExplain, None) idCounter1
    /\ skeleton out = skeleton ruleOptimized.
Proof.
  apply (cost_stage_rel (fun p q => skeleton q = skeleton p)).
  - intros p q r E1 E2. now rewrite E2.
  - apply (same_view_children strip).
  - apply (same_view_clone strip). intros i q cs. now destruct q.
  - intros p md. apply (same_view_node strip (set_Metadata md));
      [now destruct p | intros cs; now destruct p].
  - intros p rows cost. apply (same_view_node strip (set_Estimates rows cost));
      [now destruct p | intros cs; now destruct p].
Qed.

Lemma CostBased_only_annotates_witness :
  let plan :=
    Samples.filter "node_1" ">"
      [Samples.project "node_2" ["name"]
         [Samples.join "node_3" JoinTypeInner
            (Samples.scan "node_4" "big" None)
            (Samples.scan "node_5" "small" None)]] in
  exists out ex idCounter' ruleOptimized ruleExplain idCounter1,
    CostBasedOptimizer_Optimize (fun _ => "")
      (NewCostBasedOptimizer (fun x => x) Samples.cat) (Some plan) 5
    = Done (Some out, Some ex, None) idCounter'
    /\ OptimizeWithRules (Some plan) 5
       = Done (Some ruleOptimized, Some ruleExplain, None) idCounter1
    /\ skeleton out = skeleton ruleOptimized
    /\ lp_NodeType out = NodeTypeProject.
Proof.
  cbv zeta.
  match goal with
  | |- exists out ex st' _ _ _, ?call = _ /\ _ =>
      assert (E : exists out ex st', call = Done (Some out, Some ex, None) st')
        by (vm_compute; eexists _, _, _; reflexivity)
  end.
  destruct E as (out & ex & st' & E).
  destruct (CostBased_only_annotates _ _ _ _ _ _ _ _ _ E)
    as (rp & rex & st1 & Hr & Hs).
  exists out, ex, st', rp, rex, st1.
  repeat split; try assumption.
  pose proof (f_equal (fun r => match r with
                                | Done (Some o, _, _) _ => lp_NodeType o
                                | _ => ""
                                end) E) as V.
  vm_compute in V. symmetry. exact V.
Defined.

End Annotations.

(** ** The explain trace of the rule-based optimizer *)

Section ExplainTrace.

Import optimizer view.

Lemma applyRule_cases s rule st s' st' :
  applyRule s rule st = Done s' st' ->
  s' = s
  \/ exists before out st1,
       Clone (currentPlan s) st = Done before st1
       /\ Apply rule (currentPlan s) st1 = Done (out, true) st'
       /\ s' = {| currentPlan := out;
                  explain :=
                    {| AppliedRules := AppliedRules (explain s) ++ [Name rule];
                       Steps := Steps (explain s) ++
                         [ {| RuleName := Name rule; BeforePlan := before;
                              AfterPlan := out;
                              Description :=
                                "Applied " ++ Name rule ++ " rule" |} ];
                       Statistics := Statistics (explain s) |};
                  totalRulesApplied := totalRulesApplied s + 1;
                  changed := true |}.
Proof.
  intros H. unfold applyRule in H.
  apply bind_Done in H as (before & st1 & Hb & H).
  apply bind_Done in H as ([out ch] & st2 & Hap & H).
  destruct ch; injection H as <- <-; [right | now left].
  now exists before, out, st1.
Qed.

(** What the loops maintain, from the state [s0] they start in. *)
Let trace_ok (p0 : LogicalPlan) (base : nat) (s : OptState) : Prop :=
  List.map RuleName (Steps (explain s)) = AppliedRules (explain s)
  /\ totalRulesApplied s = Z.of_nat (length (Steps (explain s)))
  /\ Forall (fun n => n = "PredicatePushdown" \/ n = "ProjectionPushdown")
            (AppliedRules (explain s))
  /\ (length (Steps (explain s)) <= base)%nat
  /\ match last (Steps (explain s)) with
     | Some step => AfterPlan step = currentPlan s
     | None => currentPlan s = p0
     end.

Lemma applyRule_trace p0 base s rule st s' st' :
  applyRule s rule st = Done s' st' ->
  trace_ok p0 base s ->
  (Name rule = "PredicatePushdown" \/ Name rule = "ProjectionPushdown"
   -> trace_ok p0 (S base) s')
  /\ ((forall p st1 out st2, Apply rule p st1 <> Done (out, true) st2) ->
      trace_ok p0 base s').
Proof.
  intros H (H1 & H2 & H3 & H4 & H5).
  apply applyRule_cases in H as [-> | (before & out & st1 & Hb & Hap & ->)].
  { split; intros _; repeat split; auto. }
  split; [intros Hname | intros Hno; now destruct (Hno _ _ _ _ Hap)].
  unfold trace_ok. cbn [explain Steps AppliedRules totalRulesApplied currentPlan].
  rewrite map_app, length_app, last_snoc, H1, H2. cbn [List.map RuleName length].
  repeat split; auto; try lia.
  apply Forall_app. split; [exact H3 | constructor; [exact Hname | constructor]].
Qed.

Lemma applyRules_trace p0 base s st s' st' :
  applyRules (rules NewRuleBasedOptimizer) s st = Done s' st' ->
  trace_ok p0 base s -> trace_ok p0 (2 + base) s'.
Proof.
  intros H Hs. cbn [rules NewRuleBasedOptimizer applyRules] in H.
  apply bind_Done in H as (s1 & st1 & Hr1 & H).
  apply bind_Done in H as (s2 & st2 & Hr2 & H).
  apply bind_Done in H as (s3 & st3 & Hr3 & H).
  apply bind_Done in H as (s4 & st4 & Hr4 & H). injection H as <- <-.
  apply (applyRule_trace p0 base) in Hr1 as [Hr1 _]; [|exact Hs].
  specialize (Hr1 (or_introl eq_refl)).
  apply (applyRule_trace p0 (S base)) in Hr2 as [Hr2 _]; [|exact Hr1].
  specialize (Hr2 (or_intror eq_refl)).
  apply (applyRule_trace p0 (S (S base))) in Hr3 as [_ Hr3]; [|exact Hr2].
  apply (applyRule_trace p0 (S (S base))) in Hr4 as [_ Hr4];
    [apply Hr4; discriminate | apply Hr3; discriminate].
Qed.

Lemma trace_ok_changed p0 base s :
  trace_ok p0 base s ->
  trace_ok p0 base
    {| currentPlan := currentPlan s; explain := explain s;
       totalRulesApplied := totalRulesApplied s; changed := false |}.
Proof. intros H. exact H. Qed.

Lemma iterate_trace p0 n :
  forall base s st s' st',
    iterate NewRuleBasedOptimizer n s st = Done s' st' ->
    trace_ok p0 base s -> trace_ok p0 (2 * n + base) s'.
Proof.
  induction n as [|n IH]; intros base s st s' st' H Hs; cbn [iterate] in H.
  - injection H as <- <-. exact Hs.
  - apply bind_Done in H as (s1 & st1 & H1 & H).
    apply (applyRules_trace p0 base) in H1; [|now apply trace_ok_changed].
    destruct (changed s1).
    + apply (IH (2 + base)%nat) in H; [|exact H1].
      replace (2 * S n + base)%nat with (2 * n + (2 + base))%nat by lia.
      exact H.
    + injection H as <- <-.
      destruct H1 as (A & B & C & D & E). repeat split; auto. lia.
Qed.

(** X5.  The trace the rule-based optimizer returns with a plan is
    consistent: there is no error; the applied-rule names are the rule
    names of the steps, in order; the reported total is their number,
    which is at most 20 (ten rounds, two rules that can fire); only
    PredicatePushdown and ProjectionPushdown ever appear; the plan
    returned is the after-plan of the last step, and when there is no
    step it is the input up to node ids. *)
Theorem OptimizeWithRules_trace (plan out : LogicalPlan) (ex : ExplainResult)
    (err : option optimizer.error) (idCounter idCounter' : Z) :
  OptimizeWithRules (Some plan) idCounter
  = Done (Some out, Some ex, err) idCounter' ->
  err = None
  /\ List.map RuleName (Steps ex) = AppliedRules ex
  /\ TotalRulesApplied (Statistics ex) = Z.of_nat (length (AppliedRules ex))
  /\ (length (AppliedRules ex) <= 20)%nat
  /\ Forall (fun n => n = "PredicatePushdown" \/ n = "ProjectionPushdown")
            (AppliedRules ex)
  /\ match last (Steps ex) with
     | Some step => AfterPlan step = out
     | None => erase_ids out = erase_ids plan
     end.
Proof.
  intros H. unfold OptimizeWithRules, RuleBasedOptimizer_Optimize in H.
  apply bind_Done in H as (p0 & st1 & Hp0 & H).
  apply bind_Done in H as (s & st2 & Hs & H). injection H as <- <- <- <-.
  apply (iterate_trace p0 maxIterations 0) in Hs.
  2:{ repeat split; simpl; auto. }
  destruct Hs as (A & B & C & D & E).
  cbn [AppliedRules Steps Statistics TotalRulesApplied].
  split; [reflexivity|]. split; [exact A|].
  split; [now rewrite <- A, length_map|].
  split; [rewrite <- A, length_map; unfold maxIterations in D; lia|].
  split; [exact C|].
  destruct (last (Steps (explain s))); [exact E|].
  rewrite E. revert Hp0.
  apply (Clone_rel (fun p q => erase_ids q = erase_ids p)).
  intros p id cs' HF. apply (same_view_clone (set_ID "")); [|exact HF].
  intros i q cs. now destruct q.
Qed.

Lemma OptimizeWithRules_trace_witness :
  let plan :=
    Samples.filter "node_1" ">"
      [Samples.project "node_2" ["*"]
         [Samples.scan "node_3" "big" None]] in
  exists out ex idCounter',
    OptimizeWithRules (Some plan) 3 = Done (Some out, Some ex, None) idCounter'
    /\ AppliedRules ex = ["PredicatePushdown"; "ProjectionPushdown"]
    /\ TotalRulesApplied (Statistics ex) = 2
    /\ (AfterPlan <$> last (Steps ex)) = Some out.
Proof.
  cbv zeta.
  match goal with
  | |- exists out ex st', ?call = _ /\ _ =>
      assert (E : exists out ex st', call = Done (Some out, Some ex, None) st')
        by (vm_compute; eexists _, _, _; reflexivity)
  end.
  destruct E as (out & ex & st' & E).
  destruct (OptimizeWithRules_trace _ _ _ _ _ _ E) as (_ & A & B & _ & _ & F).
  assert (Hex : AppliedRules ex = ["PredicatePushdown"; "ProjectionPushdown"]).
  { pose proof (f_equal (fun r => match r with
                                  | Done (_, Some e, _) _ => AppliedRules e
                                  | _ => []
                                  end) E) as V.
    vm_compute in V. symmetry. exact V. }
  exists out, ex, st'. rewrite B, Hex. split; [exact E|]. repeat split.
  destruct (last (Steps ex)) as [step|] eqn:L; [now rewrite <- F|].
  apply last_None in L. rewrite L in A. rewrite Hex in A. discriminate A.
Defined.

End ExplainTrace.

(** ** The changed flag of the rules *)

Section ChangedFlag.

Import optimizer.

Lemma rewriteChildren_unchanged_counter rec (l : list LogicalPlan) :
  Forall (fun c => forall st c' st', rec c st = Done (c', false) st' -> st' = st)
         l ->
  forall st l' st',
    rewriteChildren rec l st = Done (l', false) st' -> st' = st.
Proof.
  induction 1 as [|c l Hc _ IH]; intros st l' st' H; simpl in H.
  - now injection H as <- <-.
  - apply bind_Done in H as ([c' chc] & st1 & Hrec & H).
    apply bind_Done in H as ([cs' chs] & st2 & Hrest & H).
    injection H as <- Hch <-. simpl in *.
    apply orb_false_elim in Hch as [-> ->].
    apply Hc in Hrec. apply IH in Hrest. congruence.
Qed.

Lemma PredicatePushdown_unchanged fuel :
  forall plan st out st',
    PredicatePushdownRule.applyRecursive fuel plan st = Done (out, false) st' ->
    out = plan /\ st' = st.
Proof.
  induction fuel as [|fuel IH]; intros plan st out st' H; [discriminate|].
  simpl in H.
  apply bind_Done in H as (r & st1 & Hr & H).
  apply bind_Done in H as ([cs' chs] & st2 & Hcs & H).
  injection H as <- Hch <-. simpl in Hch.
  apply orb_false_elim in Hch as [Hr0 ->].
  apply rewriteNode_cases in Hr as
      [(-> & -> & _) | (child & c0 & rest0 & nf & st0 & Hnt & Hch & Hp & Hcc
                        & Hnf & np & Hnp & ->)]; [|discriminate].
  simpl in *. split.
  - rewrite (rewriteChildren_unchanged _ _ _ _ _ Hcs). apply set_Children_same.
  - eapply rewriteChildren_unchanged_counter; [|exact Hcs].
    apply List.Forall_forall. intros c _ s c' s' Hc. now apply IH in Hc.
Qed.

Lemma ProjectionPushdown_unchanged n :
  forall plan st out st',
    (plan_size plan <= n)%nat ->
    ProjectionPushdownRule.applyRecursive plan st = Done (out, false) st' ->
    out = plan /\ st' = st.
Proof.
  induction n as [|n IH]; intros plan st out st' Hsz H.
  { destruct plan; simpl in Hsz; lia. }
  assert (Hkids : Forall (fun c => forall s c' s',
                     ProjectionPushdownRule.applyRecursive c s
                     = Done (c', false) s' -> s' = s) (lp_Children plan)).
  { apply List.Forall_forall. intros c Hin s c' s' Hc.
    apply plan_size_child in Hin. apply IH in Hc; [tauto | lia]. }
  destruct plan as [id nt cs tn al pr pj jt jc gb ag ob lc oc er ec md].
  simpl in H, Hkids.
  set (plan := mkLogicalPlan id nt cs tn al pr pj jt jc gb ag ob lc oc er ec md)
    in *.
  destruct (String.eqb nt NodeTypeProject && Nat.eqb (length cs) 1
            && isRedundantProjection pj) eqn:Hfire.
  - apply bind_Done in H as ([cs' chs] & st2 & Hcs & H). discriminate H.
  - apply bind_Done in H as ([cs' chs] & st2 & Hcs & H).
    injection H as <- Hch <-. simpl in Hch. subst chs. split.
    + now rewrite (rewriteChildren_unchanged _ _ _ _ _ Hcs).
    + eapply rewriteChildren_unchanged_counter; [exact Hkids | exact Hcs].
Qed.

(** X6.  The changed flag of a rule can be trusted: when any of the
    four rules of the optimizer reports no change, the plan it returns
    is the plan it was given, node for node, and no node id has been
    drawn. *)
Theorem rule_unchanged_is_noop (rule : OptimizationRule)
    (plan out : LogicalPlan) (idCounter idCounter' : Z) :
  In rule (rules NewRuleBasedOptimizer) ->
  Apply rule plan idCounter = Done (out, false) idCounter' ->
  out = plan /\ idCounter' = idCounter.
Proof.
  intros [<- | [<- | [<- | [<- | []]]]]; simpl.
  - apply PredicatePushdown_unchanged.
  - now apply (ProjectionPushdown_unchanged (plan_size plan)).
  - now intros [= <- <-].
  - now intros [= <- <-].
Qed.

Lemma rule_unchanged_is_noop_witness :
  let plan :=
    Samples.filter "node_1" "="
      [Samples.join "node_2" JoinTypeInner
         (Samples.project "node_3" ["name"]
            [Samples.scan "node_4" "customers" None])
         (Samples.scan "node_5" "orders" None)] in
  Forall (fun rule => Apply rule plan 5 = Done (plan, false) 5)
         (rules NewRuleBasedOptimizer).
Proof.
  cbv zeta. apply List.Forall_forall. intros rule Hin.
  destruct (Apply rule _ 5) as [[out [|]] st'| |] eqn:E;
    try (destruct Hin as [<- | [<- | [<- | [<- | []]]]];
         vm_compute in E; discriminate E).
  destruct (rule_unchanged_is_noop rule _ out 5 st' Hin E) as [-> ->].
  reflexivity.
Defined.

End ChangedFlag.

(** ** The estimates written on the final plan *)

Section Stamping.

Import optimizer view.

Variable Log2 : float -> float.
Variable cm : cost_model.SimpleCostModel.
Variable catalogMgr : catalog.CatalogManager.

(** The cost model reads neither the estimates nor the metadata nor the
    id a node carries. *)
Lemma EstimateCost_set_Estimates rows cost p :
  cost_model.EstimateCost Log2 cm catalogMgr (set_Estimates rows cost p)
  = cost_model.EstimateCost Log2 cm catalogMgr p.
Proof. destruct p. reflexivity. Qed.

Abbreviation stamped :=
  (fun node : LogicalPlan =>
     exists cost,
       cost_model.EstimateCost Log2 cm catalogMgr node = Ret cost
       /\ lp_EstimatedRows node = Some (cost_model.Cardinality cost)
       /\ lp_EstimatedCost node = Some (cost_model.TotalCost cost)).

Lemma propagateCostEstimates_stamped p :
  forall out,
    propagateCostEstimates
      {| costModel := SimpleCostModel_CostModel Log2 cm;
         optimizer.catalogMgr := catalogMgr |} p = Ret out ->
    Forall stamped (nodes out).
Proof.
  induction p as [p IH] using LogicalPlan_tree_ind. intros out H.
  destruct p as [id nt cs tn al pr pj jt jc gb ag ob lc oc er ec md].
  cbn [propagateCostEstimates] in H.
  apply obind_Ret in H as (cs' & Hcs & H).
  apply obind_Ret in H as (cost & Hcost & H). injection H as <-.
  cbn [costModel optimizer.catalogMgr SimpleCostModel_CostModel
       optimizer.EstimateCost] in Hcost.
  constructor.
  - exists cost. split; [|now split]. rewrite <- Hcost.
    apply (EstimateCost_set_Estimates (cost_model.Cardinality cost)
             (cost_model.TotalCost cost)
             (mkLogicalPlan id nt cs' tn al pr pj jt jc gb ag ob lc oc er ec
                md)).
  - cbn [lp_Children set_Children set_Estimates].
    assert (HF : Forall2 (fun c c' => Forall stamped (nodes c')) cs cs').
    { eapply mapO_rel; [|exact Hcs]. exact IH. }
    clear -HF. induction HF as [|c c' cs cs' Hc _ IHF]; simpl; [constructor|].
    apply Forall_app. now split.
Qed.

End Stamping.

Section StampingTheorem.

Import optimizer view.

(** X7.  Every node of a plan returned by the cost-based optimizer
    carries its own estimates: at each node of the tree, at any depth,
    [estimated_rows] and [estimated_cost] are the cardinality and the
    total cost the cost model computes for the subtree rooted there. *)
Theorem CostBased_output_is_stamped (Log2 : float -> float)
    (formatCost : float -> string) (catalogMgr : catalog.CatalogManager)
    (plan out : LogicalPlan) (ex : option ExplainResult)
    (err : option optimizer.error) (idCounter idCounter' : Z) :
  CostBasedOptimizer_Optimize formatCost
    (NewCostBasedOptimizer Log2 catalogMgr) (Some plan) idCounter
  = Done (Some out, ex, err) idCounter' ->
  Forall (fun node =>
            exists cost,
              cost_model.EstimateCost Log2 cost_model.NewSimpleCostModel
                catalogMgr node = Ret cost
              /\ lp_EstimatedRows node = Some (cost_model.Cardinality cost)
              /\ lp_EstimatedCost node = Some (cost_model.TotalCost cost))
         (nodes out).
Proof.
  intros H. unfold CostBasedOptimizer_Optimize in H.
  apply bind_Done in H as (r & st1 & Hr & H).
  destruct r as [[[rp|] [re|]] [e|]]; try discriminate.
  apply bind_Done in H as (c & st2 & Hc & H).
  apply bind_Done in H as (fc & st3 & _ & H).
  apply bind_Done in H as (stamped & st4 & Hst & H).
  injection H as <- _ _ _.
  apply lift_Done in Hst as [Hst _].
  eapply propagateCostEstimates_stamped, Hst.
Qed.

Lemma CostBased_output_is_stamped_witness :
  let plan :=
    Samples.filter "node_1" ">"
      [Samples.join "node_2" JoinTypeInner
         (Samples.scan "node_3" "big" None)
         (Samples.scan "node_4" "small" None)] in
  exists out ex idCounter',
    CostBasedOptimizer_Optimize (fun _ => "")
      (NewCostBasedOptimizer (fun x => x) Samples.cat) (Some plan) 4
    = Done (Some out, Some ex, None) idCounter'
    /\ List.map lp_EstimatedRows (nodes out)
       = [Some 3300000; Some 10000000; Some 1000000; Some 100]
    /\ Forall (fun node =>
                 exists cost,
                   cost_model.EstimateCost (fun x => x)
                     cost_model.NewSimpleCostModel Samples.cat node = Ret cost
                   /\ lp_EstimatedRows node
                      = Some (cost_model.Cardinality cost)
                   /\ lp_EstimatedCost node
                      = Some (cost_model.TotalCost cost))
              (nodes out).
Proof.
  cbv zeta.
  match goal with
  | |- exists out ex st', ?call = _ /\ _ =>
      assert (E : exists out ex st', call = Done (Some out, Some ex, None) st')
        by (vm_compute; eexists _, _, _; reflexivity)
  end.
  destruct E as (out & ex & st' & E).
  pose proof (CostBased_output_is_stamped _ _ _ _ _ _ _ _ _ E) as Hst.
  exists out, ex, st'. split; [exact E|]. split; [|exact Hst].
  pose proof (f_equal (fun r => match r with
                                | Done (Some o, _, _) _ =>
                                    List.map lp_EstimatedRows (nodes o)
                                | _ => []
                                end) E) as V.
  vm_compute in V. symmetry. exact V.
Defined.

End StampingTheorem.

(** ** Physical-operator selection *)

Section PhysicalOperators.

Import optimizer.

Lemma selectPhysicalOperators_root cbo plan out :
  selectPhysicalOperators cbo plan = Ret out ->
  selectAtNode cbo plan = Ret (lp_Metadata out).
Proof.
  intros H. destruct plan. cbn [selectPhysicalOperators] in H.
  apply obind_Ret in H as (md' & Hmd & H).
  apply obind_Ret in H as (cs' & _ & H). injection H as <-. exact Hmd.
Qed.

(** X8.  What physical-operator selection writes at the root of the
    plan it returns.  A Join has two inputs with estimates [l] and [r]
    (the pass does not return otherwise); its operator is
    [sort_merge_join] when both exceed 1,000,000, [nested_loop_join]
    when both are below 1000, and [hash_join] in every other case;
    [build_side] is written whenever the inputs are not both below 1000,
    the sort-merge case included, and is left as it was otherwise.  An
    Aggregate gets [hash_aggregate] without group-by or below 10,000
    estimated rows and [sort_aggregate] otherwise, a Sort [quicksort]
    below 100,000 rows and [external_sort] otherwise, a Scan
    [scan_type = sequential]; any other node keeps its metadata. *)
Theorem selectPhysicalOperators_choice (cbo : CostBasedOptimizer)
    (plan out : LogicalPlan) :
  selectPhysicalOperators cbo plan = Ret out ->
  let card := fun p => EstimateCardinality (costModel cbo) p (catalogMgr cbo) in
  let md := lp_Metadata plan in
  let md' := lp_Metadata out in
  (lp_NodeType plan = NodeTypeJoin ->
   exists L R rest l r,
     lp_Children plan = L :: R :: rest /\ card L = Ret l /\ card R = Ret r
     /\ md' !! "physical_operator"
        = Some (VString
                  (if (1000000 <? l) && (1000000 <? r) then "sort_merge_join"
                   else if (l <? 1000) && (r <? 1000) then "nested_loop_join"
                   else "hash_join"))
     /\ md' !! "build_side"
        = (if (l <? 1000) && (r <? 1000) then md !! "build_side"
           else Some (VString (if l <? r then "left" else "right")))
     /\ forall key, key <> "physical_operator" -> key <> "build_side" ->
                    md' !! key = md !! key)
  /\ (lp_NodeType plan = NodeTypeAggregate ->
      exists n,
        card plan = Ret n
        /\ md' = <["physical_operator" :=
                     VString (match lp_GroupBy plan with
                              | [] => "hash_aggregate"
                              | _ :: _ => if n <? 10000 then "hash_aggregate"
                                          else "sort_aggregate"
                              end)]> md)
  /\ (lp_NodeType plan = NodeTypeSort ->
      exists n,
        card plan = Ret n
        /\ md' = <["physical_operator" :=
                     VString (if n <? 100000 then "quicksort"
                              else "external_sort")]> md)
  /\ (lp_NodeType plan = NodeTypeScan ->
      md' = <["scan_type" := VString "sequential"]> md)
  /\ (lp_NodeType plan <> NodeTypeJoin ->
      lp_NodeType plan <> NodeTypeAggregate ->
      lp_NodeType plan <> NodeTypeSort ->
      lp_NodeType plan <> NodeTypeScan -> md' = md).
Proof.
  intros H card md md'. apply selectPhysicalOperators_root in H.
  fold md' in H. unfold selectAtNode in H. fold md in H.
  repeat split.
  - intros Hnt. rewrite Hnt in H. cbn [String.eqb Ascii.eqb Bool.eqb NodeTypeJoin] in H.
    destruct (lp_Children plan) as [|L [|R rest]]; try discriminate.
    apply obind_Ret in H as (l & Hl & H). apply obind_Ret in H as (r & Hr & H).
    injection H as H. exists L, R, rest, l, r.
    split; [reflexivity|]. split; [exact Hl|]. split; [exact Hr|].
    rewrite <- H. clear H.
    destruct ((1000000 <? l) && (1000000 <? r)) eqn:Hbig;
      destruct ((l <? 1000) && (r <? 1000)) eqn:Hsmall;
      destruct (l <? r);
      repeat split;
      try (intros key K1 K2);
      repeat (first [ rewrite lookup_insert_eq
                    | rewrite lookup_insert_ne by congruence ]);
      reflexivity.
  - intros Hnt. rewrite Hnt in H.
    cbn [String.eqb Ascii.eqb Bool.eqb NodeTypeAggregate NodeTypeJoin] in H.
    apply obind_Ret in H as (n & Hn & H). exists n. split; [exact Hn|].
    destruct (lp_GroupBy plan); [|destruct (n <? 10000)];
      now injection H as <-.
  - intros Hnt. rewrite Hnt in H.
    cbn [String.eqb Ascii.eqb Bool.eqb NodeTypeSort NodeTypeAggregate
         NodeTypeJoin] in H.
    apply obind_Ret in H as (n & Hn & H). exists n. split; [exact Hn|].
    destruct (n <? 100000); now injection H as <-.
  - intros Hnt. rewrite Hnt in H.
    cbn [String.eqb Ascii.eqb Bool.eqb NodeTypeSort NodeTypeAggregate
         NodeTypeJoin NodeTypeScan] in H.
    now injection H as <-.
  - intros N1 N2 N3 N4.
    apply String.eqb_neq in N1, N2, N3, N4. rewrite N1, N2, N3, N4 in H.
    now injection H as <-.
Qed.

Lemma selectPhysicalOperators_choice_witness :
  let cbo := NewCostBasedOptimizer (fun x => x) Samples.cat in
  let plan :=
    mkLogicalPlan "j" NodeTypeJoin
      [Samples.scan "a" "big" None; Samples.scan "b" "small" None] "" ""
      None [] JoinTypeInner None [] [] [] None None None None
      {[ "build_side" := VString "right" ]} in
  exists out,
    selectPhysicalOperators cbo plan = Ret out
    /\ lp_Metadata out !! "physical_operator" = Some (VString "hash_join")
    /\ lp_Metadata out !! "build_side" = Some (VString "right").
Proof.
  cbv zeta.
  match goal with
  | |- exists out, ?call = _ /\ _ =>
      assert (E : exists out, call = Ret out) by (vm_compute; eexists; reflexivity)
  end.
  destruct E as (out & E). exists out. split; [exact E|].
  destruct (proj1 (selectPhysicalOperators_choice _ _ _ E) eq_refl)
    as (L & R & rest & l & r & Hch & Hl & Hr & Hop & Hside & _).
  injection Hch as <- <- <-.
  vm_compute in Hl. injection Hl as <-. vm_compute in Hr. injection Hr as <-.
  now rewrite Hop, Hside.
Defined.

End PhysicalOperators.

(** ** The cost model: cardinality of a cost estimate, symmetry of Join *)

Ltac cost_step :=
  simpl;
  unfold cost_model.estimateScanCost, cost_model.estimateFilterCost,
    cost_model.estimateProjectCost, cost_model.estimateJoinCost,
    cost_model.estimateAggregateCost, cost_model.estimateSortCost,
    cost_model.estimateLimitCost;
  simpl.

Section CostFacts.

Import cost_model.

Variable Log2 : float -> float.
Variable cm : SimpleCostModel.
Variable catalogMgr : catalog.CatalogManager.

Abbreviation cost_agrees :=
  (fun p : LogicalPlan =>
     exists cost,
       EstimateCost Log2 cm catalogMgr p = Ret cost
       /\ EstimateCardinality catalogMgr p = Ret (Cardinality cost)).

Lemma cost_agrees_I1 p : I1 p = true -> cost_agrees p.
Proof.
  induction p as [p IH] using LogicalPlan_tree_ind. intros HI.
  rewrite I1_unfold in HI. apply andb_prop in HI as [Ha Hkids].
  unfold arity_ok in Ha.
  assert (IH' : Forall cost_agrees (lp_Children p)).
  { rewrite forallb_forall in Hkids. rewrite List.Forall_forall in IH.
    apply List.Forall_forall. intros c Hc. apply IH; auto. }
  clear IH Hkids.
  destruct p as [id nt cs tn al pr pj jt jc gb ag ob lc oc er ec md].
  cbn [lp_NodeType lp_Children] in *.
  destruct (String.eqb_spec nt NodeTypeScan) as [->|N1].
  { destruct cs; [|discriminate]. cost_step.
    destruct (catalog.GetTable catalogMgr tn); eexists; split; reflexivity. }
  destruct (String.eqb_spec nt NodeTypeFilter) as [->|N2].
  { destruct cs as [|c [|]]; try discriminate.
    inversion IH' as [|? ? (cc & Hc1 & Hc2) _]; subst.
    cost_step. rewrite Hc1, Hc2. simpl. eexists; split; reflexivity. }
  destruct (String.eqb_spec nt NodeTypeProject) as [->|N3].
  { destruct cs as [|c [|]]; try discriminate.
    inversion IH' as [|? ? (cc & Hc1 & Hc2) _]; subst.
    cost_step. rewrite Hc1, Hc2. simpl. eexists; split; reflexivity. }
  destruct (String.eqb_spec nt NodeTypeAggregate) as [->|N4].
  { destruct cs as [|c [|]]; try discriminate.
    inversion IH' as [|? ? (cc & Hc1 & Hc2) _]; subst.
    cost_step. rewrite Hc1, Hc2. simpl.
    destruct gb; eexists; split; reflexivity. }
  destruct (String.eqb_spec nt NodeTypeSort) as [->|N5].
  { destruct cs as [|c [|]]; try discriminate.
    inversion IH' as [|? ? (cc & Hc1 & Hc2) _]; subst.
    cost_step. rewrite Hc1, Hc2. simpl.
    destruct (Cardinality cc <=? 1); eexists; split; reflexivity. }
  destruct (String.eqb_spec nt NodeTypeLimit) as [->|N6].
  { destruct cs as [|c [|]]; try discriminate.
    inversion IH' as [|? ? (cc & Hc1 & Hc2) _]; subst.
    cost_step. rewrite Hc1, Hc2. simpl.
    destruct lc as [limit|]; simpl; [|eexists; split; reflexivity].
    destruct (Z.ltb_spec (Cardinality cc) limit),
             (Z.ltb_spec limit (Cardinality cc));
      eexists; (split; [reflexivity|]); simpl; f_equal; lia. }
  destruct (String.eqb_spec nt NodeTypeJoin) as [->|N7].
  { destruct cs as [|L [|R [|]]]; try discriminate.
    inversion IH' as [|? ? (cl & Hl1 & Hl2) IH'']; subst.
    inversion IH'' as [|? ? (cr & Hr1 & Hr2) _]; subst.
    cost_step. rewrite Hl1, Hr1, Hl2, Hr2. simpl.
    destruct (String.eqb jt JoinTypeCross), (String.eqb jt JoinTypeInner),
      (String.eqb jt JoinTypeLeft), (String.eqb jt JoinTypeRight),
      (String.eqb jt JoinTypeFull); eexists; split; reflexivity. }
  apply String.eqb_neq in N1, N2, N3, N4, N5, N6, N7.
  rewrite EstimateCost_unfold. cbn [lp_NodeType].
  rewrite N1, N2, N3, N7, N4, N5, N6.
  assert (Hc : EstimateCardinality catalogMgr
                 (mkLogicalPlan id nt cs tn al pr pj jt jc gb ag ob lc oc er ec
                    md) = Ret 1000).
  { simpl. now rewrite N1, N2, N3, N7, N4, N5, N6. }
  rewrite Hc. simpl. eexists; split; reflexivity.
Qed.

End CostFacts.

Section CostTheorems.

Import cost_model.

(** X9.  On a plan that satisfies the arity invariant the two
    estimators agree: [EstimateCost] returns, and the cardinality in the
    cost it returns is the value [EstimateCardinality] returns for the
    same plan.  The invariant matters: for an Aggregate without input
    the cost carries cardinality 0 while the cardinality estimate
    is 1. *)
Theorem EstimateCost_cardinality_agrees (Log2 : float -> float)
    (cm : SimpleCostModel) (catalogMgr : catalog.CatalogManager)
    (plan : LogicalPlan) :
  (I1 plan = true ->
   exists cost,
     EstimateCost Log2 cm catalogMgr plan = Ret cost
     /\ EstimateCardinality catalogMgr plan = Ret (Cardinality cost))
  /\ (lp_NodeType plan = NodeTypeAggregate -> lp_Children plan = [] ->
      EstimateCost Log2 cm catalogMgr plan = Ret zeroCost
      /\ Cardinality zeroCost = 0
      /\ EstimateCardinality catalogMgr plan = Ret 1).
Proof.
  split; [apply cost_agrees_I1|].
  intros Hnt Hch. destruct plan; simpl in Hnt, Hch; subst. now cost_step.
Qed.

Lemma EstimateCost_cardinality_agrees_witness :
  let plan :=
    Samples.limit "l" (Some 7)
      [Samples.filter "f" "="
         [Samples.join "j" JoinTypeInner (Samples.scan "a" "big" None)
            (Samples.scan "b" "small" None)]] in
  exists cost,
    EstimateCost (fun x => x) NewSimpleCostModel Samples.cat plan = Ret cost
    /\ EstimateCardinality Samples.cat plan = Ret (Cardinality cost)
    /\ Cardinality cost = 7.
Proof.
  cbv zeta.
  match goal with
  | |- exists cost, EstimateCost _ _ _ ?p = _ /\ _ =>
      destruct (proj1 (EstimateCost_cardinality_agrees (fun x => x)
                         NewSimpleCostModel Samples.cat p) eq_refl)
        as (cost & Hc & Hn)
  end.
  exists cost. split; [exact Hc|]. split; [exact Hn|].
  pose proof Hn as Hv. vm_compute in Hv. injection Hv as Hv.
  symmetry. exact Hv.
Defined.

(** X10.  The cost of a Join does not depend on the order of its two
    inputs: a Join node over [L; R] and a Join node over [R; L], of any
    join types and with any conditions, are estimated together or not at
    all, and their total, CPU, IO, network and memory costs are equal.
    Their cardinalities are equal too when both have the same join type
    and it is neither [left] nor [right]. *)
Theorem Join_cost_is_symmetric (Log2 : float -> float) (cm : SimpleCostModel)
    (catalogMgr : catalog.CatalogManager) (plan swapped L R : LogicalPlan) :
  lp_NodeType plan = NodeTypeJoin -> lp_Children plan = [L; R] ->
  lp_NodeType swapped = NodeTypeJoin -> lp_Children swapped = [R; L] ->
  (is_Ret (EstimateCost Log2 cm catalogMgr plan)
   <-> is_Ret (EstimateCost Log2 cm catalogMgr swapped))
  /\ forall c c',
       EstimateCost Log2 cm catalogMgr plan = Ret c ->
       EstimateCost Log2 cm catalogMgr swapped = Ret c' ->
       TotalCost c' = TotalCost c /\ CPUCost c' = CPUCost c
       /\ IOCost c' = IOCost c /\ NetworkCost c' = NetworkCost c
       /\ MemoryCost c' = MemoryCost c
       /\ (lp_JoinType swapped = lp_JoinType plan ->
           lp_JoinType plan <> JoinTypeLeft ->
           lp_JoinType plan <> JoinTypeRight ->
           Cardinality c' = Cardinality c).
Proof.
  intros Hnt Hch Hnt' Hch'.
  rewrite (EstimateCost_Join Log2 cm catalogMgr plan L R [] Hnt Hch).
  rewrite (EstimateCost_Join Log2 cm catalogMgr swapped R L [] Hnt' Hch').
  rewrite (card_Join catalogMgr plan L R [] Hnt Hch).
  rewrite (card_Join catalogMgr swapped R L [] Hnt' Hch').
  destruct (EstimateCost Log2 cm catalogMgr L) as [cl|];
    destruct (EstimateCost Log2 cm catalogMgr R) as [cr|]; simpl;
    try solve [split; [tauto | discriminate]].
  destruct (EstimateCardinality catalogMgr L) as [l|];
    destruct (EstimateCardinality catalogMgr R) as [r|]; simpl;
    try solve [split; [tauto | discriminate]].
  split.
  - split; intros _;
      repeat match goal with
             | |- context [if ?b then _ else _] => destruct b
             end; simpl; eexists; reflexivity.
  - intros c c' Hc Hc'.
    assert (Hcpu : (float64 (mul64 (Cardinality cr) (Cardinality cl))
                    = float64 (mul64 (Cardinality cl) (Cardinality cr)))).
    { now rewrite mul64_comm. }
    destruct (String.eqb_spec (lp_JoinType plan) JoinTypeLeft) as [El|Nl];
      destruct (String.eqb_spec (lp_JoinType plan) JoinTypeRight) as [Er|Nr];
      destruct (String.eqb_spec (lp_JoinType swapped) JoinTypeLeft) as [El'|Nl'];
      destruct (String.eqb_spec (lp_JoinType swapped) JoinTypeRight)
        as [Er'|Nr'];
      repeat match type of Hc with
             | context [if ?b then _ else _] => destruct b eqn:?
             end;
      repeat match type of Hc' with
             | context [if ?b then _ else _] => destruct b eqn:?
             end;
      simpl in Hc, Hc'; injection Hc as <-; injection Hc' as <-; simpl;
      rewrite Hcpu, (float_add_comm (TotalCost cr)),
        (float_add_comm (CPUCost cr)), (float_add_comm (IOCost cr)),
        (float_add_comm (NetworkCost cr)), (float_add_comm (MemoryCost cr));
      repeat split; intros Hjt N1 N2;
      try contradiction; try congruence;
      rewrite ?(mul64_comm r l); try reflexivity;
      try (unfold add64; now rewrite Z.add_comm).
Qed.

Lemma Join_cost_is_symmetric_witness :
  let big := Samples.scan "a" "big" None in
  let small := Samples.scan "b" "small" None in
  exists c c',
    EstimateCost (fun x => x) NewSimpleCostModel Samples.cat
      (Samples.join "j" JoinTypeInner big small) = Ret c
    /\ EstimateCost (fun x => x) NewSimpleCostModel Samples.cat
         (Samples.join "k" JoinTypeInner small big) = Ret c'
    /\ TotalCost c' = TotalCost c /\ Cardinality c' = Cardinality c.
Proof.
  cbv zeta.
  destruct (EstimateCost (fun x => x) NewSimpleCostModel Samples.cat
              (Samples.join "j" JoinTypeInner _ _)) as [c|] eqn:Hc;
    [|vm_compute in Hc; discriminate Hc].
  destruct (EstimateCost (fun x => x) NewSimpleCostModel Samples.cat
              (Samples.join "k" JoinTypeInner _ _)) as [c'|] eqn:Hc';
    [|vm_compute in Hc'; discriminate Hc'].
  destruct (proj2 (Join_cost_is_symmetric (fun x => x) NewSimpleCostModel
                     Samples.cat
                     (Samples.join "j" JoinTypeInner
                        (Samples.scan "a" "big" None)
                        (Samples.scan "b" "small" None))
                     (Samples.join "k" JoinTypeInner
                        (Samples.scan "b" "small" None)
                        (Samples.scan "a" "big" None))
                     _ _ eq_refl eq_refl eq_refl eq_refl)
              c c' Hc Hc') as (H1 & _ & _ & _ & _ & H6).
  exists c, c'. split; [reflexivity|]. split; [reflexivity|].
  split; [exact H1|]. apply H6; [reflexivity | |]; discriminate.
Defined.

End CostTheorems.

(** ** The catalog: round trips *)

Section CatalogRoundTrips.

Import catalog catalog_listing.

Lemma TableSchema_eta (t : TableSchema) :
  {| TableName := TableName t; Columns := Columns t; RowCount := RowCount t;
     Indexes := Indexes t; Metadata := Metadata t |} = t.
Proof. now destruct t. Qed.

Lemma GetTable_lookup cm name :
  GetTable cm name =
    match tables cm !! name with
    | Some t => inl t
    | None => inr ("table " ++ name ++ " not found")
    end.
Proof.
  unfold GetTable. destruct (tables cm !! name) as [t|]; [|reflexivity].
  now rewrite TableSchema_eta.
Qed.

(** X11.  A table that was added can be read back and is listed: after
    a successful [AddTable], [GetTable] under the schema's name returns
    the schema that was stored, every other name answers as before, and
    [GetAllTables] lists the new name once besides the names it listed
    before.  In any catalog the listing has no duplicate and holds
    exactly the names [GetTable] answers. *)
Theorem AddTable_then_read (cm cm' : CatalogManager) (schema : TableSchema) :
  (AddTable cm schema = (cm', None) ->
   GetTable cm' (TableName schema) = inl schema
   /\ (forall name, name <> TableName schema ->
                    GetTable cm' name = GetTable cm name)
   /\ Permutation (GetAllTables cm') (TableName schema :: GetAllTables cm))
  /\ NoDup (GetAllTables cm)
  /\ (forall name,
        In name (GetAllTables cm) <-> exists t, GetTable cm name = inl t).
Proof.
  split; [|split].
  - unfold AddTable. intros H.
    destruct (tables cm !! TableName schema) eqn:Hnew; [discriminate|].
    injection H as <-. split; [|split].
    + rewrite GetTable_lookup. simpl. now rewrite lookup_insert_eq.
    + intros name Hne. rewrite !GetTable_lookup. simpl.
      now rewrite lookup_insert_ne by congruence.
    + unfold GetAllTables. simpl.
      rewrite (map_to_list_insert (tables cm) _ _ Hnew). reflexivity.
  - unfold GetAllTables. apply NoDup_fst_map_to_list.
  - intros name. unfold GetAllTables. rewrite GetTable_lookup.
    rewrite <- list_elem_of_In, list_elem_of_fmap. split.
    + intros ([k t] & -> & Hin). apply elem_of_map_to_list in Hin.
      simpl. rewrite Hin. eauto.
    + intros (t & Ht). destruct (tables cm !! name) as [t0|] eqn:E;
        [|discriminate].
      exists (name, t0). split; [reflexivity|]. now apply elem_of_map_to_list.
Qed.

Lemma AddTable_then_read_witness :
  let orders := mkTableSchema "orders" (mkColumnSlice 3 0) 2000 [] ∅ in
  exists cm',
    AddTable Samples.cat orders = (cm', None)
    /\ GetTable cm' "orders" = inl orders
    /\ Permutation (GetAllTables cm') ("orders" :: GetAllTables Samples.cat).
Proof.
  cbv zeta. eexists. split; [reflexivity|].
  destruct (proj1 (AddTable_then_read Samples.cat _
                     (mkTableSchema "orders" (mkColumnSlice 3 0) 2000 [] ∅))
              eq_refl) as (H1 & _ & H3).
  split; [exact H1 | exact H3].
Defined.

End CatalogRoundTrips.

Section CatalogStatistics.

Import catalog.

Lemma refresh_Name columnStats col : Name (refresh columnStats col) = Name col.
Proof. unfold refresh. now destruct (columnStats !! Name col). Qed.

Lemma refresh_idempotent columnStats col :
  refresh columnStats (refresh columnStats col) = refresh columnStats col.
Proof.
  unfold refresh.
  destruct (columnStats !! Name col) as [stats|] eqn:E; simpl; now rewrite E.
Qed.

Lemma find_refresh columnStats columnName (l : list Column) :
  List.find (fun col => String.eqb (Name col) columnName)
            (List.map (refresh columnStats) l)
  = refresh columnStats
      <$> List.find (fun col => String.eqb (Name col) columnName) l.
Proof.
  induction l as [|c l IH]; simpl; [reflexivity|].
  rewrite refresh_Name. now destruct (String.eqb (Name c) columnName).
Qed.

Lemma update_loop_idempotent columnStats n (arr : list Column) :
  update_loop columnStats n (update_loop columnStats n arr)
  = update_loop columnStats n arr.
Proof.
  apply list_eq. intros i. rewrite !update_loop_lookup.
  destruct (decide (i < n)%nat); [|reflexivity].
  destruct (arr !! i); simpl; [|reflexivity].
  now rewrite refresh_idempotent.
Qed.

(** The columns of the updated table, read through the new heap. *)
Lemma UpdateTableStats_elements cm h tableName rowCount columnStats cm' h' table :
  UpdateTableStats cm h tableName rowCount columnStats = (cm', h', None) ->
  tables cm !! tableName = Some table ->
  tables cm' !! tableName
  = Some {| TableName := TableName table; Columns := Columns table;
            RowCount := rowCount; Indexes := Indexes table;
            Metadata := Metadata table |}
  /\ elements h' (Columns table)
     = List.map (refresh columnStats) (elements h (Columns table)).
Proof.
  unfold UpdateTableStats. intros H Ht. rewrite Ht in H.
  injection H as <- <-. split; [simpl; now rewrite lookup_insert_eq|].
  unfold elements.
  destruct (h !! base (Columns table)) as [arr|] eqn:Hb.
  - rewrite lookup_insert_eq. simpl. apply update_loop_elements.
  - rewrite Hb. simpl. now rewrite take_nil.
Qed.

(** X12.  Statistics that were written are what the catalog answers
    with afterwards: after a successful [UpdateTableStats], [GetTable]
    reports the new row count; a column that [GetColumnStats] found
    before is found again, with the statistics supplied under its name
    (and unchanged when none were supplied); and when the statistics
    supplied for it carry a positive NDV [n], the selectivity of [=] on
    that column is [1 / float64 n]. *)
Theorem UpdateTableStats_then_query (cm cm' : CatalogManager) (h h' : Heap)
    (tableName columnName : string) (rowCount : Z)
    (columnStats : gmap string Column) (col : Column) :
  UpdateTableStats cm h tableName rowCount columnStats = (cm', h', None) ->
  GetColumnStats cm h tableName columnName = inl col ->
  (exists table, GetTable cm' tableName = inl table
                 /\ RowCount table = rowCount)
  /\ GetColumnStats cm' h' tableName columnName
     = inl (refresh columnStats col)
  /\ (forall stats n value,
        columnStats !! columnName = Some stats -> NDV stats = Some n ->
        0 < n ->
        EstimateSelectivity cm' h' tableName columnName "=" value
        = ((1 / float64 n)%float, None)).
Proof.
  intros Hup Hcol.
  assert (Hfind : exists table,
             tables cm !! tableName = Some table
             /\ List.find (fun c => String.eqb (Name c) columnName)
                          (elements h (Columns table)) = Some col).
  { unfold GetColumnStats, GetTable in Hcol.
    destruct (tables cm !! tableName) as [table|]; [|discriminate].
    exists table. split; [reflexivity|]. simpl in Hcol.
    destruct (List.find _ _); [now injection Hcol as -> | discriminate]. }
  destruct Hfind as (table & Ht & Hf).
  destruct (UpdateTableStats_elements _ _ _ _ _ _ _ _ Hup Ht) as [Ht' Hel].
  assert (Hcol' : GetColumnStats cm' h' tableName columnName
                  = inl (refresh columnStats col)).
  { unfold GetColumnStats, GetTable. rewrite Ht'. simpl.
    now rewrite Hel, find_refresh, Hf. }
  split; [|split; [exact Hcol'|]].
  - unfold GetTable. rewrite Ht'. eauto.
  - intros stats n value Hs Hn Hpos.
    unfold EstimateSelectivity. rewrite Hcol'. simpl.
    assert (Hname : Name col = columnName).
    { apply find_some in Hf as [_ Hf]. now apply String.eqb_eq in Hf. }
    unfold refresh. rewrite Hname, Hs. simpl. rewrite Hn.
    apply Z.ltb_lt in Hpos. now rewrite Hpos.
Qed.

Lemma UpdateTableStats_then_query_witness :
  let '(cm', h', err) :=
    UpdateTableStats Samples.cat Samples.heap "customers" 9999
      Samples.age_stats in
  err = None
  /\ GetColumnStats cm' h' "customers" "age"
     = inl (refresh Samples.age_stats Samples.age)
  /\ EstimateSelectivity cm' h' "customers" "age" "=" (VInt 30)
     = ((1 / float64 100)%float, None).
Proof.
  destruct (UpdateTableStats Samples.cat Samples.heap "customers" 9999
              Samples.age_stats) as [[cm' h'] err] eqn:E.
  assert (Herr : err = None) by (now injection E as _ _ <-).
  subst err. split; [reflexivity|].
  destruct (UpdateTableStats_then_query Samples.cat cm' Samples.heap h'
              "customers" "age" 9999 Samples.age_stats Samples.age
              E eq_refl) as (_ & Hc & Hs).
  split; [exact Hc|].
  apply (Hs (mkColumn "age" "int" false (Some 100) (Some "0") (Some "120") []
               (Some 5)) 100 (VInt 30)); [reflexivity | reflexivity | lia].
Defined.

(** X13.  Updating statistics is idempotent: a second
    [UpdateTableStats] with the same table name, row count and column
    statistics succeeds and leaves the catalog and the column arrays
    exactly as the first one left them. *)
Theorem UpdateTableStats_idempotent (cm cm' : CatalogManager) (h h' : Heap)
    (tableName : string) (rowCount : Z) (columnStats : gmap string Column) :
  UpdateTableStats cm h tableName rowCount columnStats = (cm', h', None) ->
  UpdateTableStats cm' h' tableName rowCount columnStats = (cm', h', None).
Proof.
  unfold UpdateTableStats. intros H.
  destruct (tables cm !! tableName) as [table|] eqn:Ht; [|discriminate].
  injection H as <- <-. simpl. rewrite lookup_insert_eq. simpl.
  rewrite insert_insert_eq. f_equal. f_equal.
  destruct (h !! base (Columns table)) as [arr|] eqn:Hb.
  - rewrite lookup_insert_eq, insert_insert_eq.
    now rewrite update_loop_idempotent.
  - now rewrite Hb.
Qed.

Lemma UpdateTableStats_idempotent_witness :
  let '(cm', h', err) :=
    UpdateTableStats Samples.cat Samples.heap "customers" 9999
      Samples.age_stats in
  err = None
  /\ UpdateTableStats cm' h' "customers" 9999 Samples.age_stats
     = (cm', h', None).
Proof.
  destruct (UpdateTableStats Samples.cat Samples.heap "customers" 9999
              Samples.age_stats) as [[cm' h'] err] eqn:E.
  assert (Herr : err = None) by (now injection E as _ _ <-).
  subst err. split; [reflexivity|].
  exact (UpdateTableStats_idempotent Samples.cat cm' Samples.heap h'
           "customers" 9999 Samples.age_stats E).
Defined.

End CatalogStatistics.

(** ** The simulator: failures, connectors, Limit *)

Section SimulatorTraversal.

Import simulator simulator_operators view.

Variables simulateFilter simulateProject simulateJoin simulateAggregate
          simulateSort simulateLimit
  : LogicalPlan -> ExecutionMetrics -> ExecutionMetrics.
Variable elapsed : Z.

Abbreviation node := (simulateNode simulateFilter simulateProject simulateJoin
                        simulateAggregate simulateSort simulateLimit).
Abbreviation fails := (fun r : ExecutionMetrics + error => exists e, r = inr e).
Abbreviation unsupported :=
  (fun n : LogicalPlan => supported (lp_NodeType n) = false).

Lemma simulateNode_unfold plan metrics :
  node plan metrics =
    match fold_left (fun acc child =>
                       match acc with
                       | inl m => node child m
                       | inr err => inr err
                       end) (lp_Children plan) (inl metrics) with
    | inr err => inr err
    | inl metrics =>
        let nt := lp_NodeType plan in
        if String.eqb nt NodeTypeScan then inl (simulateScan plan metrics)
        else if String.eqb nt NodeTypeFilter then inl (simulateFilter plan metrics)
        else if String.eqb nt NodeTypeProject then
          inl (simulateProject plan metrics)
        else if String.eqb nt NodeTypeJoin then inl (simulateJoin plan metrics)
        else if String.eqb nt NodeTypeAggregate then
          inl (simulateAggregate plan metrics)
        else if String.eqb nt NodeTypeSort then inl (simulateSort plan metrics)
        else if String.eqb nt NodeTypeLimit then inl (simulateLimit plan metrics)
        else inr ("unsupported node type for simulation: " ++ nt)
    end.
Proof. now destruct plan. Qed.

Lemma simulate_children_fail (cs : list LogicalPlan) :
  Forall (fun c => forall m, fails (node c m) <-> Exists unsupported (nodes c))
         cs ->
  forall acc,
    fails (fold_left (fun acc child =>
                        match acc with
                        | inl m => node child m
                        | inr err => inr err
                        end) cs acc)
    <-> fails acc \/ Exists unsupported (flat_map nodes cs).
Proof.
  induction 1 as [|c cs Hc _ IH]; intros acc; simpl.
  - rewrite Exists_nil. tauto.
  - rewrite IH, Exists_app. destruct acc as [m|e].
    + rewrite Hc. split; [intros [H|H]; auto | intros [[e [=]]|[H|H]]; auto].
    + split; [eauto | intros _; left; eauto].
Qed.

Lemma simulateNode_fails plan :
  forall m, fails (node plan m) <-> Exists unsupported (nodes plan).
Proof.
  induction plan as [plan IH] using LogicalPlan_tree_ind. intros m.
  rewrite simulateNode_unfold.
  pose proof (simulate_children_fail _ IH (inl m)) as Hkids.
  assert (Hn : nodes plan = plan :: flat_map nodes (lp_Children plan))
    by now destruct plan.
  rewrite Hn, Exists_cons.
  destruct (fold_left _ (lp_Children plan) (inl m)) as [m'|e].
  - assert (Hno : ~ Exists unsupported (flat_map nodes (lp_Children plan))).
    { intros H. destruct (proj2 Hkids (or_intror H)) as [e [=]]. }
    unfold supported. cbv zeta.
    destruct (String.eqb (lp_NodeType plan) NodeTypeScan),
      (String.eqb (lp_NodeType plan) NodeTypeFilter),
      (String.eqb (lp_NodeType plan) NodeTypeProject),
      (String.eqb (lp_NodeType plan) NodeTypeJoin),
      (String.eqb (lp_NodeType plan) NodeTypeAggregate),
      (String.eqb (lp_NodeType plan) NodeTypeSort),
      (String.eqb (lp_NodeType plan) NodeTypeLimit); simpl;
      (split; [intros [e E]; try discriminate E; auto
              | intros [E|E]; [try discriminate E; eauto | contradiction]]).
  - split; [intros _ | eauto].
    destruct (proj1 Hkids (ex_intro _ e eq_refl)) as [[e' [=]]|H]. now right.
Qed.

(** A connector adjustment only writes the fields it is about. *)
Lemma applyPostgresOptimizations_keeps {A} (f : ExecutionMetrics -> A) :
  (forall t m, f (set_CPUTime t m) = f m) ->
  (forall n m, f (set_IOOperations n m) = f m) ->
  forall plan m, f (applyPostgresOptimizations plan m) = f m.
Proof.
  intros Hcpu Hio.
  induction plan as [plan IH] using LogicalPlan_tree_ind. intros m.
  destruct plan as [id nt cs tn al pr pj jt jc gb ag ob lc oc er ec md].
  cbn [applyPostgresOptimizations lp_Children lp_NodeType] in *.
  match goal with
  | |- f (fold_left _ cs ?start) = _ =>
      assert (Hstart : f start = f m);
      [|revert Hstart; generalize start]
  end.
  { destruct (String.eqb nt NodeTypeJoin);
      [destruct (physical_operator_is _ _); now rewrite ?Hcpu|].
    destruct (String.eqb nt NodeTypeAggregate); [now rewrite Hcpu|].
    destruct (String.eqb nt NodeTypeScan); now rewrite ?Hio. }
  clear -IH. induction IH as [|c cs Hc _ IHcs]; intros m0 H0; simpl;
    [exact H0|].
  apply IHcs. now rewrite Hc.
Qed.

Lemma applyMongoOptimizations_keeps {A} (f : ExecutionMetrics -> A) :
  (forall t m, f (set_CPUTime t m) = f m) ->
  (forall n m, f (set_NetworkTraffic n m) = f m) ->
  forall plan m, f (applyMongoOptimizations plan m) = f m.
Proof.
  intros Hcpu Hnet.
  induction plan as [plan IH] using LogicalPlan_tree_ind. intros m.
  destruct plan as [id nt cs tn al pr pj jt jc gb ag ob lc oc er ec md].
  cbn [applyMongoOptimizations lp_Children lp_NodeType] in *.
  match goal with
  | |- f (fold_left _ cs ?start) = _ =>
      assert (Hstart : f start = f m);
      [|revert Hstart; generalize start]
  end.
  { destruct (String.eqb nt NodeTypeScan); [now rewrite Hnet|].
    destruct (String.eqb nt NodeTypeAggregate); [now rewrite Hcpu|].
    destruct (String.eqb nt NodeTypeJoin); now rewrite ?Hnet, ?Hcpu. }
  clear -IH. induction IH as [|c cs Hc _ IHcs]; intros m0 H0; simpl;
    [exact H0|].
  apply IHcs. now rewrite Hc.
Qed.

(** The error of a traversal names a node without a case in the
    switch. *)
Lemma simulate_children_error (cs : list LogicalPlan) :
  Forall (fun c => forall m e, node c m = inr e ->
            exists n, In n (nodes c) /\ unsupported n
                      /\ e = ("unsupported node type for simulation: "
                              ++ lp_NodeType n)%string) cs ->
  forall acc e,
    fold_left (fun acc child =>
                 match acc with
                 | inl m => node child m
                 | inr err => inr err
                 end) cs acc = inr e ->
    acc = inr e
    \/ exists n, In n (flat_map nodes cs) /\ unsupported n
                 /\ e = ("unsupported node type for simulation: "
                         ++ lp_NodeType n)%string.
Proof.
  induction 1 as [|c cs Hc _ IH]; intros acc e; cbn [fold_left flat_map].
  - now left.
  - intros H. apply IH in H as [H|(n & Hn & Hu & ->)].
    + destruct acc as [m|e0]; [|now left]. right.
      destruct (Hc m e H) as (n & Hn & Hu & ->).
      exists n. split; [apply in_app_iff; now left | now split].
    + right. exists n. split; [apply in_app_iff; now right | now split].
Qed.

Lemma simulateNode_error plan :
  forall m e,
    node plan m = inr e ->
    exists n, In n (nodes plan) /\ unsupported n
              /\ e = ("unsupported node type for simulation: "
                      ++ lp_NodeType n)%string.
Proof.
  induction plan as [plan IH] using LogicalPlan_tree_ind. intros m e.
  rewrite simulateNode_unfold.
  pose proof (simulate_children_error _ IH (inl m)) as Hkids.
  assert (Hn : nodes plan = plan :: flat_map nodes (lp_Children plan))
    by now destruct plan.
  rewrite Hn.
  destruct (fold_left _ (lp_Children plan) (inl m)) as [m'|e'].
  - cbv zeta. unfold supported.
    destruct (String.eqb (lp_NodeType plan) NodeTypeScan) eqn:E1;
      [discriminate|].
    destruct (String.eqb (lp_NodeType plan) NodeTypeFilter) eqn:E2;
      [discriminate|].
    destruct (String.eqb (lp_NodeType plan) NodeTypeProject) eqn:E3;
      [discriminate|].
    destruct (String.eqb (lp_NodeType plan) NodeTypeJoin) eqn:E4;
      [discriminate|].
    destruct (String.eqb (lp_NodeType plan) NodeTypeAggregate) eqn:E5;
      [discriminate|].
    destruct (String.eqb (lp_NodeType plan) NodeTypeSort) eqn:E6;
      [discriminate|].
    destruct (String.eqb (lp_NodeType plan) NodeTypeLimit) eqn:E7;
      [discriminate|].
    intros [= <-]. exists plan. split; [now left|]. split; [|reflexivity].
    now rewrite E1, E2, E3, E4, E5, E6, E7.
  - intros [= <-].
    destruct (Hkids e' eq_refl) as [[=]|(n & Hin & Hu & ->)].
    exists n. split; [now right | now split].
Qed.

(** X14.  What a simulation that returns says of the node types of the
    plan, whatever the connector and whatever the operator rules
    compute.  When it returns an error, the error is the message
    [unsupported node type for simulation] for a node of the tree whose
    type is none of Scan, Filter, Project, Join, Aggregate, Sort and
    Limit (a Union or Subquery node, or an unknown type, at any depth);
    when it returns metrics, every node of the tree has one of these
    seven types; a nil plan gets the error [cannot simulate nil plan].
    A run that panics (an operator rule reading a null first child)
    returns neither and is not spoken of. *)
Theorem SimulateExecution_error_is_unsupported_node (plan : LogicalPlan)
    (connector : string) :
  (forall err,
      SimulateExecution simulateFilter simulateProject simulateJoin
        simulateAggregate simulateSort simulateLimit elapsed (Some plan)
        connector = inr err ->
      exists n, In n (nodes plan)
                /\ supported (lp_NodeType n) = false
                /\ err = ("unsupported node type for simulation: "
                          ++ lp_NodeType n)%string)
  /\ (forall m,
        SimulateExecution simulateFilter simulateProject simulateJoin
          simulateAggregate simulateSort simulateLimit elapsed (Some plan)
          connector = inl m ->
        Forall (fun n => supported (lp_NodeType n) = true) (nodes plan))
  /\ SimulateExecution simulateFilter simulateProject simulateJoin
       simulateAggregate simulateSort simulateLimit elapsed None connector
     = inr "cannot simulate nil plan".
Proof.
  set (start := {| ExecutionTime := 0; RowsProcessed := 0; RowsReturned := 0;
                   CPUTime := 0; IOOperations := 0; MemoryUsed := 0;
                   NetworkTraffic := 0; OperatorMetrics := ∅;
                   Connector := "generic"; SimulationOnly := true |}).
  pose proof (simulateNode_error plan start) as Herr.
  pose proof (simulateNode_fails plan start) as Hfails.
  split; [|split].
  - unfold SimulateExecution, PostgresSimulator_SimulateExecution,
      MongoSimulator_SimulateExecution, GenericSimulator_SimulateExecution.
    fold start. intros err.
    destruct (simulateNode _ _ _ _ _ _ plan start) as [m|e];
      destruct (String.eqb connector "postgres");
      try destruct (String.eqb connector "mongo");
      intros [= <-]; now apply Herr.
  - unfold SimulateExecution, PostgresSimulator_SimulateExecution,
      MongoSimulator_SimulateExecution, GenericSimulator_SimulateExecution.
    fold start. intros m.
    destruct (simulateNode _ _ _ _ _ _ plan start) as [m'|e].
    + intros _. apply List.Forall_forall. intros n Hn.
      destruct (supported (lp_NodeType n)) eqn:Hs; [reflexivity|].
      assert (Hex : Exists unsupported (nodes plan))
        by (apply List.Exists_exists; eauto).
      apply Hfails in Hex as [e [=]].
    + destruct (String.eqb connector "postgres");
        try destruct (String.eqb connector "mongo"); discriminate.
  - unfold SimulateExecution, PostgresSimulator_SimulateExecution,
      MongoSimulator_SimulateExecution, GenericSimulator_SimulateExecution.
    destruct (String.eqb connector "postgres"); [reflexivity|].
    now destruct (String.eqb connector "mongo").
Qed.

(** X15.  The connector changes no row count: when the simulation under
    a connector returns metrics, a generic simulation of the same plan
    returns metrics too, and the two agree on [rows_returned],
    [rows_processed], [memory_used], [operator_metrics] and
    [simulation_only]; Postgres leaves [network_traffic] and Mongo
    leaves [io_operations] as the generic simulation computes them; the
    connector field is ["postgres"] or ["mongo"] for these two names and
    the generic value for any other.  [execution_time] is the time each
    call has measured for itself, so the two runs need not agree on
    it. *)
Theorem SimulateExecution_connector_keeps_rows (plan : option LogicalPlan)
    (connector : string) (m : ExecutionMetrics) (elapsed' : Z) :
  SimulateExecution simulateFilter simulateProject simulateJoin
    simulateAggregate simulateSort simulateLimit elapsed plan connector
  = inl m ->
  exists g,
    GenericSimulator_SimulateExecution simulateFilter simulateProject
      simulateJoin simulateAggregate simulateSort simulateLimit elapsed' plan
    = inl g
    /\ RowsReturned m = RowsReturned g /\ RowsProcessed m = RowsProcessed g
    /\ MemoryUsed m = MemoryUsed g /\ OperatorMetrics m = OperatorMetrics g
    /\ ExecutionTime m = elapsed /\ ExecutionTime g = elapsed'
    /\ SimulationOnly m = SimulationOnly g
    /\ (connector = "postgres" -> NetworkTraffic m = NetworkTraffic g)
    /\ (connector = "mongo" -> IOOperations m = IOOperations g)
    /\ Connector m = (if String.eqb connector "postgres" then "postgres"
                      else if String.eqb connector "mongo" then "mongo"
                      else Connector g).
Proof.
  unfold SimulateExecution, PostgresSimulator_SimulateExecution,
    MongoSimulator_SimulateExecution, GenericSimulator_SimulateExecution.
  destruct plan as [p|].
  2:{ destruct (String.eqb connector "postgres");
        [|destruct (String.eqb connector "mongo")]; discriminate. }
  destruct (simulateNode _ _ _ _ _ _ p _) as [g0|e].
  2:{ destruct (String.eqb connector "postgres");
        [|destruct (String.eqb connector "mongo")]; discriminate. }
  exists (set_ExecutionTime elapsed' g0). split; [reflexivity|].
  destruct (String.eqb_spec connector "postgres") as [->|Np].
  { injection H as <-.
    rewrite ?(applyPostgresOptimizations_keeps RowsReturned),
      ?(applyPostgresOptimizations_keeps RowsProcessed),
      ?(applyPostgresOptimizations_keeps MemoryUsed),
      ?(applyPostgresOptimizations_keeps OperatorMetrics),
      ?(applyPostgresOptimizations_keeps ExecutionTime),
      ?(applyPostgresOptimizations_keeps SimulationOnly),
      ?(applyPostgresOptimizations_keeps NetworkTraffic),
      ?(applyPostgresOptimizations_keeps Connector) by reflexivity.
    repeat split; discriminate. }
  destruct (String.eqb_spec connector "mongo") as [->|Nm].
  { injection H as <-.
    rewrite ?(applyMongoOptimizations_keeps RowsReturned),
      ?(applyMongoOptimizations_keeps RowsProcessed),
      ?(applyMongoOptimizations_keeps MemoryUsed),
      ?(applyMongoOptimizations_keeps OperatorMetrics),
      ?(applyMongoOptimizations_keeps ExecutionTime),
      ?(applyMongoOptimizations_keeps SimulationOnly),
      ?(applyMongoOptimizations_keeps IOOperations),
      ?(applyMongoOptimizations_keeps Connector) by reflexivity.
    repeat split; discriminate. }
  injection H as <-. repeat split; congruence.
Qed.

End SimulatorTraversal.

Section SimulatorOperators.

Import simulator simulator_operators view.

Lemma SimulateExecution_error_is_unsupported_node_witness :
  let union :=
    mkLogicalPlan "u" NodeTypeUnion
      [Samples.scan "a" "big" None; Samples.scan "b" "small" None] "" ""
      None [] "" None [] [] [] None None None None ∅ in
  let plan := Samples.limit "l" (Some 5) [Samples.filter "f" "=" [union]] in
  SimulateExecution simulateFilter simulateProject Samples.skip Samples.skip
    Samples.skip simulateLimit 0 (Some plan) "mongo"
  = inr "unsupported node type for simulation: union"
  /\ exists n, In n (nodes plan) /\ supported (lp_NodeType n) = false
               /\ lp_ID n = "u".
Proof.
  cbv zeta.
  match goal with
  | |- ?call = inr ?msg /\ _ =>
      assert (E : call = inr msg) by (vm_compute; reflexivity)
  end.
  split; [exact E|].
  destruct (proj1 (SimulateExecution_error_is_unsupported_node simulateFilter
                     simulateProject Samples.skip Samples.skip Samples.skip
                     simulateLimit 0
                     (Samples.limit "l" (Some 5)
                        [Samples.filter "f" "="
                           [mkLogicalPlan "u" NodeTypeUnion
                              [Samples.scan "a" "big" None;
                               Samples.scan "b" "small" None] "" ""
                              None [] "" None [] [] [] None None None None ∅]])
                     "mongo") _ E) as (n & Hn & Hs & _).
  exists n. split; [exact Hn|]. split; [exact Hs|].
  cbn in Hn.
  destruct Hn as [<-|[<-|[<-|[<-|[<-|[]]]]]]; try discriminate Hs.
  reflexivity.
Defined.

Lemma SimulateExecution_connector_keeps_rows_witness :
  let plan :=
    Samples.filter "f" "=" [Samples.scan "s" "customers" (Some 5000)] in
  exists m g,
    SimulateExecution simulateFilter simulateProject Samples.skip Samples.skip
      Samples.skip simulateLimit 3 (Some plan) "postgres" = inl m
    /\ SimulateExecution simulateFilter simulateProject Samples.skip
         Samples.skip Samples.skip simulateLimit 7 (Some plan) "generic"
       = inl g
    /\ RowsReturned m = RowsReturned g /\ RowsReturned g = 1500
    /\ IOOperations g = 50 /\ IOOperations m = 40
    /\ ExecutionTime m = 3 /\ ExecutionTime g = 7.
Proof.
  cbv zeta.
  match goal with
  | |- exists m g, ?call = _ /\ _ =>
      assert (E : exists m, call = inl m) by (vm_compute; eexists; reflexivity)
  end.
  destruct E as (m & E).
  destruct (SimulateExecution_connector_keeps_rows simulateFilter
              simulateProject Samples.skip Samples.skip Samples.skip
              simulateLimit 3
              (Some (Samples.filter "f" "="
                       [Samples.scan "s" "customers" (Some 5000)]))
              "postgres" m 7 E)
    as (g & Hg & Hrows & _ & _ & _ & Htm & Htg & _).
  exists m, g. split; [exact E|]. split; [exact Hg|]. split; [exact Hrows|].
  pose proof (f_equal (fun r => match r with
                                | inl x => (RowsReturned x, IOOperations x)
                                | inr _ => (0, 0)
                                end) Hg) as Vg.
  pose proof (f_equal (fun r => match r with
                                | inl x => IOOperations x
                                | inr _ => 0
                                end) E) as Vm.
  vm_compute in Vg. vm_compute in Vm. injection Vg as V1 V2.
  repeat split; try (symmetry; assumption); assumption.
Defined.

(** X16.  The rows of a Limit, with [input] the estimate of its first
    child (1000 without one).  Without a limit the node returns and
    reads [input] rows, and an offset is ignored.  With a limit and no
    offset it returns and reads [min limit input].  With a limit and an
    offset, both non-negative and with a sum that fits int64, it reads
    [min input (offset + limit)] rows and returns
    [max 0 (min limit (input - offset))]. *)
Theorem simulateLimit_rows (plan : LogicalPlan) (metrics : ExecutionMetrics) :
  let input := inputRows plan in
  let out := simulateLimit plan metrics in
  (lp_LimitCount plan = None ->
   RowsReturned out = input
   /\ RowsProcessed out = add64 (RowsProcessed metrics) input)
  /\ (forall limit,
        lp_LimitCount plan = Some limit -> lp_OffsetCount plan = None ->
        RowsReturned out = Z.min limit input
        /\ RowsProcessed out
           = add64 (RowsProcessed metrics) (Z.min limit input))
  /\ (forall limit offset,
        lp_LimitCount plan = Some limit -> lp_OffsetCount plan = Some offset ->
        0 <= limit -> 0 <= offset -> offset + limit <= max_int64 ->
        in_int64 input ->
        RowsReturned out = Z.max 0 (Z.min limit (input - offset))
        /\ RowsProcessed out
           = add64 (RowsProcessed metrics) (Z.min input (offset + limit))).
Proof.
  intros input out. subst out. unfold simulateLimit, limitRows. fold input.
  split; [|split].
  - intros ->. now simpl.
  - intros limit -> ->. destruct (Z.ltb_spec limit input); simpl;
      split; f_equal; lia.
  - intros limit offset -> -> Hl Ho Hsum Hin.
    assert (Hadd : add64 offset limit = offset + limit).
    { unfold add64. apply wrap64_id.
      unfold in_int64, min_int64, max_int64 in *. lia. }
    cbn [RowsReturned RowsProcessed]. rewrite !Hadd.
    unfold in_int64, min_int64, max_int64 in *.
    destruct (Z.ltb_spec input (offset + limit)) as [H1|H1];
      [destruct (Z.ltb_spec offset input) as [H2|H2]
      |destruct (Z.ltb_spec offset (offset + limit)) as [H2|H2]];
      cbn [RowsReturned RowsProcessed]; unfold sub64;
      rewrite ?wrap64_id by (unfold in_int64, min_int64, max_int64; lia);
      split; try (f_equal; lia); lia.
Qed.

Lemma simulateLimit_rows_witness :
  let plan :=
    mkLogicalPlan "l" NodeTypeLimit [Samples.scan "s" "big" (Some 25)] "" ""
      None [] "" None [] [] [] (Some 10) (Some 20) None None ∅ in
  let metrics :=
    {| ExecutionTime := 0; RowsProcessed := 25; RowsReturned := 25;
       CPUTime := 250000; IOOperations := 1; MemoryUsed := 2500;
       NetworkTraffic := 0; OperatorMetrics := ∅; Connector := "generic";
       SimulationOnly := true |} in
  RowsReturned (simulateLimit plan metrics) = 5
  /\ RowsProcessed (simulateLimit plan metrics) = 50.
Proof.
  cbv zeta.
  match goal with
  | |- RowsReturned (simulateLimit ?plan ?metrics) = _ /\ _ =>
      destruct (proj2 (proj2 (simulateLimit_rows plan metrics)) 10 20
                  eq_refl eq_refl) as [H1 H2];
      [lia | lia | vm_compute; discriminate | vm_compute; split; discriminate
      | split; [exact H1 | exact H2]]
  end.
Defined.

End SimulatorOperators.

(** ** The plan algebra: visitor and clone ids *)

Section VisitorOrder.

Import plan_visitor.

Variable V : Type.
Variable visitor : PlanVisitor V.

Lemma after_stop step (l : list PlanPtr) (acc : outcome (V * option error)) :
  (acc = Panic \/ exists v err, acc = Ret (v, Some err)) ->
  fold_left (after V step) l acc = acc.
Proof.
  intros H. induction l as [|lp l IH]; cbn [fold_left]; [reflexivity|].
  replace (after V step acc lp) with acc; [exact IH|].
  destruct H as [->|(v & err & ->)]; reflexivity.
Qed.

Lemma after_Accept (lp : PlanPtr) :
  (forall v, Accept V visitor lp v
             = fold_left (after V (visit V visitor)) (slots lp) (Ret (v, None))) ->
  forall acc,
    after V (Accept V visitor) acc lp
    = fold_left (after V (visit V visitor)) (slots lp) acc.
Proof.
  intros H [[v [err|]]|].
  - rewrite after_stop by eauto. reflexivity.
  - apply H.
  - rewrite after_stop by eauto. reflexivity.
Qed.

Lemma Accept_children (cs : list PlanPtr) :
  Forall (fun c => forall v,
            Accept V visitor c v
            = fold_left (after V (visit V visitor)) (slots c) (Ret (v, None)))
         cs ->
  forall acc,
    fold_left (after V (Accept V visitor)) cs acc
    = fold_left (after V (visit V visitor)) (flat_map slots cs) acc.
Proof.
  induction 1 as [|c cs Hc _ IH]; intros acc; cbn [fold_left flat_map];
    [reflexivity|].
  now rewrite fold_left_app, IH, (after_Accept c Hc).
Qed.

Lemma Accept_slots (lp : PlanPtr) :
  forall v, Accept V visitor lp v = visit_each V visitor (slots lp) v.
Proof.
  induction lp as [|node children IH] using PlanPtr_tree_ind; intros v.
  - reflexivity.
  - unfold visit_each. cbn [Accept slots fold_left].
    rewrite (Accept_children children IH). reflexivity.
Qed.

Lemma slots_ptr_of (p : LogicalPlan) :
  forall q, In q (slots (ptr_of p)) -> q <> nil_plan.
Proof.
  induction p as [p IH] using LogicalPlan_tree_ind. intros q.
  destruct p as [id nt cs tn al pr pj jt jc gb ag ob lc oc er ec md].
  cbn [ptr_of slots lp_Children]. intros [<-|Hin]; [discriminate|].
  apply in_flat_map in Hin as (c' & Hc' & Hq).
  apply in_map_iff in Hc' as (c & <- & Hc).
  cbn [lp_Children] in IH. rewrite List.Forall_forall in IH.
  exact (IH c Hc q Hq).
Qed.

(** X17.  [Accept], for a visitor whose methods do not write to the
    plan, goes through the tree in pre-order (a node before its
    children, the children from left to right): it calls the visit
    method of the node type of each node, makes no call for a node type
    without a method, and stops at the first error, which it returns
    with the state the visitor has reached.  It panics when it comes to
    a null child slot, or when a method panics, before any error; on a
    tree without null slot it does not panic unless a method does. *)
Theorem Accept_visits_in_preorder (lp : PlanPtr) (v : V) :
  Accept V visitor lp v = visit_each V visitor (slots lp) v
  /\ Accept V visitor nil_plan v = Panic
  /\ forall p : LogicalPlan,
       (forall q w, q <> nil_plan -> visit V visitor q w <> Panic) ->
       Accept V visitor (ptr_of p) v <> Panic.
Proof.
  split; [apply Accept_slots|]. split; [reflexivity|].
  intros p Htotal. rewrite Accept_slots. unfold visit_each.
  assert (Hgen : forall l acc,
             (forall q, In q l -> q <> nil_plan) ->
             acc <> Panic ->
             fold_left (after V (visit V visitor)) l acc <> Panic).
  { induction l as [|q l IHl]; intros acc Hl Hacc; cbn [fold_left];
      [exact Hacc|].
    apply IHl; [intros; apply Hl; now right|].
    destruct acc as [[w [err|]]|]; cbn; [discriminate | | contradiction].
    apply Htotal, Hl. now left. }
  apply Hgen; [apply slots_ptr_of | discriminate].
Qed.

End VisitorOrder.

Section VisitorRun.

Import plan_visitor.

(** A visitor that counts its calls; its [VisitScan] fails when [strict]
    is set. *)
Lemma Accept_visits_in_preorder_witness :
  let node nt := mkNode "" nt "" "" None [] "" None [] [] [] None None None
                   None ∅ in
  let count := fun (_ : PlanPtr) (n : nat) =>
                 Ret (S n, None : option plan_visitor.error) in
  let counting (strict : bool) :=
    mkPlanVisitor nat
      (fun lp n => if strict then Ret (S n, Some "no scan") else count lp n)
      count count count count count count count count in
  let scan := plan_ptr (node NodeTypeScan) [] in
  let tree := plan_ptr (node NodeTypeFilter) [scan; nil_plan] in
  slots tree = [tree; scan; nil_plan]
  /\ Accept nat (counting false) tree O = Panic
  /\ Accept nat (counting true) tree O = Ret (2%nat, Some "no scan")
  /\ Accept nat (counting false) (plan_ptr (node NodeTypeFilter) [scan]) O
     = Ret (2%nat, None).
Proof.
  cbv zeta. split; [reflexivity|].
  split; [|split];
    match goal with
    | |- Accept nat ?vis ?t O = _ =>
        rewrite (proj1 (Accept_visits_in_preorder nat vis t O))
    end; vm_compute; reflexivity.
Defined.

End VisitorRun.

Section CloneNumbering.

Lemma add64_succ st : in_int64 st -> st + 1 <= max_int64 -> add64 st 1 = st + 1.
Proof.
  intros H1 H2. unfold add64. apply wrap64_id.
  unfold in_int64, min_int64, max_int64 in *. lia.
Qed.

Abbreviation numbered :=
  (fun (st : Z) (n : nat) =>
     List.map (fun k => "node_" ++ itoa (st + Z.of_nat k)) (seq 1 n)).

Lemma map_seq_shift {A} (f : nat -> A) (a s n : nat) :
  List.map f (seq (a + s) n) = List.map (fun k => f (a + k)%nat) (seq s n).
Proof.
  revert s. induction n as [|n IH]; intros s; simpl; [reflexivity|].
  f_equal. rewrite <- IH. now rewrite Nat.add_succ_r.
Qed.

Lemma numbered_app st (a b : nat) :
  numbered st (a + b)%nat
  = (numbered st a ++ numbered (st + Z.of_nat a) b)%list.
Proof.
  cbv beta. rewrite seq_app, map_app. f_equal.
  rewrite (Nat.add_comm 1 a), map_seq_shift.
  apply map_ext. intros k. do 2 f_equal. lia.
Qed.

Lemma mapM_Clone_numbering (cs : list LogicalPlan) :
  Forall (fun p => forall st p' st',
            Clone p st = Done p' st' ->
            in_int64 st -> st + Z.of_nat (plan_size p) <= max_int64 ->
            plan_ids p' = numbered st (plan_size p)) cs ->
  forall st cs' st',
    mapM Clone cs st = Done cs' st' ->
    in_int64 st ->
    st + Z.of_nat (list_sum (List.map plan_size cs)) <= max_int64 ->
    flat_map plan_ids cs' = numbered st (list_sum (List.map plan_size cs)).
Proof.
  induction 1 as [|c cs Hc _ IH]; intros st cs' st' H Hin Hmax;
    cbn [mapM] in H.
  - now injection H as <- <-.
  - apply bind_Done in H as (c' & s1 & Hc' & H).
    apply bind_Done in H as (rest & s2 & Hrest & H). injection H as <- <-.
    change (list_sum (List.map plan_size (c :: cs)))
      with (plan_size c + list_sum (List.map plan_size cs))%nat in *.
    assert (Hm : st + Z.of_nat (plan_size c) <= max_int64) by lia.
    destruct (Clone_ids c st c' s1 Hc' Hin Hm) as [-> _].
    cbn [flat_map]. rewrite numbered_app. f_equal.
    + apply (Hc st c' _ Hc' Hin). lia.
    + apply (IH _ _ _ Hrest); [|lia].
      unfold in_int64, min_int64, max_int64 in *. lia.
Qed.

Lemma Clone_numbering p :
  forall st p' st',
    Clone p st = Done p' st' ->
    in_int64 st -> st + Z.of_nat (plan_size p) <= max_int64 ->
    plan_ids p' = numbered st (plan_size p).
Proof.
  induction p as [p IH] using LogicalPlan_tree_ind.
  intros st p' st' H Hin Hmax.
  destruct p as [id nt cs tn al pr pj jt jc gb ag ob lc oc er ec md].
  cbn [Clone lp_Children] in H. cbn [plan_size lp_Children] in Hmax.
  cbn [lp_Children] in IH.
  apply bind_Done in H as (id' & st1 & Hid & H).
  apply bind_Done in H as (cs' & st2 & Hcs & H). injection H as <- <-.
  unfold generateID in Hid. injection Hid as <- <-.
  rewrite (add64_succ st Hin) in * by lia.
  cbn [plan_ids cloneNode lp_ID lp_Children plan_size].
  change (S (list_sum (List.map plan_size cs)))
    with (1 + list_sum (List.map plan_size cs))%nat.
  rewrite numbered_app. cbn [seq List.map app]. f_equal.
  apply (mapM_Clone_numbering cs IH _ _ _ Hcs); [|lia].
  unfold in_int64, min_int64, max_int64 in *. lia.
Qed.

(** X18.  The ids of a clone are consecutive: as long as the id counter
    does not overflow, the nodes of the copy carry, in pre-order, the
    ids [node_(c+1)], [node_(c+2)], ... for [c] the counter at the
    call, so they are pairwise distinct, and the counter ends at [c]
    plus the number of nodes. *)
Theorem Clone_ids_are_consecutive (p p' : LogicalPlan)
    (idCounter idCounter' : Z) :
  Clone p idCounter = Done p' idCounter' ->
  in_int64 idCounter ->
  idCounter + Z.of_nat (plan_size p) <= max_int64 ->
  plan_ids p'
  = List.map (fun k => "node_" ++ itoa (idCounter + Z.of_nat k))
             (seq 1 (plan_size p))
  /\ NoDup (plan_ids p')
  /\ idCounter' = idCounter + Z.of_nat (plan_size p).
Proof.
  intros H Hin Hmax.
  pose proof (Clone_numbering p _ _ _ H Hin Hmax) as Hids.
  split; [exact Hids|]. split.
  - rewrite Hids. apply NoDup_fmap_2_strong; [|apply NoDup_seq].
    intros a b _ _ E. apply node_id_inj in E. lia.
  - now destruct (Clone_ids p _ _ _ H Hin Hmax).
Qed.

Lemma Clone_ids_are_consecutive_witness :
  let p :=
    Samples.join "x" JoinTypeInner (Samples.scan "x" "big" None)
      (Samples.scan "x" "small" None) in
  exists p' idCounter',
    Clone p 7 = Done p' idCounter'
    /\ plan_ids p' = ["node_8"; "node_9"; "node_10"]
    /\ NoDup (plan_ids p').
Proof.
  cbv zeta.
  match goal with
  | |- exists p' st', ?call = _ /\ _ =>
      assert (E : exists p' st', call = Done p' st')
        by (vm_compute; eexists _, _; reflexivity)
  end.
  destruct E as (p' & st' & E).
  destruct (Clone_ids_are_consecutive _ p' 7 st' E) as (Hids & Hnd & _);
    [vm_compute; split; discriminate | vm_compute; discriminate|].
  exists p', st'. split; [exact E|]. split; [exact Hids | exact Hnd].
Defined.

End CloneNumbering.

(** ** The enumerator: duplicates and tables *)

Section Duplicates.

Import enumerator plan_enumerator.

Context {A : Type} (plan_of : A -> LogicalPlan).

Abbreviation sig_of := (fun a : A => getPlanSignature (plan_of a)).
Abbreviation dedup_step :=
  (fun '(seen, unique) (a : A) =>
     if decide (getPlanSignature (plan_of a) ∈ seen) then (seen, unique)
     else ({[ getPlanSignature (plan_of a) ]} ∪ seen, (unique ++ [a])%list)).

(** What the loop adds to [unique] from a state [(seen, unique)]. *)
Lemma dedup_fold (l : list A) :
  forall (seen : gset string) (unique : list A),
    exists new,
      fold_left dedup_step l (seen, unique)
      = (seen ∪ list_to_set (List.map sig_of new), (unique ++ new)%list)
      /\ sublist new l
      /\ NoDup (List.map sig_of new)
      /\ (forall a, In a new -> sig_of a ∉ seen)
      /\ (forall a, In a l ->
            sig_of a ∈ seen \/ In (sig_of a) (List.map sig_of new))
      /\ match l with
         | a :: _ => sig_of a ∉ seen -> head new = Some a
         | [] => True
         end.
Proof.
  induction l as [|a l IH]; intros seen unique.
  { exists []. simpl. rewrite app_nil_r, union_empty_r_L.
    repeat split; auto using sublist_nil, NoDup_nil_2; try tauto. }
  cbn [fold_left].
  destruct (decide (getPlanSignature (plan_of a) ∈ seen)) as [Hin|Hnin].
  - destruct (IH seen unique) as (new & E & Hsub & Hnd & Hfresh & Hall & _).
    exists new. rewrite E. repeat split; auto.
    + now apply sublist_cons.
    + intros b [<-|Hb]; auto.
    + intros Hno. contradiction.
  - destruct (IH ({[getPlanSignature (plan_of a)]} ∪ seen) (unique ++ [a])%list)
      as (new & E & Hsub & Hnd & Hfresh & Hall & _).
    exists (a :: new). rewrite E. cbn [List.map list_to_set].
    rewrite <- app_assoc. cbn [app]. repeat split; auto.
    + f_equal. rewrite (union_comm_L {[_]} seen), <- union_assoc_L.
      reflexivity.
    + now apply sublist_skip.
    + apply NoDup_cons. split; [|exact Hnd].
      rewrite list_elem_of_In, in_map_iff. intros (b & Hb & Hbin).
      apply (Hfresh b Hbin). rewrite Hb. set_solver.
    + intros b [<-|Hb]; [exact Hnin|].
      intros Hbs. apply (Hfresh b Hb). set_solver.
    + intros b [<-|Hb]; [right; now left|].
      destruct (Hall b Hb) as [H|H]; [|right; now right].
      apply elem_of_union in H as [H|H]; [|now left].
      apply elem_of_singleton in H. right. left. now symmetry.
Qed.

Lemma dedup_fold_distinct (l : list A) :
  forall (seen : gset string) (unique : list A),
    NoDup (List.map sig_of l) ->
    (forall a, In a l -> sig_of a ∉ seen) ->
    snd (fold_left dedup_step l (seen, unique)) = (unique ++ l)%list.
Proof.
  induction l as [|a l IH]; intros seen unique Hnd Hfresh; simpl.
  { now rewrite app_nil_r. }
  cbn [List.map] in Hnd. apply NoDup_cons in Hnd as [Ha Hnd].
  destruct (decide (getPlanSignature (plan_of a) ∈ seen)) as [Hin|Hnin].
  { destruct (Hfresh a (or_introl eq_refl) Hin). }
  rewrite IH; [now rewrite <- app_assoc | exact Hnd |].
  intros b Hb Hbs. apply elem_of_union in Hbs as [Hbs|Hbs].
  - apply elem_of_singleton in Hbs. apply Ha.
    rewrite list_elem_of_In, in_map_iff. exists b. split; [exact Hbs | exact Hb].
  - exact (Hfresh b (or_intror Hb) Hbs).
Qed.

Lemma removeDuplicatesBy_spec (l : list A) :
  let unique := removeDuplicatesBy plan_of l in
  NoDup (List.map sig_of unique)
  /\ sublist unique l
  /\ (forall a, In a l -> In (sig_of a) (List.map sig_of unique))
  /\ head unique = head l
  /\ removeDuplicatesBy plan_of unique = unique.
Proof.
  cbv zeta. unfold removeDuplicatesBy. cbv zeta.
  destruct (dedup_fold l ∅ []) as (new & E & Hsub & Hnd & Hfresh & Hall & Hhd).
  rewrite E. cbn [snd app]. repeat split; auto.
  - intros a Ha. destruct (Hall a Ha) as [H|H]; [set_solver | exact H].
  - destruct l as [|a l]; [now apply sublist_nil_r in Hsub as ->|].
    apply Hhd. set_solver.
  - rewrite dedup_fold_distinct; [reflexivity | exact Hnd | set_solver].
Qed.

(** What has been collected so far does not influence what the loop
    adds. *)
Lemma dedup_fold_unique (l : list A) :
  forall (seen : gset string) (unique : list A),
    snd (fold_left dedup_step l (seen, unique))
    = (unique ++ snd (fold_left dedup_step l (seen, [])))%list.
Proof.
  induction l as [|a l IH]; intros seen unique; cbn [fold_left].
  { cbn [snd]. now rewrite app_nil_r. }
  destruct (decide (getPlanSignature (plan_of a) ∈ seen)) as [Hin|Hnin];
    [apply IH|].
  rewrite (IH _ (unique ++ [a])%list), (IH _ ([] ++ [a])%list).
  now rewrite <- app_assoc.
Qed.

(** A signature that has been seen can as well be taken out of the list
    beforehand. *)
Lemma dedup_fold_seen (s : string) (l : list A) :
  forall (seen seen' : gset string) (unique : list A),
    (forall x, x ∈ seen' <-> x = s \/ x ∈ seen) ->
    snd (fold_left dedup_step l (seen', unique))
    = snd (fold_left dedup_step
             (List.filter (fun a => negb (String.eqb (sig_of a) s)) l)
             (seen, unique)).
Proof.
  induction l as [|a l IH]; intros seen seen' unique Hseen;
    cbn [fold_left List.filter]; [reflexivity|].
  cbv beta.
  destruct (String.eqb_spec (getPlanSignature (plan_of a)) s) as [E|Hne];
    cbn [negb].
  - destruct (decide (getPlanSignature (plan_of a) ∈ seen')) as [_|Hnin];
      [now apply IH|].
    destruct Hnin. apply Hseen. now left.
  - cbn [fold_left].
    destruct (decide (getPlanSignature (plan_of a) ∈ seen')) as [Hin|Hnin];
      destruct (decide (getPlanSignature (plan_of a) ∈ seen)) as [Hin'|Hnin'].
    + now apply IH.
    + apply Hseen in Hin as [?|?]; contradiction.
    + destruct Hnin. apply Hseen. now right.
    + apply IH. intros x. rewrite !elem_of_union, !elem_of_singleton, Hseen.
      tauto.
Qed.

Lemma removeDuplicatesBy_cons (a : A) (l : list A) :
  removeDuplicatesBy plan_of (a :: l)
  = a :: removeDuplicatesBy plan_of
           (List.filter (fun b => negb (String.eqb (sig_of b) (sig_of a))) l).
Proof.
  unfold removeDuplicatesBy. cbn [fold_left].
  destruct (decide (getPlanSignature (plan_of a) ∈ (∅ : gset string)))
    as [Hin|_]; [set_solver|].
  rewrite dedup_fold_unique. cbn [app]. f_equal.
  apply dedup_fold_seen. intros x.
  rewrite elem_of_union, elem_of_singleton. tauto.
Qed.

End Duplicates.

Section EnumeratorTables.

Import enumerator plan_enumerator.

(** X19.  [removeDuplicatePlans] keeps, in their order, the first plan
    of every plan signature.  Of an empty list it keeps nothing; of a
    list that starts with [plan] it keeps [plan], followed by what it
    keeps of the later plans whose signature is not that of [plan]:
    this fixes the list it returns.  So the plans it returns have
    pairwise distinct signatures and form a subsequence of the input,
    every signature of the input is the signature of a plan kept, the
    first plan of the input is the first plan kept, and removing
    duplicates a second time changes nothing. *)
Theorem removeDuplicatePlans_keeps_first (plans : list LogicalPlan) :
  let unique := removeDuplicatePlans plans in
  NoDup (List.map getPlanSignature unique)
  /\ sublist unique plans
  /\ (forall plan, In plan plans ->
        exists kept, In kept unique
                     /\ getPlanSignature kept = getPlanSignature plan)
  /\ head unique = head plans
  /\ removeDuplicatePlans unique = unique
  /\ removeDuplicatePlans [] = []
  /\ forall plan later,
       removeDuplicatePlans (plan :: later)
       = plan :: removeDuplicatePlans
                   (List.filter
                      (fun other => negb (String.eqb (getPlanSignature other)
                                                     (getPlanSignature plan)))
                      later).
Proof.
  destruct (removeDuplicatesBy_spec (fun plan => plan) plans)
    as (H1 & H2 & H3 & H4 & H5).
  cbv zeta. unfold removeDuplicatePlans.
  split; [exact H1|]. split; [exact H2|]. split.
  { intros plan Hin. apply H3, in_map_iff in Hin as (kept & E & Hk). eauto. }
  split; [exact H4|]. split; [exact H5|]. split; [reflexivity|].
  intros plan later. apply (removeDuplicatesBy_cons (fun plan => plan)).
Qed.

Lemma extractTables_fold (cs : list LogicalPlan) :
  Forall (fun c => forall tables,
            NoDup tables ->
            exists new,
              extractTablesRecursive c (tables, list_to_set tables)
              = ((tables ++ new)%list, list_to_set (tables ++ new))
              /\ NoDup (tables ++ new)
              /\ sublist new (scan_tables c)
              /\ forall t, In t (tables ++ new) <->
                           In t tables \/ (t <> "" /\ In t (scan_tables c))) cs ->
  forall tables,
    NoDup tables ->
    exists new,
      fold_left (fun acc child => extractTablesRecursive child acc) cs
                (tables, list_to_set tables)
      = ((tables ++ new)%list, list_to_set (tables ++ new))
      /\ NoDup (tables ++ new)
      /\ sublist new (flat_map scan_tables cs)
      /\ forall t, In t (tables ++ new) <->
                   In t tables \/ (t <> "" /\ In t (flat_map scan_tables cs)).
Proof.
  induction 1 as [|c cs Hc _ IH]; intros tables Hnd.
  { exists []. simpl. rewrite app_nil_r. repeat split; auto using sublist_nil;
      tauto. }
  destruct (Hc tables Hnd) as (new1 & E1 & Hnd1 & Hsub1 & Hin1).
  destruct (IH (tables ++ new1)%list Hnd1) as (new2 & E2 & Hnd2 & Hsub2 & Hin2).
  exists (new1 ++ new2)%list. cbn [fold_left flat_map]. rewrite E1, E2.
  rewrite !app_assoc. repeat split; auto.
  - now apply sublist_app.
  - rewrite Hin2, Hin1, in_app_iff. tauto.
  - rewrite Hin2, Hin1, in_app_iff. tauto.
Qed.

Lemma extractTablesRecursive_spec plan :
  forall tables,
    NoDup tables ->
    exists new,
      extractTablesRecursive plan (tables, list_to_set tables)
      = ((tables ++ new)%list, list_to_set (tables ++ new))
      /\ NoDup (tables ++ new)
      /\ sublist new (scan_tables plan)
      /\ forall t, In t (tables ++ new) <->
                   In t tables \/ (t <> "" /\ In t (scan_tables plan)).
Proof.
  induction plan as [plan IH] using LogicalPlan_tree_ind. intros tables Hnd.
  pose proof (extractTables_fold _ IH) as Hfold.
  destruct plan as [id nt cs tn al pr pj jt jc gb ag ob lc oc er ec md].
  cbn [extractTablesRecursive scan_tables lp_NodeType lp_TableName lp_Children]
    in *.
  destruct (String.eqb nt NodeTypeScan) eqn:Hnt; cbn [andb].
  2:{ destruct (Hfold tables Hnd) as (new & E & H1 & H2 & H3).
      exists new. rewrite E. repeat split; auto; apply H3. }
  destruct (String.eqb_spec tn "") as [->|Hne]; cbn [negb].
  { destruct (Hfold tables Hnd) as (new & E & H1 & H2 & H3).
    exists new. rewrite E. split; [reflexivity|]. split; [exact H1|].
    split; [now apply sublist_cons|].
    intros t. rewrite H3, in_app_iff. simpl. intuition congruence. }
  destruct (decide (tn ∈ list_to_set tables)) as [Hseen|Hnew].
  { destruct (Hfold tables Hnd) as (new & E & H1 & H2 & H3).
    exists new. rewrite E. split; [reflexivity|]. split; [exact H1|].
    split; [now apply sublist_cons|].
    apply elem_of_list_to_set, list_elem_of_In in Hseen.
    intros t. rewrite H3, in_app_iff. simpl.
    intuition (subst; auto). }
  assert (Hnd' : NoDup (tables ++ [tn])).
  { apply NoDup_app. repeat split; [exact Hnd | | apply NoDup_singleton].
    intros x Hx Hx'. apply list_elem_of_singleton in Hx'. subst x.
    apply Hnew. now apply elem_of_list_to_set. }
  assert (Hset : ({[tn]} ∪ list_to_set tables : gset string)
                 = list_to_set (tables ++ [tn])).
  { rewrite list_to_set_app_L. cbn [list_to_set].
    rewrite union_empty_r_L. apply union_comm_L. }
  rewrite Hset.
  destruct (Hfold (tables ++ [tn])%list Hnd') as (new & E & H1 & H2 & H3).
  exists (tn :: new). rewrite E.
  replace (tables ++ tn :: new)%list with ((tables ++ [tn]) ++ new)%list
    by now rewrite <- app_assoc.
  split; [reflexivity|]. split; [exact H1|].
  split; [now apply sublist_skip|].
  intros t. rewrite H3, !in_app_iff. simpl.
  intuition (subst; auto).
Qed.

Lemma planContainsTable_spec plan tableName :
  planContainsTable plan tableName = true <-> In tableName (scan_tables plan).
Proof.
  induction plan as [plan IH] using LogicalPlan_tree_ind.
  destruct plan as [id nt cs tn al pr pj jt jc gb ag ob lc oc er ec md].
  cbn [planContainsTable scan_tables lp_NodeType lp_TableName lp_Children] in *.
  assert (Hkids : existsb (fun child => planContainsTable child tableName) cs
                  = true <-> In tableName (flat_map scan_tables cs)).
  { rewrite existsb_exists, in_flat_map. rewrite List.Forall_forall in IH.
    split; intros (c & Hc & H); exists c; (split; [exact Hc|]);
      now apply (IH c Hc). }
  rewrite in_app_iff, <- Hkids.
  destruct (String.eqb nt NodeTypeScan); cbn [andb].
  - destruct (String.eqb_spec tn tableName) as [->|Hne]; simpl; [tauto|].
    split; [tauto | intros [[E|[]]|H]; [contradiction | exact H]].
  - simpl. tauto.
Qed.

(** The traversal, on the table names of the Scan nodes from left to
    right. *)
Abbreviation add_table :=
  (fun (tables : list string) (t : string) =>
     if String.eqb t "" then tables
     else if decide (t ∈ (list_to_set tables : gset string)) then tables
          else (tables ++ [t])%list).

Lemma extractTablesRecursive_fold plan :
  forall tables,
    extractTablesRecursive plan (tables, list_to_set tables)
    = (fold_left add_table (scan_tables plan) tables,
       list_to_set (fold_left add_table (scan_tables plan) tables)).
Proof.
  induction plan as [plan IH] using LogicalPlan_tree_ind. intros tables.
  assert (Hfold : forall cs, Forall (fun c => forall tables,
              extractTablesRecursive c (tables, list_to_set tables)
              = (fold_left add_table (scan_tables c) tables,
                 list_to_set (fold_left add_table (scan_tables c) tables))) cs ->
            forall tables,
              fold_left (fun acc child => extractTablesRecursive child acc) cs
                        (tables, list_to_set tables)
              = (fold_left add_table (flat_map scan_tables cs) tables,
                 list_to_set
                   (fold_left add_table (flat_map scan_tables cs) tables))).
  { induction 1 as [|c cs Hc _ IHcs]; intros ts; [reflexivity|].
    cbn [fold_left flat_map]. rewrite Hc, IHcs, fold_left_app. reflexivity. }
  specialize (Hfold _ IH). clear IH.
  destruct plan as [id nt cs tn al pr pj jt jc gb ag ob lc oc er ec md].
  cbn [extractTablesRecursive scan_tables lp_NodeType lp_TableName lp_Children]
    in *.
  destruct (String.eqb nt NodeTypeScan) eqn:Hnt; cbn [andb app];
    [|apply Hfold].
  cbn [fold_left]. cbv beta.
  destruct (String.eqb_spec tn "") as [->|Hne]; cbn [negb]; [apply Hfold|].
  destruct (decide (tn ∈ (list_to_set tables : gset string))) as [Hseen|Hnew];
    [apply Hfold|].
  rewrite <- Hfold. do 2 f_equal.
  rewrite list_to_set_app_L. cbn [list_to_set].
  rewrite union_empty_r_L. apply union_comm_L.
Qed.

(** Where a name stands in the list that the traversal builds. *)
Lemma add_table_order (scans : list string) :
  forall tables,
    exists new,
      fold_left add_table scans tables = (tables ++ new)%list
      /\ forall l1 t l2,
           new = (l1 ++ t :: l2)%list ->
           exists s1 s2,
             scans = (s1 ++ t :: s2)%list
             /\ ~ In t s1 /\ ~ In t tables /\ t <> ""
             /\ forall u, In u l1 <-> u <> "" /\ In u s1 /\ ~ In u tables.
Proof.
  induction scans as [|a scans IH]; intros tables; cbn [fold_left].
  { exists []. split; [now rewrite app_nil_r|].
    intros [|? ?] ? ? E; discriminate E. }
  cbv beta.
  assert (Hskip : a = "" \/ In a tables ->
            exists new,
              fold_left add_table scans tables = (tables ++ new)%list
              /\ forall l1 t l2,
                   new = (l1 ++ t :: l2)%list ->
                   exists s1 s2,
                     a :: scans = (s1 ++ t :: s2)%list
                     /\ ~ In t s1 /\ ~ In t tables /\ t <> ""
                     /\ forall u, In u l1 <->
                                  u <> "" /\ In u s1 /\ ~ In u tables).
  { intros Ha. destruct (IH tables) as (new & E & Hpos). exists new.
    split; [exact E|]. intros l1 t l2 Hnew.
    destruct (Hpos l1 t l2 Hnew) as (s1 & s2 & Es & Ht1 & Ht2 & Ht3 & Hu).
    exists (a :: s1), s2. rewrite Es. split; [reflexivity|].
    assert (Hne : a <> t) by (intros <-; destruct Ha; contradiction).
    split; [intros [?|?]; contradiction|]. do 2 (split; [assumption|]).
    intros u. rewrite Hu. cbn [In]. split; [tauto|].
    intros (Hu1 & [<-|Hu2] & Hu3); [destruct Ha; contradiction | tauto]. }
  destruct (String.eqb_spec a "") as [Ha|Hne]; [apply Hskip; now left|].
  destruct (decide (a ∈ (list_to_set tables : gset string))) as [Hseen|Hnew].
  { apply Hskip. right. now apply elem_of_list_to_set, list_elem_of_In in Hseen. }
  assert (Hnin : ~ In a tables).
  { intros Hin. apply Hnew, elem_of_list_to_set, list_elem_of_In, Hin. }
  clear Hskip Hnew.
  destruct (IH (tables ++ [a])%list) as (new & E & Hpos). exists (a :: new).
  split; [now rewrite E, <- app_assoc|].
  intros [|b l1] t l2 Hnew; cbn [app] in Hnew; injection Hnew as <- Hnew.
  { exists [], scans. split; [reflexivity|]. cbn [In]. tauto. }
  destruct (Hpos l1 t l2 Hnew) as (s1 & s2 & Es & Ht1 & Ht2 & Ht3 & Hu).
  rewrite in_app_iff in Ht2. cbn [In] in Ht2.
  exists (a :: s1), s2. rewrite Es. split; [reflexivity|].
  split; [cbn [In]; tauto|]. split; [tauto|]. split; [assumption|].
  intros u. cbn [In]. rewrite Hu, in_app_iff. cbn [In].
  destruct (string_dec a u) as [<-|Hau]; tauto.
Qed.

(** X20.  The table list the enumerator works from: [extractTables]
    returns the non-empty table names of the Scan nodes of the plan,
    each once, in the order of their first Scan from left to right: the
    names that stand before a name [t] in the list are the non-empty
    names of the Scan nodes before the first Scan of [t], which fixes
    the list.  And [planContainsTable] holds exactly for the table
    names of the Scan nodes of the plan. *)
Theorem extractTables_lists_scan_tables (plan : LogicalPlan) :
  NoDup (extractTables plan)
  /\ sublist (extractTables plan) (scan_tables plan)
  /\ (forall t, In t (extractTables plan)
                <-> t <> "" /\ In t (scan_tables plan))
  /\ (forall t, planContainsTable plan t = true <-> In t (scan_tables plan))
  /\ forall before t after,
       extractTables plan = (before ++ t :: after)%list ->
       exists scans_before scans_after,
         scan_tables plan = (scans_before ++ t :: scans_after)%list
         /\ ~ In t scans_before
         /\ forall u, In u before <-> u <> "" /\ In u scans_before.
Proof.
  split; [|split; [|split; [|split]]].
  5:{ unfold extractTables.
      change (∅ : gset string) with (list_to_set (@nil string) : gset string).
      rewrite extractTablesRecursive_fold. cbn [fst].
      destruct (add_table_order (scan_tables plan) []) as (new & E & Hpos).
      rewrite E. cbn [app]. intros before t after Hnew.
      destruct (Hpos before t after Hnew) as (s1 & s2 & Es & Ht1 & _ & _ & Hu).
      exists s1, s2. split; [exact Es|]. split; [exact Ht1|].
      intros u. rewrite Hu. cbn [In]. tauto. }
  4:{ intros t. apply planContainsTable_spec. }
  all: unfold extractTables;
    destruct (extractTablesRecursive_spec plan [] (NoDup_nil_2 (A:=string)))
      as (new & E & H1 & H2 & H3);
    cbn [list_to_set app] in E; rewrite E; cbn [fst app] in *.
  - exact H1.
  - exact H2.
  - intros t. rewrite H3. cbn [In]. tauto.
Qed.

End EnumeratorTables.

Section PhysicalAlternatives.

Import enumerator plan_enumerator.

Variable pe : PlanEnumerator.

Lemma same_signature_dedup {A} (plan_of : A -> LogicalPlan) (a : A) (l : list A) :
  Forall (fun b => getPlanSignature (plan_of b) = getPlanSignature (plan_of a)) l ->
  removeDuplicatesBy plan_of (a :: l) = [a].
Proof.
  intros Hall.
  destruct (removeDuplicatesBy_spec plan_of (a :: l))
    as (Hnd & Hsub & _ & Hhead & _).
  destruct (removeDuplicatesBy plan_of (a :: l)) as [|a' [|b u]];
    cbn [head] in Hhead; try discriminate.
  - congruence.
  - exfalso. injection Hhead as ->.
    assert (Hb : b ∈ a :: l).
    { eapply sublist_submseteq, elem_of_submseteq in Hsub; [exact Hsub|].
      apply list_elem_of_further, list_elem_of_here. }
    cbn [List.map] in Hnd. apply NoDup_cons in Hnd as [Hnot _].
    apply Hnot. apply elem_of_cons in Hb as [->|Hb].
    + apply list_elem_of_here.
    + rewrite List.Forall_forall in Hall.
      rewrite <- (Hall b); [apply list_elem_of_here|].
      now apply list_elem_of_In.
Qed.

Lemma set_Metadata_signature md p :
  getPlanSignature (set_Metadata md p) = getPlanSignature p.
Proof. now destruct p. Qed.

Lemma withMetadata_spec planCopy entries st :
  exists alt st',
    withMetadata planCopy entries st = Done alt st'
    /\ getPlanSignature (alternative alt) = getPlanSignature planCopy.
Proof.
  unfold withMetadata, bind.
  destruct (Clone_total planCopy st) as (alt & st' & E). rewrite E.
  eexists _, _. split; [reflexivity|]. cbn [alternative].
  rewrite set_Metadata_signature. eapply Clone_signature; eauto.
Qed.

Ltac with_metadata planCopy st :=
  match goal with
  | |- context [withMetadata planCopy ?entries st] =>
      let alt := fresh "alt" in
      let st' := fresh "st" in
      let E := fresh "E" in
      let S := fresh "S" in
      destruct (withMetadata_spec planCopy entries st) as (alt & st' & E & S);
      rewrite E
  end.

Lemma operatorAlternatives_spec plan planCopy st :
  exists operators st',
    operatorAlternatives pe plan planCopy st = Done operators st'
    /\ Forall (fun alt => getPlanSignature (alternative alt)
                          = getPlanSignature planCopy) operators.
Proof.
  unfold operatorAlternatives.
  repeat match goal with
         | |- context [if ?b then _ else _] => destruct b
         end; unfold bind, ret.
  - with_metadata planCopy st. with_metadata planCopy st0.
    with_metadata planCopy st1. eexists _, _. split; [reflexivity|].
    repeat constructor; assumption.
  - with_metadata planCopy st. with_metadata planCopy st0.
    eexists _, _. split; [reflexivity|]. repeat constructor; assumption.
  - with_metadata planCopy st. with_metadata planCopy st0.
    eexists _, _. split; [reflexivity|]. repeat constructor; assumption.
  - with_metadata planCopy st.
    destruct (catalog.GetTable _ _) as [table|?].
    + destruct (catalog.Indexes table) as [|index ?].
      * eexists _, _. split; [reflexivity|]. repeat constructor; assumption.
      * unfold bind. with_metadata planCopy st0.
        eexists _, _. split; [reflexivity|]. repeat constructor; assumption.
    + eexists _, _. split; [reflexivity|]. repeat constructor; assumption.
  - eexists _, _. split; [reflexivity|]. constructor.
Qed.

(** When the alternatives of every child are the child alone, the loop
    over the children leaves the alternatives as they are. *)
Lemma children_loop_keeps (cs : list LogicalPlan) :
  Forall (fun c => forall st, exists st',
            physicalAlternatives pe c st = Done [mkAlternative true c] st') cs ->
  forall (acc : M (nat * list Alternative)) i alternatives,
    (forall st, exists st', acc st = Done (i, alternatives) st') ->
    forall st, exists st',
      fold_left
        (fun (acc : M (nat * list Alternative)) child =>
           a <- acc ;;
           let '(i, alternatives) := a in
           childAlternatives <- physicalAlternatives pe child ;;
           alternatives <-
             fold_left
               (fun (acc : M (list Alternative)) childAlt =>
                  alternatives <- acc ;;
                  if is_argument childAlt then ret alternatives
                  else graft i (alternative childAlt) alternatives)
               childAlternatives (ret alternatives) ;;
           ret (S i, alternatives))
        cs acc st
      = Done ((i + length cs)%nat, alternatives) st'.
Proof.
  induction 1 as [|c cs Hc _ IH]; intros acc i alternatives Hacc st.
  - cbn [fold_left length]. rewrite Nat.add_0_r. apply Hacc.
  - cbn [fold_left length]. rewrite <- Nat.add_succ_comm.
    apply IH. intros st0. unfold bind.
    destruct (Hacc st0) as (st1 & ->). destruct (Hc st1) as (st2 & ->).
    cbn [fold_left is_argument]. unfold ret, bind. eauto.
Qed.

Lemma physicalAlternatives_unfold plan :
  physicalAlternatives pe plan
  = (planCopy <- Clone plan ;;
     operators <- operatorAlternatives pe plan planCopy ;;
     r <- fold_left
            (fun (acc : M (nat * list Alternative)) child =>
               a <- acc ;;
               let '(i, alternatives) := a in
               childAlternatives <- physicalAlternatives pe child ;;
               alternatives <-
                 fold_left
                   (fun (acc : M (list Alternative)) childAlt =>
                      alternatives <- acc ;;
                      if is_argument childAlt then ret alternatives
                      else graft i (alternative childAlt) alternatives)
                   childAlternatives (ret alternatives) ;;
               ret (S i, alternatives))
            (lp_Children plan) (ret (O, mkAlternative true plan :: operators)) ;;
     ret (removeDuplicatesBy alternative (snd r))).
Proof. now destruct plan. Qed.

Lemma physicalAlternatives_spec plan :
  forall st, exists st',
    physicalAlternatives pe plan st = Done [mkAlternative true plan] st'.
Proof.
  induction plan as [plan IH] using LogicalPlan_tree_ind. intros st.
  pose proof (children_loop_keeps _ IH) as Hloop.
  rewrite physicalAlternatives_unfold. unfold bind at 1.
  destruct (Clone_total plan st) as (planCopy & st1 & E1). rewrite E1.
  unfold bind at 1.
  destruct (operatorAlternatives_spec plan planCopy st1)
    as (operators & st2 & E2 & Hops). rewrite E2.
  unfold bind at 1.
  destruct (Hloop (ret (O, mkAlternative true plan :: operators)) O
              (mkAlternative true plan :: operators)
              (fun st => ex_intro _ st eq_refl) st2) as (st3 & E3).
  rewrite E3. unfold ret. cbn [snd].
  exists st3. f_equal. apply same_signature_dedup.
  eapply Forall_impl; [exact Hops|]. cbn beta. intros alt ->.
  cbn [alternative]. eapply Clone_signature; eauto.
Qed.

(** X21.  [generatePhysicalAlternatives] returns the plan it is given
    and nothing else, whatever the plan, the catalog and the id counter
    are: every alternative it builds for a Join, Aggregate, Sort or
    Scan node is a clone of the plan with one more metadata entry, so
    has the signature of the plan, and [removeDuplicatePlans] keeps the
    first plan of a signature only; the alternatives of a child being
    the child itself, nothing is grafted either. *)
Theorem generatePhysicalAlternatives_returns_the_plan
    (plan : LogicalPlan) (idCounter : Z) :
  exists idCounter',
    generatePhysicalAlternatives pe plan idCounter = Done [plan] idCounter'.
Proof.
  unfold generatePhysicalAlternatives, bind.
  destruct (physicalAlternatives_spec plan idCounter) as (st' & ->).
  now exists st'.
Qed.

End PhysicalAlternatives.

Section FloatOrder.

Lemma SFltb_trans x y z :
  SFltb x y = true -> SFltb y z = true -> SFltb x z = true.
Proof.
  unfold SFltb, SFcompare.
  destruct x as [| [|] | | [|] m1 e1], y as [| [|] | | [|] m2 e2],
           z as [| [|] | | [|] m3 e3];
    try discriminate; try reflexivity;
    change (Pos.compare_cont Eq m1 m2) with (Pos.compare m1 m2);
    change (Pos.compare_cont Eq m2 m3) with (Pos.compare m2 m3);
    change (Pos.compare_cont Eq m1 m3) with (Pos.compare m1 m3);
    destruct (Z.compare_spec e1 e2), (Z.compare_spec e2 e3),
             (Z.compare_spec e1 e3);
    try discriminate; try reflexivity; try lia;
    destruct (Pos.compare_spec m1 m2), (Pos.compare_spec m2 m3),
             (Pos.compare_spec m1 m3);
    simpl; try discriminate; try reflexivity; try lia.
Qed.

Lemma float_ltb_trans (x y z : float) :
  (x <? y)%float = true -> (y <? z)%float = true -> (x <? z)%float = true.
Proof. rewrite !ltb_spec. apply SFltb_trans. Qed.

(** Once [y] has gone below [z], what was not below [z] is not below
    [y]. *)
Lemma float_not_ltb_below (x y z : float) :
  (x <? z)%float = false -> (y <? z)%float = true -> (x <? y)%float = false.
Proof.
  intros Hxz Hyz. destruct (x <? y)%float eqn:Hxy; [|reflexivity].
  rewrite (float_ltb_trans _ _ _ Hxy Hyz) in Hxz. discriminate.
Qed.

End FloatOrder.

Section Selection.

Import enumerator plan_enumerator.

Variable pe : PlanEnumerator.

Abbreviation cost_of :=
  (fun plan : LogicalPlan =>
     optimizer.EstimateCost (costModel pe) plan (catalogMgr pe)).

(** The state of the loop of [selectBestPlan] after the plans [done]. *)
Let selected (done : list LogicalPlan) (s : Selection) : Prop :=
  evaluatedCount s = Z.of_nat (length done)
  /\ (forall plan, In plan done ->
        exists cost, cost_of plan = Ret cost
                     /\ (cost_model.TotalCost cost <? bestCost s)%float = false)
  /\ match bestPlan s with
     | None => bestCost s = infinity
     | Some best =>
         In best done
         /\ exists cost, cost_of best = Ret cost
                         /\ bestCost s = cost_model.TotalCost cost
                         /\ (cost_model.TotalCost cost <? infinity)%float = true
     end.

Lemma selectStep_break s plan :
  maxPlans pe <= evaluatedCount s -> selectStep pe s plan = Ret s.
Proof.
  intros H. unfold selectStep.
  now destruct (Z.leb_spec (maxPlans pe) (evaluatedCount s)); [|lia].
Qed.

Lemma selectStep_evaluates s plan cost :
  evaluatedCount s < maxPlans pe ->
  cost_of plan = Ret cost ->
  selectStep pe s plan
  = Ret (if (cost_model.TotalCost cost <? bestCost s)%float
         then mkSelection (Some plan) (cost_model.TotalCost cost)
                          (evaluatedCount s + 1)
         else mkSelection (bestPlan s) (bestCost s) (evaluatedCount s + 1)).
Proof.
  intros H Hcost. unfold selectStep.
  destruct (Z.leb_spec (maxPlans pe) (evaluatedCount s)); [lia|].
  rewrite Hcost. cbn [obind].
  now destruct (cost_model.TotalCost cost <? bestCost s)%float.
Qed.

Lemma selectStep_selected done s plan :
  selected done s ->
  evaluatedCount s < maxPlans pe ->
  match selectStep pe s plan with
  | Ret s' => selected (done ++ [plan]) s'
  | Panic => cost_of plan = Panic
  end.
Proof.
  intros (Hcount & Hall & Hbest) Hlt. unfold selectStep.
  destruct (Z.leb_spec (maxPlans pe) (evaluatedCount s)) as [?|_]; [lia|].
  destruct (optimizer.EstimateCost _ _ _) as [cost|] eqn:Hcost;
    cbn [obind]; [|reflexivity].
  destruct (cost_model.TotalCost cost <? bestCost s)%float eqn:Hlow;
    unfold selected; cbn [bestPlan bestCost evaluatedCount];
    rewrite length_app, Nat2Z.inj_add; cbn [length];
    (split; [lia|]); split.
  - intros p [Hp|[<-|[]]]%in_app_iff.
    + destruct (Hall p Hp) as (c & Hc & Hn). exists c. split; [exact Hc|].
      eapply float_not_ltb_below; eauto.
    + exists cost. split; [exact Hcost | apply float_ltb_irrefl].
  - split; [apply in_app_iff; right; now left|].
    exists cost. repeat split; auto.
    destruct (bestPlan s) as [best|].
    + destruct Hbest as (_ & c & _ & Hc & Hinf). rewrite Hc in Hlow.
      eapply float_ltb_trans; eauto.
    + now rewrite Hbest in Hlow.
  - intros p [Hp|[<-|[]]]%in_app_iff; eauto.
  - destruct (bestPlan s) as [best|]; [|exact Hbest].
    destruct Hbest as (Hin & Hc). split; [|exact Hc].
    apply in_app_iff. now left.
Qed.

Lemma selectLoop_selected plans :
  forall done s,
    selected done s ->
    let todo := firstn (Z.to_nat (maxPlans pe - evaluatedCount s)) plans in
    match selectLoop pe plans s with
    | Ret s' => selected (done ++ todo) s'
    | Panic => exists plan, In plan todo /\ cost_of plan = Panic
    end.
Proof.
  induction plans as [|plan plans IH]; intros done s Hs; cbv zeta.
  - rewrite firstn_nil, app_nil_r. exact Hs.
  - cbn [selectLoop].
    destruct (Z.leb_spec (maxPlans pe) (evaluatedCount s)) as [Hge|Hlt].
    + assert (Z.to_nat (maxPlans pe - evaluatedCount s) = O) as E by lia.
      specialize (IH done s Hs). cbv zeta in IH. rewrite E in *.
      cbn [firstn] in *. unfold selectStep.
      destruct (Z.leb_spec (maxPlans pe) (evaluatedCount s)); [|lia].
      exact IH.
    + pose proof (selectStep_selected done s plan Hs Hlt) as Hstep.
      assert (Z.to_nat (maxPlans pe - evaluatedCount s)
              = S (Z.to_nat (maxPlans pe - (evaluatedCount s + 1)))) as E by lia.
      rewrite E. cbn [firstn].
      destruct (selectStep pe s plan) as [s'|]; cbn [obind].
      * specialize (IH _ s' Hstep). cbv zeta in IH.
        assert (evaluatedCount s' = evaluatedCount s + 1) as E'.
        { destruct Hstep as (-> & _). destruct Hs as (-> & _).
          rewrite length_app, Nat2Z.inj_add. reflexivity. }
        rewrite E' in IH.
        destruct (selectLoop pe plans s') as [s''|].
        -- now rewrite <- app_assoc in IH.
        -- destruct IH as (p & Hp & Hc). exists p. split; [now right|exact Hc].
      * exists plan. split; [now left|exact Hstep].
Qed.

Lemma selectBestPlan_spec
    (plans : list LogicalPlan) (strategy : string) :
  let evaluated := firstn (Z.to_nat (maxPlans pe)) plans in
  match selectBestPlan pe plans strategy with
  | Panic => exists plan, In plan evaluated /\ cost_of plan = Panic
  | Ret (inr err) =>
      (plans = [] /\ err = "no plans to evaluate")
      \/ (plans <> [] /\ err = "no valid plan found"
          /\ forall plan, In plan evaluated ->
               exists cost,
                 cost_of plan = Ret cost
                 /\ (cost_model.TotalCost cost <? infinity)%float = false)
  | Ret (inl result) =>
      In (BestPlan result) evaluated
      /\ (exists cost, cost_of (BestPlan result) = Ret cost
                       /\ BestCost result = cost_model.TotalCost cost)
      /\ (BestCost result <? infinity)%float = true
      /\ (forall plan, In plan evaluated ->
            exists cost,
              cost_of plan = Ret cost
              /\ (cost_model.TotalCost cost <? BestCost result)%float = false)
      /\ AllPlans result = plans
      /\ PlanCount result = Z.of_nat (length plans)
      /\ EnumStrategy result = strategy
      /\ PlansEvaluated (PruningStats result) = Z.of_nat (length evaluated)
  end.
Proof.
  cbv zeta. unfold selectBestPlan.
  destruct plans as [|plan0 plans0]; [now left|].
  set (plans := plan0 :: plans0).
  assert (Hinit : selected [] (mkSelection None infinity 0)).
  { repeat split. intros p []. }
  pose proof (selectLoop_selected plans [] _ Hinit) as Hloop.
  cbv zeta in Hloop. cbn [evaluatedCount app] in Hloop.
  rewrite Z.sub_0_r in Hloop.
  destruct (selectLoop pe plans _) as [s|]; cbn [obind]; [|exact Hloop].
  destruct Hloop as (Hcount & Hall & Hbest).
  destruct (bestPlan s) as [best|].
  - destruct Hbest as (Hin & cost & Hc & Hb & Hinf).
    cbn [BestPlan BestCost AllPlans PlanCount EnumStrategy PruningStats
         PlansEvaluated].
    rewrite <- Hb in Hinf. repeat split; eauto.
  - right. repeat split; [discriminate|].
    intros p Hp. destruct (Hall p Hp) as (c & Hc & Hn).
    exists c. now rewrite <- Hbest.
Qed.

(** X22.  [selectBestPlan] returns the cheapest of the plans it
    evaluates, the first [maxPlans] plans of the list, for a cost model
    that returns no error: the best plan is one of them, the best cost
    is its estimated total cost, it is below +infinity, and no evaluated
    plan has a total cost below it; all plans, their number, the strategy and the number of
    evaluated plans are reported as they are.  It fails with
    [no plans to evaluate] on the empty list only, and with
    [no valid plan found] exactly when no evaluated plan has a total
    cost below +infinity; a panic of the call is a panic of the cost
    model on one of the evaluated plans. *)
Theorem selectBestPlan_picks_cheapest
    (plans : list LogicalPlan) (strategy : string) :
  let evaluated := firstn (Z.to_nat (maxPlans pe)) plans in
  match selectBestPlan pe plans strategy with
  | Panic => exists plan, In plan evaluated /\ cost_of plan = Panic
  | Ret (inr err) =>
      (plans = [] /\ err = "no plans to evaluate")
      \/ (plans <> [] /\ err = "no valid plan found"
          /\ forall plan, In plan evaluated ->
               exists cost,
                 cost_of plan = Ret cost
                 /\ (cost_model.TotalCost cost <? infinity)%float = false)
  | Ret (inl result) =>
      In (BestPlan result) evaluated
      /\ (exists cost, cost_of (BestPlan result) = Ret cost
                       /\ BestCost result = cost_model.TotalCost cost)
      /\ (BestCost result <? infinity)%float = true
      /\ (forall plan, In plan evaluated ->
            exists cost,
              cost_of plan = Ret cost
              /\ (cost_model.TotalCost cost <? BestCost result)%float = false)
      /\ AllPlans result = plans
      /\ PlanCount result = Z.of_nat (length plans)
      /\ EnumStrategy result = strategy
      /\ PlansEvaluated (PruningStats result) = Z.of_nat (length evaluated)
  end.
Proof. exact (selectBestPlan_spec plans strategy). Qed.

End Selection.

Section SingleTable.

Import enumerator plan_enumerator.

Variable pe : PlanEnumerator.
Variables enumerateWithDP enumerateWithGreedy
  : LogicalPlan -> list string -> M (EnumerationResult + error).

(** X23.  [EnumeratePlans] on a plan that scans at most one table: the
    physical alternatives being the plan alone, the plan is evaluated
    against itself and comes back as the best plan, with its estimated
    total cost, two plans counted, and the strategy [single_table];
    when its total cost is not below +infinity, or [maxPlans] is not
    positive, the call fails with [no valid plan found]. *)
Theorem EnumeratePlans_single_table
    (plan : LogicalPlan) (cost : cost_model.CostEstimate) (idCounter : Z) :
  (length (extractTables plan) <= 1)%nat ->
  optimizer.EstimateCost (costModel pe) plan (catalogMgr pe) = Ret cost ->
  exists idCounter',
    EnumeratePlans pe enumerateWithDP enumerateWithGreedy (Some plan) idCounter
    = Done (if (0 <? maxPlans pe)
               && (cost_model.TotalCost cost <? infinity)%float
            then inl {| BestPlan := plan;
                        AllPlans := [plan; plan];
                        PlanCount := 2;
                        BestCost := cost_model.TotalCost cost;
                        EnumStrategy := "single_table";
                        SearchSpace := 2;
                        PruningStats :=
                          {| PlansGenerated := 2;
                             PlansPruned := 0;
                             PlansEvaluated := Z.min 2 (maxPlans pe) |} |}
            else inr "no valid plan found")
           idCounter'.
Proof.
  intros Hlen Hcost. unfold EnumeratePlans.
  destruct (Nat.leb_spec (length (extractTables plan)) 1) as [_|?]; [|lia].
  unfold generateSingleTableAlternatives, generatePhysicalAlternatives, bind.
  destruct (physicalAlternatives_spec pe plan idCounter) as (st' & ->).
  exists st'. unfold ret, lift. cbn [List.map alternative].
  unfold selectBestPlan. cbn [selectLoop].
  destruct (Z.ltb_spec 0 (maxPlans pe)) as [Hpos|Hle]; cbn [andb].
  2:{ rewrite selectStep_break by (cbn [evaluatedCount]; lia). cbn [obind].
      rewrite selectStep_break by (cbn [evaluatedCount]; lia). reflexivity. }
  rewrite (selectStep_evaluates pe _ _ cost)
    by (cbn [evaluatedCount]; auto; lia).
  cbn [obind bestCost evaluatedCount bestPlan]. rewrite Z.add_0_l.
  destruct (cost_model.TotalCost cost <? infinity)%float eqn:Hinf.
  - destruct (Z.leb_spec (maxPlans pe) 1) as [Hone|Htwo].
    + rewrite selectStep_break by (cbn [evaluatedCount]; lia).
      cbn [obind bestCost evaluatedCount bestPlan].
      replace (Z.min 2 (maxPlans pe)) with 1 by lia. reflexivity.
    + rewrite (selectStep_evaluates pe _ _ cost)
        by (cbn [evaluatedCount]; auto; lia).
      cbn [obind bestCost evaluatedCount bestPlan].
      rewrite float_ltb_irrefl. cbn [obind bestCost evaluatedCount bestPlan].
      replace (Z.min 2 (maxPlans pe)) with 2 by lia. reflexivity.
  - destruct (Z.leb_spec (maxPlans pe) 1) as [Hone|Htwo].
    + rewrite selectStep_break by (cbn [evaluatedCount]; lia). reflexivity.
    + rewrite (selectStep_evaluates pe _ _ cost)
        by (cbn [evaluatedCount]; auto; lia).
      cbn [obind bestCost evaluatedCount bestPlan]. rewrite Hinf. reflexivity.
Qed.

End SingleTable.

Section SingleTableRun.

Import enumerator plan_enumerator.

Lemma EnumeratePlans_single_table_witness :
  let pe := NewPlanEnumerator (fun x => x) Samples.cat in
  let plan := Samples.filter "f" "=" [Samples.scan "a" "customers" None] in
  let fails := fun (_ : LogicalPlan) (_ : list string) =>
                 ret (inr "not used" : EnumerationResult + error) in
  extractTables plan = ["customers"]
  /\ exists result idCounter',
       EnumeratePlans pe fails fails (Some plan) 0
       = Done (inl result) idCounter'
       /\ BestPlan result = plan
       /\ AllPlans result = [plan; plan]
       /\ PlansEvaluated (PruningStats result) = 2.
Proof.
  cbv zeta. split; [vm_compute; reflexivity|].
  match goal with
  | |- exists result idCounter',
         EnumeratePlans ?pe ?dp ?greedy (Some ?plan) 0 = _ /\ _ =>
      assert (E : exists cost,
                 optimizer.EstimateCost (costModel pe) plan (catalogMgr pe)
                 = Ret cost
                 /\ (cost_model.TotalCost cost <? infinity)%float = true)
        by (vm_compute; eexists; split; reflexivity);
      destruct E as (cost & Hcost & Hinf);
      assert (Hlen : (length (extractTables plan) <= 1)%nat)
        by (vm_compute; lia);
      destruct (EnumeratePlans_single_table pe dp greedy plan cost 0
                  Hlen Hcost) as (st' & E)
  end.
  rewrite Hinf in E. cbn [maxPlans NewPlanEnumerator Z.ltb Z.compare andb] in E.
  eexists _, st'. split; [exact E|]. repeat split.
Defined.

End SingleTableRun.

(** ** The subsets of the dynamic programming *)

Section BitFacts.

Import join_enumeration.

Lemma wrap64_small x : 0 <= x <= max_int64 -> wrap64 x = x.
Proof.
  intros H. apply wrap64_id. unfold in_int64, min_int64, max_int64 in *. lia.
Qed.

Lemma pow2_le_max_int64 i : 0 <= i < 63 -> 0 < 2 ^ i <= max_int64.
Proof.
  intros H. unfold max_int64. split; [apply Z.pow_pos_nonneg; lia|].
  assert (2 ^ i < 2 ^ 63) by (apply Z.pow_lt_mono_r; lia). lia.
Qed.

Lemma bit_pow2 i : 0 <= i < 63 -> bit i = 2 ^ i.
Proof.
  intros H. unfold bit. rewrite Z.shiftl_1_l. apply wrap64_small.
  pose proof (pow2_le_max_int64 i H). lia.
Qed.

Lemma testbit_below x i : 0 <= x < 2 ^ i -> Z.testbit x i = false.
Proof.
  intros [H0 H1]. destruct (Z.eq_dec x 0) as [->|Hx]; [apply Z.bits_0|].
  apply Z.bits_above_log2; [exact H0|]. apply Z.log2_lt_pow2; lia.
Qed.

Lemma lor_bit cur i :
  0 <= i < 63 -> 0 <= cur < 2 ^ i -> Z.lor cur (bit i) = cur + 2 ^ i.
Proof.
  intros Hi Hc. rewrite (bit_pow2 i Hi), <- Z.add_lor_land.
  assert (Z.land cur (2 ^ i) = 0) as ->; [|lia].
  apply Z.bits_inj'. intros k Hk.
  rewrite Z.land_spec, Z.bits_0, Z.pow2_bits_eqb by lia.
  destruct (Z.eqb_spec i k) as [<-|_]; [|apply andb_false_r].
  now rewrite testbit_below.
Qed.

Lemma land_bit mask i :
  0 <= i < 63 -> (Z.land mask (bit i) =? 0) = negb (Z.testbit mask i).
Proof.
  intros Hi. rewrite (bit_pow2 i Hi).
  assert (E : Z.land mask (2 ^ i) = if Z.testbit mask i then 2 ^ i else 0).
  { apply Z.bits_inj'. intros k Hk. rewrite Z.land_spec, Z.pow2_bits_eqb by lia.
    destruct (Z.eqb_spec i k) as [<-|Hne].
    - destruct (Z.testbit mask i); [|now rewrite Z.bits_0].
      now rewrite Z.pow2_bits_eqb, Z.eqb_refl by lia.
    - rewrite andb_false_r. destruct (Z.testbit mask i); [|now rewrite Z.bits_0].
      rewrite Z.pow2_bits_eqb by lia. symmetry. now apply Z.eqb_neq. }
  rewrite E. pose proof (pow2_le_max_int64 i Hi).
  destruct (Z.testbit mask i); cbn [negb]; [apply Z.eqb_neq; lia | reflexivity].
Qed.

Lemma ones_double x : 0 <= x -> ones (2 * x) = ones x.
Proof. destruct x as [|p|p]; [reflexivity | reflexivity | lia]. Qed.

Lemma ones_succ_double x : 0 <= x -> ones (2 * x + 1) = ones x + 1.
Proof. destruct x as [|p|p]; [reflexivity | reflexivity | lia]. Qed.

Lemma pos_ones_pos p : 0 < pos_ones p.
Proof. induction p; cbn [pos_ones]; lia. Qed.

Lemma ones_nonneg x : 0 <= ones x.
Proof. destruct x as [|p|p]; cbn [ones]; [lia | | lia].
  pose proof (pos_ones_pos p). lia.
Qed.

Lemma ones_0 x : 0 <= x -> ones x = 0 -> x = 0.
Proof.
  destruct x as [|p|p]; [reflexivity | | lia]. cbn [ones].
  pose proof (pos_ones_pos p). lia.
Qed.

Lemma ones_bound x k : 0 <= k -> 0 <= x < 2 ^ k -> ones x <= k.
Proof.
  destruct x as [|p|p]; cbn [ones]; [lia | | lia]. revert k.
  induction p as [p IH|p IH|]; intros k Hk [_ Hp]; cbn [pos_ones].
  - destruct (Z.eq_dec k 0) as [->|Hne]; [cbn in Hp; lia|].
    replace k with (Z.succ (k - 1)) in Hp by lia.
    rewrite Z.pow_succ_r in Hp by lia.
    specialize (IH (k - 1) ltac:(lia)). lia.
  - destruct (Z.eq_dec k 0) as [->|Hne]; [cbn in Hp; lia|].
    replace k with (Z.succ (k - 1)) in Hp by lia.
    rewrite Z.pow_succ_r in Hp by lia.
    specialize (IH (k - 1) ltac:(lia)). lia.
  - destruct (Z.eq_dec k 0) as [->|Hne]; [cbn in Hp; lia|]. lia.
Qed.

Lemma land_even_odd a b : Z.land (2 * a) (2 * b + 1) = 2 * Z.land a b.
Proof.
  apply Z.bits_inj'. intros n Hn. rewrite Z.land_spec.
  destruct (Z.eq_dec n 0) as [->|Hne].
  - now rewrite !Z.testbit_even_0.
  - replace n with (Z.succ (n - 1)) by lia.
    rewrite !Z.testbit_even_succ, Z.testbit_odd_succ, Z.land_spec by lia.
    reflexivity.
Qed.

Lemma land_odd_even a : Z.land (2 * a + 1) (2 * a) = 2 * a.
Proof.
  apply Z.bits_inj'. intros n Hn. rewrite Z.land_spec.
  destruct (Z.eq_dec n 0) as [->|Hne].
  - now rewrite Z.testbit_even_0, andb_false_r.
  - replace n with (Z.succ (n - 1)) by lia.
    rewrite !Z.testbit_even_succ, Z.testbit_odd_succ by lia.
    apply andb_diag.
Qed.

(** [x & (x - 1)] clears the lowest one bit. *)
Lemma clear_lowest_one p :
  0 <= Z.land (Zpos p) (Zpos p - 1) < Zpos p
  /\ ones (Z.land (Zpos p) (Zpos p - 1)) = pos_ones p - 1.
Proof.
  induction p as [p IH|p IH|].
  - replace (Z.pos p~1 - 1) with (2 * Z.pos p) by lia.
    replace (Z.pos p~1) with (2 * Z.pos p + 1) by lia.
    rewrite land_odd_even. cbn [pos_ones]. rewrite ones_double by lia.
    cbn [ones]. lia.
  - replace (Z.pos p~0 - 1) with (2 * (Z.pos p - 1) + 1) by lia.
    replace (Z.pos p~0) with (2 * Z.pos p) by lia.
    rewrite land_even_odd. cbn [pos_ones]. destruct IH as [IH1 IH2].
    rewrite ones_double by lia. lia.
  - change (Z.land 1 (1 - 1)) with 0. cbn [pos_ones ones]. lia.
Qed.

Lemma popcount_loop_spec fuel :
  forall x count,
    0 <= x <= max_int64 -> ones x <= Z.of_nat fuel ->
    popcount_loop fuel x count = Some (count + ones x).
Proof.
  induction fuel as [|fuel IH]; intros x count Hx Hfuel.
  - assert (x = 0) as -> by (apply ones_0; [lia|]; pose proof (ones_nonneg x); lia).
    cbn. f_equal. lia.
  - cbn [popcount_loop]. destruct (Z.eqb_spec x 0) as [->|Hne].
    + cbn. f_equal. lia.
    + rewrite wrap64_small by lia. destruct x as [|p|p]; try lia.
      destruct (clear_lowest_one p) as [Hlt Hones].
      rewrite IH by (cbn [ones] in *; lia). f_equal. cbn [ones]. lia.
Qed.

Lemma popcount_ones x : 0 <= x <= max_int64 -> popcount x = Some (ones x).
Proof.
  intros Hx. unfold popcount. rewrite popcount_loop_spec; [reflexivity|exact Hx|].
  apply (ones_bound x 64); [lia|]. unfold max_int64 in Hx.
  assert (2 ^ 63 < 2 ^ 64) by (apply Z.pow_lt_mono_r; lia). lia.
Qed.

Lemma upto_cons start n : start < n -> upto start n = start :: upto (start + 1) n.
Proof.
  intros H. unfold upto.
  replace (Z.to_nat (n - start)) with (S (Z.to_nat (n - (start + 1)))) by lia.
  cbn [seq List.map]. f_equal; [lia|].
  rewrite <- seq_shift, List.map_map. apply List.map_ext. intros k. lia.
Qed.

Lemma upto_nil start n : n <= start -> upto start n = [].
Proof.
  intros H. unfold upto. now replace (Z.to_nat (n - start)) with O by lia.
Qed.

Lemma In_upto start n i : In i (upto start n) <-> start <= i < n.
Proof.
  unfold upto. rewrite in_map_iff. split.
  - intros (k & <- & Hk%in_seq). lia.
  - intros H. exists (Z.to_nat (i - start)). split; [lia|]. apply in_seq. lia.
Qed.

(** The one bits of [x] below [k], counted one by one. *)
Lemma ones_testbit k :
  forall x, 0 <= x < 2 ^ Z.of_nat k ->
    ones x = Z.of_nat (length (List.filter (Z.testbit x) (upto 0 (Z.of_nat k)))).
Proof.
  induction k as [|k IH]; intros x Hx.
  - cbn in Hx. assert (x = 0) as -> by lia. reflexivity.
  - rewrite Nat2Z.inj_succ, Z.pow_succ_r in Hx by lia.
    rewrite upto_cons by lia.
    assert (Hshift : upto (0 + 1) (Z.of_nat (S k))
                     = List.map Z.succ (upto 0 (Z.of_nat k))).
    { unfold upto. rewrite List.map_map.
      replace (Z.to_nat (Z.of_nat (S k) - (0 + 1)))
        with (Z.to_nat (Z.of_nat k - 0)) by lia.
      apply List.map_ext. intros j. lia. }
    rewrite Hshift. clear Hshift.
    assert (Hfilter : forall a b l,
               (forall i, In i l -> 0 <= i) ->
               List.filter (Z.testbit (2 * a + Z.b2z b)) (List.map Z.succ l)
               = List.map Z.succ (List.filter (Z.testbit a) l)).
    { intros a b l. induction l as [|i l IHl]; intros Hl; [reflexivity|].
      cbn [List.map List.filter]. rewrite Z.testbit_succ_r by (apply Hl; now left).
      rewrite IHl by (intros; apply Hl; now right).
      now destruct (Z.testbit a i). }
    rewrite (Z.div_mod x 2) at 1 2 by lia.
    assert (Hb : x mod 2 = Z.b2z (Z.odd x)) by (rewrite Zmod_odd; now destruct (Z.odd x)).
    rewrite Hb. cbn [List.filter]. rewrite Z.testbit_0_r.
    rewrite Hfilter by (intros i Hi%In_upto; lia).
    specialize (IH (x / 2) ltac:(split; [apply Z.div_pos; lia | apply Z.div_lt_upper_bound; lia])).
    destruct (Z.odd x); cbn [Z.b2z length];
      rewrite ?length_map, ?Z.add_0_r, ?ones_double, ?ones_succ_double
        by (apply Z.div_pos; lia); lia.
Qed.

End BitFacts.

Section Subsets.

Import join_enumeration.

(** X24.  [popcount] returns the number of one bits of every [int] that
    is not negative: the loop ends within its 64 rounds with the number
    of positions below 63 at which the bit of [x] is set. *)
Theorem popcount_counts_one_bits (x : Z) :
  0 <= x <= max_int64 ->
  popcount x
  = Some (Z.of_nat (length (List.filter (Z.testbit x) (upto 0 63)))).
Proof.
  intros Hx. rewrite (popcount_ones x Hx). f_equal.
  apply (ones_testbit 63). unfold max_int64 in Hx. cbn [Z.of_nat]. lia.
Qed.

Lemma popcount_counts_one_bits_witness :
  0 <= 11 <= max_int64
  /\ popcount 11 = Some 3
  /\ List.filter (Z.testbit 11) (upto 0 63) = [0; 1; 3].
Proof.
  assert (H : 0 <= 11 <= max_int64) by (unfold max_int64; lia).
  split; [exact H|]. split; [|vm_compute; reflexivity].
  rewrite (popcount_counts_one_bits 11 H). vm_compute. reflexivity.
Defined.

Lemma fold_subsets_app {A} (f : list Z -> A -> list Z) (l : list A) :
  (forall a acc, In a l -> f acc a = (acc ++ f [] a)%list) ->
  forall acc, fold_left f l acc = (acc ++ fold_left f l [])%list.
Proof.
  induction l as [|a l IH]; intros Hf acc; cbn [fold_left].
  - now rewrite app_nil_r.
  - rewrite IH by (intros; apply Hf; now right).
    rewrite (IH ltac:(intros; apply Hf; now right) (f [] a)).
    rewrite (Hf a acc) by now left. now rewrite app_assoc.
Qed.

Lemma generateSubsetsRecursive_app size :
  forall start n current subsets,
    generateSubsetsRecursive start n size current subsets
    = (subsets ++ generateSubsetsRecursive start n size current [])%list.
Proof.
  induction size as [|size IH]; intros start n current subsets.
  - reflexivity.
  - cbn [generateSubsetsRecursive]. apply fold_subsets_app.
    intros i acc _. apply IH.
Qed.

Lemma generateSubsetsRecursive_step start n size current :
  start < n ->
  generateSubsetsRecursive start n (S size) current []
  = (generateSubsetsRecursive (start + 1) n size (Z.lor current (bit start)) []
     ++ generateSubsetsRecursive (start + 1) n (S size) current [])%list.
Proof.
  intros H. cbn [generateSubsetsRecursive]. rewrite (upto_cons start n H).
  cbn [fold_left]. apply fold_subsets_app.
  intros i acc _. apply generateSubsetsRecursive_app.
Qed.

Lemma generateSubsetsRecursive_end start n size current :
  n <= start -> generateSubsetsRecursive start n (S size) current [] = [].
Proof.
  intros H. cbn [generateSubsetsRecursive]. now rewrite (upto_nil start n H).
Qed.

(** The subsets of [start .. n-1] of a size, added to [current]. *)
Lemma generateSubsetsRecursive_spec n (d : nat) :
  forall start size current,
    Z.to_nat (n - start) = d -> 0 <= start <= n -> n <= 62 ->
    0 <= current < 2 ^ start ->
    NoDup (generateSubsetsRecursive start n size current [])
    /\ forall m,
         In m (generateSubsetsRecursive start n size current [])
         <-> exists e, 0 <= e < 2 ^ (n - start)
                       /\ ones e = Z.of_nat size
                       /\ m = current + 2 ^ start * e.
Proof.
  induction d as [|d IH]; intros start size current Hd Hstart Hn Hcur.
  - assert (start = n) as -> by lia. rewrite Z.sub_diag.
    destruct size as [|size].
    + cbn [generateSubsetsRecursive app]. split; [apply NoDup_singleton|].
      intros m. cbn [In]. split.
      * intros [<-|[]]. exists 0. cbn. lia.
      * intros (e & He & _ & ->). left. change (2 ^ 0) with 1 in He. nia.
    + rewrite generateSubsetsRecursive_end by lia. split; [constructor|].
      intros m. split; [intros []|]. intros (e & He & Hones & _).
      change (2 ^ 0) with 1 in He. assert (e = 0) as -> by lia.
      cbn in Hones. lia.
  - destruct size as [|size].
    + cbn [generateSubsetsRecursive app]. split; [apply NoDup_singleton|].
      intros m. cbn [In]. split.
      * intros [<-|[]]. exists 0. split; [|cbn; split; [reflexivity|lia]].
        split; [lia|]. apply Z.pow_pos_nonneg; lia.
      * intros (e & He & Hones & ->). left.
        apply ones_0 in Hones; [|lia]. subst e. lia.
    + rewrite generateSubsetsRecursive_step by lia.
      rewrite lor_bit by lia.
      assert (HQ : 0 < 2 ^ start) by (apply Z.pow_pos_nonneg; lia).
      assert (HQ2 : 2 ^ (start + 1) = 2 * 2 ^ start)
        by (rewrite Z.pow_add_r by lia; change (2 ^ 1) with 2; lia).
      assert (HP : 2 ^ (n - start) = 2 * 2 ^ (n - (start + 1))).
      { replace (n - start) with (Z.succ (n - (start + 1))) by lia.
        rewrite Z.pow_succ_r by lia. reflexivity. }
      destruct (IH (start + 1) size (current + 2 ^ start)
                  ltac:(lia) ltac:(lia) Hn ltac:(lia)) as [Hnd1 Hin1].
      destruct (IH (start + 1) (S size) current
                  ltac:(lia) ltac:(lia) Hn ltac:(lia)) as [Hnd2 Hin2].
      set (Q := 2 ^ start) in *. set (P := 2 ^ (n - (start + 1))) in *.
      rewrite HQ2 in Hin1, Hin2. rewrite HP. split.
      * apply NoDup_app. split; [exact Hnd1|]. split; [|exact Hnd2].
        intros m H1%list_elem_of_In H2%list_elem_of_In.
        apply Hin1 in H1 as (e1 & _ & _ & E1).
        apply Hin2 in H2 as (e2 & _ & _ & E2).
        assert (E : Q * (2 * e1 + 1) = Q * (2 * e2)) by lia.
        apply Z.mul_reg_l in E; lia.
      * intros m. rewrite in_app_iff, Hin1, Hin2. split.
        -- intros [(e & He & Hones & ->)|(e & He & Hones & ->)].
           ++ exists (2 * e + 1). rewrite ones_succ_double by lia.
              split; [lia|]. split; [lia|]. nia.
           ++ exists (2 * e). rewrite ones_double by lia.
              split; [lia|]. split; [lia|]. nia.
        -- intros (e & He & Hones & ->).
           rewrite (Z.div_mod e 2) in Hones |- * by lia.
           assert (0 <= e / 2 < P).
           { split; [apply Z.div_pos; lia|].
             apply Z.div_lt_upper_bound; lia. }
           destruct (Z.mod_pos_bound e 2 ltac:(lia)) as [Hm0 Hm2].
           assert (e mod 2 = 0 \/ e mod 2 = 1) as [Em|Em] by lia; rewrite Em in *.
           ++ right. exists (e / 2). rewrite Z.add_0_r, ones_double in Hones by lia.
              split; [lia|]. split; [lia|]. nia.
           ++ left. exists (e / 2). rewrite ones_succ_double in Hones by lia.
              split; [lia|]. split; [lia|]. nia.
Qed.

Lemma generateSubsets_ones n size :
  0 <= n <= 62 -> 0 <= size ->
  NoDup (generateSubsets n size)
  /\ forall mask,
       In mask (generateSubsets n size)
       <-> 0 <= mask < 2 ^ n /\ ones mask = size.
Proof.
  intros Hn Hsize. unfold generateSubsets.
  destruct (Z.ltb_spec size 0) as [?|_]; [lia|].
  destruct (generateSubsetsRecursive_spec n (Z.to_nat (n - 0)) 0
              (Z.to_nat size) 0 eq_refl ltac:(lia) ltac:(lia)
              ltac:(cbn; lia)) as [Hnd Hin].
  split; [exact Hnd|]. intros mask. rewrite Hin, Z.sub_0_r, Z2Nat.id by lia.
  change (2 ^ 0) with 1. split.
  - intros (e & He & Hones & ->). rewrite Z.add_0_l, Z.mul_1_l. now split.
  - intros [Hm Hones]. exists mask. split; [exact Hm|]. split; [exact Hones|lia].
Qed.

(** X25.  [generateSubsets(n, size)] lists, each once, the bit masks
    below [2^n] that have [size] one bits -- the subsets of [size]
    tables among [n] -- as [popcount] counts them, for up to 62 tables. *)
Theorem generateSubsets_lists_subsets (n size : Z) :
  0 <= n <= 62 -> 0 <= size ->
  NoDup (generateSubsets n size)
  /\ forall mask,
       In mask (generateSubsets n size)
       <-> 0 <= mask < 2 ^ n /\ popcount mask = Some size.
Proof.
  intros Hn Hsize. destruct (generateSubsets_ones n size Hn Hsize) as [Hnd Hin].
  split; [exact Hnd|]. intros mask. rewrite Hin.
  assert (Hmax : 2 ^ n <= max_int64).
  { unfold max_int64. assert (2 ^ n <= 2 ^ 62) by (apply Z.pow_le_mono_r; lia).
    assert (2 ^ 62 < 2 ^ 63) by (apply Z.pow_lt_mono_r; lia). lia. }
  split; intros [Hm H]; (split; [exact Hm|]).
  - rewrite popcount_ones by lia. now f_equal.
  - rewrite popcount_ones in H by lia. now injection H.
Qed.

Lemma generateSubsets_lists_subsets_witness :
  generateSubsets 4 2 = [3; 5; 9; 6; 10; 12]
  /\ NoDup (generateSubsets 4 2)
  /\ (In 7 (generateSubsets 4 2) <-> 0 <= 7 < 2 ^ 4 /\ popcount 7 = Some 2).
Proof.
  split; [vm_compute; reflexivity|].
  destruct (generateSubsets_lists_subsets 4 2 ltac:(lia) ltac:(lia))
    as [Hnd Hin].
  split; [exact Hnd | exact (Hin 7)].
Defined.

End Subsets.

Section MaskTables.

Import join_enumeration.

Lemma maskToTables_from_sublist tables :
  forall i mask, sublist (maskToTables_from i mask tables) tables.
Proof.
  induction tables as [|t tables IH]; intros i mask; cbn [maskToTables_from].
  - constructor.
  - destruct (negb _); cbn [app]; [apply sublist_skip | apply sublist_cons];
      apply IH.
Qed.

Lemma maskToTables_from_In tables :
  forall i mask t,
    0 <= i -> i + Z.of_nat (length tables) <= 63 ->
    In t (maskToTables_from i mask tables)
    <-> exists k, tables !! k = Some t
                  /\ Z.testbit mask (i + Z.of_nat k) = true.
Proof.
  induction tables as [|t0 tables IH]; intros i mask t Hi Hlen;
    cbn [maskToTables_from length] in *.
  - split; [intros [] | intros (k & Hk & _); discriminate].
  - rewrite in_app_iff, land_bit, negb_involutive, IH by lia. split.
    + intros [Hin|(k & Hk & Hbit)].
      * destruct (Z.testbit mask i) eqn:Hb; [|destruct Hin].
        destruct Hin as [<-|[]]. exists O. now rewrite Z.add_0_r.
      * exists (S k). split; [exact Hk|].
        now replace (i + Z.of_nat (S k)) with (i + 1 + Z.of_nat k) by lia.
    + intros ([|k] & Hk & Hbit).
      * left. injection Hk as ->. rewrite Z.add_0_r in Hbit.
        rewrite Hbit. now left.
      * right. exists k. split; [exact Hk|].
        now replace (i + 1 + Z.of_nat k) with (i + Z.of_nat (S k)) by lia.
Qed.

(** The tables of the two parts of a split are those of the whole. *)
Lemma maskToTables_from_split tables :
  forall i subset leftMask,
    0 <= i -> i + Z.of_nat (length tables) <= 63 ->
    Z.land leftMask subset = leftMask ->
    (maskToTables_from i leftMask tables
     ++ maskToTables_from i (Z.lxor subset leftMask) tables)%list
    ≡ₚ maskToTables_from i subset tables.
Proof.
  induction tables as [|t tables IH]; intros i subset leftMask Hi Hlen Hsub;
    cbn [maskToTables_from length] in *; [reflexivity|].
  rewrite !land_bit, !negb_involutive by lia.
  specialize (IH (i + 1) subset leftMask ltac:(lia) ltac:(lia) Hsub).
  rewrite Z.lxor_spec.
  assert (Hbit : Z.testbit leftMask i = true -> Z.testbit subset i = true).
  { intros Hl. rewrite <- Hsub, Z.land_spec in Hl.
    now apply andb_prop in Hl as [_ ?]. }
  destruct (Z.testbit leftMask i) eqn:Hl.
  - rewrite (Hbit eq_refl). cbn [xorb app]. now rewrite IH.
  - destruct (Z.testbit subset i); cbn [xorb app]; [|exact IH].
    rewrite <- IH. symmetry. apply Permutation_middle.
Qed.

Lemma maskToTables_from_pow2 tables :
  forall i k t,
    0 <= i -> i + Z.of_nat (length tables) <= 63 ->
    tables !! k = Some t ->
    maskToTables_from i (2 ^ (i + Z.of_nat k)) tables = [t].
Proof.
  induction tables as [|t0 tables IH]; intros i k t Hi Hlen Hk;
    [discriminate|].
  cbn [maskToTables_from length] in *.
  rewrite land_bit, negb_involutive, Z.pow2_bits_eqb by lia.
  destruct k as [|k].
  - injection Hk as ->. rewrite Z.add_0_r, Z.eqb_refl. cbn [app]. f_equal.
    clear IH.
    assert (Hgen : forall l j, i < j -> j + Z.of_nat (length l) <= 63 ->
                     maskToTables_from j (2 ^ i) l = []).
    { induction l as [|x l IHl]; intros j Hj Hl; [reflexivity|].
      cbn [maskToTables_from length] in *.
      rewrite land_bit, negb_involutive, Z.pow2_bits_eqb by lia.
      destruct (Z.eqb_spec i j); [lia|]. cbn [app]. apply IHl; lia. }
    apply Hgen; lia.
  - destruct (Z.eqb_spec (i + Z.of_nat (S k)) i); [lia|]. cbn [app].
    replace (i + Z.of_nat (S k)) with (i + 1 + Z.of_nat k) by lia.
    apply IH; [lia | lia | exact Hk].
Qed.

Lemma maskToTables_from_full tables :
  forall i n,
    0 <= i -> i + Z.of_nat (length tables) <= n -> n <= 63 ->
    maskToTables_from i (2 ^ n - 1) tables = tables.
Proof.
  induction tables as [|t tables IH]; intros i n Hi Hlen Hn; [reflexivity|].
  cbn [maskToTables_from length] in *.
  rewrite land_bit, negb_involutive by lia.
  replace (2 ^ n - 1) with (Z.ones n) by (rewrite Z.ones_equiv; lia).
  rewrite Z.ones_spec_low by lia. cbn [app]. f_equal.
  replace (Z.ones n) with (2 ^ n - 1) by (rewrite Z.ones_equiv; lia).
  apply IH; lia.
Qed.

Lemma contains_In slice item : contains slice item = true <-> In item slice.
Proof.
  unfold contains. rewrite existsb_exists. split.
  - intros (s & Hs & ->%String.eqb_eq). exact Hs.
  - intros H. exists item. split; [exact H | apply String.eqb_refl].
Qed.

Lemma findJoinEdge_sym leftMask rightMask joinGraph tables :
  findJoinEdge rightMask leftMask joinGraph tables
  = findJoinEdge leftMask rightMask joinGraph tables.
Proof.
  unfold findJoinEdge. induction (jg_Edges joinGraph) as [|edge edges IH];
    [reflexivity|].
  cbn [find]. rewrite IH.
  match goal with
  | |- (if ?a then _ else _) = (if ?b then _ else _) =>
      replace a with b; [reflexivity|]
  end.
  destruct (contains (maskToTables leftMask tables) (je_Left edge)),
    (contains (maskToTables rightMask tables) (je_Right edge)),
    (contains (maskToTables leftMask tables) (je_Right edge)),
    (contains (maskToTables rightMask tables) (je_Left edge)); reflexivity.
Qed.

(** X26.  How the masks of the dynamic programming are read, for up to
    63 tables.  [maskToTables] lists, in the order of the table list,
    the tables whose bit is set in the mask.  [findJoinEdge] returns the
    first edge of the graph that has one end among the tables of one
    mask and the other end among the tables of the other, whichever way
    round -- so it finds the same edge when the two masks are exchanged
    -- and nil when no edge has. *)
Theorem findJoinEdge_connects_the_masks
    (leftMask rightMask : Z) (joinGraph : JoinGraph) (tables : list string) :
  (length tables <= 63)%nat ->
  let tables_of mask := maskToTables mask tables in
  let connects edge :=
    (In (je_Left edge) (tables_of leftMask)
     /\ In (je_Right edge) (tables_of rightMask))
    \/ (In (je_Right edge) (tables_of leftMask)
        /\ In (je_Left edge) (tables_of rightMask)) in
  (forall mask,
     sublist (tables_of mask) tables
     /\ forall t, In t (tables_of mask)
                  <-> exists k, tables !! k = Some t
                                /\ Z.testbit mask (Z.of_nat k) = true)
  /\ findJoinEdge rightMask leftMask joinGraph tables
     = findJoinEdge leftMask rightMask joinGraph tables
  /\ match findJoinEdge leftMask rightMask joinGraph tables with
     | Some joinEdge =>
         exists before after,
           jg_Edges joinGraph = (before ++ joinEdge :: after)%list
           /\ connects joinEdge
           /\ forall edge, In edge before -> ~ connects edge
     | None => forall edge, In edge (jg_Edges joinGraph) -> ~ connects edge
     end.
Proof.
  intros Hlen. cbv zeta. split; [|split].
  - intros mask. split; [apply maskToTables_from_sublist|].
    intros t. unfold maskToTables.
    rewrite maskToTables_from_In by lia. reflexivity.
  - apply findJoinEdge_sym.
  - unfold findJoinEdge.
    set (test := fun edge => _ || _).
    assert (Htest : forall edge,
               test edge = true
               <-> (In (je_Left edge) (maskToTables leftMask tables)
                    /\ In (je_Right edge) (maskToTables rightMask tables))
                   \/ (In (je_Right edge) (maskToTables leftMask tables)
                       /\ In (je_Left edge) (maskToTables rightMask tables))).
    { intros edge. unfold test.
      rewrite orb_true_iff, !andb_true_iff, !contains_In. reflexivity. }
    induction (jg_Edges joinGraph) as [|edge edges IH]; cbn [find].
    + intros edge [].
    + destruct (test edge) eqn:Ht.
      * exists [], edges. split; [reflexivity|]. split; [now apply Htest|].
        intros e [].
      * destruct (find test edges) as [joinEdge|].
        -- destruct IH as (before & after & -> & Hc & Hb).
           exists (edge :: before), after. split; [reflexivity|].
           split; [exact Hc|]. intros e [<-|He]; [|now apply Hb].
           rewrite <- Htest, Ht. discriminate.
        -- intros e [<-|He]; [|now apply IH].
           rewrite <- Htest, Ht. discriminate.
Qed.

Lemma findJoinEdge_connects_the_masks_witness :
  let tables := ["a"; "b"; "c"] in
  let edge l r := mkJoinEdge l r 0.1 JoinTypeInner None in
  let joinGraph := mkJoinGraph [] [edge "c" "a"; edge "b" "c"] ∅ in
  (length tables <= 63)%nat
  /\ maskToTables 5 tables = ["a"; "c"]
  /\ findJoinEdge 2 5 joinGraph tables = Some (edge "b" "c")
  /\ findJoinEdge 5 2 joinGraph tables = findJoinEdge 2 5 joinGraph tables.
Proof.
  cbv zeta.
  assert (H : (length ["a"; "b"; "c"] <= 63)%nat) by (cbn; lia).
  split; [exact H|]. split; [vm_compute; reflexivity|].
  split; [vm_compute; reflexivity|].
  exact (proj1 (proj2 (findJoinEdge_connects_the_masks 2 5
                         (mkJoinGraph []
                            [mkJoinEdge "c" "a" 0.1 JoinTypeInner None;
                             mkJoinEdge "b" "c" 0.1 JoinTypeInner None] ∅)
                         ["a"; "b"; "c"] H))).
Defined.

End MaskTables.

(** ** The dynamic programming over the subsets *)

Section BestJoin.

Import join_enumeration plan_enumerator.

Variable Log2 : float -> float.
Variable cm : cost_model.SimpleCostModel.
Variable mgr : catalog.CatalogManager.
Variable limit : Z.

(** The enumerator of [NewPlanEnumerator], for any cost parameters. *)
Abbreviation pe :=
  (mkPlanEnumerator (optimizer.SimpleCostModel_CostModel Log2 cm) mgr limit).
Abbreviation cost_of := (cost_model.EstimateCost Log2 cm mgr).
Abbreviation join_of :=
  (fun (id : string) (l r : LogicalPlan) (jt : JoinType)
       (c : option JoinCondition) =>
     mkLogicalPlan id NodeTypeJoin [l; r] "" "" None [] jt c [] [] []
       None None None None ∅).
Abbreviation safe :=
  (fun dp : gmap Z LogicalPlan =>
     map_Forall (fun (_ : Z) p => limit_has_child p = true) dp).

Lemma land_le a b : 0 <= a -> Z.land a b <= a.
Proof.
  intros Ha.
  assert (E : Z.land a b + Z.ldiff a b = a).
  { rewrite <- Z.add_lor_land.
    assert (Z.land (Z.land a b) (Z.ldiff a b) = 0) as ->.
    { apply Z.bits_inj'. intros n Hn.
      rewrite !Z.land_spec, Z.ldiff_spec, Z.bits_0.
      destruct (Z.testbit a n), (Z.testbit b n); reflexivity. }
    rewrite Z.add_0_r. apply Z.bits_inj'. intros n Hn.
    rewrite Z.lor_spec, Z.land_spec, Z.ldiff_spec.
    destruct (Z.testbit a n), (Z.testbit b n); reflexivity. }
  assert (0 <= Z.ldiff a b) by (apply Z.ldiff_nonneg; now left). lia.
Qed.

Lemma consider_simple best candidate :
  consider pe best candidate
  = (cost <~ cost_of candidate ;;
     Ret (if (cost_model.TotalCost cost <? snd best)%float
          then (Some candidate, cost_model.TotalCost cost)
          else best)).
Proof. reflexivity. Qed.

(** What the two candidates of a round leave in [bestPlan] and
    [bestCost]: the first candidate when it costs less, what there was
    otherwise. *)
Lemma candidates_spec leftPlan rightPlan joinEdge best st :
  let joinPlan :=
    join_of ("node_" ++ itoa (add64 st 1)) leftPlan rightPlan
            (je_JoinType joinEdge) (je_Condition joinEdge) in
  match candidates pe leftPlan rightPlan joinEdge best st with
  | Done best' st' =>
      exists c, cost_of joinPlan = Ret c
                /\ best' = if (cost_model.TotalCost c <? snd best)%float
                           then (Some joinPlan, cost_model.TotalCost c)
                           else best
  | Crash => cost_of joinPlan = Panic
  | OutOfFuel => False
  end.
Proof.
  cbv zeta. unfold candidates, NewJoinNode, generateID, bind, ret, lift.
  rewrite !consider_simple.
  set (joinPlan := mkLogicalPlan _ NodeTypeJoin [leftPlan; rightPlan] _ _ _ _
                     _ (je_Condition joinEdge) _ _ _ _ _ _ _ _).
  destruct (cost_of joinPlan) as [c|] eqn:Hc; cbn [obind]; [|reflexivity].
  set (swappedJoin := mkLogicalPlan _ NodeTypeJoin [rightPlan; leftPlan] _ _ _
                        _ _ (swapJoinCondition _) _ _ _ _ _ _ _ _).
  pose proof (EstimateCost_Join_symmetric Log2 cm mgr joinPlan swappedJoin
                leftPlan rightPlan eq_refl eq_refl eq_refl eq_refl) as Hsym.
  rewrite Hc in Hsym.
  destruct (cost_of swappedJoin) as [c'|] eqn:Hc'; [|destruct Hsym].
  rewrite consider_simple, Hc'. cbn [obind]. rewrite Hsym.
  exists c. split; [reflexivity|].
  destruct (cost_model.TotalCost c <? snd best)%float eqn:Hlt; cbn [snd].
  - now rewrite float_ltb_irrefl.
  - now rewrite Hlt.
Qed.

Lemma limit_has_child_join id l r jt c :
  limit_has_child (join_of id l r jt c)
  = limit_has_child l && limit_has_child r.
Proof. cbn. now rewrite andb_true_r. Qed.

Lemma splitLoop_spec subset dp joinGraph tables (fuel : nat) :
  subset <= max_int64 ->
  forall leftMask best st,
    leftMask <= Z.of_nat fuel -> leftMask <= subset ->
    (0 < leftMask -> Z.land leftMask subset = leftMask) ->
    (forall p, fst best = Some p -> joins_split dp joinGraph tables subset p) ->
    match splitLoop pe fuel subset dp joinGraph tables leftMask best st with
    | Done bestPlan st' =>
        forall p, bestPlan = Some p -> joins_split dp joinGraph tables subset p
    | Crash => ~ safe dp
    | OutOfFuel => False
    end.
Proof.
  intros Hmax. induction fuel as [|fuel IH];
    intros leftMask best st Hfuel Hle Hsub Hbest.
  - cbn [splitLoop]. destruct (Z.leb_spec leftMask 0); [|lia]. exact Hbest.
  - cbn [splitLoop]. destruct (Z.leb_spec leftMask 0) as [|Hpos]; [exact Hbest|].
    rewrite wrap64_small by lia.
    assert (Hnext : forall best' st',
               (forall p, fst best' = Some p ->
                          joins_split dp joinGraph tables subset p) ->
               match splitLoop pe fuel subset dp joinGraph tables
                       (Z.land (leftMask - 1) subset) best' st' with
               | Done bestPlan st'' =>
                   forall p, bestPlan = Some p ->
                             joins_split dp joinGraph tables subset p
               | Crash => ~ safe dp
               | OutOfFuel => False
               end).
    { intros best' st' Hbest'.
      pose proof (land_le (leftMask - 1) subset ltac:(lia)).
      apply IH; [lia | lia | | exact Hbest'].
      intros _. now rewrite <- Z.land_assoc, Z.land_diag. }
    destruct ((Z.lxor subset leftMask =? 0) || (leftMask =? subset)) eqn:Htest;
      [now apply Hnext|].
    apply orb_false_elim in Htest as [Hr%Z.eqb_neq Hl%Z.eqb_neq].
    destruct (dp !! leftMask) as [leftPlan|] eqn:Hlp; [|now apply Hnext].
    destruct (dp !! Z.lxor subset leftMask) as [rightPlan|] eqn:Hrp;
      [|now apply Hnext].
    destruct (findJoinEdge leftMask _ joinGraph tables) as [joinEdge|] eqn:He;
      [|now apply Hnext].
    unfold bind.
    pose proof (candidates_spec leftPlan rightPlan joinEdge best st) as Hc.
    cbv zeta in Hc.
    destruct (candidates pe leftPlan rightPlan joinEdge best st)
      as [best' st'| |]; [| |destruct Hc].
    + apply Hnext. destruct Hc as (c & _ & ->).
      destruct (cost_model.TotalCost c <? snd best)%float; [|exact Hbest].
      cbn [fst]. intros p [= <-].
      exists leftMask, (Z.lxor subset leftMask), leftPlan, rightPlan, joinEdge,
        ("node_" ++ itoa (add64 st 1))%string.
      repeat split; auto.
    + intros Hsafe.
      pose proof (EstimateCost_total Log2 mgr cm
                    (join_of ("node_" ++ itoa (add64 st 1))%string
                       leftPlan rightPlan (je_JoinType joinEdge)
                       (je_Condition joinEdge))) as Htotal.
      cbv beta in Htotal, Hc.
      rewrite limit_has_child_join, (Hsafe _ _ Hlp), (Hsafe _ _ Hrp) in Htotal.
      destruct (Htotal eq_refl) as [c Hret]. congruence.
Qed.

(** X27.  [findBestJoinForSubset] ends for every subset: the loop over
    the parts of the subset runs at most [subset] rounds.  The plan it
    returns, if any, is a new Join of the plans that [dp] holds for two
    non-empty parts of the subset without a common table, with the type
    and the condition of the edge found between them: the second
    candidate of a round, with the inputs exchanged and the condition
    mirrored, costs what the first costs and is never taken.  The call
    panics only when [dp] holds a plan with a Limit node that has a
    count and no child. *)
Theorem findBestJoinForSubset_result
    (subset : Z) (dp : gmap Z LogicalPlan) (joinGraph : JoinGraph)
    (tables : list string) (idCounter : Z) :
  subset <= max_int64 ->
  match findBestJoinForSubset pe subset dp joinGraph tables idCounter with
  | Done bestPlan idCounter' =>
      forall p, bestPlan = Some p -> joins_split dp joinGraph tables subset p
  | Crash => ~ map_Forall (fun (_ : Z) p => limit_has_child p = true) dp
  | OutOfFuel => False
  end.
Proof.
  intros Hmax. unfold findBestJoinForSubset.
  apply splitLoop_spec; [exact Hmax | lia | lia | | discriminate].
  intros _. apply Z.land_diag.
Qed.

Lemma land_bits a b x y :
  Z.land (2 * a + Z.b2z x) (2 * b + Z.b2z y)
  = 2 * Z.land a b + Z.b2z (x && y).
Proof.
  apply Z.bits_inj'. intros n Hn. rewrite Z.land_spec.
  destruct (Z.eq_dec n 0) as [->|Hne].
  - now rewrite !Z.testbit_0_r.
  - replace n with (Z.succ (n - 1)) by lia.
    rewrite !Z.testbit_succ_r, Z.land_spec by lia. reflexivity.
Qed.

Lemma submask_halves m s :
  Z.land m s = m ->
  Z.land (Z.div2 m) (Z.div2 s) = Z.div2 m
  /\ Z.b2z (Z.odd m) <= Z.b2z (Z.odd s).
Proof.
  rewrite (Z.div2_odd m) at 1 2. rewrite (Z.div2_odd s) at 1.
  rewrite land_bits. destruct (Z.odd m), (Z.odd s); cbn [andb Z.b2z]; lia.
Qed.

(** The next part, [(leftMask - 1) & subset], is the greatest part
    below [leftMask]. *)
Lemma submask_below_pred p :
  forall s m,
    Z.land (Zpos p) s = Zpos p -> 0 <= m -> Z.land m s = m -> m < Zpos p ->
    m <= Z.land (Zpos p - 1) s.
Proof.
  induction p as [p IH|p IH|]; intros s m Hcur Hm Hsub Hlt.
  - destruct (submask_halves _ _ Hcur) as [Hc Hb].
    replace (Z.pos p~1 - 1) with (2 * Z.pos p + Z.b2z false)
      by (cbn [Z.b2z]; lia).
    rewrite (Z.div2_odd s), land_bits. cbn [andb Z.b2z].
    change (Z.div2 (Z.pos p~1)) with (Z.pos p) in Hc. rewrite Hc. lia.
  - destruct (submask_halves _ _ Hcur) as [Hc _].
    destruct (submask_halves _ _ Hsub) as [Hm' Hb].
    change (Z.div2 (Z.pos p~0)) with (Z.pos p) in Hc.
    replace (Z.pos p~0 - 1) with (2 * (Z.pos p - 1) + Z.b2z true)
      by (cbn [Z.b2z]; lia).
    rewrite (Z.div2_odd s) at 1. rewrite land_bits. cbn [andb].
    pose proof (Z.div2_odd m) as Em.
    assert (0 <= Z.div2 m) by (apply Z.div2_nonneg; lia).
    assert (Z.div2 m < Z.pos p).
    { destruct (Z.odd m); cbn [Z.b2z] in Em; lia. }
    specialize (IH (Z.div2 s) (Z.div2 m) Hc ltac:(lia) Hm' ltac:(lia)). lia.
  - assert (m = 0) as -> by lia. change (1 - 1) with 0.
    rewrite Z.land_0_l. lia.
Qed.

Lemma cost_join_id id id' l r jt c :
  cost_of (join_of id l r jt c) = cost_of (join_of id' l r jt c).
Proof. reflexivity. Qed.

(** [bestCost] is the cost of [bestPlan], +infinity when there is
    none. *)
Abbreviation best_ok :=
  (fun best : option LogicalPlan * float =>
     match fst best with
     | Some p => exists c, cost_of p = Ret c
                           /\ snd best = cost_model.TotalCost c
     | None => snd best = infinity
     end).

(** No Join of the two parts [l] and [subset ^ l] costs less than
    [bc]. *)
Abbreviation tried :=
  (fun (subset : Z) (dp : gmap Z LogicalPlan) (joinGraph : JoinGraph)
       (tables : list string) (l : Z) (bc : float) =>
     forall lp rp e id c,
       l <> subset -> Z.lxor subset l <> 0 ->
       dp !! l = Some lp -> dp !! Z.lxor subset l = Some rp ->
       findJoinEdge l (Z.lxor subset l) joinGraph tables = Some e ->
       cost_of (join_of id lp rp (je_JoinType e) (je_Condition e)) = Ret c ->
       (cost_model.TotalCost c <? bc)%float = false).

Lemma splitLoop_optimal subset dp joinGraph tables (fuel : nat) :
  subset <= max_int64 ->
  forall leftMask best st r st',
    leftMask <= Z.of_nat fuel -> leftMask <= subset ->
    (0 < leftMask -> Z.land leftMask subset = leftMask) ->
    best_ok best ->
    splitLoop pe fuel subset dp joinGraph tables leftMask best st
    = Done r st' ->
    exists bc,
      best_ok (r, bc)
      /\ (forall x, (x <? snd best)%float = false -> (x <? bc)%float = false)
      /\ forall l, 0 < l <= leftMask -> Z.land l subset = l ->
                   tried subset dp joinGraph tables l bc.
Proof.
  intros Hmax. induction fuel as [|fuel IH];
    intros leftMask best st r st' Hfuel Hle Hsub Hbest Hrun.
  - cbn [splitLoop] in Hrun. destruct (Z.leb_spec leftMask 0); [|lia].
    injection Hrun as <- <-. exists (snd best).
    split; [exact Hbest|]. split; [auto|]. intros l Hl. lia.
  - cbn [splitLoop] in Hrun.
    destruct (Z.leb_spec leftMask 0) as [|Hpos].
    { injection Hrun as <- <-. exists (snd best).
      split; [exact Hbest|]. split; [auto|]. intros l Hl. lia. }
    rewrite wrap64_small in Hrun by lia.
    specialize (Hsub Hpos).
    assert (Hstep : forall best' st1,
               best_ok best' ->
               (forall x, (x <? snd best)%float = false ->
                          (x <? snd best')%float = false) ->
               tried subset dp joinGraph tables leftMask (snd best') ->
               splitLoop pe fuel subset dp joinGraph tables
                 (Z.land (leftMask - 1) subset) best' st1 = Done r st' ->
               exists bc,
                 best_ok (r, bc)
                 /\ (forall x, (x <? snd best)%float = false ->
                               (x <? bc)%float = false)
                 /\ forall l, 0 < l <= leftMask -> Z.land l subset = l ->
                              tried subset dp joinGraph tables l bc).
    { intros best' st1 Hbest' Hmono Htried Hrun'.
      pose proof (land_le (leftMask - 1) subset ltac:(lia)).
      destruct (IH (Z.land (leftMask - 1) subset) best' st1 r st'
                  ltac:(lia) ltac:(lia)
                  ltac:(intros _; now rewrite <- Z.land_assoc, Z.land_diag)
                  Hbest' Hrun') as (bc & Hr & Hmono' & Hall).
      exists bc. split; [exact Hr|]. split; [auto|].
      intros l Hl Hlsub.
      destruct (Z.eq_dec l leftMask) as [->|Hne].
      - intros lp rp e id c H1 H2 H3 H4 H5 H6.
        apply Hmono'. eapply Htried; eauto.
      - apply Hall; [|exact Hlsub]. split; [lia|].
        destruct leftMask as [|p|p]; try lia.
        apply submask_below_pred; [exact Hsub | lia | exact Hlsub | lia]. }
    destruct ((Z.lxor subset leftMask =? 0) || (leftMask =? subset)) eqn:Htest.
    { apply (Hstep best st); auto.
      intros lp rp e id c H1 H2.
      apply orb_prop in Htest as [?%Z.eqb_eq| ?%Z.eqb_eq]; contradiction. }
    destruct (dp !! leftMask) as [leftPlan|] eqn:Hlp;
      [|apply (Hstep best st); auto; intros lp rp e id c _ _ H3; rewrite Hlp in H3; discriminate H3].
    destruct (dp !! Z.lxor subset leftMask) as [rightPlan|] eqn:Hrp;
      [|apply (Hstep best st); auto; intros lp rp e id c _ _ _ H4; rewrite Hrp in H4; discriminate H4].
    destruct (findJoinEdge leftMask _ joinGraph tables) as [joinEdge|] eqn:He;
      [|apply (Hstep best st); auto; intros lp rp e id c _ _ _ _ H5; rewrite He in H5; discriminate H5].
    unfold bind in Hrun.
    pose proof (candidates_spec leftPlan rightPlan joinEdge best st) as Hc.
    cbv zeta in Hc.
    destruct (candidates pe leftPlan rightPlan joinEdge best st)
      as [best' st1| |]; [|discriminate Hrun|destruct Hc].
    destruct Hc as (c & Hcost & Hbest').
    assert (Hnot : (cost_model.TotalCost c <? snd best')%float = false).
    { rewrite Hbest'.
      destruct (cost_model.TotalCost c <? snd best)%float eqn:Hlt;
        [apply float_ltb_irrefl | exact Hlt]. }
    apply (Hstep best' st1); [| | |exact Hrun].
    + rewrite Hbest'.
      destruct (cost_model.TotalCost c <? snd best)%float; [|exact Hbest].
      cbn [fst snd]. eauto.
    + intros x Hx. rewrite Hbest'.
      destruct (cost_model.TotalCost c <? snd best)%float eqn:Hlt;
        [|exact Hx].
      cbn [snd]. eapply float_not_ltb_below; eauto.
    + intros lp rp e id c0 _ _ H3 H4 H5 Hc0.
      rewrite Hlp in H3. rewrite Hrp in H4. rewrite He in H5.
      injection H3 as <-. injection H4 as <-. injection H5 as <-.
      cbv beta in Hcost, Hc0.
      rewrite (cost_join_id id ("node_" ++ itoa (add64 st 1))) in Hc0.
      cbv beta in Hc0. rewrite Hcost in Hc0. now injection Hc0 as <-.
Qed.

(** X30.  [findBestJoinForSubset], with the cost model of the package,
    tries every way of splitting the subset in two non-empty parts and
    keeps the cheapest Join: the plan it returns costs no more than the
    Join of the [dp] plans of any two parts that an edge of the graph
    connects, and it returns nil only when no such Join costs less than
    +infinity. *)
Theorem findBestJoinForSubset_is_optimal
    (subset : Z) (dp : gmap Z LogicalPlan) (joinGraph : JoinGraph)
    (tables : list string) (idCounter idCounter' : Z)
    (bestPlan : option LogicalPlan) :
  0 <= subset <= max_int64 ->
  findBestJoinForSubset pe subset dp joinGraph tables idCounter
  = Done bestPlan idCounter' ->
  forall leftMask rightMask leftPlan rightPlan joinEdge id c,
    is_split subset leftMask rightMask ->
    dp !! leftMask = Some leftPlan -> dp !! rightMask = Some rightPlan ->
    findJoinEdge leftMask rightMask joinGraph tables = Some joinEdge ->
    cost_model.EstimateCost Log2 cm mgr
      (mkLogicalPlan id NodeTypeJoin [leftPlan; rightPlan] "" "" None []
         (je_JoinType joinEdge) (je_Condition joinEdge) [] [] []
         None None None None ∅)
    = Ret c ->
    match bestPlan with
    | Some best =>
        exists bestCost,
          cost_model.EstimateCost Log2 cm mgr best = Ret bestCost
          /\ (cost_model.TotalCost c <? cost_model.TotalCost bestCost)%float
             = false
    | None => (cost_model.TotalCost c <? infinity)%float = false
    end.
Proof.
  intros [H0 Hmax] Hrun l r lp rp e id c (Hpos & Hsub & -> & Hr & Hl)
    Hlp Hrp He Hc.
  unfold findBestJoinForSubset in Hrun.
  destruct (splitLoop_optimal subset dp joinGraph tables (Z.to_nat subset)
              Hmax subset (None, infinity) idCounter bestPlan idCounter'
              ltac:(lia) ltac:(lia) ltac:(intros _; apply Z.land_diag)
              eq_refl Hrun) as (bc & Hbest & _ & Hall).
  assert (Hle : l <= subset).
  { rewrite <- Hsub, Z.land_comm. now apply land_le. }
  specialize (Hall l ltac:(lia) Hsub lp rp e id c Hl Hr Hlp Hrp He Hc).
  cbn [fst snd] in Hbest. destruct bestPlan as [best|].
  - destruct Hbest as (cb & Hcb & ->). eauto.
  - now rewrite Hbest in Hall.
Qed.

End BestJoin.

Section BestJoinRun.

Import join_enumeration plan_enumerator.

Lemma findBestJoinForSubset_result_witness :
  let pe := NewPlanEnumerator (fun x => x) Samples.cat in
  let big := Samples.scan "s1" "big" None in
  let small := Samples.scan "s2" "small" None in
  let dp : gmap Z LogicalPlan := {[ 1 := big; 2 := small ]} in
  let joinGraph :=
    mkJoinGraph [] [mkJoinEdge "big" "small" 0.1 JoinTypeInner None] ∅ in
  let tables := ["big"; "small"] in
  3 <= max_int64
  /\ exists p idCounter',
       findBestJoinForSubset pe 3 dp joinGraph tables 0
       = Done (Some p) idCounter'
       /\ lp_Children p = [small; big]
       /\ joins_split dp joinGraph tables 3 p.
Proof.
  cbv zeta.
  assert (H : 3 <= max_int64) by (unfold max_int64; lia).
  split; [exact H|].
  match goal with
  | |- exists p idCounter', ?call = _ /\ _ =>
      assert (E : exists p idCounter',
                 call = Done (Some p) idCounter'
                 /\ lp_Children p = [Samples.scan "s2" "small" None;
                                     Samples.scan "s1" "big" None])
        by (vm_compute; eexists _, _; split; reflexivity)
  end.
  destruct E as (p & st' & E & Hch).
  exists p, st'. split; [exact E|]. split; [exact Hch|].
  pose proof (findBestJoinForSubset_result (fun x => x)
                cost_model.NewSimpleCostModel Samples.cat 1000 3
                {[ 1 := Samples.scan "s1" "big" None;
                   2 := Samples.scan "s2" "small" None ]}
                (mkJoinGraph []
                   [mkJoinEdge "big" "small" 0.1 JoinTypeInner None] ∅)
                ["big"; "small"] 0 H) as T.
  change (mkPlanEnumerator _ _ _)
    with (NewPlanEnumerator (fun x => x) Samples.cat) in T.
  rewrite E in T. exact (T p eq_refl).
Defined.

Lemma findBestJoinForSubset_is_optimal_witness :
  let pe := NewPlanEnumerator (fun x => x) Samples.cat in
  let cost := cost_model.EstimateCost (fun x => x)
                cost_model.NewSimpleCostModel Samples.cat in
  let big := Samples.scan "s1" "big" None in
  let small := Samples.scan "s2" "small" None in
  let dp : gmap Z LogicalPlan := {[ 1 := big; 2 := small ]} in
  let joinGraph :=
    mkJoinGraph [] [mkJoinEdge "big" "small" 0.1 JoinTypeInner None] ∅ in
  let tables := ["big"; "small"] in
  0 <= 3 <= max_int64
  /\ is_split 3 1 2
  /\ exists best idCounter' c bestCost,
       findBestJoinForSubset pe 3 dp joinGraph tables 0
       = Done (Some best) idCounter'
       /\ cost (Samples.join "x" JoinTypeInner big small) = Ret c
       /\ cost best = Ret bestCost
       /\ (cost_model.TotalCost c <? cost_model.TotalCost bestCost)%float
          = false.
Proof.
  cbv zeta.
  assert (H : 0 <= 3 <= max_int64) by (unfold max_int64; lia).
  assert (Hsplit : is_split 3 1 2).
  { unfold is_split. repeat split; try reflexivity; lia. }
  split; [exact H|]. split; [exact Hsplit|].
  match goal with
  | |- exists best idCounter' c bestCost, ?call = _ /\ ?est = _ /\ _ =>
      assert (E : exists best idCounter', call = Done (Some best) idCounter')
        by (vm_compute; eexists _, _; reflexivity);
      assert (Ec : exists c, est = Ret c) by (vm_compute; eexists; reflexivity)
  end.
  destruct E as (best & st' & E). destruct Ec as (c & Ec).
  destruct (findBestJoinForSubset_is_optimal (fun x => x)
              cost_model.NewSimpleCostModel Samples.cat 1000 3
              {[ 1 := Samples.scan "s1" "big" None;
                 2 := Samples.scan "s2" "small" None ]}
              (mkJoinGraph []
                 [mkJoinEdge "big" "small" 0.1 JoinTypeInner None] ∅)
              ["big"; "small"] 0 st' (Some best) H E
              1 2 (Samples.scan "s1" "big" None)
              (Samples.scan "s2" "small" None)
              (mkJoinEdge "big" "small" 0.1 JoinTypeInner None) "x" c
              Hsplit eq_refl eq_refl eq_refl Ec)
    as (bestCost & Hb & Hnot).
  exists best, st', c, bestCost. repeat split; assumption.
Defined.

End BestJoinRun.

Section JoinOrders.

Import enumerator join_enumeration plan_enumerator.

Variable Log2 : float -> float.
Variable cm : cost_model.SimpleCostModel.
Variable mgr : catalog.CatalogManager.
Variable limit : Z.
Variable range_dp : gmap Z LogicalPlan -> list (Z * LogicalPlan).

Abbreviation pe :=
  (mkPlanEnumerator (optimizer.SimpleCostModel_CostModel Log2 cm) mgr limit).

(** A loop that keeps [P] and whose rounds return, returns and keeps
    [P]. *)
Lemma foldM_inv {A B} (f : B -> A -> M B) (P : B -> Prop) (l : list A) :
  (forall b a st, In a l -> P b ->
     exists b' st', f b a st = Done b' st' /\ P b') ->
  forall b st, P b -> exists b' st', foldM f l b st = Done b' st' /\ P b'.
Proof.
  induction l as [|a l IH]; intros Hf b st Hb; cbn [foldM].
  - now exists b, st.
  - unfold bind. destruct (Hf b a st (or_introl eq_refl) Hb) as (b' & st' & -> & Hb').
    apply IH; [|exact Hb']. intros b0 a0 st0 Hin. apply Hf. now right.
Qed.

Lemma scans_and_joins_limit p :
  scans_and_joins p = true -> limit_has_child p = true.
Proof.
  induction p as [p IH] using LogicalPlan_tree_ind.
  destruct p as [id nt cs tn al pr pj jt jc gb ag ob lc oc er ec md].
  cbn [scans_and_joins limit_has_child lp_Children lp_NodeType lp_LimitCount]
    in *.
  destruct cs as [|l [|r [|? ?]]]; try discriminate.
  - intros ->%String.eqb_eq. reflexivity.
  - intros [[->%String.eqb_eq Hl]%andb_prop Hr]%andb_prop.
    apply Forall_cons in IH as [IHl IH]. apply Forall_cons in IH as [IHr _].
    cbn. now rewrite (IHl Hl), (IHr Hr).
Qed.

Lemma maskToTables_from_length tables :
  forall i mask,
    0 <= i -> i + Z.of_nat (length tables) <= 63 ->
    length (maskToTables_from i mask tables)
    = length (List.filter (Z.testbit mask)
                (upto i (i + Z.of_nat (length tables)))).
Proof.
  induction tables as [|t tables IH]; intros i mask Hi Hlen;
    cbn [maskToTables_from length] in *.
  - now rewrite Z.add_0_r, upto_nil by lia.
  - rewrite upto_cons by lia. cbn [List.filter].
    rewrite land_bit, negb_involutive, length_app, IH by lia.
    replace (i + 1 + Z.of_nat (length tables))
      with (i + Z.of_nat (S (length tables))) by lia.
    now destruct (Z.testbit mask i).
Qed.

Lemma maskToTables_length mask tables :
  (length tables <= 63)%nat -> 0 <= mask < 2 ^ Z.of_nat (length tables) ->
  Z.of_nat (length (maskToTables mask tables)) = ones mask.
Proof.
  intros Hlen Hmask. unfold maskToTables.
  rewrite maskToTables_from_length by lia.
  symmetry. now apply ones_testbit.
Qed.

Lemma In_zip_upto (tables : list string) :
  forall s i t,
    In (i, t) (zip (upto s (s + Z.of_nat (length tables))) tables) ->
    exists k, i = s + Z.of_nat k /\ tables !! k = Some t.
Proof.
  induction tables as [|t0 tables IH]; intros s i t; cbn [length].
  - rewrite Z.add_0_r, upto_nil by lia. intros [].
  - rewrite upto_cons by lia. cbn [zip zip_with].
    intros [[= <- <-]|Hin].
    + exists O. split; [lia|reflexivity].
    + replace (s + Z.of_nat (S (length tables)))
        with (s + 1 + Z.of_nat (length tables)) in Hin by lia.
      apply IH in Hin as (k & -> & Hk). exists (S k). split; [lia|exact Hk].
Qed.

(** What [dp] holds for a mask: a tree of Scans and Joins over the
    tables of the mask. *)
Abbreviation dp_ok :=
  (fun (tables : list string) (dp : gmap Z LogicalPlan) =>
     forall mask p, dp !! mask = Some p ->
       0 <= mask < 2 ^ Z.of_nat (length tables)
       /\ scans_and_joins p = true
       /\ scan_tables p ≡ₚ maskToTables mask tables).

(** A plan of the result: a tree of Scans and Joins over the tables,
    one of them at most left out. *)
Abbreviation join_tree :=
  (fun (tables : list string) (p : LogicalPlan) =>
     scans_and_joins p = true
     /\ exists chosen,
          sublist chosen tables /\ scan_tables p ≡ₚ chosen
          /\ (length tables - 1 <= length chosen)%nat).

Lemma dp_ok_insert tables dp mask p :
  dp_ok tables dp ->
  0 <= mask < 2 ^ Z.of_nat (length tables) ->
  scans_and_joins p = true ->
  scan_tables p ≡ₚ maskToTables mask tables ->
  dp_ok tables (<[mask := p]> dp).
Proof.
  intros Hdp ? ? ? mask' p' [[<- <-]|[_ H]]%lookup_insert_Some; auto.
Qed.

Lemma dp_ok_safe tables dp :
  dp_ok tables dp -> map_Forall (fun (_ : Z) p => limit_has_child p = true) dp.
Proof.
  intros H mask p Hp. apply scans_and_joins_limit. apply (H mask p Hp).
Qed.

Lemma dp_entry_join_tree tables dp mask p :
  (length tables <= 62)%nat ->
  dp_ok tables dp -> dp !! mask = Some p ->
  Z.of_nat (length tables) - 1 <= ones mask ->
  join_tree tables p.
Proof.
  intros Hlen Hdp Hp Hones. destruct (Hdp mask p Hp) as (Hmask & Hsj & Hperm).
  split; [exact Hsj|]. exists (maskToTables mask tables).
  split; [apply maskToTables_from_sublist|]. split; [exact Hperm|].
  pose proof (maskToTables_length mask tables ltac:(lia) Hmask). lia.
Qed.

Lemma initial_dp_ok tables st :
  (length tables <= 62)%nat ->
  exists dp st',
    foldM (fun dp '(i, table) =>
             scan <- NewScanNode table "" ;;
             ret (<[bit i := scan]> dp))
          (zip (upto 0 (Z.of_nat (length tables))) tables)
          (∅ : gmap Z LogicalPlan) st
    = Done dp st'
    /\ dp_ok tables dp.
Proof.
  intros Hlen. apply foldM_inv.
  - intros dp [i t] st0 Hin Hdp.
    change (upto 0 (Z.of_nat (length tables)))
      with (upto 0 (0 + Z.of_nat (length tables))) in Hin.
    apply In_zip_upto in Hin as (k & -> & Hk). rewrite Z.add_0_l.
    pose proof (lookup_lt_Some _ _ _ Hk) as Hlt.
    unfold NewScanNode, generateID, bind, ret. eexists _, _.
    split; [reflexivity|].
    rewrite bit_pow2 by lia. apply dp_ok_insert; [exact Hdp | | reflexivity |].
    + split; [apply Z.lt_le_incl, Z.pow_pos_nonneg; lia|].
      apply Z.pow_lt_mono_r; lia.
    + unfold maskToTables.
      pose proof (maskToTables_from_pow2 tables 0 k t ltac:(lia) ltac:(lia) Hk)
        as E.
      rewrite Z.add_0_l in E. now rewrite E.
  - intros mask p. rewrite lookup_empty. discriminate.
Qed.

Lemma subset_round_ok joinGraph tables dp subset st :
  (length tables <= 62)%nat ->
  dp_ok tables dp -> 0 <= subset < 2 ^ Z.of_nat (length tables) ->
  exists dp' st',
    (bestPlan <- findBestJoinForSubset pe subset dp joinGraph tables ;;
     ret (match bestPlan with
          | Some bestPlan => <[subset := bestPlan]> dp
          | None => dp
          end)) st
    = Done dp' st'
    /\ dp_ok tables dp'.
Proof.
  intros Hlen Hdp Hsubset. unfold bind, findBestJoinForSubset.
  assert (Hmax : subset <= max_int64).
  { unfold max_int64.
    assert (2 ^ Z.of_nat (length tables) <= 2 ^ 62)
      by (apply Z.pow_le_mono_r; lia).
    assert (2 ^ 62 < 2 ^ 63) by (apply Z.pow_lt_mono_r; lia). lia. }
  pose proof (splitLoop_spec Log2 cm mgr limit subset dp joinGraph tables
                (Z.to_nat subset) Hmax subset (None, infinity) st
                ltac:(lia) ltac:(lia) ltac:(intros _; apply Z.land_diag)
                ltac:(discriminate)) as H.
  destruct (splitLoop _ _ _ _ _ _ _ _ _) as [[p|] st'| |];
    [| |exfalso; apply H; now apply (dp_ok_safe tables)|destruct H].
  - eexists _, _. split; [reflexivity|].
    destruct (H p eq_refl)
      as (l & r & lp & rp & e & id & Hsplit & Hl & Hr & _ & ->).
    destruct Hsplit as (_ & Hsub & -> & _ & _).
    destruct (Hdp _ _ Hl) as (_ & Sl & Pl).
    destruct (Hdp _ _ Hr) as (_ & Sr & Pr).
    apply dp_ok_insert; [exact Hdp | exact Hsubset | |].
    + cbn [scans_and_joins lp_Children lp_NodeType].
      now rewrite Sl, Sr.
    + rewrite scan_tables_unfold. cbn [lp_NodeType lp_Children flat_map app].
      change (String.eqb NodeTypeJoin NodeTypeScan) with false. cbn [app].
      rewrite app_nil_r, Pl, Pr. unfold maskToTables.
      apply maskToTables_from_split; [lia | lia | exact Hsub].
  - eexists _, _. split; [reflexivity | exact Hdp].
Qed.

Lemma sizes_loop_ok joinGraph tables dp st :
  (length tables <= 62)%nat ->
  dp_ok tables dp ->
  exists dp' st',
    foldM (fun dp size =>
             foldM (fun dp subset =>
                      bestPlan <- findBestJoinForSubset pe subset dp
                                    joinGraph tables ;;
                      ret (match bestPlan with
                           | Some bestPlan => <[subset := bestPlan]> dp
                           | None => dp
                           end))
                   (generateSubsets (Z.of_nat (length tables)) size) dp)
          (upto 2 (Z.of_nat (length tables) + 1)) dp st
    = Done dp' st'
    /\ dp_ok tables dp'.
Proof.
  intros Hlen Hdp. apply foldM_inv; [|exact Hdp].
  intros dp0 size st0 Hsize%In_upto Hdp0. apply foldM_inv; [|exact Hdp0].
  intros dp1 subset st1 Hsubset Hdp1.
  apply subset_round_ok; [exact Hlen | exact Hdp1 |].
  apply (generateSubsets_ones (Z.of_nat (length tables)) size) in Hsubset;
    [|lia|lia].
  apply Hsubset.
Qed.

Lemma range_loop_ok tables dp finalPlan st :
  (length tables <= 62)%nat ->
  (forall m, range_dp m ≡ₚ map_to_list m) ->
  dp_ok tables dp -> join_tree tables finalPlan ->
  exists plans st',
    foldM (fun plans '(mask, plan) =>
             match popcount mask with
             | Some count =>
                 ret (if Z.of_nat (length tables) - 1 <=? count
                      then (plans ++ [plan])%list else plans)
             | None => fun _ => OutOfFuel
             end)
          (range_dp dp) [finalPlan] st
    = Done plans st'
    /\ (Forall (join_tree tables) plans /\ head plans = Some finalPlan).
Proof.
  intros Hlen Hrange Hdp Hfinal.
  apply (foldM_inv _ (fun plans => Forall (join_tree tables) plans
                                   /\ head plans = Some finalPlan)).
  - intros plans [mask plan] st0 Hin [Hall Hhead].
    apply list_elem_of_In in Hin. rewrite Hrange in Hin.
    apply elem_of_map_to_list in Hin.
    destruct (Hdp mask plan Hin) as (Hmask & _).
    assert (Hmax : mask <= max_int64).
    { unfold max_int64.
      assert (2 ^ Z.of_nat (length tables) <= 2 ^ 62)
        by (apply Z.pow_le_mono_r; lia).
      assert (2 ^ 62 < 2 ^ 63) by (apply Z.pow_lt_mono_r; lia). lia. }
    rewrite popcount_ones by lia. unfold ret. eexists _, _.
    split; [reflexivity|].
    destruct (Z.leb_spec (Z.of_nat (length tables) - 1) (ones mask)) as [Hge|_];
      [|now split].
    split.
    + apply Forall_app. split; [exact Hall|]. constructor; [|constructor].
      now apply (dp_entry_join_tree tables dp mask plan).
    + destruct plans; [discriminate|exact Hhead].
  - split; [|reflexivity]. constructor; [exact Hfinal|constructor].
Qed.

Lemma generateDPJoinOrders_spec
    (joinGraph : JoinGraph) (originalPlan : LogicalPlan) (idCounter : Z) :
  let tables := List.map ti_Name (jg_Tables joinGraph) in
  (2 <= length tables <= 62)%nat ->
  (forall dp, range_dp dp ≡ₚ map_to_list dp) ->
  exists plans idCounter',
    generateDPJoinOrders pe range_dp joinGraph originalPlan idCounter
    = Done plans idCounter'
    /\ Forall (fun p =>
                 scans_and_joins p = true
                 /\ exists chosen,
                      sublist chosen tables /\ scan_tables p ≡ₚ chosen
                      /\ (length tables - 1 <= length chosen)%nat)
              plans
    /\ match plans with
       | first :: _ => scan_tables first ≡ₚ tables
       | [] => True
       end
    /\ NoDup (List.map getPlanSignature plans).
Proof.
  cbv zeta. set (tables := List.map ti_Name (jg_Tables joinGraph)).
  intros Hlen Hrange. unfold generateDPJoinOrders. fold tables.
  destruct (Z.leb_spec (Z.of_nat (length tables)) 1) as [?|_]; [lia|].
  unfold bind at 1.
  destruct (initial_dp_ok tables idCounter ltac:(lia))
    as (dp0 & st0 & -> & Hdp0).
  unfold bind at 1.
  destruct (sizes_loop_ok joinGraph tables dp0 st0 ltac:(lia) Hdp0)
    as (dp & st1 & -> & Hdp).
  rewrite bit_pow2 by lia.
  rewrite wrap64_small
    by (pose proof (pow2_le_max_int64 (Z.of_nat (length tables)) ltac:(lia));
        lia).
  destruct (dp !! (2 ^ Z.of_nat (length tables) - 1)) as [finalPlan|] eqn:Hfinal.
  2:{ unfold ret. eexists _, _. split; [reflexivity|].
      change (removeDuplicatePlans []) with (@nil LogicalPlan).
      repeat split; constructor. }
  destruct (Hdp _ _ Hfinal) as (_ & Hsj & Hperm).
  unfold maskToTables in Hperm.
  rewrite (maskToTables_from_full tables 0) in Hperm by lia.
  assert (Htree : join_tree tables finalPlan).
  { split; [exact Hsj|]. exists tables. split; [reflexivity|].
    split; [exact Hperm|lia]. }
  unfold bind.
  destruct (range_loop_ok tables dp finalPlan st1 ltac:(lia) Hrange Hdp Htree)
    as (plans & st2 & -> & Hall & Hhead).
  unfold ret. eexists _, _. split; [reflexivity|].
  destruct (removeDuplicatesBy_spec (fun plan => plan) plans)
    as (Hnd & Hsub & _ & Hhd & _).
  fold (removeDuplicatePlans plans) in *.
  split; [|split; [|exact Hnd]].
  - rewrite List.Forall_forall in Hall |- *. intros p Hp. apply Hall.
    apply list_elem_of_In.
    eapply elem_of_submseteq; [apply list_elem_of_In; exact Hp|].
    now apply sublist_submseteq.
  - rewrite Hhead in Hhd.
    destruct (removeDuplicatePlans plans) as [|first rest]; [exact I|].
    injection Hhd as ->. exact Hperm.
Qed.

(** X28.  The join orders of the dynamic programming, for two to 62
    tables and whatever order [range dp] takes.  [generateDPJoinOrders]
    returns, and every plan it returns is a tree of new Scan nodes and
    Join nodes and nothing else -- no Filter, Project, Aggregate, Sort
    or Limit node of the original plan is in it -- whose Scans read, in
    some order, the table list of the join graph with one entry at most
    left out; the Scans of the first plan read the whole table list;
    the plans have pairwise distinct signatures. *)
Theorem generateDPJoinOrders_builds_join_trees
    (joinGraph : JoinGraph) (originalPlan : LogicalPlan) (idCounter : Z) :
  let tables := List.map ti_Name (jg_Tables joinGraph) in
  (2 <= length tables <= 62)%nat ->
  (forall dp, range_dp dp ≡ₚ map_to_list dp) ->
  exists plans idCounter',
    generateDPJoinOrders pe range_dp joinGraph originalPlan idCounter
    = Done plans idCounter'
    /\ Forall (fun p =>
                 scans_and_joins p = true
                 /\ exists chosen,
                      sublist chosen tables /\ scan_tables p ≡ₚ chosen
                      /\ (length tables - 1 <= length chosen)%nat)
              plans
    /\ match plans with
       | first :: _ => scan_tables first ≡ₚ tables
       | [] => True
       end
    /\ NoDup (List.map getPlanSignature plans).
Proof. exact (generateDPJoinOrders_spec joinGraph originalPlan idCounter). Qed.

Lemma bind_run {A B} (m : M A) (k : A -> M B) st a st1 :
  m st = Done a st1 -> bind m k st = k a st1.
Proof. intros E. unfold bind. now rewrite E. Qed.

Lemma In_take {A} (x : A) (n : nat) (l : list A) :
  In x (firstn n l) -> In x l.
Proof.
  revert n. induction l as [|a l IH]; intros [|n]; cbn [firstn In];
    try tauto.
  intros [->|H]; [now left | right; eauto].
Qed.

Lemma extractJoinConditions_fold_tables (cs : list LogicalPlan) :
  Forall (fun c => forall joinGraph,
            jg_Tables (extractJoinConditions c joinGraph)
            = jg_Tables joinGraph) cs ->
  forall joinGraph,
    jg_Tables (fold_left (fun joinGraph child =>
                            extractJoinConditions child joinGraph)
                         cs joinGraph)
    = jg_Tables joinGraph.
Proof.
  induction 1 as [|c cs Hc _ IH]; intros joinGraph; cbn [fold_left].
  - reflexivity.
  - now rewrite IH, Hc.
Qed.

Lemma extractJoinConditions_tables plan :
  forall joinGraph,
    jg_Tables (extractJoinConditions plan joinGraph) = jg_Tables joinGraph.
Proof.
  induction plan as [plan IH] using LogicalPlan_tree_ind. intros joinGraph.
  destruct plan as [id nt cs tn al pr pj jt jc gb ag ob lc oc er ec md].
  cbn [extractJoinConditions lp_NodeType lp_JoinCondition lp_Children
       lp_JoinType] in *.
  rewrite (extractJoinConditions_fold_tables cs IH).
  destruct (String.eqb nt NodeTypeJoin); [|reflexivity].
  destruct jc as [condition|]; [|reflexivity].
  destruct (_ && _); reflexivity.
Qed.

Lemma buildJoinGraph_tables plan tables :
  List.map ti_Name (jg_Tables (buildJoinGraph pe plan tables)) = tables.
Proof.
  unfold buildJoinGraph. rewrite extractJoinConditions_tables.
  cbn [jg_Tables]. rewrite List.map_map. cbn [ti_Name]. apply List.map_id.
Qed.

(** The physical alternatives of a plan being the plan, the loop over
    the join orders collects the join orders. *)
Lemma alternatives_loop (plans : list LogicalPlan) :
  forall allPlans st,
    exists st',
      foldM (fun allPlans logicalPlan =>
               physicalAlternatives <-
                 generatePhysicalAlternatives pe logicalPlan ;;
               ret (allPlans ++ physicalAlternatives)%list)
            plans allPlans st
      = Done (allPlans ++ plans)%list st'.
Proof.
  induction plans as [|p plans IH]; intros allPlans st; cbn [foldM].
  - exists st. now rewrite app_nil_r.
  - assert (E : exists st1,
               (physicalAlternatives <- generatePhysicalAlternatives pe p ;;
                ret (allPlans ++ physicalAlternatives)%list) st
               = Done (allPlans ++ [p])%list st1).
    { unfold generatePhysicalAlternatives, bind.
      destruct (physicalAlternatives_spec pe p st) as (st1 & ->).
      now exists st1. }
    destruct E as (st1 & E). unfold bind at 1. rewrite E.
    destruct (IH (allPlans ++ [p])%list st1) as (st2 & ->).
    exists st2. now rewrite <- app_assoc.
Qed.

Variable enumerateWithGreedy
  : LogicalPlan -> list string -> M (EnumerationResult + error).

(** X29.  [EnumeratePlans] on a plan that scans two to four tables takes
    the dynamic programming, whatever order [range dp] takes, and
    returns: the physical alternatives add nothing to the join orders,
    and the cost model does not panic on them.  The plans it reports
    have pairwise distinct signatures and are trees of new Scan and Join
    nodes over the tables of the plan, one table at most left out, and
    the best plan is one of them: what the plan had of Filter, Project,
    Aggregate, Sort and Limit nodes is not in the result.  The call
    fails with [no plans to evaluate] when no join order covers all
    tables, and with [no valid plan found] when no evaluated plan costs
    less than +infinity. *)
Theorem EnumeratePlans_dynamic_programming
    (plan : LogicalPlan) (idCounter : Z) :
  let tables := extractTables plan in
  (2 <= length tables <= 4)%nat ->
  (forall dp, range_dp dp ≡ₚ map_to_list dp) ->
  exists r idCounter',
    EnumeratePlans pe (enumerateWithDP pe range_dp) enumerateWithGreedy
      (Some plan) idCounter
    = Done r idCounter'
    /\ match r with
       | inl result =>
           EnumStrategy result = "dynamic_programming"
           /\ In (BestPlan result) (AllPlans result)
           /\ NoDup (List.map getPlanSignature (AllPlans result))
           /\ Forall (fun p =>
                        scans_and_joins p = true
                        /\ exists chosen,
                             sublist chosen tables /\ scan_tables p ≡ₚ chosen
                             /\ (length tables - 1 <= length chosen)%nat)
                     (AllPlans result)
       | inr err =>
           err = "no plans to evaluate" \/ err = "no valid plan found"
       end.
Proof.
  cbv zeta. intros Hlen Hrange. unfold EnumeratePlans.
  destruct (Nat.leb_spec (length (extractTables plan)) 1) as [?|_]; [lia|].
  destruct (Nat.leb_spec (length (extractTables plan)) 4) as [_|?]; [|lia].
  unfold enumerateWithDP. cbv zeta.
  pose proof (generateDPJoinOrders_spec
                (buildJoinGraph pe plan (extractTables plan)) plan idCounter)
    as Hdp.
  cbv zeta in Hdp. rewrite buildJoinGraph_tables in Hdp.
  destruct (Hdp ltac:(lia) Hrange) as (plans & st1 & E1 & Hall & _ & Hnd).
  rewrite (bind_run _ _ _ _ _ E1).
  destruct (alternatives_loop plans [] st1) as (st2 & E2).
  rewrite (bind_run _ _ _ _ _ E2). cbn [app]. unfold lift.
  pose proof (selectBestPlan_spec pe plans "dynamic_programming") as Hsel.
  cbv zeta in Hsel.
  destruct (selectBestPlan pe plans "dynamic_programming") as [[result|err]|].
  - eexists _, _. split; [reflexivity|].
    destruct Hsel as (Hin & _ & _ & _ & -> & _ & -> & _).
    split; [reflexivity|]. split; [|split; [exact Hnd | exact Hall]].
    eapply In_take, Hin.
  - eexists _, _. split; [reflexivity|].
    destruct Hsel as [[_ ->]|(_ & -> & _)]; auto.
  - exfalso. destruct Hsel as (p & Hp & Hpanic). cbv beta in Hpanic.
    cbn [costModel catalogMgr optimizer.EstimateCost
         optimizer.SimpleCostModel_CostModel] in Hpanic.
    apply In_take in Hp. rewrite List.Forall_forall in Hall.
    destruct (Hall p Hp) as [Hsj _].
    destruct (EstimateCost_total Log2 mgr cm p (scans_and_joins_limit p Hsj))
      as [c Hc].
    congruence.
Qed.

End JoinOrders.

Section JoinOrdersRun.

Import enumerator join_enumeration plan_enumerator.

Lemma generateDPJoinOrders_builds_join_trees_witness :
  let pe := NewPlanEnumerator (fun x => x) Samples.cat in
  let edge l r := mkJoinEdge l r 0.1 JoinTypeInner None in
  let joinGraph :=
    mkJoinGraph [mkTableInfo "big" 1000000 ∅; mkTableInfo "small" 100 ∅;
                 mkTableInfo "customers" 5000 ∅]
                [edge "big" "small"; edge "small" "customers"] ∅ in
  let originalPlan := Samples.filter "f" "=" [Samples.scan "x" "big" None] in
  (2 <= length (List.map ti_Name (jg_Tables joinGraph)) <= 62)%nat
  /\ exists plans idCounter',
       generateDPJoinOrders pe (fun dp => map_to_list dp) joinGraph
         originalPlan 0
       = Done plans idCounter'
       /\ Forall (fun p => scans_and_joins p = true) plans
       /\ List.map getPlanSignature plans
          = ["join(join(scan:customers)(scan:small))(scan:big)";
             "join(scan:small)(scan:big)";
             "join(scan:customers)(scan:small)"].
Proof.
  cbv zeta.
  match goal with
  | |- ?H /\ _ => assert (Hlen : H) by (cbn; lia)
  end.
  split; [exact Hlen|].
  destruct (generateDPJoinOrders_builds_join_trees (fun x => x)
              cost_model.NewSimpleCostModel Samples.cat 1000
              (fun dp => map_to_list dp)
              (mkJoinGraph
                 [mkTableInfo "big" 1000000 ∅; mkTableInfo "small" 100 ∅;
                  mkTableInfo "customers" 5000 ∅]
                 [mkJoinEdge "big" "small" 0.1 JoinTypeInner None;
                  mkJoinEdge "small" "customers" 0.1 JoinTypeInner None] ∅)
              (Samples.filter "f" "=" [Samples.scan "x" "big" None]) 0
              Hlen (fun dp => reflexivity (map_to_list dp)))
    as (plans & st' & E & Hall & _ & _).
  exists plans, st'. split; [exact E|]. split.
  - eapply Forall_impl; [exact Hall|]. intros p H. apply H.
  - pose proof (f_equal (fun r => match r with
                                  | Done plans _ =>
                                      List.map getPlanSignature plans
                                  | _ => []
                                  end) E) as V.
    vm_compute in V. symmetry. exact V.
Defined.

End JoinOrdersRun.

Section DynamicProgrammingRun.

Import enumerator join_enumeration plan_enumerator.

Lemma EnumeratePlans_dynamic_programming_witness :
  let pe := NewPlanEnumerator (fun x => x) Samples.cat in
  let col v := Some (mkExpression "column" (VString v) None None [] "") in
  let plan :=
    Samples.filter "f" "="
      [mkLogicalPlan "j" NodeTypeJoin
         [Samples.scan "a" "big" None; Samples.scan "b" "small" None] "" ""
         None [] JoinTypeInner
         (Some (mkJoinCondition (col "big.id") (col "small.id") "="))
         [] [] [] None None None None ∅] in
  let fails := fun (_ : LogicalPlan) (_ : list string) =>
                 ret (inr "not used" : EnumerationResult + error) in
  extractTables plan = ["big"; "small"]
  /\ exists result idCounter',
       EnumeratePlans pe (enumerateWithDP pe (fun dp => map_to_list dp)) fails
         (Some plan) 0
       = Done (inl result) idCounter'
       /\ List.map getPlanSignature (AllPlans result)
          = ["join(scan:small)(scan:big)"; "scan:small"; "scan:big"]
       /\ getPlanSignature (BestPlan result) = "scan:small"
       /\ Forall (fun p => scans_and_joins p = true) (AllPlans result).
Proof.
  cbv zeta. split; [vm_compute; reflexivity|].
  match goal with
  | |- exists result idCounter',
         EnumeratePlans _ _ ?greedy (Some ?plan) 0 = _ /\ _ =>
      assert (Hlen : (2 <= length (extractTables plan) <= 4)%nat)
        by (vm_compute; lia);
      destruct (EnumeratePlans_dynamic_programming (fun x => x)
                  cost_model.NewSimpleCostModel Samples.cat 1000
                  (fun dp => map_to_list dp) greedy plan 0 Hlen
                  (fun dp => reflexivity (map_to_list dp)))
        as (r & st' & E & Hr)
  end.
  change (mkPlanEnumerator _ _ _)
    with (NewPlanEnumerator (fun x => x) Samples.cat) in E.
  pose proof (f_equal (fun x => match x with
                                | Done (inl result) _ =>
                                    (List.map getPlanSignature (AllPlans result),
                                     getPlanSignature (BestPlan result))
                                | _ => ([], "")
                                end) E) as V.
  vm_compute in V.
  destruct r as [result|err]; [|discriminate V].
  exists result, st'. split; [exact E|].
  injection V as V1 V2. split; [symmetry; exact V1|].
  split; [symmetry; exact V2|].
  destruct Hr as (_ & _ & _ & Hall).
  eapply Forall_impl; [exact Hall|]. intros p H. apply H.
Defined.

End DynamicProgrammingRun.
